(** * Tic-Tac-Toe decision and learning engine (tictactoe_ai.py)

    A shallow embedding of the rules engine, the alpha-beta search, the
    defensive heuristic, the tabular Q-learning agent and the self-play
    loop of [src/tictactoe_ai.py], with the properties of the written
    specification stated and settled against it.

    Conventions of the embedding:
    - the one-character strings ['X'], ['O'] and [' '] that the program stores
      in board cells are the constructors of [cell]; a state key is the
      [string] obtained by joining them, as [get_state_key] does;
    - Python integers are [Z]; Python floats are the binary64 numbers of
      [PrimFloat]; [-math.inf] and [math.inf] mixed with integers are [ext];
    - code that mutates [self.board] or [self.q_table] takes the old value
      and returns the new one;
    - a raised exception is the [Raise] case of [result]. *)

From Stdlib Require Import ZArith Lia Ascii String DecimalString.
From Stdlib Require Import DecimalZ DecimalPos.
From Stdlib Require Import PrimFloat SpecFloat FloatOps FloatAxioms.
From stdpp Require Import gmap strings list sorting fin_maps.

Set Warnings "-inexact-float".
Local Open Scope Z_scope.

(** ** Exceptions *)

Inductive exn :=
  | IndexError
  | FileNotFoundError
  | JSONDecodeError
  | AttributeError
  | ValueError.

Inductive result (A : Type) :=
  | Ok (a : A)
  | Raise (e : exn).
Arguments Ok {A} a.
Arguments Raise {A} e.

#[global] Instance result_ret : MRet result := fun _ a => Ok a.
#[global] Instance result_bind : MBind result := fun _ _ k r =>
  match r with
  | Ok a => k a
  | Raise e => Raise e
  end.

(** ** Board and rules engine *)

Inductive player := X | O.

Inductive cell :=
  | Blank
  | Mark (p : player).

(** What [check_winner] hands back when it is not [None]: the content of the
    first cell of a completed line, or the string ['Tie']. *)
Inductive verdict :=
  | Won (c : cell)
  | Tie.

#[global] Instance player_eq_dec : EqDecision player.
Proof. solve_decision. Defined.

#[global] Instance cell_eq_dec : EqDecision cell.
Proof. solve_decision. Defined.

Abbreviation Board := (list cell).
Abbreviation Win p := (Won (Mark p)).

Definition player_eqb (p q : player) : bool :=
  match p, q with
  | X, X | O, O => true
  | _, _ => false
  end.

Definition cell_eqb (c d : cell) : bool :=
  match c, d with
  | Blank, Blank => true
  | Mark p, Mark q => player_eqb p q
  | _, _ => false
  end.

Definition verdict_eqb (v w : verdict) : bool :=
  match v, w with
  | Won c, Won d => cell_eqb c d
  | Tie, Tie => true
  | _, _ => false
  end.

(** [winner == s] for the [Optional[str]] that [check_winner] returns. *)
Definition winner_is (w : option verdict) (v : verdict) : bool :=
  match w with
  | Some u => verdict_eqb u v
  | None => false
  end.

(** [[' ' for _ in range(9)]] *)
Definition empty_board : Board := replicate 9 Blank.

(** [self.board[i]]; every index the program uses comes from [range(9)], the
    [wins] table or a position that passed [0 <= position < 9], and boards
    have nine cells. *)
Definition cell_at (b : Board) (i : Z) : cell :=
  default Blank (b !! Z.to_nat i).

(** [self.board[i] = c] *)
Definition set_cell (b : Board) (i : Z) (c : cell) : Board :=
  <[Z.to_nat i := c]> b.

(** [range(9)] *)
Definition range9 : list Z := seqZ 0 9.

Definition is_valid_move (b : Board) (position : Z) : bool :=
  (0 <=? position) && (position <? 9) && cell_eqb (cell_at b position) Blank.

Definition make_move (b : Board) (position : Z) (p : player) : bool * Board :=
  if is_valid_move b position
  then (true, set_cell b position (Mark p))
  else (false, b).

Definition wins : list (Z * Z * Z) :=
  [ (0, 1, 2); (3, 4, 5); (6, 7, 8);
    (0, 3, 6); (1, 4, 7); (2, 5, 8);
    (0, 4, 8); (2, 4, 6) ].

(** [board[c0] == board[c1] == board[c2] != ' '] *)
Definition line_complete (b : Board) (combo : Z * Z * Z) : bool :=
  let '(c0, c1, c2) := combo in
  cell_eqb (cell_at b c0) (cell_at b c1)
  && cell_eqb (cell_at b c1) (cell_at b c2)
  && negb (cell_eqb (cell_at b c2) Blank).

(** The [for combo in wins] loop of [check_winner]. *)
Fixpoint scan_lines (b : Board) (combos : list (Z * Z * Z)) : option cell :=
  match combos with
  | [] => None
  | combo :: rest =>
      if line_complete b combo then Some (cell_at b (combo.1.1))
      else scan_lines b rest
  end.

(** [' ' not in self.board] *)
Definition no_blank (b : Board) : bool :=
  forallb (fun c => negb (cell_eqb c Blank)) b.

Definition check_winner (b : Board) : option verdict :=
  match scan_lines b wins with
  | Some c => Some (Won c)
  | None => if no_blank b then Some Tie else None
  end.

Definition get_available_moves (b : Board) : list Z :=
  filter (fun i => cell_eqb (cell_at b i) Blank = true) range9.

(** A player holds all three cells of a line. *)
Definition line_owned (b : Board) (p : player) (combo : Z * Z * Z) : Prop :=
  cell_at b combo.1.1 = Mark p ∧ cell_at b combo.1.2 = Mark p
  ∧ cell_at b combo.2 = Mark p.

(** The three rows, the three columns and the two diagonals of the grid whose
    cell in row [r] and column [c] has index [3 * r + c]. *)
Definition rows : list (Z * Z * Z) :=
  (fun r => (3 * r, 3 * r + 1, 3 * r + 2)) <$> [0; 1; 2].
Definition columns : list (Z * Z * Z) :=
  (fun c => (c, 3 + c, 6 + c)) <$> [0; 1; 2].
Definition diagonals : list (Z * Z * Z) :=
  [ (3 * 0 + 0, 3 * 1 + 1, 3 * 2 + 2); (3 * 0 + 2, 3 * 1 + 1, 3 * 2 + 0) ].

(** ** Adversarial search *)

(** Scores of the search: Python integers together with the floats
    [-math.inf] and [math.inf] that initialise the running bounds. *)
Inductive ext :=
  | NegInf
  | Fin (z : Z)
  | PosInf.

(** [a < b] *)
Definition ext_ltb (a b : ext) : bool :=
  match a, b with
  | NegInf, NegInf => false
  | NegInf, _ => true
  | Fin _, NegInf => false
  | Fin x, Fin y => x <? y
  | Fin _, PosInf => true
  | PosInf, _ => false
  end.

(** [a <= b] *)
Definition ext_leb (a b : ext) : bool := negb (ext_ltb b a).

(** [max(a, b)]: the first argument unless the second is greater. *)
Definition ext_max (a b : ext) : ext := if ext_ltb a b then b else a.

(** [min(a, b)]: the first argument unless the second is smaller. *)
Definition ext_min (a b : ext) : ext := if ext_ltb b a then b else a.

(** The [for move in self.get_available_moves()] loop of the maximizing
    branch. [search] is the recursive call [self.minimax(depth + 1, False, ..)];
    the board is written before it and cleared after it. *)
Fixpoint max_loop (search : ext → ext → Board → option (ext * Board))
    (moves : list Z) (max_eval alpha beta : ext) (b : Board)
    : option (ext * Board) :=
  match moves with
  | [] => Some (max_eval, b)
  | move :: rest =>
      '(eval_score, b) ← search alpha beta (set_cell b move (Mark X));
      let b := set_cell b move Blank in
      let max_eval := ext_max max_eval eval_score in
      let alpha := ext_max alpha eval_score in
      if ext_leb beta alpha then Some (max_eval, b)
      else max_loop search rest max_eval alpha beta b
  end.

(** The loop of the minimizing branch. *)
Fixpoint min_loop (search : ext → ext → Board → option (ext * Board))
    (moves : list Z) (min_eval alpha beta : ext) (b : Board)
    : option (ext * Board) :=
  match moves with
  | [] => Some (min_eval, b)
  | move :: rest =>
      '(eval_score, b) ← search alpha beta (set_cell b move (Mark O));
      let b := set_cell b move Blank in
      let min_eval := ext_min min_eval eval_score in
      let beta := ext_min beta eval_score in
      if ext_leb beta alpha then Some (min_eval, b)
      else min_loop search rest min_eval alpha beta b
  end.

(** [minimax(depth, is_maximizing, alpha, beta)] on the board [b]. The
    recursion of the program is bounded by the number of blank cells; here it
    is bounded by [fuel], and [None] means the fuel ran out. The result is
    the score and the board the call leaves behind. *)
Fixpoint minimax (fuel : nat) (depth : Z) (is_maximizing : bool)
    (alpha beta : ext) (b : Board) : option (ext * Board) :=
  match fuel with
  | 0%nat => None
  | S fuel =>
      let winner := check_winner b in
      if winner_is winner (Win X) then Some (Fin (10 - depth), b)
      else if winner_is winner (Win O) then Some (Fin (depth - 10), b)
      else if winner_is winner Tie then Some (Fin 0, b)
      else if is_maximizing then
        max_loop (minimax fuel (depth + 1) false)
          (get_available_moves b) NegInf alpha beta b
      else
        min_loop (minimax fuel (depth + 1) true)
          (get_available_moves b) PosInf alpha beta b
  end.

(** Fuel that suffices for any board: one call per blank cell on a path,
    plus the call that sees the terminal board. *)
Definition search_fuel (b : Board) : nat := S (length (get_available_moves b)).

(** The [for move in self.get_available_moves()] loop of [get_best_move];
    [minimax] is called with its default bounds. *)
Fixpoint best_loop (p : player) (moves : list Z) (best_score : ext)
    (best_move : Z) (b : Board) : option (Z * Board) :=
  match moves with
  | [] => Some (best_move, b)
  | move :: rest =>
      let b := set_cell b move (Mark p) in
      '(score, b) ← minimax (search_fuel b) 0 (player_eqb p O) NegInf PosInf b;
      let b := set_cell b move Blank in
      if player_eqb p X && ext_ltb best_score score
      then best_loop p rest score move b
      else if player_eqb p O && ext_ltb score best_score
      then best_loop p rest score move b
      else best_loop p rest best_score best_move b
  end.

Definition get_best_move (p : player) (b : Board) : option (Z * Board) :=
  let best_score := if player_eqb p X then NegInf else PosInf in
  let best_move := -1 in
  best_loop p (get_available_moves b) best_score best_move b.

(** The score [get_best_move] obtains for the candidate [move]: the board
    with the candidate written, searched from depth 0 with the default
    bounds. *)
Definition candidate_score (p : player) (b : Board) (move : Z) : option ext :=
  let b := set_cell b move (Mark p) in
  fst <$> minimax (search_fuel b) 0 (player_eqb p O) NegInf PosInf b.

(** The test under which [get_best_move] replaces its best candidate:
    [score > best_score] for X, [score < best_score] for O. *)
Definition improves (p : player) (score best_score : ext) : bool :=
  match p with
  | X => ext_ltb best_score score
  | O => ext_ltb score best_score
  end.

(** A search call that hands back the board it was given. *)
Definition restores (search : ext → ext → Board → option (ext * Board)) : Prop :=
  ∀ alpha beta b s b', search alpha beta b = Some (s, b') → b' = b.

(** A line of play from the board [b]: the moves of [line] are made in turn,
    the first by X when [is_maximizing] holds and by O otherwise, each into
    a cell that [get_available_moves] lists, on a board on which
    [check_winner] says that the game goes on. The result is the board the
    line ends on, and [None] when the line is no legal play. *)
Fixpoint play_line (is_maximizing : bool) (line : list Z) (b : Board)
    : option Board :=
  match line with
  | [] => Some b
  | move :: rest =>
      match check_winner b with
      | Some _ => None
      | None =>
          if bool_decide (move ∈ get_available_moves b) then
            play_line (negb is_maximizing) rest
              (set_cell b move (Mark (if is_maximizing then X else O)))
          else None
      end
  end.

(** The scoring convention in the words of the specification: a game that
    ended [plies] plies into the search with the verdict [w] has the score
    [z] when [z] is [10 - plies] for a win of X, [plies - 10] for a win of O
    and [0] for a tie. *)
Definition scored (w : verdict) (plies z : Z) : Prop :=
  match w with
  | Win X => z = 10 - plies
  | Win O => z = plies - 10
  | Tie => z = 0
  | Won Blank => False
  end.

(** ** Heuristic strategies *)

(** [random.choice(seq)]: the element at an index below [len(seq)] taken from
    the random source, here [k mod len(seq)]; [IndexError] on an empty
    sequence. *)
Definition random_choice (k : nat) (seq : list Z) : result Z :=
  match seq !! (k `mod` length seq)%nat with
  | Some x => Ok x
  | None => Raise IndexError
  end.

(** The loop shared by the heuristics: try each available move for [who],
    return the first one that completes a line, and clear the cell again in
    either case. *)
Fixpoint first_winning_move (who : player) (moves : list Z) (b : Board)
    : option Z * Board :=
  match moves with
  | [] => (None, b)
  | move :: rest =>
      let b := set_cell b move (Mark who) in
      if winner_is (check_winner b) (Win who)
      then (Some move, set_cell b move Blank)
      else first_winning_move who rest (set_cell b move Blank)
  end.

(** ['O' if player == 'X' else 'X'] *)
Definition opponent_of (p : player) : player :=
  if player_eqb p X then O else X.

Definition edges : list Z := [1; 3; 5; 7].

(** [get_defensive_move(player)]; [k] is the draw that [random.choice]
    uses if it is reached. *)
Definition get_defensive_move (k : nat) (p : player) (b : Board)
    : result Z * Board :=
  let available := get_available_moves b in
  let opponent := opponent_of p in
  match first_winning_move opponent available b with
  | (Some move, b) => (Ok move, b)
  | (None, b) =>
      match first_winning_move p available b with
      | (Some move, b) => (Ok move, b)
      | (None, b) =>
          if bool_decide (4 ∈ available) then (Ok 4, b)
          else
            let edge_moves := filter (fun m => m ∈ edges) available in
            match edge_moves with
            | _ :: _ => (random_choice k edge_moves, b)
            | [] => (random_choice k available, b)
            end
      end
  end.

(** [move] is an immediate winning move for [who]: with the mark of [who]
    written there, [check_winner] names [who]. *)
Definition wins_at (who : player) (b : Board) (move : Z) : bool :=
  winner_is (check_winner (set_cell b move (Mark who))) (Win who).

(** ** Tabular Q-learning agent *)

(** [defaultdict(lambda: defaultdict(float))] *)
Abbreviation qtable := (gmap string (gmap Z float)).

Record QLearningAgent := {
  q_table : qtable;
  learning_rate : float;
  discount_factor : float;
  epsilon : float;
}.

(** [QLearningAgent(learning_rate, discount_factor, epsilon)] *)
Definition init_agent (lr df eps : float) : QLearningAgent :=
  {| q_table := ∅; learning_rate := lr; discount_factor := df; epsilon := eps |}.

(** [QLearningAgent()], every argument at its default. *)
Definition default_agent : QLearningAgent := init_agent 0.1 0.9 0.1.

Definition with_table (a : QLearningAgent) (t : qtable) : QLearningAgent :=
  {| q_table := t; learning_rate := learning_rate a;
     discount_factor := discount_factor a; epsilon := epsilon a |}.

Definition cell_char (c : cell) : ascii :=
  match c with
  | Blank => " "
  | Mark X => "X"
  | Mark O => "O"
  end%char.

(** [''.join(board)] *)
Definition get_state_key (b : Board) : string :=
  string_of_list_ascii (cell_char <$> b).

(** [self.q_table[state][action]]: a read of the two nested defaultdicts.
    A missing row is created empty and a missing entry is created as [0.0];
    the table after the read holds both. *)
Definition get_q_value (state : string) (action : Z) (t : qtable)
    : float * qtable :=
  let row := default ∅ (t !! state) in
  let value := default 0%float (row !! action) in
  (value, <[state := <[action := value]> row]> t).

(** [[self.get_q_value(state, a) for a in actions]] *)
Fixpoint q_values (state : string) (actions : list Z) (t : qtable)
    : list float * qtable :=
  match actions with
  | [] => ([], t)
  | a :: rest =>
      let '(value, t) := get_q_value state a t in
      let '(values, t) := q_values state rest t in
      (value :: values, t)
  end.

(** [max(x :: xs)] on floats: the running maximum is replaced by an item
    only when the item is greater. *)
Definition float_max (x : float) (xs : list float) : float :=
  foldl (fun m y => if (m <? y)%float then y else m) x xs.

(** [self.q_table[state][action] = value] *)
Definition set_q_value (state : string) (action : Z) (value : float)
    (t : qtable) : qtable :=
  <[state := <[action := value]> (default ∅ (t !! state))]> t.

Definition update_q_value (state : string) (action : Z) (reward : float)
    (next_state : string) (available_actions : list Z) (a : QLearningAgent)
    : QLearningAgent :=
  let '(current_q, t) := get_q_value state action (q_table a) in
  let '(max_next_q, t) :=
    (* [if available_actions:] the list of values read is empty exactly when
       [available_actions] is, and then no read took place *)
    match q_values next_state available_actions t with
    | (v :: vs, t') => (float_max v vs, t')
    | ([], _) => (0%float, t)
    end in
  let new_q :=
    (current_q
     + learning_rate a * (reward + discount_factor a * max_next_q - current_q))%float in
  with_table a (set_q_value state action new_q t).

(** The mapping [save_q_table] hands to [json.dump], as its items:
    [{state: dict(actions) for state, actions in self.q_table.items()}]. *)
Definition save_q_table (a : QLearningAgent) : list (string * list (Z * float)) :=
  (fun '(state, actions) => (state, map_to_list actions)) <$> map_to_list (q_table a).

(** The value the table gives for a pair, [0.0] when the pair is absent:
    what a read returns, without its effect on the table. *)
Definition q_lookup (t : qtable) (state : string) (action : Z) : float :=
  default 0%float (default ∅ (t !! state) !! action).

(** The table holds an explicit entry for the pair. *)
Definition has_entry (t : qtable) (state : string) (action : Z) : Prop :=
  is_Some (t !! state ≫= fun row => row !! action).

(** The pair appears in what [save_q_table] writes. *)
Definition serialized_has (a : QLearningAgent) (state : string) (action : Z)
    : Prop :=
  ∃ actions value,
    (state, actions) ∈ save_q_table a ∧ (action, value) ∈ actions.

(** The calls a client makes on an agent: reads and updates. *)
Inductive agent_op :=
  | Read (state : string) (action : Z)
  | Update (state : string) (action : Z) (reward : float)
      (next_state : string) (available_actions : list Z).

Definition run_op (a : QLearningAgent) (o : agent_op) : QLearningAgent :=
  match o with
  | Read state action =>
      with_table a (get_q_value state action (q_table a)).2
  | Update state action reward next_state available_actions =>
      update_q_value state action reward next_state available_actions a
  end.

Definition run_ops (ops : list agent_op) (a : QLearningAgent) : QLearningAgent :=
  foldl run_op a ops.

(** The pairs a call reads or writes. *)
Definition touches (o : agent_op) (state : string) (action : Z) : Prop :=
  match o with
  | Read s a => s = state ∧ a = action
  | Update s a _ s' acts =>
      (s = state ∧ a = action) ∨ (s' = state ∧ action ∈ acts)
  end.

(** ** Persistence of the table *)

(** What [load_q_table] can find under a file name: no file ([open] raises
    [FileNotFoundError]), a file that [json.load] rejects
    ([json.JSONDecodeError]), or a JSON object of objects of numbers, which
    is the shape [save_q_table] writes, given by its items in order. *)
Inductive source :=
  | Missing
  | Garbled
  | Document (q_dict : list (string * list (string * float))).

(** The inner loop of [load_q_table]:
    [self.q_table[state][int(action)] = value]. Python evaluates the row
    [self.q_table[state]] before the index [int(action)], so a key that
    [int] rejects still leaves the row in the table. [int] is Python's
    builtin on strings. *)
Fixpoint load_actions (int : string → option Z) (state : string)
    (actions : list (string * float)) (t : qtable) : result unit * qtable :=
  match actions with
  | [] => (Ok (), t)
  | (action, value) :: rest =>
      let row := default ∅ (t !! state) in
      match int action with
      | Some k => load_actions int state rest (<[state := <[k := value]> row]> t)
      | None => (Raise ValueError, <[state := row]> t)
      end
  end.

(** The outer loop of [load_q_table]. *)
Fixpoint load_states (int : string → option Z)
    (q_dict : list (string * list (string * float))) (t : qtable)
    : result unit * qtable :=
  match q_dict with
  | [] => (Ok (), t)
  | (state, actions) :: rest =>
      match load_actions int state actions t with
      | (Ok _, t) => load_states int rest t
      | (Raise e, t) => (Raise e, t)
      end
  end.

(** [load_q_table(filename)] against the file system [fs]. The result is
    what the call returns ([Ok ()] for [None]) or raises, the agent
    afterwards, and the lines printed. Only [FileNotFoundError] has a
    handler. *)
Definition load_q_table (int : string → option Z) (fs : string → source)
    (filename : string) (a : QLearningAgent)
    : result unit * QLearningAgent * list string :=
  match fs filename with
  | Missing =>
      (Ok (), a,
       ["Q-table file " +:+ filename +:+ " not found. Starting with empty Q-table."])
  | Garbled => (Raise JSONDecodeError, a, [])
  | Document q_dict =>
      let '(r, t) := load_states int q_dict ∅ in
      (r, with_table a t, [])
  end.

(** A reader of decimal numerals, the spelling [json.dump] gives to the
    integer keys of a table. *)
Definition decimal_key (s : string) : option Z :=
  Z.of_int <$> DecimalString.NilZero.int_of_string s.

(** ** End-of-episode update *)

(** An integer of magnitude below [2^53] as a float, which is what
    [int + float] makes of its integer operand. *)
Fixpoint float_of_pos (p : positive) : float :=
  match p with
  | xH => 1
  | xO p => 2 * float_of_pos p
  | xI p => 2 * float_of_pos p + 1
  end%float.

Definition float_of_int (z : Z) : float :=
  match z with
  | Z0 => 0
  | Zpos p => float_of_pos p
  | Zneg p => - float_of_pos p
  end%float.

(** [rewards.get(winner, 0)] for [rewards = {'X': 1, 'O': -1, 'Tie': 0}] *)
Definition rewards_get (winner : verdict) : Z :=
  match winner with
  | Win X => 1
  | Win O => -1
  | Tie => 0
  | Won Blank => 0
  end.

(** The reward expression of [update_q_learning], one branch per side. *)
Definition reward_of (winner : verdict) (p : player) : Z :=
  if player_eqb p X then
    if verdict_eqb winner (Win X) then rewards_get winner
    else if verdict_eqb winner Tie then 0 else -1
  else
    if verdict_eqb winner (Win O) then rewards_get winner
    else if verdict_eqb winner Tie then 0 else -1.

(** [[j for j in range(9) if next_board[j] == ' ']] for
    [next_board = list(next_state)]; [IndexError] if the string is short. *)
Fixpoint blank_indices (js : list Z) (next_state : string) : result (list Z) :=
  match js with
  | [] => Ok []
  | j :: rest =>
      match String.get (Z.to_nat j) next_state with
      | None => Raise IndexError
      | Some c =>
          found ← blank_indices rest next_state;
          Ok (if Ascii.eqb c " " then j :: found else found)
      end
  end.

(** The arguments of one call [agent.update_q_value(..)]: whose agent, then
    [state, action, reward, next_state, next_available]. *)
Definition update_call : Type := player * string * Z * Z * string * list Z.

(** The body of the loop of [update_q_learning] for entry [i], up to the
    call of [update_q_value]. *)
Definition update_args (winner : verdict)
    (game_states : list (string * Z * player)) (i : nat)
    (entry : string * Z * player) : result update_call :=
  let '(state, action, p) := entry in
  let reward := reward_of winner p in
  match game_states !! (i + 1)%nat with
  | Some (next_state, _, _) =>
      next_available ← blank_indices range9 next_state;
      Ok (p, state, action, reward, next_state, next_available)
  | None => Ok (p, state, action, reward, state, [])
  end.

(** The two agents after one call of the loop. *)
Definition apply_update (c : update_call)
    (agents : QLearningAgent * QLearningAgent)
    : QLearningAgent * QLearningAgent :=
  let '(p, state, action, reward, next_state, next_available) := c in
  let '(agent_x, agent_o) := agents in
  if player_eqb p X
  then (update_q_value state action (float_of_int reward) next_state
          next_available agent_x, agent_o)
  else (agent_x, update_q_value state action (float_of_int reward) next_state
          next_available agent_o).

(** [for i, entry in enumerate(self.game_states)], from index [i] on. *)
Fixpoint update_from (winner : verdict)
    (game_states : list (string * Z * player)) (i : nat)
    (entries : list (string * Z * player))
    (agents : QLearningAgent * QLearningAgent)
    : result (QLearningAgent * QLearningAgent) :=
  match entries with
  | [] => Ok agents
  | entry :: rest =>
      c ← update_args winner game_states i entry;
      update_from winner game_states (S i) rest (apply_update c agents)
  end.

(** [update_q_learning(winner)] on the trajectory [game_states] and the two
    agents of the game. *)
Definition update_q_learning (winner : verdict)
    (game_states : list (string * Z * player))
    (agents : QLearningAgent * QLearningAgent)
    : result (QLearningAgent * QLearningAgent) :=
  update_from winner game_states 0 game_states agents.

(** ** Self-play *)

Inductive Strategy :=
  | MINIMAX
  | Q_LEARNING
  | RANDOM
  | AGGRESSIVE
  | DEFENSIVE
  | HYBRID.

Definition strategy_eqb (s t : Strategy) : bool :=
  match s, t with
  | MINIMAX, MINIMAX | Q_LEARNING, Q_LEARNING | RANDOM, RANDOM
  | AGGRESSIVE, AGGRESSIVE | DEFENSIVE, DEFENSIVE | HYBRID, HYBRID => true
  | _, _ => false
  end.

(** [strategy.value] *)
Definition strategy_value (s : Strategy) : string :=
  match s with
  | MINIMAX => "minimax"
  | Q_LEARNING => "q_learning"
  | RANDOM => "random"
  | AGGRESSIVE => "aggressive"
  | DEFENSIVE => "defensive"
  | HYBRID => "hybrid"
  end.

Record GameRecord := {
  game_id : Z;
  player_x_strategy : string;
  player_o_strategy : string;
  moves : list (string * Z * player);
  winner : verdict;
  game_length : Z;
  timestamp : string;
}.

Record GameplayDataCollector := {
  games_data : list GameRecord;
  current_game_id : Z;
}.

Record TicTacToeAI := {
  board : Board;
  current_player : player;
  strategy_x : Strategy;
  strategy_o : Strategy;
  q_agent_x : QLearningAgent;
  q_agent_o : QLearningAgent;
  game_states : list (string * Z * player);
  data_collector : GameplayDataCollector;
  current_game_moves : list (string * Z * player);
}.

Definition set_board (g : TicTacToeAI) (b : Board) : TicTacToeAI :=
  {| board := b; current_player := current_player g;
     strategy_x := strategy_x g; strategy_o := strategy_o g;
     q_agent_x := q_agent_x g; q_agent_o := q_agent_o g;
     game_states := game_states g; data_collector := data_collector g;
     current_game_moves := current_game_moves g |}.

Definition set_current_player (g : TicTacToeAI) (p : player) : TicTacToeAI :=
  {| board := board g; current_player := p;
     strategy_x := strategy_x g; strategy_o := strategy_o g;
     q_agent_x := q_agent_x g; q_agent_o := q_agent_o g;
     game_states := game_states g; data_collector := data_collector g;
     current_game_moves := current_game_moves g |}.

Definition set_agents (g : TicTacToeAI)
    (agents : QLearningAgent * QLearningAgent) : TicTacToeAI :=
  {| board := board g; current_player := current_player g;
     strategy_x := strategy_x g; strategy_o := strategy_o g;
     q_agent_x := agents.1; q_agent_o := agents.2;
     game_states := game_states g; data_collector := data_collector g;
     current_game_moves := current_game_moves g |}.

Definition set_game_states (g : TicTacToeAI)
    (l : list (string * Z * player)) : TicTacToeAI :=
  {| board := board g; current_player := current_player g;
     strategy_x := strategy_x g; strategy_o := strategy_o g;
     q_agent_x := q_agent_x g; q_agent_o := q_agent_o g;
     game_states := l; data_collector := data_collector g;
     current_game_moves := current_game_moves g |}.

Definition set_current_game_moves (g : TicTacToeAI)
    (l : list (string * Z * player)) : TicTacToeAI :=
  {| board := board g; current_player := current_player g;
     strategy_x := strategy_x g; strategy_o := strategy_o g;
     q_agent_x := q_agent_x g; q_agent_o := q_agent_o g;
     game_states := game_states g; data_collector := data_collector g;
     current_game_moves := l |}.

Definition set_data_collector (g : TicTacToeAI)
    (d : GameplayDataCollector) : TicTacToeAI :=
  {| board := board g; current_player := current_player g;
     strategy_x := strategy_x g; strategy_o := strategy_o g;
     q_agent_x := q_agent_x g; q_agent_o := q_agent_o g;
     game_states := game_states g; data_collector := d;
     current_game_moves := current_game_moves g |}.

(** [TicTacToeAI(strategy_x, strategy_o)] *)
Definition init_game (sx so : Strategy) : TicTacToeAI :=
  {| board := empty_board; current_player := X;
     strategy_x := sx; strategy_o := so;
     q_agent_x := default_agent; q_agent_o := default_agent;
     game_states := [];
     data_collector := {| games_data := []; current_game_id := 0 |};
     current_game_moves := [] |}.

Definition reset_board (g : TicTacToeAI) : TicTacToeAI :=
  set_current_player (set_board g empty_board) X.

(** [training and (self.strategy_x == Strategy.Q_LEARNING or
    self.strategy_o == Strategy.Q_LEARNING)] *)
Definition learning (training : bool) (g : TicTacToeAI) : bool :=
  training
  && (strategy_eqb (strategy_x g) Q_LEARNING
      || strategy_eqb (strategy_o g) Q_LEARNING).

(** The record that [play_self_game] adds to the collector at the end of a
    game, and the increment of [current_game_id]. *)
Definition record_game (start : string) (w : verdict) (g : TicTacToeAI)
    : TicTacToeAI :=
  let d := data_collector g in
  let game_record :=
    {| game_id := current_game_id d;
       player_x_strategy := strategy_value (strategy_x g);
       player_o_strategy := strategy_value (strategy_o g);
       moves := current_game_moves g;
       winner := w;
       game_length := Z.of_nat (length (current_game_moves g));
       timestamp := start |} in
  set_data_collector g
    {| games_data := games_data d ++ [game_record];
       current_game_id := current_game_id d + 1 |}.

(** One pass through the body of the [while True] loop of [play_self_game]
    from the point where the strategy has answered [move]; [current_state]
    is the key of the board taken before the strategy ran. The result of
    [make_move] is dropped, as in the program. [Some winner] is the value
    returned when the game ends, [None] is another pass. Printing under
    [show_board] is left out. *)
Definition play_turn (training collect_data : bool) (start : string)
    (current_state : string) (move : Z) (g : TicTacToeAI)
    : result (option verdict * TicTacToeAI) :=
  let g :=
    if collect_data
    then set_current_game_moves g
           (current_game_moves g ++ [(current_state, move, current_player g)])
    else g in
  let g :=
    if learning training g
    then set_game_states g
           (game_states g ++ [(current_state, move, current_player g)])
    else g in
  let '(_, b) := make_move (board g) move (current_player g) in
  let g := set_board g b in
  match check_winner (board g) with
  | Some w =>
      g ← (if learning training g
           then agents ← update_q_learning w (game_states g)
                            (q_agent_x g, q_agent_o g);
                Ok (set_agents g agents)
           else Ok g);
      let g := if collect_data then record_game start w g else g in
      Ok (Some w, g)
  | None =>
      Ok (None, set_current_player g (opponent_of (current_player g)))
  end.

Section SelfPlay.

(** [self.get_move_by_strategy(player, strategy, training)]: the move the
    configured strategy answers, and the game after the call. The loop is
    stated for any such function. *)
Variable get_move_by_strategy :
  player → Strategy → bool → TicTacToeAI → result (Z * TicTacToeAI).

(** The [while True] loop of [play_self_game], at most [fuel] passes;
    [None] when the game is still running after them. *)
Fixpoint self_play_loop (fuel : nat) (training collect_data : bool)
    (start : string) (g : TicTacToeAI)
    : option (result (verdict * TicTacToeAI)) :=
  match fuel with
  | 0%nat => None
  | S fuel =>
      let current_state := get_state_key (board g) in
      let strategy :=
        if player_eqb (current_player g) X then strategy_x g
        else strategy_o g in
      match get_move_by_strategy (current_player g) strategy training g with
      | Raise e => Some (Raise e)
      | Ok (move, g) =>
          match play_turn training collect_data start current_state move g with
          | Raise e => Some (Raise e)
          | Ok (Some w, g) => Some (Ok (w, g))
          | Ok (None, g) => self_play_loop fuel training collect_data start g
          end
      end
  end.

Definition play_self_game (fuel : nat) (training collect_data : bool)
    (start : string) (g : TicTacToeAI)
    : option (result (verdict * TicTacToeAI)) :=
  let g := reset_board g in
  let g := set_game_states g [] in
  let g := set_current_game_moves g [] in
  self_play_loop fuel training collect_data start g.

End SelfPlay.

(** ** The other strategies and their dispatch *)

(** What the random source gives during one call of a strategy: the float of
    [random.random()] and the index used by [random.choice]. *)
Record draw := {
  uniform : float;
  index : nat;
}.

(** [get_random_move()] *)
Definition get_random_move (k : nat) (b : Board) : result Z :=
  random_choice k (get_available_moves b).

Definition corners : list Z := [0; 2; 6; 8].

(** [get_aggressive_move(player)]; [k] is the draw that [random.choice]
    uses if it is reached. *)
Definition get_aggressive_move (k : nat) (p : player) (b : Board)
    : result Z * Board :=
  let available := get_available_moves b in
  match first_winning_move p available b with
  | (Some move, b) => (Ok move, b)
  | (None, b) =>
      if bool_decide (4 ∈ available) then (Ok 4, b)
      else
        let corner_moves := filter (fun m => m ∈ corners) available in
        match corner_moves with
        | _ :: _ => (random_choice k corner_moves, b)
        | [] => (random_choice k available, b)
        end
  end.

(** A call of a strategy as the dispatcher sees it: the move and the board
    left behind, or the exception. *)
Definition returned (r : result Z * Board) : result (Z * Board) :=
  move ← r.1; Ok (move, r.2).

(** [get_best_move] as a call of the program. The search of the model
    stops without a result only when its fuel runs out, which needs a board
    that lacks one of the nine cells (see [minimax_total]); the program
    raises [IndexError] when it reads such a board. *)
Definition best_move_call (p : player) (b : Board) : result (Z * Board) :=
  match get_best_move p b with
  | Some r => Ok r
  | None => Raise IndexError
  end.

(** [get_hybrid_move(player)] *)
Definition get_hybrid_move (k : nat) (p : player) (b : Board)
    : result (Z * Board) :=
  let available := get_available_moves b in
  if (6 <? length available)%nat
  then returned (get_aggressive_move k p b)
  else best_move_call p b.

(** [d[k] = v] on a dict kept as its items in insertion order: a key that is
    present keeps its place. *)
Fixpoint dict_set (k : Z) (v : float) (d : list (Z * float))
    : list (Z * float) :=
  match d with
  | [] => [(k, v)]
  | (k', v') :: rest =>
      if bool_decide (k' = k) then (k', v) :: rest
      else (k', v') :: dict_set k v rest
  end.

(** [{action: self.get_q_value(state, action) for action in actions}],
    continuing from the items [d]. *)
Fixpoint q_dict (state : string) (actions : list Z) (t : qtable)
    (d : list (Z * float)) : list (Z * float) * qtable :=
  match actions with
  | [] => (d, t)
  | action :: rest =>
      let '(value, t) := get_q_value state action t in
      q_dict state rest t (dict_set action value d)
  end.

(** The keys of a dict with keys [acc] after the keys [actions] were set in
    turn: each new key goes to the end, a key already there stays put. *)
Definition first_seen (acc actions : list Z) : list Z :=
  foldl (fun acc k => if bool_decide (k ∈ acc) then acc else acc ++ [k])
    acc actions.

(** [max(d, key=d.get)] for a dict whose first item is [(k0, v0)]: the running
    best key is replaced only by a key with a greater value. *)
Definition max_item (best : Z * float) (rest : list (Z * float)) : Z * float :=
  foldl (fun best item => if (best.2 <? item.2)%float then item else best)
    best rest.

Definition max_by_value (k0 : Z) (v0 : float) (rest : list (Z * float)) : Z :=
  (max_item (k0, v0) rest).1.

(** [choose_action(state, available_actions, training)] with the draw [d] of
    the random source. The result is the action or the exception, and the
    agent after the reads. *)
Definition choose_action (d : draw) (state : string)
    (available_actions : list Z) (training : bool) (a : QLearningAgent)
    : result Z * QLearningAgent :=
  if training && (uniform d <? epsilon a)%float
  then (random_choice (index d) available_actions, a)
  else
    let '(q_values, t) := q_dict state available_actions (q_table a) [] in
    match q_values with
    | [] => (Raise ValueError, with_table a t)
    | (k0, v0) :: rest => (Ok (max_by_value k0 v0 rest), with_table a t)
    end.

(** [get_move_by_strategy(player, strategy, training)]. [rnd] is the random
    source, given as the draw it hands out when a strategy asks in the
    state [g]; the states of one game are all different, so any sequence
    of draws of a game is such a function. The enumeration has no seventh
    value, which leaves the final [else] of the program without a case. *)
Definition get_move_by_strategy (rnd : TicTacToeAI → draw) (p : player)
    (strategy : Strategy) (training : bool) (g : TicTacToeAI)
    : result (Z * TicTacToeAI) :=
  match strategy with
  | MINIMAX =>
      r ← best_move_call p (board g); Ok (r.1, set_board g r.2)
  | Q_LEARNING =>
      let state := get_state_key (board g) in
      let available := get_available_moves (board g) in
      if player_eqb p X then
        let r := choose_action (rnd g) state available training (q_agent_x g) in
        move ← r.1; Ok (move, set_agents g (r.2, q_agent_o g))
      else
        let r := choose_action (rnd g) state available training (q_agent_o g) in
        move ← r.1; Ok (move, set_agents g (q_agent_x g, r.2))
  | RANDOM =>
      move ← get_random_move (index (rnd g)) (board g); Ok (move, g)
  | AGGRESSIVE =>
      r ← returned (get_aggressive_move (index (rnd g)) p (board g));
      Ok (r.1, set_board g r.2)
  | DEFENSIVE =>
      r ← returned (get_defensive_move (index (rnd g)) p (board g));
      Ok (r.1, set_board g r.2)
  | HYBRID =>
      r ← get_hybrid_move (index (rnd g)) p (board g);
      Ok (r.1, set_board g r.2)
  end.

(** [g'] differs from [g] at most in entries that reads added to the tables
    of the two agents: every component is the same and every pair has the
    same value. *)
Definition same_but_reads (g g' : TicTacToeAI) : Prop :=
  board g' = board g
  ∧ current_player g' = current_player g
  ∧ strategy_x g' = strategy_x g ∧ strategy_o g' = strategy_o g
  ∧ game_states g' = game_states g
  ∧ data_collector g' = data_collector g
  ∧ current_game_moves g' = current_game_moves g
  ∧ (∀ state action,
       q_lookup (q_table (q_agent_x g')) state action
       = q_lookup (q_table (q_agent_x g)) state action)
  ∧ (∀ state action,
       q_lookup (q_table (q_agent_o g')) state action
       = q_lookup (q_table (q_agent_o g)) state action).

(** The histories of legal play: [recorded l b p] when the moves of [l],
    made in turn from the empty board with X first, each on a board on which
    the game was not over and into a free cell, lead to the board [b] with
    [p] to move; each entry holds the key of the board before its move, the
    move and the mover, as [play_self_game] records them. *)
Inductive recorded : list (string * Z * player) → Board → player → Prop :=
  | recorded_start : recorded [] empty_board X
  | recorded_move l b p move :
      recorded l b p →
      check_winner b = None →
      is_valid_move b move = true →
      recorded (l ++ [(get_state_key b, move, p)])
        (set_cell b move (Mark p)) (opponent_of p).

(** The number of cells that hold the mark of [p]. *)
Definition count_mark (p : player) (b : Board) : nat :=
  length (filter (fun c => c = Mark p) b).

(** ** Plain minimax, the reference for the search *)

(** The value of a position by minimax without bounds and without pruning:
    the score of [minimax] on a finished game, else the greatest value of
    the positions X can move to when X is to move, the least value of the
    positions O can move to when O is to move. [fuel] bounds the recursion
    as it does in [minimax]; the value without fuel is never used, a
    nine-cell board needs at most ten. *)
Fixpoint game_value (fuel : nat) (depth : Z) (is_maximizing : bool)
    (b : Board) : ext :=
  match fuel with
  | 0%nat => Fin 0
  | S fuel =>
      let winner := check_winner b in
      if winner_is winner (Win X) then Fin (10 - depth)
      else if winner_is winner (Win O) then Fin (depth - 10)
      else if winner_is winner Tie then Fin 0
      else if is_maximizing then
        foldl (fun best move =>
                 ext_max best
                   (game_value fuel (depth + 1) false (set_cell b move (Mark X))))
          NegInf (get_available_moves b)
      else
        foldl (fun best move =>
                 ext_min best
                   (game_value fuel (depth + 1) true (set_cell b move (Mark O))))
          PosInf (get_available_moves b)
  end.

(** What a search with the bounds [alpha] and [beta] tells about the value
    [v] when it returns [r]: a result at or below [alpha] is an upper bound
    of [v], a result at or above [beta] is a lower bound, and a result
    strictly between the bounds is [v] itself. *)
Definition within (alpha beta v r : ext) : Prop :=
  (ext_leb r alpha = true → ext_leb v r = true)
  ∧ (ext_ltb alpha r = true → ext_ltb r beta = true → v = r)
  ∧ (ext_leb beta r = true → ext_leb r v = true).

(** The class of a value: 1 for a position X wins, -1 for a position O
    wins, 0 for a tie; the two infinities, which no position has, lie
    outside. *)
Definition outcome (v : ext) : Z :=
  match v with
  | NegInf => -2
  | Fin z => Z.sgn z
  | PosInf => 2
  end.

(** The value of the board [b] with [p] to move, searched from depth 0. *)
Definition position_value (b : Board) (p : player) : ext :=
  game_value (search_fuel b) 0 (player_eqb p X) b.

(** The player [q] does not lose from the board [b] with [p] to move when
    both sides play the best moves. *)
Definition holds_for (q : player) (b : Board) (p : player) : Prop :=
  match q with
  | X => 0 ≤ outcome (position_value b p)
  | O => outcome (position_value b p) ≤ 0
  end.

(** ** The file of a saved table *)

(** [json.dump] spells an integer key of a row as its decimal numeral. *)
Definition json_key (k : Z) : string := NilZero.string_of_int (Z.to_int k).

(** The file [json.dump(q_dict, f, indent=2)] leaves, as [json.load] reads
    it back: the states and the values as they are, the keys of the rows as
    strings. *)
Definition json_dump (q_dict : list (string * list (Z * float))) : source :=
  Document
    ((fun item : string * list (Z * float) =>
        (item.1, (fun kv : Z * float => (json_key kv.1, kv.2)) <$> item.2))
       <$> q_dict).

(** The table after the inner loop of [load_q_table] has stored the items
    [actions] of a row, and after its outer loop has stored the rows
    [items], when [int] accepts every key. *)
Definition load_row (state : string) (t : qtable) (actions : list (Z * float))
    : qtable :=
  foldl (fun t kv => set_q_value state kv.1 kv.2 t) t actions.

Definition load_rows (t : qtable) (items : list (string * list (Z * float)))
    : qtable :=
  foldl (fun t sr => load_row sr.1 t sr.2) t items.

(** ** The agents through an episode *)

(** [self.q_agent_x] or [self.q_agent_o], by the side. *)
Definition agent_of (p : player) (agents : QLearningAgent * QLearningAgent)
    : QLearningAgent :=
  if player_eqb p X then agents.1 else agents.2.

(** What the two agents keep through the updates for the entries [gs]: the
    parameters and the entries they had, every value but those of pairs
    the side played, and an entry for every pair it played. *)
Definition same_but (gs : list (string * Z * player))
    (agents agents' : QLearningAgent * QLearningAgent) : Prop :=
  ∀ p,
    learning_rate (agent_of p agents') = learning_rate (agent_of p agents)
    ∧ discount_factor (agent_of p agents') = discount_factor (agent_of p agents)
    ∧ epsilon (agent_of p agents') = epsilon (agent_of p agents)
    ∧ (∀ state action, has_entry (q_table (agent_of p agents)) state action →
         has_entry (q_table (agent_of p agents')) state action)
    ∧ (∀ state action, (state, action, p) ∈ gs →
         has_entry (q_table (agent_of p agents')) state action)
    ∧ (∀ state action, (state, action, p) ∉ gs →
         q_lookup (q_table (agent_of p agents')) state action
         = q_lookup (q_table (agent_of p agents)) state action).

(** The agent [a'] has the parameters of [a]. *)
Definition same_parameters (a a' : QLearningAgent) : Prop :=
  learning_rate a' = learning_rate a
  ∧ discount_factor a' = discount_factor a
  ∧ epsilon a' = epsilon a.

(** The agent [a'] gives every pair the value [a] gives it. *)
Definition same_values (a a' : QLearningAgent) : Prop :=
  ∀ state action,
    q_lookup (q_table a') state action = q_lookup (q_table a) state action.

(** What a game that started in [g0] has kept of its agents when it is in
    [g]: the strategies and the parameters always; outside learning every
    value, and the whole agent of a side that does not play
    [Q_LEARNING]. *)
Definition agents_kept (training : bool) (g0 g : TicTacToeAI) : Prop :=
  strategy_x g = strategy_x g0 ∧ strategy_o g = strategy_o g0
  ∧ same_parameters (q_agent_x g0) (q_agent_x g)
  ∧ same_parameters (q_agent_o g0) (q_agent_o g)
  ∧ (learning training g0 = false →
     same_values (q_agent_x g0) (q_agent_x g)
     ∧ same_values (q_agent_o g0) (q_agent_o g)
     ∧ (strategy_x g0 ≠ Q_LEARNING → q_agent_x g = q_agent_x g0)
     ∧ (strategy_o g0 ≠ Q_LEARNING → q_agent_o g = q_agent_o g0)).

(** ** Tournaments *)

(** What a tournament or an interactive game can raise: an exception of a
    game, [KeyError] from the tally, [ZeroDivisionError] from the
    percentages a tournament prints, and [EOFError] from [input()] when
    there is no more input. *)
Inductive raised :=
  | Game (e : exn)
  | KeyError
  | ZeroDivisionError
  | EOFError.

(** [results = {'X': 0, 'O': 0, 'Tie': 0}] *)
Record results := {
  X_count : Z;
  O_count : Z;
  Tie_count : Z;
}.

(** The tally before the first game. *)
Definition no_results : results :=
  {| X_count := 0; O_count := 0; Tie_count := 0 |}.

(** [results[winner] += 1]; [None] is the [KeyError] of a winner that is
    not a key. *)
Definition results_add (winner : verdict) (r : results) : option results :=
  match winner with
  | Win X => Some {| X_count := X_count r + 1; O_count := O_count r;
                     Tie_count := Tie_count r |}
  | Win O => Some {| X_count := X_count r; O_count := O_count r + 1;
                     Tie_count := Tie_count r |}
  | Tie => Some {| X_count := X_count r; O_count := O_count r;
                   Tie_count := Tie_count r + 1 |}
  | Won Blank => None
  end.

(** The loop [for i in range(..)] of [run_self_play_tournament] and of
    [train_q_learning_agent], [n] games from game [i] on:
    [winner = self.play_self_game(training=training)] and
    [results[winner] += 1]. [rnds i] is the random source during game [i],
    [clock i] the time it starts at, [fuel] bounds the passes of the loop
    of each game. *)
Fixpoint play_games (rnds : nat → TicTacToeAI → draw) (clock : nat → string)
    (fuel : nat) (training : bool) (i n : nat) (r : results)
    (g : TicTacToeAI) : option (raised + results * TicTacToeAI) :=
  match n with
  | 0%nat => Some (inr (r, g))
  | S n =>
      match play_self_game (get_move_by_strategy (rnds i)) fuel training false
              (clock i) g with
      | None => None
      | Some (Raise e) => Some (inl (Game e))
      | Some (Ok (winner, g)) =>
          match results_add winner r with
          | None => Some (inl KeyError)
          | Some r => play_games rnds clock fuel training (S i) n r g
          end
      end
  end.

(** [run_self_play_tournament(num_games, training)]. Of the lines printed
    only the division [results['X']/num_games] of the summary is kept,
    which raises when [num_games] is 0. *)
Definition run_self_play_tournament (rnds : nat → TicTacToeAI → draw)
    (clock : nat → string) (fuel : nat) (num_games : Z) (training : bool)
    (g : TicTacToeAI) : option (raised + results * TicTacToeAI) :=
  match play_games rnds clock fuel training 0 (Z.to_nat num_games)
          no_results g with
  | None => None
  | Some (inl e) => Some (inl e)
  | Some (inr (r, g)) =>
      if num_games =? 0 then Some (inl ZeroDivisionError)
      else Some (inr (r, g))
  end.

(** [self.strategy_x = sx] and [self.strategy_o = so] *)
Definition set_strategies (g : TicTacToeAI) (sx so : Strategy) : TicTacToeAI :=
  {| board := board g; current_player := current_player g;
     strategy_x := sx; strategy_o := so;
     q_agent_x := q_agent_x g; q_agent_o := q_agent_o g;
     game_states := game_states g; data_collector := data_collector g;
     current_game_moves := current_game_moves g |}.

(** [train_q_learning_agent(episodes, opponent_strategy)]; it returns
    nothing, the result is the game object afterwards. *)
Definition train_q_learning_agent (rnds : nat → TicTacToeAI → draw)
    (clock : nat → string) (fuel : nat) (episodes : Z)
    (opponent_strategy : Strategy) (g : TicTacToeAI)
    : option (raised + TicTacToeAI) :=
  let original_x := strategy_x g in
  let original_o := strategy_o g in
  let g := set_strategies g Q_LEARNING opponent_strategy in
  match play_games rnds clock fuel true 0 (Z.to_nat episodes) no_results g with
  | None => None
  | Some (inl e) => Some (inl e)
  | Some (inr (_, g)) => Some (inr (set_strategies g original_x original_o))
  end.

(** The pairs [(strat_x, strat_o)] that the two loops of
    [evaluate_strategies] reach under [if i <= j], in the order they are
    reached. *)
Definition matchups (strategies : list Strategy) : list (Strategy * Strategy) :=
  mjoin (imap (fun i strat_x =>
           mjoin (imap (fun j strat_o =>
                    if (i <=? j)%nat then [(strat_x, strat_o)] else [])
                    strategies))
           strategies).

(** [f"{strat_x.value}_vs_{strat_o.value}"] *)
Definition matchup_key (strat_x strat_o : Strategy) : string :=
  strategy_value strat_x +:+ "_vs_" +:+ strategy_value strat_o.

(** The body of the loops of [evaluate_strategies] over the pairs that are
    left; [rnds k] and [clock k] are the random source and the clock of the
    tournament of pair [k]. *)
Fixpoint evaluate_pairs (rnds : nat → nat → TicTacToeAI → draw)
    (clock : nat → nat → string) (fuel : nat) (num_games : Z) (k : nat)
    (pairs : list (Strategy * Strategy)) (res : gmap string results)
    (g : TicTacToeAI) : option (raised + gmap string results * TicTacToeAI) :=
  match pairs with
  | [] => Some (inr (res, g))
  | (strat_x, strat_o) :: rest =>
      let g := set_strategies g strat_x strat_o in
      match run_self_play_tournament (rnds k) (clock k) fuel num_games false g with
      | None => None
      | Some (inl e) => Some (inl e)
      | Some (inr (game_results, g)) =>
          evaluate_pairs rnds clock fuel num_games (S k) rest
            (<[matchup_key strat_x strat_o := game_results]> res) g
      end
  end.

(** [evaluate_strategies(strategies, num_games)] *)
Definition evaluate_strategies (rnds : nat → nat → TicTacToeAI → draw)
    (clock : nat → nat → string) (fuel : nat) (strategies : list Strategy)
    (num_games : Z) (g : TicTacToeAI)
    : option (raised + gmap string results * TicTacToeAI) :=
  evaluate_pairs rnds clock fuel num_games 0 (matchups strategies) ∅ g.

(** A tally of [n] games. *)
Definition tally_of (n : Z) (r : results) : Prop :=
  X_count r + O_count r + Tie_count r = Z.max 0 n
  ∧ 0 ≤ X_count r ∧ 0 ≤ O_count r ∧ 0 ≤ Tie_count r.

(** ** Generation of training data *)

(** The loop [for j in range(games_per_pair)] of [generate_training_data],
    [n] games from game [j] on: [self.play_self_game(collect_data=True)]. *)
Fixpoint collect_games (rnds : nat → TicTacToeAI → draw) (clock : nat → string)
    (fuel : nat) (j n : nat) (g : TicTacToeAI) : option (raised + TicTacToeAI) :=
  match n with
  | 0%nat => Some (inr g)
  | S n =>
      match play_self_game (get_move_by_strategy (rnds j)) fuel false true
              (clock j) g with
      | None => None
      | Some (Raise e) => Some (inl (Game e))
      | Some (Ok (_, g)) => collect_games rnds clock fuel (S j) n g
      end
  end.

(** The loop over the strategy pairs, from pair [i] on. *)
Fixpoint collect_pairs (rnds : nat → nat → TicTacToeAI → draw)
    (clock : nat → nat → string) (fuel : nat) (games_per_pair : Z) (i : nat)
    (strategy_pairs : list (Strategy * Strategy)) (g : TicTacToeAI)
    : option (raised + TicTacToeAI) :=
  match strategy_pairs with
  | [] => Some (inr g)
  | (strat_x, strat_o) :: rest =>
      let g := set_strategies g strat_x strat_o in
      match collect_games (rnds i) (clock i) fuel 0 (Z.to_nat games_per_pair) g with
      | None => None
      | Some (inl e) => Some (inl e)
      | Some (inr g) => collect_pairs rnds clock fuel games_per_pair (S i) rest g
      end
  end.

(** [generate_training_data(strategy_pairs, games_per_pair, ..)] up to the
    end of its loops: the collector is replaced by a new one and the games
    are played. The statistics, the export and the lines printed, which
    read the collector and the clock, are left out. *)
Definition generate_games (rnds : nat → nat → TicTacToeAI → draw)
    (clock : nat → nat → string) (fuel : nat)
    (strategy_pairs : list (Strategy * Strategy)) (games_per_pair : Z)
    (g : TicTacToeAI) : option (raised + TicTacToeAI) :=
  let g := set_data_collector g {| games_data := []; current_game_id := 0 |} in
  collect_pairs rnds clock fuel games_per_pair 0 strategy_pairs g.

(** A record of a game of [strat_x] against [strat_o] as [play_self_game]
    writes it. *)
Definition record_of (strat_x strat_o : Strategy) (r : GameRecord) : Prop :=
  player_x_strategy r = strategy_value strat_x
  ∧ player_o_strategy r = strategy_value strat_o
  ∧ game_length r = Z.of_nat (length (moves r))
  ∧ 5 ≤ game_length r ≤ 9
  ∧ (winner r = Tie ∨ winner r = Win X ∨ winner r = Win O)
  ∧ (winner r = Tie → game_length r = 9)
  ∧ (strat_x = MINIMAX → winner r ≠ Win O)
  ∧ (strat_o = MINIMAX → winner r ≠ Win X).

(** The collector after games were added to the records [old]: the new
    records [new] follow, numbered on from the counter. *)
Definition grown (d d' : GameplayDataCollector) (new : list GameRecord) : Prop :=
  games_data d' = games_data d ++ new
  ∧ current_game_id d' = current_game_id d + Z.of_nat (length new)
  ∧ ∀ (k : nat) r, new !! k = Some r →
      game_id r = current_game_id d + Z.of_nat k.

(** ** Batches of games *)

(** [ai.data_collector.current_game_id = game_id] *)
Definition set_current_game_id (g : TicTacToeAI) (id : Z) : TicTacToeAI :=
  set_data_collector g
    {| games_data := games_data (data_collector g); current_game_id := id |}.

(** The loop [for i in range(num_games)] of
    [LargeScaleTrainingGenerator.generate_game_batch], [n] games from game
    [i] on; [batch_size] is [self.batch_size]. *)
Fixpoint game_batch_loop (rnds : nat → TicTacToeAI → draw)
    (clock : nat → string) (fuel : nat) (batch_size batch_id : Z) (i n : nat)
    (ai : TicTacToeAI) (batch_games : list GameRecord)
    : option (raised + list GameRecord) :=
  match n with
  | 0%nat => Some (inr batch_games)
  | S n =>
      let game_id := batch_id * batch_size + Z.of_nat i in
      let ai := set_current_game_id ai game_id in
      match play_self_game (get_move_by_strategy (rnds i)) fuel false true
              (clock i) ai with
      | None => None
      | Some (Raise e) => Some (inl (Game e))
      | Some (Ok (_, ai)) =>
          let batch_games :=
            match last (games_data (data_collector ai)) with
            | Some game_record => batch_games ++ [game_record]
            | None => batch_games
            end in
          game_batch_loop rnds clock fuel batch_size batch_id (S i) n ai
            batch_games
      end
  end.

(** [generate_game_batch(strategy_pair, num_games, batch_id)] of
    [large_scale_training.py] *)
Definition generate_game_batch (rnds : nat → TicTacToeAI → draw)
    (clock : nat → string) (fuel : nat) (batch_size : Z)
    (strategy_pair : Strategy * Strategy) (num_games batch_id : Z)
    : option (raised + list GameRecord) :=
  let ai := init_game strategy_pair.1 strategy_pair.2 in
  game_batch_loop rnds clock fuel batch_size batch_id 0 (Z.to_nat num_games)
    ai [].

(** ** The interactive game *)

(** The end of a pass of the loop of [play_interactive_game] from
    [self.make_move(move, self.current_player)] on: the verdict when the
    game is over, else the turn passes. *)
Definition interactive_turn (move : Z) (g : TicTacToeAI)
    : option verdict * TicTacToeAI :=
  let '(_, b) := make_move (board g) move (current_player g) in
  let g := set_board g b in
  match check_winner (board g) with
  | Some w => (Some w, g)
  | None => (None, set_current_player g (opponent_of (current_player g)))
  end.

(** The [while True] loop of [play_interactive_game], at most [fuel] passes.
    [inputs] are the lines that [input()] will return, [int] is Python's
    builtin on strings, [None] where it raises [ValueError]. A line that is
    no number or no valid move costs the pass and nothing else. *)
Fixpoint interactive_loop (int : string → option Z) (rnd : TicTacToeAI → draw)
    (fuel : nat) (inputs : list string) (g : TicTacToeAI)
    : option (raised + verdict * TicTacToeAI) :=
  match fuel with
  | 0%nat => None
  | S fuel =>
      if player_eqb (current_player g) X then
        match inputs with
        | [] => Some (inl EOFError)
        | line :: inputs =>
            match int line with
            | None => interactive_loop int rnd fuel inputs g
            | Some move =>
                if is_valid_move (board g) move then
                  match interactive_turn move g with
                  | (Some w, g) => Some (inr (w, g))
                  | (None, g) => interactive_loop int rnd fuel inputs g
                  end
                else interactive_loop int rnd fuel inputs g
            end
        end
      else
        match get_move_by_strategy rnd O (strategy_o g) false g with
        | Raise e => Some (inl (Game e))
        | Ok (move, g) =>
            match interactive_turn move g with
            | (Some w, g) => Some (inr (w, g))
            | (None, g) => interactive_loop int rnd fuel inputs g
            end
        end
  end.

(** [play_interactive_game()]; the verdict it ends with decides the line it
    prints last. *)
Definition play_interactive_game (int : string → option Z)
    (rnd : TicTacToeAI → draw) (fuel : nat) (inputs : list string)
    (g : TicTacToeAI) : option (raised + verdict * TicTacToeAI) :=
  let g := reset_board g in
  let g := set_strategies g (strategy_x g) MINIMAX in
  interactive_loop int rnd fuel inputs g.

(** The last line printed. *)
Definition farewell (w : verdict) : string :=
  if verdict_eqb w (Win X) then "Congratulations! You won!"
  else if verdict_eqb w (Win O) then "AI wins! Better luck next time."
  else "It's a tie!".

(** ** Statistics of the collected games *)

(** An item of [stats['win_rates']]: [{'wins': .., 'total': ..}], with
    ['percentage'] once it is set. *)
Record WinRate := {
  rate_wins : Z;
  rate_total : Z;
  rate_percentage : option float;
}.

(** An item of [stats['matchup_results']]. *)
Record MatchupResult := {
  X_wins : Z;
  O_wins : Z;
  ties : Z;
}.

(** The dictionary [get_statistics] returns when there are games. *)
Record Statistics := {
  total_games : Z;
  strategy_usage : gmap string Z;
  win_rates : gmap string WinRate;
  matchup_results : gmap string MatchupResult;
  average_game_length : float;
  game_length_distribution : gmap Z Z;
}.

(** [d[k] += 1] on a [defaultdict(int)] *)
Definition count_up `{Countable K} (k : K) (d : gmap K Z) : gmap K Z :=
  <[k := default 0 (d !! k) + 1]> d.

(** [lambda: {'wins': 0, 'total': 0}] *)
Definition new_rate : WinRate :=
  {| rate_wins := 0; rate_total := 0; rate_percentage := None |}.

(** [stats['win_rates'][strategy]['wins'] += 1] *)
Definition add_win (strategy : string) (d : gmap string WinRate)
    : gmap string WinRate :=
  let r := default new_rate (d !! strategy) in
  <[strategy := {| rate_wins := rate_wins r + 1; rate_total := rate_total r;
                   rate_percentage := rate_percentage r |}]> d.

(** [stats['win_rates'][strategy]['total'] += 1] *)
Definition add_total (strategy : string) (d : gmap string WinRate)
    : gmap string WinRate :=
  let r := default new_rate (d !! strategy) in
  <[strategy := {| rate_wins := rate_wins r; rate_total := rate_total r + 1;
                   rate_percentage := rate_percentage r |}]> d.

(** [lambda: {'X_wins': 0, 'O_wins': 0, 'ties': 0}] *)
Definition new_matchup : MatchupResult :=
  {| X_wins := 0; O_wins := 0; ties := 0 |}.

(** The three branches on [game.winner] for a matchup. *)
Definition add_result (winner : verdict) (matchup : string)
    (d : gmap string MatchupResult) : gmap string MatchupResult :=
  let r := default new_matchup (d !! matchup) in
  if verdict_eqb winner (Win X) then
    <[matchup := {| X_wins := X_wins r + 1; O_wins := O_wins r;
                    ties := ties r |}]> d
  else if verdict_eqb winner (Win O) then
    <[matchup := {| X_wins := X_wins r; O_wins := O_wins r + 1;
                    ties := ties r |}]> d
  else
    <[matchup := {| X_wins := X_wins r; O_wins := O_wins r;
                    ties := ties r + 1 |}]> d.

(** [f"{game.player_x_strategy}_vs_{game.player_o_strategy}"] *)
Definition matchup_of (game : GameRecord) : string :=
  player_x_strategy game +:+ "_vs_" +:+ player_o_strategy game.

(** The body of the loop [for game in self.games_data] of
    [get_statistics], on [stats] and [total_length]. *)
Definition count_game (acc : Statistics * Z) (game : GameRecord)
    : Statistics * Z :=
  let '(stats, total_length) := acc in
  let usage :=
    count_up (player_o_strategy game)
      (count_up (player_x_strategy game) (strategy_usage stats)) in
  let rates := win_rates stats in
  let rates :=
    if negb (verdict_eqb (winner game) Tie) then
      if verdict_eqb (winner game) (Win X)
      then add_win (player_x_strategy game) rates
      else add_win (player_o_strategy game) rates
    else rates in
  let rates :=
    add_total (player_o_strategy game)
      (add_total (player_x_strategy game) rates) in
  let matchups :=
    add_result (winner game) (matchup_of game) (matchup_results stats) in
  ({| total_games := total_games stats;
      strategy_usage := usage;
      win_rates := rates;
      matchup_results := matchups;
      average_game_length := average_game_length stats;
      game_length_distribution :=
        count_up (game_length game) (game_length_distribution stats) |},
   total_length + game_length game).

(** The loop that sets ['percentage']; [truediv] is the division of two
    integers, which gives a float. *)
Definition set_percentage (truediv : Z → Z → float) (r : WinRate) : WinRate :=
  if 0 <? rate_total r then
    {| rate_wins := rate_wins r; rate_total := rate_total r;
       rate_percentage :=
         Some (truediv (rate_wins r) (rate_total r) * 100)%float |}
  else r.

(** [get_statistics()]; the left result is the dictionary
    [{"error": "No games recorded"}]. *)
Definition get_statistics (truediv : Z → Z → float)
    (d : GameplayDataCollector) : string + Statistics :=
  match games_data d with
  | [] => inl "No games recorded"
  | _ :: _ =>
      let stats :=
        {| total_games := Z.of_nat (length (games_data d));
           strategy_usage := ∅; win_rates := ∅; matchup_results := ∅;
           average_game_length := 0; game_length_distribution := ∅ |} in
      let '(stats, total_length) := foldl count_game (stats, 0) (games_data d) in
      inr {| total_games := total_games stats;
             strategy_usage := strategy_usage stats;
             win_rates := set_percentage truediv <$> win_rates stats;
             matchup_results := matchup_results stats;
             average_game_length :=
               truediv total_length (Z.of_nat (length (games_data d)));
             game_length_distribution := game_length_distribution stats |}
  end.

(** What the counts of [stats] keep through the loop. *)
Definition counted (stats : Statistics) : Prop :=
  (∀ s, strategy_usage stats !! s = rate_total <$> win_rates stats !! s)
  ∧ (∀ s r, win_rates stats !! s = Some r →
       0 ≤ rate_wins r ≤ rate_total r ∧ 0 < rate_total r
       ∧ rate_percentage r = None)
  ∧ (∀ key r, matchup_results stats !! key = Some r →
       0 ≤ X_wins r ∧ 0 ≤ O_wins r ∧ 0 ≤ ties r
       ∧ 0 < X_wins r + O_wins r + ties r).

(** The number of games of a matchup. *)
Definition games_of (matchup : string) (games : list GameRecord) : Z :=
  Z.of_nat (length (filter (fun game => matchup_of game = matchup) games)).

(** The number of games a matchup has in [stats]. *)
Definition counted_games (stats : Statistics) (matchup : string) : Z :=
  match matchup_results stats !! matchup with
  | Some r => X_wins r + O_wins r + ties r
  | None => 0
  end.

(** [total_length] after the loop. *)
Definition total_length_of (games : list GameRecord) : Z :=
  foldr (fun game n => game_length game + n) 0 games.

(** The rates after the two kinds of addition of one game, by the win that
    is added, if any. *)
Definition rates_after (win : option string) (x o : string)
    (d : gmap string WinRate) : gmap string WinRate :=
  add_total o (add_total x (match win with Some s => add_win s d | None => d end)).

(** ** The matchups of a custom dataset *)

#[global] Instance Strategy_eq_dec : EqDecision Strategy.
Proof. solve_decision. Defined.

(** What the body of the first loop of [create_custom_training_dataset]
    appends for the strategy [strat]: self-play, the other focus
    strategies, and the two games against [RANDOM] when it is not a focus
    strategy. *)
Definition pairs_of (focus_strategies : list Strategy) (strat : Strategy)
    : list (Strategy * Strategy) :=
  [(strat, strat)]
  ++ (focus_strategies ≫= fun other_strat =>
        if bool_decide (strat ≠ other_strat) then [(strat, other_strat)]
        else [])
  ++ (if bool_decide (RANDOM ∉ focus_strategies)
      then [(strat, RANDOM); (RANDOM, strat)] else []).

(** [strategy_pairs] after the first loop. *)
Definition strategy_pairs (focus_strategies : list Strategy)
    : list (Strategy * Strategy) :=
  focus_strategies ≫= pairs_of focus_strategies.

(** The body of the second loop; [seen] holds the elements of
    [unique_pairs] at every point, so one list stands for both. *)
Definition keep_pair (unique_pairs : list (Strategy * Strategy))
    (pair : Strategy * Strategy) : list (Strategy * Strategy) :=
  if bool_decide (pair ∉ unique_pairs)
     && bool_decide ((pair.2, pair.1) ∉ unique_pairs)
  then unique_pairs ++ [pair]
  else unique_pairs.

(** [unique_pairs] after the second loop: the matchups that
    [create_custom_training_dataset] hands to [generate_training_data]. *)
Definition unique_pairs (focus_strategies : list Strategy)
    : list (Strategy * Strategy) :=
  foldl keep_pair [] (strategy_pairs focus_strategies).

(** A score the search gives at depth [depth] with [n] cells free: 0, or ten
    minus the depth of a win of X, or the depth of a win of O minus ten, for
    a win that takes at most [n] more moves. *)
Definition score_at (depth : Z) (n : nat) (z : Z) : Prop :=
  z = 0
  ∨ (10 - depth - Z.of_nat n ≤ z ≤ 10 - depth)
  ∨ (depth - 10 ≤ z ≤ depth + Z.of_nat n - 10).

(** ** Example positions *)

(** A finished game without a winner. *)
Definition drawn_board : Board :=
  [Mark X; Mark O; Mark X; Mark X; Mark O; Mark O; Mark O; Mark X; Mark X].

(** X to move can complete the top row at cell 2. *)
Definition top_row_open : Board :=
  [Mark X; Mark X; Blank; Mark O; Mark O; Blank; Blank; Blank; Blank].

(** O to move; X threatens cell 2 and nothing else, O has no winning move. *)
Definition one_threat_board : Board :=
  [Mark X; Mark X; Blank; Blank; Mark O; Blank; Blank; Blank; Blank].

(** X holds the top row. *)
Definition top_row_board : Board :=
  [Mark X; Mark X; Mark X; Mark O; Mark O; Blank; Blank; Blank; Blank].

(** The trajectory of a training game that O wins on the middle row:
    X plays 0, 1 and 8, O plays 3, 4 and 5. *)
Definition o_wins_game : list (string * Z * player) :=
  [ ("         ", 0, X); ("X        ", 3, O); ("X  O     ", 1, X);
    ("XX O     ", 4, O); ("XX OO    ", 8, X); ("XX OO   X", 5, O) ].

(** That game just before the last move of O, both sides learning. *)
Definition before_o_wins : TicTacToeAI :=
  {| board := [Mark X; Mark X; Blank; Mark O; Mark O; Blank; Blank; Blank; Mark X];
     current_player := O;
     strategy_x := Q_LEARNING; strategy_o := Q_LEARNING;
     q_agent_x := default_agent; q_agent_o := default_agent;
     game_states := take 5 o_wins_game;
     data_collector := {| games_data := []; current_game_id := 0 |};
     current_game_moves := [] |}.

(** An agent that has learnt one value for the centre after X took a
    corner. *)
Definition one_entry_agent : QLearningAgent :=
  with_table default_agent {[ "X        " := {[ 4 := 0.5%float ]} ]}.

(** A collector that holds the record of one game, a win of X in five
    moves. *)
Definition one_game_collector : GameplayDataCollector :=
  {| games_data :=
       [ {| game_id := 0; player_x_strategy := "minimax";
            player_o_strategy := "random";
            moves := [ ("         ", 0, X); ("X        ", 3, O);
                       ("X  O     ", 1, X); ("XX O     ", 4, O);
                       ("XX OO    ", 2, X) ];
            winner := Win X; game_length := 5; timestamp := "" |} ];
     current_game_id := 1 |}.

(** * Properties *)

(** Case analysis on the comparisons inside the order of binary64 numbers. *)
Ltac sf_cases :=
  repeat match goal with
  | |- context [Z.compare ?a ?b] => destruct (Z.compare_spec a b)
  | |- context [Pos.compare_cont Eq ?a ?b] =>
      change (Pos.compare_cont Eq a b) with (Pos.compare a b);
      destruct (Pos.compare_spec a b)
  end; simpl; try done; try lia.

(** ** Rules engine *)

Section RulesFacts.

Implicit Types (b : Board) (c d : cell) (p q : player) (i : Z).

Lemma player_eqb_eq p q : player_eqb p q = true ↔ p = q.
Proof. destruct p, q; simpl; split; congruence. Qed.

Lemma cell_eqb_eq c d : cell_eqb c d = true ↔ c = d.
Proof.
  destruct c as [|p], d as [|q]; simpl; try (split; congruence).
  rewrite player_eqb_eq. split; congruence.
Qed.

Lemma cell_eqb_neq c d : cell_eqb c d = false ↔ c ≠ d.
Proof.
  rewrite <- cell_eqb_eq. destruct (cell_eqb c d); split; congruence.
Qed.

Lemma verdict_eqb_eq (v w : verdict) : verdict_eqb v w = true ↔ v = w.
Proof.
  destruct v as [c|], w as [d|]; simpl; try (split; congruence).
  rewrite cell_eqb_eq. split; congruence.
Qed.

Lemma line_complete_owned b combo :
  line_complete b combo = true ↔ ∃ p, line_owned b p combo.
Proof.
  destruct combo as [[c0 c1] c2]. unfold line_complete, line_owned. simpl.
  rewrite !andb_true_iff, negb_true_iff, !cell_eqb_eq, cell_eqb_neq.
  split.
  - intros [[H01 H12] H2].
    destruct (cell_at b c2) as [|p] eqn:E2; [done|].
    exists p. by rewrite H01, H12.
  - intros (p & -> & -> & ->). done.
Qed.

Lemma scan_lines_some b combos c :
  scan_lines b combos = Some c →
  ∃ p combo, c = Mark p ∧ combo ∈ combos ∧ line_owned b p combo.
Proof.
  induction combos as [|combo rest IH]; simpl; [done|].
  destruct (line_complete b combo) eqn:E.
  - intros [= <-]. apply line_complete_owned in E as [p Hp].
    exists p, combo. split; [apply Hp|]. split; [left|done].
  - intros (p & combo' & ? & ? & ?)%IH.
    exists p, combo'. split; [done|]. split; [by right|done].
Qed.

Lemma scan_lines_none b combos :
  scan_lines b combos = None ↔
  ∀ p combo, combo ∈ combos → ¬ line_owned b p combo.
Proof.
  induction combos as [|combo rest IH]; simpl.
  - split; [|done]. intros _ p combo Hin. by apply elem_of_nil in Hin.
  - destruct (line_complete b combo) eqn:E.
    + split; [done|]. intros H. exfalso.
      apply line_complete_owned in E as [p Hp].
      apply (H p combo); [left|done].
    + rewrite IH. split.
      * intros H p combo' [->|Hin]%elem_of_cons; [|by apply H].
        intros Hp. assert (line_complete b combo = true); [|congruence].
        apply line_complete_owned. by exists p.
      * intros H p combo' Hin. apply H. by right.
Qed.

Lemma no_blank_spec b : no_blank b = true ↔ Blank ∉ b.
Proof.
  unfold no_blank. rewrite forallb_forall. split.
  - intros H Hin. apply list_elem_of_In, H in Hin. done.
  - intros H c Hin%list_elem_of_In. apply negb_true_iff, cell_eqb_neq.
    intros ->. done.
Qed.

Lemma no_blank_false b : no_blank b = false ↔ Blank ∈ b.
Proof.
  destruct (no_blank b) eqn:E.
  - apply no_blank_spec in E. split; [done|]. intros; done.
  - split; [|done]. intros _.
    destruct (decide (Blank ∈ b)) as [|Hn]; [done|].
    apply no_blank_spec in Hn. congruence.
Qed.

(** The table of the program lists the rows, the columns and the diagonals. *)
Lemma wins_rows_columns_diagonals : wins = rows ++ columns ++ diagonals.
Proof. reflexivity. Qed.

(** A verdict that names a cell names a mark, never the blank. *)
Lemma check_winner_won b c :
  check_winner b = Some (Won c) →
  ∃ p combo, c = Mark p ∧ combo ∈ wins ∧ line_owned b p combo.
Proof.
  unfold check_winner. destruct (scan_lines b wins) as [c'|] eqn:E.
  - intros [= <-]. by apply scan_lines_some.
  - by destruct (no_blank b).
Qed.

Lemma check_winner_tie b :
  check_winner b = Some Tie ↔
  (∀ p combo, combo ∈ wins → ¬ line_owned b p combo) ∧ Blank ∉ b.
Proof.
  unfold check_winner. destruct (scan_lines b wins) as [c'|] eqn:E.
  - split; [done|]. intros [H _].
    apply (proj2 (scan_lines_none b wins)) in H. congruence.
  - pose proof (proj1 (scan_lines_none b wins) E) as Hno. destruct (no_blank b) eqn:Eb.
    + apply no_blank_spec in Eb. done.
    + apply no_blank_false in Eb. split; [done|]. intros [_ ?]; done.
Qed.

Lemma check_winner_none b :
  check_winner b = None ↔
  (∀ p combo, combo ∈ wins → ¬ line_owned b p combo) ∧ Blank ∈ b.
Proof.
  unfold check_winner. destruct (scan_lines b wins) as [c'|] eqn:E.
  - split; [done|]. intros [H _].
    apply (proj2 (scan_lines_none b wins)) in H. congruence.
  - pose proof (proj1 (scan_lines_none b wins) E) as Hno. destruct (no_blank b) eqn:Eb.
    + apply no_blank_spec in Eb. split; [done|]. intros [_ ?]; done.
    + apply no_blank_false in Eb. done.
Qed.

End RulesFacts.

(** C5. On a nine-cell board [check_winner] looks at the eight lines (three
    rows, three columns, two diagonals). If some player holds all three
    cells of some line, it returns the mark of a player who holds a line.
    If no line is held, it returns the tie exactly when no cell is blank and
    nothing exactly when some cell is blank. A tie is never returned for a
    board on which a line is held. *)
Theorem check_winner_outcome (b : Board) :
  length b = 9%nat →
  wins = rows ++ columns ++ diagonals
  ∧ ((∃ p combo, combo ∈ wins ∧ line_owned b p combo) →
     ∃ q combo, combo ∈ wins ∧ line_owned b q combo
                ∧ check_winner b = Some (Win q))
  ∧ ((¬ ∃ p combo, combo ∈ wins ∧ line_owned b p combo) →
     (check_winner b = Some Tie ↔ Blank ∉ b)
     ∧ (check_winner b = None ↔ Blank ∈ b))
  ∧ (check_winner b = Some Tie →
     ¬ ∃ p combo, combo ∈ wins ∧ line_owned b p combo).
Proof.
  intros _. split; [reflexivity|]. split; [|split].
  - intros (p & combo & Hin & Hp).
    destruct (check_winner b) as [[c|]|] eqn:E.
    + apply check_winner_won in E as (q & combo' & -> & ? & ?).
      by exists q, combo'.
    + apply check_winner_tie in E as [H _]. by destruct (H p combo).
    + apply check_winner_none in E as [H _]. by destruct (H p combo).
  - intros Hno.
    assert (∀ p combo, combo ∈ wins → ¬ line_owned b p combo) as Hno'.
    { intros p combo Hin Hp. apply Hno. by exists p, combo. }
    rewrite check_winner_tie, check_winner_none. tauto.
  - intros Htie (p & combo & Hin & Hp).
    apply check_winner_tie in Htie as [Hno _]. by apply (Hno p combo).
Qed.

(** The board of a drawn game and a board with a completed top row. *)
Lemma check_winner_outcome_witness :
  (check_winner drawn_board = Some Tie ↔ Blank ∉ drawn_board)
  ∧ ∃ q combo, combo ∈ wins ∧ line_owned top_row_board q combo
      ∧ check_winner top_row_board = Some (Win q).
Proof.
  split.
  - refine (proj1 (proj1 (proj2 (proj2
      (check_winner_outcome drawn_board eq_refl))) _)).
    intros (p & combo & Hin & Hp). revert Hp.
    repeat (apply elem_of_cons in Hin as [->|Hin];
            [by destruct p; intros (? & ? & ?)|]).
    by apply elem_of_nil in Hin.
  - refine (proj1 (proj2 (check_winner_outcome top_row_board eq_refl)) _).
    exists X, (0, 1, 2). split; [left|done].
Defined.

(** ** Board updates and available moves *)

Section BoardFacts.

Implicit Types (b : Board) (c : cell) (p : player) (m i : Z).

Lemma available_spec b m :
  m ∈ get_available_moves b ↔ (0 ≤ m < 9) ∧ cell_at b m = Blank.
Proof.
  unfold get_available_moves, range9.
  rewrite list_elem_of_filter, elem_of_seqZ, cell_eqb_eq. intuition lia.
Qed.

Lemma filter_sorted {A} (R : relation A) (P : A → Prop)
    `{!∀ x, Decision (P x)} (l : list A) :
  StronglySorted R l → StronglySorted R (filter P l).
Proof.
  induction 1 as [|x l Hs IH Hall]; [constructor|].
  rewrite filter_cons. case_decide; [|done].
  constructor; [done|].
  apply Forall_forall. intros y [_ Hy]%list_elem_of_filter.
  by eapply Forall_forall in Hall.
Qed.

(** The available moves come in ascending order of the cell index. *)
Lemma available_ascending b : StronglySorted Z.lt (get_available_moves b).
Proof.
  apply filter_sorted. unfold range9. cbv [seqZ Z.to_nat Pos.to_nat Pos.iter_op
    Init.Nat.add seq fmap list_fmap Z.add Z.of_nat Pos.of_succ_nat Pos.succ].
  repeat (constructor; [|repeat (constructor; [lia|]); constructor]).
  constructor.
Qed.

Lemma set_cell_length b m c : length (set_cell b m c) = length b.
Proof. apply length_insert. Qed.

Lemma cell_at_set_same b m c :
  (Z.to_nat m < length b)%nat → cell_at (set_cell b m c) m = c.
Proof.
  intros H. unfold cell_at, set_cell. by rewrite list_lookup_insert_eq.
Qed.

Lemma cell_at_set_other b m i c :
  Z.to_nat m ≠ Z.to_nat i → cell_at (set_cell b m c) i = cell_at b i.
Proof.
  intros H. unfold cell_at, set_cell. by rewrite list_lookup_insert_ne.
Qed.

(** Writing a mark into a blank cell and clearing the cell again gives the
    board back. *)
Lemma set_cell_restore b m c :
  cell_at b m = Blank → set_cell (set_cell b m c) m Blank = b.
Proof.
  intros H. unfold set_cell. rewrite list_insert_insert_eq.
  apply list_insert_id'. intros Hlt. unfold cell_at in H.
  destruct (b !! Z.to_nat m) as [d|] eqn:E; simpl in H; [congruence|].
  apply lookup_ge_None in E. lia.
Qed.

Lemma available_blank b :
  Forall (fun m => cell_at b m = Blank) (get_available_moves b).
Proof. apply Forall_forall. by intros m [_ ?]%available_spec. Qed.

Lemma filter_length_lt {A} (P1 P2 : A → Prop)
    `{!∀ x, Decision (P1 x), !∀ x, Decision (P2 x)} (l : list A) (x : A) :
  (∀ y, y ∈ l → P1 y → P2 y) → x ∈ l → P2 x → ¬ P1 x →
  (length (filter P1 l) < length (filter P2 l))%nat.
Proof.
  intros Himp Hin H2 H1.
  induction l as [|y l IH]; [by apply elem_of_nil in Hin|].
  assert (length (filter P1 l) ≤ length (filter P2 l))%nat as Hle.
  { clear -Himp. induction l as [|z l IH]; [done|].
    rewrite !filter_cons.
    assert (length (filter P1 l) ≤ length (filter P2 l))%nat.
    { apply IH. intros u Hu. apply Himp.
      apply elem_of_cons in Hu as [->|Hu]; [left|right; by right]. }
    destruct (decide (P1 z)) as [HP|HP].
    - rewrite decide_True; [simpl; lia|].
      apply Himp; [right; left|done].
    - destruct (decide (P2 z)); simpl; lia. }
  rewrite !filter_cons. apply elem_of_cons in Hin as [<-|Hin].
  - rewrite (decide_False (P:=P1 x)), (decide_True (P:=P2 x)) by done.
    simpl. lia.
  - assert (length (filter P1 l) < length (filter P2 l))%nat.
    { apply IH; [|done]. intros u Hu. apply Himp. by right. }
    destruct (decide (P1 y)) as [HP|HP].
    + rewrite decide_True; [simpl; lia|]. apply Himp; [left|done].
    + destruct (decide (P2 y)); simpl; lia.
Qed.

(** Playing an available move leaves fewer available moves. *)
Lemma available_after_move b m p :
  length b = 9%nat → m ∈ get_available_moves b →
  (length (get_available_moves (set_cell b m (Mark p)))
   < length (get_available_moves b))%nat.
Proof.
  intros Hlen Hm. pose proof Hm as [Hr Hb]%available_spec.
  unfold get_available_moves.
  apply filter_length_lt with (x := m).
  - intros i [Hi _]%elem_of_seqZ. rewrite !cell_eqb_eq.
    destruct (decide (i = m)) as [->|Hne].
    + rewrite cell_at_set_same by lia. done.
    + rewrite cell_at_set_other by lia. done.
  - apply elem_of_seqZ. lia.
  - by apply cell_eqb_eq.
  - rewrite cell_eqb_eq, cell_at_set_same by lia. done.
Qed.

(** A nine-cell board with a blank cell has an available move. *)
Lemma available_nonempty b :
  length b = 9%nat → Blank ∈ b → get_available_moves b ≠ [].
Proof.
  intros Hlen (i & Hi)%list_elem_of_lookup Hnil.
  assert (Z.of_nat i ∈ get_available_moves b) as Hin.
  { apply available_spec. apply lookup_lt_Some in Hi as Hlt. split; [lia|].
    unfold cell_at. by rewrite Nat2Z.id, Hi. }
  rewrite Hnil in Hin. by apply elem_of_nil in Hin.
Qed.

Lemma available_empty b :
  length b = 9%nat → Blank ∉ b → get_available_moves b = [].
Proof.
  intros Hlen Hno. destruct (get_available_moves b) as [|m l] eqn:E; [done|].
  assert (m ∈ get_available_moves b) as [Hr Hb]%available_spec
    by (rewrite E; left).
  exfalso. apply Hno. unfold cell_at in Hb.
  destruct (b !! Z.to_nat m) as [c|] eqn:Ec; simpl in Hb.
  - subst c. apply list_elem_of_lookup. eauto.
  - apply lookup_ge_None in Ec. lia.
Qed.

End BoardFacts.

(** ** Adversarial search *)

Section SearchFacts.

Implicit Types (b : Board) (p : player) (m d : Z) (s t u : ext).

Lemma max_loop_board search moves s0 alpha beta b s b' :
  restores search →
  Forall (fun m => cell_at b m = Blank) moves →
  max_loop search moves s0 alpha beta b = Some (s, b') → b' = b.
Proof.
  intros Hsearch Hblank.
  revert s0 alpha. induction Hblank as [|m rest Hm _ IH]; intros s0 alpha; simpl.
  - by intros [= _ <-].
  - destruct (search alpha beta (set_cell b m (Mark X))) as [[e b1]|] eqn:E;
      simpl; [|done].
    apply Hsearch in E as ->. rewrite set_cell_restore by done.
    destruct (ext_leb beta (ext_max alpha e)); [by intros [= _ <-]|apply IH].
Qed.

Lemma min_loop_board search moves s0 alpha beta b s b' :
  restores search →
  Forall (fun m => cell_at b m = Blank) moves →
  min_loop search moves s0 alpha beta b = Some (s, b') → b' = b.
Proof.
  intros Hsearch Hblank.
  revert s0 beta. induction Hblank as [|m rest Hm _ IH]; intros s0 beta; simpl.
  - by intros [= _ <-].
  - destruct (search alpha beta (set_cell b m (Mark O))) as [[e b1]|] eqn:E;
      simpl; [|done].
    apply Hsearch in E as ->. rewrite set_cell_restore by done.
    destruct (ext_leb (ext_min beta e) alpha); [by intros [= _ <-]|apply IH].
Qed.

(** [minimax] leaves the board as it found it. *)
Lemma minimax_board fuel d is_maximizing alpha beta b s b' :
  minimax fuel d is_maximizing alpha beta b = Some (s, b') → b' = b.
Proof.
  revert d is_maximizing alpha beta b s b'.
  induction fuel as [|fuel IH]; intros d im alpha beta b s b'; simpl; [done|].
  destruct (winner_is (check_winner b) (Win X)); [by intros [= _ <-]|].
  destruct (winner_is (check_winner b) (Win O)); [by intros [= _ <-]|].
  destruct (winner_is (check_winner b) Tie); [by intros [= _ <-]|].
  destruct im.
  - apply max_loop_board; [|apply available_blank].
    intros ? ? ? ? ?. apply IH.
  - apply min_loop_board; [|apply available_blank].
    intros ? ? ? ? ?. apply IH.
Qed.

Lemma max_loop_mono search search' moves s0 alpha beta b r :
  (∀ alpha' beta' b' r', search alpha' beta' b' = Some r' →
                         search' alpha' beta' b' = Some r') →
  max_loop search moves s0 alpha beta b = Some r →
  max_loop search' moves s0 alpha beta b = Some r.
Proof.
  intros Hsub. revert s0 alpha b.
  induction moves as [|m rest IH]; intros s0 alpha b; simpl; [done|].
  destruct (search alpha beta (set_cell b m (Mark X))) as [[e b1]|] eqn:E;
    simpl; [|done].
  rewrite (Hsub _ _ _ _ E). simpl.
  destruct (ext_leb beta (ext_max alpha e)); [done|apply IH].
Qed.

Lemma min_loop_mono search search' moves s0 alpha beta b r :
  (∀ alpha' beta' b' r', search alpha' beta' b' = Some r' →
                         search' alpha' beta' b' = Some r') →
  min_loop search moves s0 alpha beta b = Some r →
  min_loop search' moves s0 alpha beta b = Some r.
Proof.
  intros Hsub. revert s0 beta b.
  induction moves as [|m rest IH]; intros s0 beta b; simpl; [done|].
  destruct (search alpha beta (set_cell b m (Mark O))) as [[e b1]|] eqn:E;
    simpl; [|done].
  rewrite (Hsub _ _ _ _ E). simpl.
  destruct (ext_leb (ext_min beta e) alpha); [done|apply IH].
Qed.

(** The fuel only bounds the recursion: a result obtained with some fuel is
    the result with any larger fuel. *)
Lemma minimax_more_fuel fuel fuel' d is_maximizing alpha beta b r :
  (fuel ≤ fuel')%nat →
  minimax fuel d is_maximizing alpha beta b = Some r →
  minimax fuel' d is_maximizing alpha beta b = Some r.
Proof.
  revert fuel' d is_maximizing alpha beta b r.
  induction fuel as [|fuel IH]; intros fuel' d im alpha beta b r Hle; [done|].
  destruct fuel' as [|fuel']; [lia|]. simpl.
  destruct (winner_is (check_winner b) (Win X)); [done|].
  destruct (winner_is (check_winner b) (Win O)); [done|].
  destruct (winner_is (check_winner b) Tie); [done|].
  destruct im.
  - apply max_loop_mono. intros ? ? ? ?. apply IH. lia.
  - apply min_loop_mono. intros ? ? ? ?. apply IH. lia.
Qed.

(** The score of a board on which the game is over. *)
Lemma minimax_terminal fuel d is_maximizing alpha beta b :
  (check_winner b = Some (Win X) →
   minimax (S fuel) d is_maximizing alpha beta b = Some (Fin (10 - d), b))
  ∧ (check_winner b = Some (Win O) →
     minimax (S fuel) d is_maximizing alpha beta b = Some (Fin (d - 10), b))
  ∧ (check_winner b = Some Tie →
     minimax (S fuel) d is_maximizing alpha beta b = Some (Fin 0, b)).
Proof.
  simpl. repeat split; intros ->; reflexivity.
Qed.

End SearchFacts.

Section BestMoveFacts.

Implicit Types (b : Board) (p : player) (m d : Z) (s t u : ext).

Lemma max_loop_total search moves s0 alpha beta b :
  (∀ m alpha' beta', m ∈ moves →
     ∃ z, search alpha' beta' (set_cell b m (Mark X))
          = Some (Fin z, set_cell b m (Mark X))) →
  Forall (fun m => cell_at b m = Blank) moves →
  s0 ≠ PosInf → moves ≠ [] ∨ s0 ≠ NegInf →
  ∃ z, max_loop search moves s0 alpha beta b = Some (Fin z, b).
Proof.
  intros Hsearch Hblank. revert s0 alpha Hsearch.
  induction Hblank as [|m rest Hm _ IH]; intros s0 alpha Hsearch Hpos Hne; simpl.
  - destruct s0 as [|z|]; [by destruct Hne|by exists z|done].
  - destruct (Hsearch m alpha beta) as [z ->]; [left|]. simpl.
    rewrite set_cell_restore by done.
    assert (∃ w, ext_max s0 (Fin z) = Fin w) as [w ->].
    { destruct s0 as [|y|]; unfold ext_max; simpl;
        [by eexists|destruct (y <? z); by eexists|done]. }
    destruct (ext_leb beta (ext_max alpha (Fin z))); [by exists w|].
    apply IH; [|done|by right].
    intros m' a' b' Hin. apply Hsearch. by right.
Qed.

Lemma min_loop_total search moves s0 alpha beta b :
  (∀ m alpha' beta', m ∈ moves →
     ∃ z, search alpha' beta' (set_cell b m (Mark O))
          = Some (Fin z, set_cell b m (Mark O))) →
  Forall (fun m => cell_at b m = Blank) moves →
  s0 ≠ NegInf → moves ≠ [] ∨ s0 ≠ PosInf →
  ∃ z, min_loop search moves s0 alpha beta b = Some (Fin z, b).
Proof.
  intros Hsearch Hblank. revert s0 beta Hsearch.
  induction Hblank as [|m rest Hm _ IH]; intros s0 beta Hsearch Hneg Hne; simpl.
  - destruct s0 as [|z|]; [done|by exists z|by destruct Hne].
  - destruct (Hsearch m alpha beta) as [z ->]; [left|]. simpl.
    rewrite set_cell_restore by done.
    assert (∃ w, ext_min s0 (Fin z) = Fin w) as [w ->].
    { destruct s0 as [|y|]; unfold ext_min; simpl;
        [done|destruct (z <? y); by eexists|by eexists]. }
    destruct (ext_leb (ext_min beta (Fin z)) alpha); [by exists w|].
    apply IH; [|done|by right].
    intros m' a' b' Hin. apply Hsearch. by right.
Qed.

(** With more fuel than blank cells, [minimax] on a nine-cell board returns an
    integer score and the board unchanged. *)
Lemma minimax_total fuel d is_maximizing alpha beta b :
  length b = 9%nat → (length (get_available_moves b) < fuel)%nat →
  ∃ z, minimax fuel d is_maximizing alpha beta b = Some (Fin z, b).
Proof.
  revert d is_maximizing alpha beta b.
  induction fuel as [|fuel IH]; intros d im alpha beta b Hlen Hfuel; [lia|].
  simpl.
  destruct (winner_is (check_winner b) (Win X)) eqn:EX; [by eexists|].
  destruct (winner_is (check_winner b) (Win O)) eqn:EO; [by eexists|].
  destruct (winner_is (check_winner b) Tie) eqn:ET; [by eexists|].
  assert (get_available_moves b ≠ []) as Hne.
  { apply available_nonempty; [done|].
    destruct (check_winner b) as [[c|]|] eqn:E.
    - apply check_winner_won in E as (q & combo & -> & _).
      destruct q; simpl in *; congruence.
    - simpl in ET. congruence.
    - by apply check_winner_none in E as [_ ?]. }
  destruct im.
  - apply max_loop_total; [|apply available_blank|done|by left].
    intros m a' b' Hin. apply IH; [by rewrite set_cell_length|].
    pose proof (available_after_move b m X Hlen Hin). lia.
  - apply min_loop_total; [|apply available_blank|done|by left].
    intros m a' b' Hin. apply IH; [by rewrite set_cell_length|].
    pose proof (available_after_move b m O Hlen Hin). lia.
Qed.

End BestMoveFacts.

Section BestLoopFacts.

Implicit Types (b : Board) (p : player) (m d : Z) (s t u : ext).

Lemma improves_trans p s t u :
  improves p s t = true → improves p t u = true → improves p s u = true.
Proof.
  destruct p, s, t, u; simpl; rewrite ?Z.ltb_lt; try done; lia.
Qed.

Lemma improves_after_keep p s t u :
  improves p t u = false → improves p s u = true → improves p s t = true.
Proof.
  destruct p, s, t, u; simpl; rewrite ?Z.ltb_lt, ?Z.ltb_ge; try done; lia.
Qed.

(** Each candidate of a nine-cell board gets an integer score. *)
Lemma candidate_total p b m :
  length b = 9%nat → m ∈ get_available_moves b →
  ∃ z, minimax (search_fuel (set_cell b m (Mark p))) 0 (player_eqb p O)
         NegInf PosInf (set_cell b m (Mark p))
       = Some (Fin z, set_cell b m (Mark p)).
Proof.
  intros Hlen Hm. apply minimax_total; [by rewrite set_cell_length|].
  unfold search_fuel. lia.
Qed.

Lemma candidate_score_total p b m :
  length b = 9%nat → m ∈ get_available_moves b →
  ∃ z, candidate_score p b m = Some (Fin z).
Proof.
  intros Hlen Hm. destruct (candidate_total p b m Hlen Hm) as [z Hz].
  exists z. unfold candidate_score. by rewrite Hz.
Qed.

(** The candidate move itself is not counted in the depth: a candidate that
    wins at once is searched at depth 0. *)
Lemma candidate_score_immediate_win p b m :
  wins_at p b m = true →
  candidate_score p b m = Some (Fin (match p with X => 10 | O => -10 end)).
Proof.
  unfold wins_at, candidate_score, search_fuel. intros Hw. simpl.
  destruct p; simpl in Hw |- *; rewrite Hw; [done|].
  destruct (winner_is _ (Win X)) eqn:EX; [|done].
  destruct (check_winner _) as [[[|[|]]|]|]; simpl in *; done.
Qed.

(** One pass of the loop of [get_best_move] on a candidate with score [z]. *)
Lemma best_loop_cons p m rest best_score best_move b z :
  cell_at b m = Blank →
  minimax (search_fuel (set_cell b m (Mark p))) 0 (player_eqb p O)
    NegInf PosInf (set_cell b m (Mark p)) = Some (Fin z, set_cell b m (Mark p)) →
  best_loop p (m :: rest) best_score best_move b
  = if improves p (Fin z) best_score
    then best_loop p rest (Fin z) m b
    else best_loop p rest best_score best_move b.
Proof.
  intros Hm Hz. cbn [best_loop]. rewrite Hz. cbn [mbind option_bind].
  rewrite set_cell_restore by done.
  destruct p; cbn [player_eqb improves andb]; [|done].
  by destruct (ext_ltb best_score (Fin z)).
Qed.

(** The loop of [get_best_move] keeps the board, and either keeps the best
    candidate it started with, which no candidate improved on, or ends with
    a candidate of the list that improves on the start, on every candidate
    before it, and on which no later candidate improves. *)
Lemma best_loop_spec p moves best_score best_move b :
  length b = 9%nat → (∀ m, m ∈ moves → m ∈ get_available_moves b) →
  ∃ m, best_loop p moves best_score best_move b = Some (m, b)
    ∧ ((m = best_move
        ∧ ∀ m' t, m' ∈ moves → candidate_score p b m' = Some t →
                  improves p t best_score = false)
       ∨ (∃ l1 l2 z, moves = l1 ++ m :: l2
            ∧ candidate_score p b m = Some (Fin z)
            ∧ improves p (Fin z) best_score = true
            ∧ (∀ m' t, m' ∈ l1 → candidate_score p b m' = Some t →
                       improves p (Fin z) t = true)
            ∧ (∀ m' t, m' ∈ l2 → candidate_score p b m' = Some t →
                       improves p t (Fin z) = false))).
Proof.
  intros Hlen. revert best_score best_move.
  induction moves as [|m rest IH]; intros bs bm Hav.
  - exists bm. split; [done|]. left. split; [done|].
    intros m' t Hin. by apply elem_of_nil in Hin.
  - assert (m ∈ get_available_moves b) as Hm by (apply Hav; left).
    assert (∀ m', m' ∈ rest → m' ∈ get_available_moves b) as Hav'
      by (intros m' ?; apply Hav; by right).
    destruct (candidate_total p b m Hlen Hm) as [z Hz].
    assert (candidate_score p b m = Some (Fin z)) as Hsc
      by (unfold candidate_score; by rewrite Hz).
    apply available_spec in Hm as [_ Hblank].
    rewrite (best_loop_cons p m rest bs bm b z Hblank Hz).
    destruct (improves p (Fin z) bs) eqn:Eimp.
    + destruct (IH (Fin z) m Hav') as (m1 & -> & Hcase). exists m1.
      split; [done|]. right.
      destruct Hcase as [[-> Hnone]|(l1 & l2 & z1 & -> & Hz1 & Hi & H1 & H2)].
      * exists [], rest, z. repeat split; try done.
        intros m' t Hin. by apply elem_of_nil in Hin.
      * exists (m :: l1), l2, z1. repeat split; try done.
        -- by eapply improves_trans.
        -- intros m' t [->|Hin]%elem_of_cons Ht; [|by eapply H1].
           rewrite Hsc in Ht. by injection Ht as <-.
    + destruct (IH bs bm Hav') as (m1 & -> & Hcase). exists m1.
      split; [done|].
      destruct Hcase as [[-> Hnone]|(l1 & l2 & z1 & -> & Hz1 & Hi & H1 & H2)].
      * left. split; [done|].
        intros m' t [->|Hin]%elem_of_cons Ht; [|by eapply Hnone].
        rewrite Hsc in Ht. by injection Ht as <-.
      * right. exists (m :: l1), l2, z1. repeat split; try done.
        intros m' t [->|Hin]%elem_of_cons Ht; [|by eapply H1].
        rewrite Hsc in Ht. injection Ht as <-.
        by eapply improves_after_keep.
Qed.

(** [get_best_move] on a nine-cell board with a blank cell: the board is
    kept, and the answer is an available cell whose score no candidate
    improves on and which improves on every candidate listed before it. *)
Lemma get_best_move_spec p b :
  length b = 9%nat → Blank ∈ b →
  ∃ m z l1 l2, get_best_move p b = Some (m, b)
    ∧ get_available_moves b = l1 ++ m :: l2
    ∧ candidate_score p b m = Some (Fin z)
    ∧ (∀ m' t, m' ∈ l1 → candidate_score p b m' = Some t →
               improves p (Fin z) t = true)
    ∧ (∀ m' t, m' ∈ l2 → candidate_score p b m' = Some t →
               improves p t (Fin z) = false).
Proof.
  intros Hlen Hblank. unfold get_best_move.
  destruct (best_loop_spec p (get_available_moves b)
              (if player_eqb p X then NegInf else PosInf) (-1) b Hlen)
    as (m & Hrun & Hcase); [done|].
  destruct Hcase as [[-> Hnone]|(l1 & l2 & z & Hsplit & Hz & _ & H1 & H2)].
  - exfalso. pose proof (available_nonempty b Hlen Hblank) as Hne.
    destruct (get_available_moves b) as [|m0 l] eqn:E; [done|].
    assert (m0 ∈ get_available_moves b) as Hm0 by (rewrite E; left).
    destruct (candidate_score_total p b m0 Hlen Hm0) as [z Hz].
    specialize (Hnone m0 (Fin z) ltac:(left) Hz). by destruct p.
  - by exists m, z, l1, l2.
Qed.

End BestLoopFacts.

Lemma is_valid_move_available (b : Board) (m : Z) :
  is_valid_move b m = true ↔ m ∈ get_available_moves b.
Proof.
  unfold is_valid_move.
  rewrite available_spec, !andb_true_iff, Z.leb_le, Z.ltb_lt, cell_eqb_eq.
  tauto.
Qed.

(** C4. On a nine-cell board on which the game is not over, [get_best_move]
    returns an available cell and leaves the board as it was, so calling it
    again gives the same cell. The cell returned has the best score of all
    candidates (greatest for X, least for O), and every available cell with
    a smaller index has a strictly worse score: among equal scores the first
    one in ascending order of the index is kept, the comparison that
    replaces the best candidate being strict. *)
Theorem get_best_move_first_best (p : player) (b : Board) :
  length b = 9%nat → check_winner b = None →
  ∃ m z,
    get_best_move p b = Some (m, b)
    ∧ (mb ← get_best_move p b; get_best_move p mb.2) = Some (m, b)
    ∧ m ∈ get_available_moves b
    ∧ candidate_score p b m = Some (Fin z)
    ∧ ∀ m' z', m' ∈ get_available_moves b →
        candidate_score p b m' = Some (Fin z') →
        match p with
        | X => z' ≤ z ∧ (m' < m → z' < z)
        | O => z ≤ z' ∧ (m' < m → z < z')
        end.
Proof.
  intros Hlen [_ Hblank]%check_winner_none.
  destruct (get_best_move_spec p b Hlen Hblank)
    as (m & z & l1 & l2 & Hrun & Hsplit & Hz & H1 & H2).
  exists m, z. split; [done|]. split; [by rewrite Hrun; simpl|].
  split; [rewrite Hsplit; apply elem_of_app; right; left|].
  split; [done|].
  pose proof (available_ascending b) as Hsorted. rewrite Hsplit in Hsorted.
  assert (∀ x, x ∈ l1 → x < m) as Hbefore.
  { intros x Hx. eapply StronglySorted_app_1_elem_of; [done..|left]. }
  assert (∀ x, x ∈ l2 → m < x) as Hafter.
  { intros x Hx. apply StronglySorted_app_1_r in Hsorted.
    apply StronglySorted_inv in Hsorted as [_ Hall].
    by eapply Forall_forall in Hall. }
  intros m' z' Hin Hz'. rewrite Hsplit in Hin.
  apply elem_of_app in Hin as [Hin|[->|Hin]%elem_of_cons].
  - specialize (H1 m' (Fin z') Hin Hz').
    destruct p; simpl in H1; apply Z.ltb_lt in H1; lia.
  - rewrite Hz in Hz'. injection Hz' as <-. destruct p; lia.
  - specialize (H2 m' (Fin z') Hin Hz'). apply Hafter in Hin.
    destruct p; simpl in H2; apply Z.ltb_ge in H2; lia.
Qed.

(** On the empty board every opening scores 0 for X; the first one is kept. *)
Example get_best_move_empty_board :
  get_best_move X empty_board = Some (0, empty_board)
  ∧ Forall (fun m => candidate_score X empty_board m = Some (Fin 0)) range9.
Proof. split; [by vm_compute|]. repeat constructor; by vm_compute. Qed.

(** With X to move on [top_row_open] the search is defined and returns a
    cell of best score. *)
Lemma get_best_move_first_best_witness :
  ∃ m z,
    get_best_move X top_row_open = Some (m, top_row_open)
    ∧ (mb ← get_best_move X top_row_open; get_best_move X mb.2)
      = Some (m, top_row_open)
    ∧ m ∈ get_available_moves top_row_open
    ∧ candidate_score X top_row_open m = Some (Fin z)
    ∧ ∀ m' z', m' ∈ get_available_moves top_row_open →
        candidate_score X top_row_open m' = Some (Fin z') →
        z' ≤ z ∧ (m' < m → z' < z).
Proof.
  exact (get_best_move_first_best X top_row_open eq_refl eq_refl).
Defined.

(** C10. On a nine-cell board without a blank cell [get_best_move] returns
    [-1], which is no cell index and which [is_valid_move] rejects. In
    general the cell returned on a nine-cell board is a valid move exactly
    when the board has a blank cell. *)
Theorem get_best_move_full_board (p : player) (b : Board) :
  length b = 9%nat →
  (Blank ∉ b →
   get_best_move p b = Some (-1, b)
   ∧ is_valid_move b (-1) = false ∧ ((-1) ∉ range9) ∧ ¬ (0 ≤ -1 < 8))
  ∧ (∀ m b', get_best_move p b = Some (m, b') →
       is_valid_move b m = true ↔ Blank ∈ b).
Proof.
  intros Hlen.
  assert (Blank ∉ b → get_best_move p b = Some (-1, b)) as Hfull.
  { intros Hno. unfold get_best_move.
    by rewrite (available_empty b Hlen Hno). }
  split.
  - intros Hno. split; [by apply Hfull|]. split; [done|]. split; [|lia].
    unfold range9. rewrite elem_of_seqZ. lia.
  - intros m b' Hrun. destruct (decide (Blank ∈ b)) as [Hin|Hno].
    + destruct (get_best_move_spec p b Hlen Hin)
        as (m1 & z & l1 & l2 & Hrun' & Hsplit & _).
      rewrite Hrun' in Hrun. injection Hrun as <- <-.
      split; [done|]. intros _. apply is_valid_move_available.
      rewrite Hsplit. apply elem_of_app. right. left.
    + rewrite (Hfull Hno) in Hrun. injection Hrun as <- <-.
      split; [|done]. unfold is_valid_move. simpl. done.
Qed.

(** The drawn board has no blank cell: the search answers [-1]. *)
Lemma get_best_move_full_board_witness :
  get_best_move X drawn_board = Some (-1, drawn_board)
  ∧ is_valid_move drawn_board (-1) = false ∧ ((-1) ∉ range9) ∧ ¬ (0 ≤ -1 < 8).
Proof.
  apply (get_best_move_full_board X drawn_board eq_refl).
  intros Hin. unfold drawn_board in Hin.
  repeat (apply elem_of_cons in Hin as [Hin|Hin]; [discriminate Hin|]).
  by apply elem_of_nil in Hin.
Defined.

(** ** Defensive heuristic *)

Section DefensiveFacts.

Implicit Types (b : Board) (p who : player) (m : Z) (k : nat).

(** The trial loop returns the first move of the list that wins for [who],
    and the board as it was. *)
Lemma first_winning_move_spec who moves b :
  Forall (fun m => cell_at b m = Blank) moves →
  first_winning_move who moves b
  = (head (filter (fun m => wins_at who b m = true) moves), b).
Proof.
  induction 1 as [|m rest Hm _ IH]; [done|].
  cbn [first_winning_move]. rewrite filter_cons. fold (wins_at who b m).
  rewrite set_cell_restore by done.
  destruct (wins_at who b m) eqn:E.
  - by rewrite decide_True.
  - by rewrite decide_False, IH.
Qed.

Lemma head_filter_some {A} (P : A → Prop) `{!∀ x, Decision (P x)}
    (l : list A) (x : A) :
  x ∈ l → P x → ∃ y, head (filter P l) = Some y ∧ y ∈ l ∧ P y.
Proof.
  intros Hin HP.
  assert (x ∈ filter P l) as Hx by (by apply list_elem_of_filter).
  destruct (filter P l) as [|y l'] eqn:E; [by apply elem_of_nil in Hx|].
  exists y. split; [done|].
  assert (y ∈ filter P l) as [? ?]%list_elem_of_filter by (rewrite E; left).
  done.
Qed.

Lemma random_choice_elem k (l : list Z) :
  l ≠ [] → ∃ x, random_choice k l = Ok x ∧ x ∈ l.
Proof.
  intros Hne. unfold random_choice.
  assert (k `mod` length l < length l)%nat as Hlt.
  { apply Nat.mod_upper_bound. by destruct l. }
  apply lookup_lt_is_Some_2 in Hlt as [x Hx]. rewrite Hx.
  exists x. split; [done|]. by eapply list_elem_of_lookup_2.
Qed.

(** What [get_defensive_move] answers, case by case, for any draw [k]. *)
Lemma get_defensive_move_cases k p b :
  let available := get_available_moves b in
  let blocks m := m ∈ available ∧ wins_at (opponent_of p) b m = true in
  let winning m := m ∈ available ∧ wins_at p b m = true in
  (get_defensive_move k p b).2 = b
  ∧ ((∃ m, blocks m) → ∃ m, (get_defensive_move k p b).1 = Ok m ∧ blocks m)
  ∧ ((¬ ∃ m, blocks m) →
     ((∃ m, winning m) →
      ∃ m, (get_defensive_move k p b).1 = Ok m ∧ winning m)
     ∧ ((¬ ∃ m, winning m) →
        (4 ∈ available → (get_defensive_move k p b).1 = Ok 4)
        ∧ (4 ∉ available →
           ((∃ m, m ∈ available ∧ m ∈ edges) →
            ∃ m, (get_defensive_move k p b).1 = Ok m
                 ∧ m ∈ available ∧ m ∈ edges)
           ∧ ((¬ ∃ m, m ∈ available ∧ m ∈ edges) → available ≠ [] →
              ∃ m, (get_defensive_move k p b).1 = Ok m ∧ m ∈ available)))).
Proof.
  intros available blocks winning. unfold get_defensive_move.
  fold available.
  rewrite (first_winning_move_spec (opponent_of p) available b)
    by apply available_blank.
  destruct (head (filter (fun m => wins_at (opponent_of p) b m = true) available))
    as [m0|] eqn:Eopp.
  { (* a blocking move was found *)
    assert (blocks m0) as Hm0.
    { apply head_Some_elem_of in Eopp. by apply list_elem_of_filter in Eopp as [? ?]. }
    split; [done|]. split; [by exists m0|]. intros Hno. destruct Hno. by exists m0. }
  assert (¬ ∃ m, blocks m) as Hnoblock.
  { intros (m & Hin & Hw).
    destruct (head_filter_some (fun m => wins_at (opponent_of p) b m = true)
                available m Hin Hw) as (y & Hy & _).
    congruence. }
  rewrite (first_winning_move_spec p available b) by apply available_blank.
  destruct (head (filter (fun m => wins_at p b m = true) available))
    as [m1|] eqn:Eown.
  { assert (winning m1) as Hm1.
    { apply head_Some_elem_of in Eown. by apply list_elem_of_filter in Eown as [? ?]. }
    split; [done|]. split; [done|]. intros _. split; [by exists m1|].
    intros Hno. destruct Hno. by exists m1. }
  assert (¬ ∃ m, winning m) as Hnowin.
  { intros (m & Hin & Hw).
    destruct (head_filter_some (fun m => wins_at p b m = true)
                available m Hin Hw) as (y & Hy & _).
    congruence. }
  case_bool_decide as H4.
  { split; [done|]. split; [done|]. intros _. split; [done|]. intros _.
    split; [done|]. done. }
  destruct (filter (fun m => m ∈ edges) available) as [|e es] eqn:Eedge.
  - split; [done|]. split; [done|]. intros _. split; [done|]. intros _.
    split; [done|]. intros _. split.
    + intros (m & Hin & He).
      assert (m ∈ filter (fun m => m ∈ edges) available) as Hf
        by (by apply list_elem_of_filter).
      rewrite Eedge in Hf. by apply elem_of_nil in Hf.
    + intros _ Hne. simpl. by apply random_choice_elem.
  - split; [done|]. split; [done|]. intros _. split; [done|]. intros _.
    split; [done|]. intros _. split.
    + intros _. simpl.
      destruct (random_choice_elem k (e :: es)) as (x & -> & Hx); [done|].
      exists x. split; [done|]. rewrite <- Eedge in Hx.
      by apply list_elem_of_filter in Hx as [? ?].
    + intros Hno. destruct Hno. exists e.
      assert (e ∈ filter (fun m => m ∈ edges) available) as Hf
        by (rewrite Eedge; left).
      by apply list_elem_of_filter in Hf as [? ?].
Qed.

End DefensiveFacts.

(** C7. The defensive strategy looks for a block first: whenever the opponent
    has an immediate winning move among the available cells, the answer is
    such a cell, whether or not the acting player could win at once. Only
    when the opponent has none does it take an immediate win of its own;
    failing that the centre; failing that an available edge, picked by the
    random draw; failing that an available cell, picked by the random draw.
    The board is left as it was. In particular, when the opponent has
    exactly one immediate winning move and the acting player has none, the
    answer is that cell. *)
Theorem get_defensive_move_blocks_first (k : nat) (p : player) (b : Board) :
  length b = 9%nat →
  let available := get_available_moves b in
  let blocks m := m ∈ available ∧ wins_at (opponent_of p) b m = true in
  let winning m := m ∈ available ∧ wins_at p b m = true in
  (get_defensive_move k p b).2 = b
  ∧ ((∃ m, blocks m) → ∃ m, (get_defensive_move k p b).1 = Ok m ∧ blocks m)
  ∧ ((¬ ∃ m, blocks m) →
     ((∃ m, winning m) →
      ∃ m, (get_defensive_move k p b).1 = Ok m ∧ winning m)
     ∧ ((¬ ∃ m, winning m) →
        (4 ∈ available → (get_defensive_move k p b).1 = Ok 4)
        ∧ (4 ∉ available →
           ((∃ m, m ∈ available ∧ m ∈ edges) →
            ∃ m, (get_defensive_move k p b).1 = Ok m
                 ∧ m ∈ available ∧ m ∈ edges)
           ∧ ((¬ ∃ m, m ∈ available ∧ m ∈ edges) → available ≠ [] →
              ∃ m, (get_defensive_move k p b).1 = Ok m ∧ m ∈ available))))
  ∧ (∀ m, blocks m → (∀ m', blocks m' → m' = m) → (¬ ∃ m', winning m') →
       (get_defensive_move k p b).1 = Ok m).
Proof.
  intros _ available blocks winning.
  pose proof (get_defensive_move_cases k p b) as (Hboard & Hblock & Hrest).
  split; [done|]. split; [done|]. split; [done|].
  intros m Hm Huniq _.
  destruct Hblock as (m' & Hrun & Hm'); [by exists m|].
  by rewrite Hrun, (Huniq m' Hm').
Qed.

(** On [one_threat_board] with O to move, X threatens cell 2 only and O has
    no winning move: the answer is 2. *)
Lemma get_defensive_move_blocks_first_witness :
  (get_defensive_move 0 O one_threat_board).1 = Ok 2.
Proof.
  refine (proj2 (proj2 (proj2
    (get_defensive_move_blocks_first 0 O one_threat_board eq_refl))) 2 _ _ _).
  - split; [|reflexivity]. apply available_spec. split; [lia|reflexivity].
  - intros m' [Hin Hw]. revert Hw. unfold one_threat_board in Hin.
    repeat (apply elem_of_cons in Hin as [->|Hin]; [by vm_compute|]).
    by apply elem_of_nil in Hin.
  - intros (m' & Hin & Hw). revert Hw. unfold one_threat_board in Hin.
    repeat (apply elem_of_cons in Hin as [->|Hin]; [by vm_compute|]).
    by apply elem_of_nil in Hin.
Defined.

(** ** Q-learning agent *)

Section TableFacts.

Implicit Types (t : qtable) (state : string) (action : Z) (a : QLearningAgent).

Lemma get_q_value_value state action t :
  (get_q_value state action t).1 = q_lookup t state action.
Proof. reflexivity. Qed.

(** A read changes no value of the table. *)
Lemma get_q_value_lookup state action t state' action' :
  q_lookup (get_q_value state action t).2 state' action'
  = q_lookup t state' action'.
Proof.
  unfold get_q_value, q_lookup. simpl.
  destruct (decide (state = state')) as [<-|Hs].
  - rewrite lookup_insert_eq. simpl.
    destruct (decide (action = action')) as [<-|Ha].
    + by rewrite lookup_insert_eq.
    + by rewrite lookup_insert_ne.
  - by rewrite lookup_insert_ne.
Qed.

(** A read leaves an explicit entry for the pair it read. *)
Lemma get_q_value_entry state action t :
  has_entry (get_q_value state action t).2 state action.
Proof.
  unfold get_q_value, has_entry. simpl.
  rewrite lookup_insert_eq. simpl. rewrite lookup_insert_eq. by eexists.
Qed.

Lemma insert_row_entry state action (v : float) t state' action' :
  has_entry t state' action' →
  has_entry (<[state := <[action := v]> (default ∅ (t !! state))]> t)
    state' action'.
Proof.
  unfold has_entry. intros H.
  destruct (decide (state = state')) as [<-|Hs].
  - rewrite lookup_insert_eq. simpl.
    destruct (decide (action = action')) as [<-|Ha].
    + rewrite lookup_insert_eq. by eexists.
    + rewrite lookup_insert_ne by done.
      by destruct (t !! state).
  - by rewrite lookup_insert_ne.
Qed.

(** A read removes no entry. *)
Lemma get_q_value_keeps state action t state' action' :
  has_entry t state' action' →
  has_entry (get_q_value state action t).2 state' action'.
Proof. apply insert_row_entry. Qed.

Lemma set_q_value_keeps state action v t state' action' :
  has_entry t state' action' →
  has_entry (set_q_value state action v t) state' action'.
Proof. apply insert_row_entry. Qed.

Lemma set_q_value_entry state action v t :
  has_entry (set_q_value state action v t) state action.
Proof.
  unfold set_q_value, has_entry.
  rewrite lookup_insert_eq. simpl. rewrite lookup_insert_eq. by eexists.
Qed.

Lemma set_q_value_lookup state action v t :
  q_lookup (set_q_value state action v t) state action = v.
Proof.
  unfold set_q_value, q_lookup.
  rewrite lookup_insert_eq. simpl. by rewrite lookup_insert_eq.
Qed.

(** The list of reads returns the values of the table it started from,
    changes none, keeps every entry and leaves one for each pair read. *)
Lemma q_values_spec state actions t :
  (q_values state actions t).1 = q_lookup t state <$> actions
  ∧ (∀ state' action',
       q_lookup (q_values state actions t).2 state' action'
       = q_lookup t state' action')
  ∧ (∀ state' action', has_entry t state' action' →
       has_entry (q_values state actions t).2 state' action')
  ∧ (∀ action, action ∈ actions →
       has_entry (q_values state actions t).2 state action).
Proof.
  revert t. induction actions as [|x rest IH]; intros t.
  - simpl. repeat split; try done. intros action Hin.
    by apply elem_of_nil in Hin.
  - cbn [q_values].
    destruct (get_q_value state x t) as [v t1] eqn:E1.
    destruct (q_values state rest t1) as [vs t2] eqn:E2.
    specialize (IH t1). rewrite E2 in IH. simpl in IH.
    destruct IH as (IHv & IHl & IHk & IHe).
    assert (v = q_lookup t state x) as ->
      by (by rewrite <- get_q_value_value, E1).
    assert (t1 = (get_q_value state x t).2) as Ht1 by (by rewrite E1).
    simpl. repeat split.
    + rewrite IHv. f_equal. apply list_fmap_ext. intros _ y _.
      by rewrite Ht1, get_q_value_lookup.
    + intros s' a'. by rewrite IHl, Ht1, get_q_value_lookup.
    + intros s' a' H. apply IHk. rewrite Ht1. by apply get_q_value_keeps.
    + intros action [->|Hin]%elem_of_cons; [|by apply IHe].
      apply IHk. rewrite Ht1. apply get_q_value_entry.
Qed.

(** The order of binary64 numbers, from the specification of [<?]. *)
Lemma SFltb_trans (f g h : spec_float) :
  SFltb f g = true → SFltb g h = true → SFltb f h = true.
Proof.
  unfold SFltb, SFcompare.
  destruct f as [[]|[]| |[] m1 e1], g as [[]|[]| |[] m2 e2],
    h as [[]|[]| |[] m3 e3]; simpl; try done; sf_cases.
Qed.

Lemma SFltb_irrefl (f : spec_float) : SFltb f f = false.
Proof.
  unfold SFltb, SFcompare.
  destruct f as [[]|[]| |[] m e]; simpl; try done;
    rewrite Z.compare_refl, Pos.compare_cont_refl; done.
Qed.

(** If [g] is neither below [h] nor above [f] although [f] is below [h],
    then [g] is not a number. *)
Lemma SFltb_between (f g h : spec_float) :
  SFltb f h = true → SFltb g h = false → SFltb f g = false → g = S754_nan.
Proof.
  unfold SFltb, SFcompare.
  destruct f as [[]|[]| |[] m1 e1], g as [[]|[]| |[] m2 e2],
    h as [[]|[]| |[] m3 e3]; simpl; try done; sf_cases.
Qed.

(** A running maximum that is not a number is never replaced. *)
Lemma float_max_nan (x : float) (xs : list float) :
  Prim2SF x = S754_nan → float_max x xs = x.
Proof.
  intros Hnan. unfold float_max. induction xs as [|y ys IH]; [done|].
  simpl. by rewrite ltb_spec, Hnan.
Qed.

(** Python's [max] returns an item that no item of the list exceeds. *)
Lemma float_max_upper (x : float) (xs : list float) (y : float) :
  y ∈ x :: xs → (float_max x xs <? y)%float = false.
Proof.
  revert x y. induction xs as [|z zs IH]; intros x y Hin.
  - apply list_elem_of_singleton in Hin as ->. unfold float_max. simpl.
    rewrite ltb_spec. apply SFltb_irrefl.
  - change (float_max x (z :: zs))
      with (float_max (if (x <? z)%float then z else x) zs).
    destruct (x <? z)%float eqn:Exz.
    + apply elem_of_cons in Hin as [->|Hin]; [|by apply IH].
      destruct (float_max z zs <? x)%float eqn:E; [|done].
      assert ((float_max z zs <? z)%float = true) as Hcontra.
      { rewrite ltb_spec in *. by eapply SFltb_trans. }
      rewrite IH in Hcontra by left. done.
    + apply elem_of_cons in Hin as [->|[->|Hin]%elem_of_cons].
      * apply IH. left.
      * destruct (float_max x zs <? z)%float eqn:E; [|done].
        assert ((float_max x zs <? x)%float = false) as Hx by (apply IH; left).
        pose proof E as E'. rewrite ltb_spec in E', Exz, Hx.
        pose proof (SFltb_between _ _ _ E' Exz Hx) as Hnan.
        rewrite (float_max_nan x zs Hnan), ltb_spec, Exz in E. done.
      * apply IH. by right.
Qed.

(** Python's [max] returns an item of the list. *)
Lemma float_max_elem (x : float) (xs : list float) :
  float_max x xs ∈ x :: xs.
Proof.
  unfold float_max. revert x. induction xs as [|y ys IH]; intros x; simpl.
  - left.
  - destruct (x <? y)%float.
    + right. apply IH.
    + specialize (IH x). apply elem_of_cons in IH as [->|IH]; [left|].
      right. by right.
Qed.

Lemma has_entry_serialized a state action :
  has_entry (q_table a) state action ↔ serialized_has a state action.
Proof.
  unfold has_entry, serialized_has, save_q_table. split.
  - intros [v Hv]. destruct (q_table a !! state) as [row|] eqn:Erow; [|done].
    simpl in Hv. exists (map_to_list row), v. split.
    + apply list_elem_of_fmap. exists (state, row). split; [done|].
      by apply elem_of_map_to_list.
    + by apply elem_of_map_to_list.
  - intros (actions & v & Hrow & Hv).
    apply list_elem_of_fmap in Hrow as ([s row] & [= <- ->] & Hin).
    apply elem_of_map_to_list in Hin. apply elem_of_map_to_list in Hv.
    rewrite Hin. simpl. by exists v.
Qed.

End TableFacts.

Section UpdateFacts.

Implicit Types (t : qtable) (state : string) (action : Z) (a : QLearningAgent).

(** [update_q_value] unfolded: the table it builds, in terms of the values
    of the table it started from. *)
Lemma update_q_value_unfold state action reward next_state actions a :
  ∃ t,
    q_table (update_q_value state action reward next_state actions a)
    = set_q_value state action
        (q_lookup (q_table a) state action
         + learning_rate a
           * (reward
              + discount_factor a
                * match actions with
                  | [] => 0
                  | x :: rest =>
                      float_max (q_lookup (q_table a) next_state x)
                        (q_lookup (q_table a) next_state <$> rest)
                  end
              - q_lookup (q_table a) state action))%float t
    ∧ (∀ state' action', q_lookup t state' action'
                         = q_lookup (q_table a) state' action')
    ∧ (∀ state' action', has_entry (q_table a) state' action' →
                         has_entry t state' action')
    ∧ (∀ action', action' ∈ actions → has_entry t next_state action').
Proof.
  unfold update_q_value.
  destruct (get_q_value state action (q_table a)) as [current_q t1] eqn:E1.
  assert (current_q = q_lookup (q_table a) state action) as ->
    by (by rewrite <- get_q_value_value, E1).
  assert (∀ state' action', q_lookup t1 state' action'
                            = q_lookup (q_table a) state' action') as Hread.
  { intros s' a'.
    rewrite <- (get_q_value_lookup state action (q_table a)). by rewrite E1. }
  assert (∀ state' action', has_entry (q_table a) state' action' →
                            has_entry t1 state' action') as Hkeep.
  { intros s' a' H. apply (get_q_value_keeps state action (q_table a)) in H.
    by rewrite E1 in H. }
  clear E1.
  pose proof (q_values_spec next_state actions t1) as (Hv & Hl & Hk & He).
  destruct (q_values next_state actions t1) as [vs t2] eqn:E2.
  cbn [fst snd] in Hv, Hl, Hk, He.
  destruct actions as [|x rest]; cbn [fmap list_fmap] in Hv; subst vs.
  - exists t1. split; [done|]. split; [done|]. split; [done|].
    intros a' Hin. by apply elem_of_nil in Hin.
  - exists t2. split.
    + assert (q_lookup t1 next_state <$> rest
              = q_lookup (q_table a) next_state <$> rest) as ->
        by (apply list_fmap_ext; intros _ y _; apply Hread).
      by rewrite Hread.
    + split; [intros s' a'; by rewrite Hl|].
      split; [|done]. intros s' a' H. by apply Hk, Hkeep.
Qed.

Lemma set_q_value_lookup_other state action v t state' action' :
  (state', action') ≠ (state, action) →
  q_lookup (set_q_value state action v t) state' action'
  = q_lookup t state' action'.
Proof.
  intros Hne. unfold set_q_value, q_lookup.
  destruct (decide (state = state')) as [<-|Hs].
  - rewrite lookup_insert_eq. simpl.
    rewrite lookup_insert_ne by congruence. done.
  - by rewrite lookup_insert_ne.
Qed.

End UpdateFacts.

(** C6. After [update_q_value(state, action, reward, next_state,
    available_actions)] the table gives for [(state, action)] the value
    [Q(s,a) + alpha * (reward + gamma * m - Q(s,a))], computed in floats in
    this order from the values [Q] of the table before the call, where [m]
    is Python's [max] of the values [Q(next_state, a')] over the listed
    actions, one of these values and exceeded by none of them, and [0] when
    no action is listed. Every
    other pair keeps its value, [alpha] and [gamma] are not changed, and
    they are 0.1 and 0.9 for an agent built with the defaults. *)
Theorem update_q_value_formula (state : string) (action : Z) (reward : float)
    (next_state : string) (available_actions : list Z) (a : QLearningAgent) :
  let Q := q_lookup (q_table a) in
  let a' := update_q_value state action reward next_state available_actions a in
  let max_next_q :=
    match available_actions with
    | [] => 0%float
    | x :: rest => float_max (Q next_state x) (Q next_state <$> rest)
    end in
  q_lookup (q_table a') state action
  = (Q state action
     + learning_rate a
       * (reward + discount_factor a * max_next_q - Q state action))%float
  ∧ (available_actions = [] → max_next_q = 0%float)
  ∧ (available_actions ≠ [] →
     max_next_q ∈ Q next_state <$> available_actions)
  ∧ (∀ action', action' ∈ available_actions →
       (max_next_q <? Q next_state action')%float = false)
  ∧ (∀ state' action', (state', action') ≠ (state, action) →
       q_lookup (q_table a') state' action' = Q state' action')
  ∧ learning_rate a' = learning_rate a
  ∧ discount_factor a' = discount_factor a
  ∧ learning_rate default_agent = 0.1%float
  ∧ discount_factor default_agent = 0.9%float.
Proof.
  intros Q a' max_next_q.
  destruct (update_q_value_unfold state action reward next_state
              available_actions a) as (t & Ht & Hl & _).
  fold a' in Ht. fold Q in Ht. fold max_next_q in Ht.
  split; [by rewrite Ht, set_q_value_lookup|].
  split; [by intros ->|].
  split.
  { intros Hne. subst max_next_q. destruct available_actions as [|x rest]; [done|].
    rewrite fmap_cons. apply float_max_elem. }
  split.
  { intros act' Hin. subst max_next_q.
    destruct available_actions as [|x rest]; [by apply elem_of_nil in Hin|].
    apply float_max_upper. rewrite <- fmap_cons. by apply list_elem_of_fmap_2. }
  split.
  { intros s' act' Hne. rewrite Ht, set_q_value_lookup_other by done. apply Hl. }
  subst a'. unfold update_q_value.
  destruct (get_q_value state action (q_table a)) as [current_q t1].
  by destruct (q_values next_state available_actions t1) as [[|v vs] t2].
Qed.

(** A terminal transition and a transition with two listed actions, on an
    agent with the default rates. *)
Lemma update_q_value_formula_witness :
  q_lookup
    (q_table (update_q_value "XX OO   X" 5 1 "XX OO   X" [] default_agent))
    "XX OO   X" 5 = 0.1%float
  ∧ q_lookup (q_table default_agent) "X        " 4
    ∈ q_lookup (q_table default_agent) "X        " <$> [3; 4].
Proof.
  split.
  - exact (proj1 (update_q_value_formula "XX OO   X" 5 1 "XX OO   X" []
                    default_agent)).
  - refine (proj1 (proj2 (proj2 (update_q_value_formula "         " 0 0
                    "X        " [3; 4] default_agent))) _). done.
Defined.

Section SerializationFacts.

Implicit Types (t : qtable) (state : string) (action : Z)
  (a : QLearningAgent) (o : agent_op).

(** No call removes an entry. *)
Lemma run_op_keeps a o state action :
  has_entry (q_table a) state action →
  has_entry (q_table (run_op a o)) state action.
Proof.
  intros H. destruct o as [s x|s x r s' acts]; simpl.
  - by apply get_q_value_keeps.
  - destruct (update_q_value_unfold s x r s' acts a) as (t & -> & _ & Hk & _).
    by apply set_q_value_keeps, Hk.
Qed.

(** Every pair a call reads or writes has an entry after the call. *)
Lemma run_op_touches a o state action :
  touches o state action → has_entry (q_table (run_op a o)) state action.
Proof.
  destruct o as [s x|s x r s' acts]; simpl.
  - intros [<- <-]. apply get_q_value_entry.
  - destruct (update_q_value_unfold s x r s' acts a) as (t & -> & _ & _ & He).
    intros [[<- <-]|[<- Hin]].
    + apply set_q_value_entry.
    + by apply set_q_value_keeps, He.
Qed.

Lemma run_ops_keeps ops a state action :
  has_entry (q_table a) state action →
  has_entry (q_table (run_ops ops a)) state action.
Proof.
  revert a. induction ops as [|o rest IH]; intros a H; [done|].
  apply IH. by apply run_op_keeps.
Qed.

Lemma run_ops_touches ops a o state action :
  o ∈ ops → touches o state action →
  has_entry (q_table (run_ops ops a)) state action.
Proof.
  revert a. induction ops as [|o' rest IH]; intros a Hin Ht.
  - by apply elem_of_nil in Hin.
  - apply elem_of_cons in Hin as [<-|Hin].
    + apply (run_ops_keeps rest (run_op a o)). by apply run_op_touches.
    + by apply (IH (run_op a o')).
Qed.

End SerializationFacts.

(** C9. A read of a pair that has no entry returns [0.0] and leaves an
    explicit [0.0] entry in the table: the pair is absent from what
    [save_q_table] writes before the read and present after it. After any
    sequence of reads and updates, what [save_q_table] writes contains
    every pair that some call of the sequence read or wrote, the pairs that
    were only read included. *)
Theorem reads_are_serialized (ops : list agent_op) (a : QLearningAgent) :
  (∀ state action,
     ¬ has_entry (q_table a) state action →
     (get_q_value state action (q_table a)).1 = 0%float
     ∧ ((get_q_value state action (q_table a)).2 !! state
          ≫= fun row => row !! action) = Some 0%float
     ∧ ¬ serialized_has a state action
     ∧ serialized_has (run_op a (Read state action)) state action)
  ∧ (∀ state action, Read state action ∈ ops →
       serialized_has (run_ops ops a) state action)
  ∧ (∀ o state action, o ∈ ops → touches o state action →
       serialized_has (run_ops ops a) state action).
Proof.
  split; [|split].
  - intros state action Hno.
    assert (q_lookup (q_table a) state action = 0%float) as Hzero.
    { unfold q_lookup. unfold has_entry in Hno.
      destruct (q_table a !! state) as [row|]; simpl in *; [|done].
      destruct (row !! action); simpl; [|done]. destruct Hno. by eexists. }
    split; [by rewrite get_q_value_value|]. split.
    + unfold get_q_value. cbn [snd]. fold (q_lookup (q_table a) state action).
      rewrite lookup_insert_eq. simpl. by rewrite lookup_insert_eq, Hzero.
    + split; [by rewrite <- has_entry_serialized|].
      apply has_entry_serialized. simpl. apply get_q_value_entry.
  - intros state action Hin. apply has_entry_serialized.
    by apply (run_ops_touches ops a (Read state action)).
  - intros o state action Hin Ht. apply has_entry_serialized.
    by apply (run_ops_touches ops a o).
Qed.

(** A fresh agent that is only asked for the value of the centre on the
    empty board writes that pair out. *)
Lemma reads_are_serialized_witness :
  serialized_has (run_ops [Read "         " 4] default_agent) "         " 4.
Proof.
  apply (proj1 (proj2 (reads_are_serialized [Read "         " 4]
                         default_agent))).
  left.
Defined.

(** ** End-of-episode update *)

Section EpisodeFacts.

Implicit Types (b : Board) (p : player) (w : verdict).

(** The rewards the loop assigns. The last case is the one in which the
    two branches of the reward expression differ: the winner's reward is
    read from the table [rewards], which holds [-1] under ['O']. *)
Lemma reward_of_cases :
  reward_of (Win X) X = 1 ∧ reward_of (Win O) X = -1 ∧ reward_of Tie X = 0
  ∧ reward_of (Win X) O = -1 ∧ reward_of Tie O = 0
  ∧ reward_of (Win O) O = -1.
Proof. repeat split. Qed.

Lemma get_string_of_list (l : list ascii) (n : nat) :
  String.get n (string_of_list_ascii l) = l !! n.
Proof.
  revert n. induction l as [|c l IH]; intros [|n]; simpl; done.
Qed.

(** The blank positions of a state key are the available moves of the board
    it was made from. *)
Lemma blank_indices_state_key b js :
  (∀ j, j ∈ js → (Z.to_nat j < length b)%nat) →
  blank_indices js (get_state_key b)
  = Ok (filter (fun i => cell_eqb (cell_at b i) Blank = true) js).
Proof.
  induction js as [|j rest IH]; intros Hin; [done|].
  cbn [blank_indices]. unfold get_state_key at 1.
  rewrite get_string_of_list, list_lookup_fmap.
  destruct (b !! Z.to_nat j) as [c|] eqn:E.
  - rewrite IH by (intros ? ?; apply Hin; by right). simpl.
    rewrite filter_cons. unfold cell_at. rewrite E. simpl.
    destruct c as [|[|]]; simpl; done.
  - apply lookup_ge_None in E. specialize (Hin j ltac:(left)). lia.
Qed.

Lemma blank_indices_available b :
  length b = 9%nat →
  blank_indices range9 (get_state_key b) = Ok (get_available_moves b).
Proof.
  intros Hlen. apply blank_indices_state_key.
  intros j [? ?]%elem_of_seqZ. lia.
Qed.

(** The next state and next actions of the update for entry [i]: the state
    of entry [i + 1] with its blank cells, or the entry's own state with no
    action when it is the last one. *)
Lemma update_args_next w game_states i state action p :
  (∀ b' action' p', length b' = 9%nat →
     game_states !! (i + 1)%nat = Some (get_state_key b', action', p') →
     update_args w game_states i (state, action, p)
     = Ok (p, state, action, reward_of w p, get_state_key b',
           get_available_moves b'))
  ∧ (game_states !! (i + 1)%nat = None →
     update_args w game_states i (state, action, p)
     = Ok (p, state, action, reward_of w p, state, [])).
Proof.
  split.
  - intros b' action' p' Hlen Hnext. unfold update_args. rewrite Hnext.
    by rewrite blank_indices_available.
  - intros Hlast. unfold update_args. by rewrite Hlast.
Qed.

End EpisodeFacts.

(** C1, at the game [o_wins_game] that O wins. The update for the last entry,
    the winning move of O, is called with reward [-1] where the claim has
    [+1], and so is the update for the earlier move 4 of O; the entries of
    X, who lost, get [-1]. After the episode the table of the agent of O
    values its winning move at [-0.1], also when the update runs as the
    last step of [play_self_game]. Next states and next actions are those
    of the following entry, and the own state with no action for the last
    entry. *)
Theorem update_q_learning_winner_O :
  update_args (Win O) o_wins_game 5 ("XX OO   X", 5, O)
  = Ok (O, "XX OO   X", 5, -1, "XX OO   X", [])
  ∧ update_args (Win O) o_wins_game 3 ("XX O     ", 4, O)
    = Ok (O, "XX O     ", 4, -1, "XX OO    ", [2; 5; 6; 7; 8])
  ∧ update_args (Win O) o_wins_game 4 ("XX OO    ", 8, X)
    = Ok (X, "XX OO    ", 8, -1, "XX OO   X", [2; 5; 6; 7])
  ∧ match update_q_learning (Win O) o_wins_game (default_agent, default_agent) with
    | Ok (agent_x, agent_o) =>
        q_lookup (q_table agent_o) "XX OO   X" 5 = (-0.1)%float
        ∧ q_lookup (q_table agent_o) "XX O     " 4 = (-0.1)%float
        ∧ q_lookup (q_table agent_x) "XX OO    " 8 = (-0.1)%float
    | Raise _ => False
    end
  ∧ match play_turn true false "" "XX OO   X" 5 before_o_wins with
    | Ok (Some w, g) =>
        w = Win O ∧ game_states g = o_wins_game
        ∧ q_lookup (q_table (q_agent_o g)) "XX OO   X" 5 = (-0.1)%float
    | _ => False
    end.
Proof.
  split; [reflexivity|]. split; [reflexivity|]. split; [reflexivity|].
  split; vm_compute; repeat split.
Qed.

(** ** Loading a table *)

(** With no file under the name, [load_q_table] returns and leaves the
    agent as it was. *)
Lemma load_q_table_missing_keeps (int : string → option Z)
    (fs : string → source) (filename : string) (a : QLearningAgent) :
  fs filename = Missing → (load_q_table int fs filename a).1.2 = a.
Proof. intros H. unfold load_q_table. by rewrite H. Qed.

(** C8, as the program behaves. With no file under the name the load
    returns normally, with the value a successful load returns, after
    printing one line that names the file; an agent whose table was empty
    still has an empty table. With a file that is not JSON the decoding
    error is raised to the caller. *)
Theorem load_q_table_missing_or_garbled (int : string → option Z)
    (fs : string → source) (filename : string) (a : QLearningAgent) :
  (fs filename = Missing →
   ∃ a', load_q_table int fs filename a
         = (Ok (), a',
            ["Q-table file " +:+ filename
             +:+ " not found. Starting with empty Q-table."])
         ∧ (q_table a = ∅ → q_table a' = ∅))
  ∧ (fs filename = Document [] →
     (load_q_table int fs filename a).1.1 = Ok ())
  ∧ (fs filename = Garbled →
     load_q_table int fs filename a = (Raise JSONDecodeError, a, [])).
Proof.
  unfold load_q_table. repeat split.
  - intros ->. by exists a.
  - by intros ->.
  - by intros ->.
Qed.

Lemma load_q_table_missing_or_garbled_witness :
  (∃ a', load_q_table decimal_key (fun _ => Missing) "q_table_x.json"
           default_agent
         = (Ok (), a',
            ["Q-table file q_table_x.json not found. Starting with empty Q-table."])
         ∧ (q_table default_agent = ∅ → q_table a' = ∅))
  ∧ load_q_table decimal_key (fun _ => Garbled) "q_table_x.json" default_agent
    = (Raise JSONDecodeError, default_agent, []).
Proof.
  split.
  - exact (proj1 (load_q_table_missing_or_garbled decimal_key
                    (fun _ => Missing) "q_table_x.json" default_agent) eq_refl).
  - exact (proj2 (proj2 (load_q_table_missing_or_garbled decimal_key
                    (fun _ => Garbled) "q_table_x.json" default_agent)) eq_refl).
Defined.

(** C8 as stated fails: on a file that is not JSON the load does not return
    with an empty table, it raises [json.JSONDecodeError]. *)
Lemma load_q_table_garbled_raises :
  (load_q_table decimal_key (fun _ => Garbled) "q_table_x.json"
     default_agent).1.1 = Raise JSONDecodeError
  ∧ ¬ ∃ a' out,
        load_q_table decimal_key (fun _ => Garbled) "q_table_x.json"
          default_agent = (Ok (), a', out).
Proof. split; [reflexivity|]. intros (a' & out & H). discriminate H. Qed.

(** * Further properties of the program *)

(** ** The other strategies *)

Section StrategyFacts.

Implicit Types (b : Board) (p who : player) (m : Z) (k : nat).

(** In an ascending list the first element with a property is the least. *)
Lemma head_filter_least (P : Z → Prop) `{!∀ x, Decision (P x)}
    (l : list Z) (y x : Z) :
  StronglySorted Z.lt l → head (filter P l) = Some y → x ∈ l → P x → y ≤ x.
Proof.
  induction 1 as [|z l Hs IH Hall]; intros Hhead Hin HP.
  - by apply elem_of_nil in Hin.
  - rewrite filter_cons in Hhead. destruct (decide (P z)) as [Hz|Hz].
    + injection Hhead as <-. apply elem_of_cons in Hin as [->|Hin]; [lia|].
      eapply Forall_forall in Hall; [|done]. lia.
    + apply elem_of_cons in Hin as [->|Hin]; [done|]. by apply IH.
Qed.

Lemma random_choice_nil k : random_choice k [] = Raise IndexError.
Proof. reflexivity. Qed.

(** What [get_aggressive_move] answers, case by case, for any draw [k]. *)
Lemma get_aggressive_move_cases k p b :
  let available := get_available_moves b in
  let winning m := m ∈ available ∧ wins_at p b m = true in
  (get_aggressive_move k p b).2 = b
  ∧ (∀ m, winning m →
       ∃ m', (get_aggressive_move k p b).1 = Ok m' ∧ winning m' ∧ m' ≤ m)
  ∧ ((¬ ∃ m, winning m) →
     (4 ∈ available → (get_aggressive_move k p b).1 = Ok 4)
     ∧ (4 ∉ available →
        ((∃ m, m ∈ available ∧ m ∈ corners) →
         ∃ m, (get_aggressive_move k p b).1 = Ok m
              ∧ m ∈ available ∧ m ∈ corners)
        ∧ ((¬ ∃ m, m ∈ available ∧ m ∈ corners) → available ≠ [] →
           ∃ m, (get_aggressive_move k p b).1 = Ok m ∧ m ∈ available)
        ∧ (available = [] →
           (get_aggressive_move k p b).1 = Raise IndexError))).
Proof.
  intros available winning. unfold get_aggressive_move. fold available.
  rewrite (first_winning_move_spec p available b) by apply available_blank.
  destruct (head (filter (fun m => wins_at p b m = true) available))
    as [m1|] eqn:Eown.
  { assert (winning m1) as Hm1.
    { apply head_Some_elem_of in Eown.
      by apply list_elem_of_filter in Eown as [? ?]. }
    split; [done|]. split.
    - intros m [Hin Hw]. exists m1. split; [done|]. split; [done|].
      eapply (head_filter_least (fun m => wins_at p b m = true));
        [apply available_ascending|done..].
    - intros Hno. destruct Hno. by exists m1. }
  assert (¬ ∃ m, winning m) as Hnowin.
  { intros (m & Hin & Hw).
    destruct (head_filter_some (fun m => wins_at p b m = true)
                available m Hin Hw) as (y & Hy & _).
    congruence. }
  split; [by repeat case_match|]. split.
  { intros m Hm. destruct Hnowin. by exists m. }
  intros _. case_bool_decide as H4; [by split|]. split; [done|]. intros _.
  destruct (filter (fun m => m ∈ corners) available) as [|c cs] eqn:Ec; simpl.
  - split; [|split].
    + intros (m & Hin & Hc).
      assert (m ∈ filter (fun m => m ∈ corners) available) as Hf
        by (by apply list_elem_of_filter).
      rewrite Ec in Hf. by apply elem_of_nil in Hf.
    + intros _ Hne. by apply random_choice_elem.
    + by intros ->.
  - split; [|split].
    + intros _. destruct (random_choice_elem k (c :: cs)) as (x & -> & Hx);
        [done|].
      exists x. split; [done|]. rewrite <- Ec in Hx.
      by apply list_elem_of_filter in Hx as [? ?].
    + intros Hno. destruct Hno. exists c.
      assert (c ∈ filter (fun m => m ∈ corners) available) as Hf
        by (rewrite Ec; left).
      by apply list_elem_of_filter in Hf as [? ?].
    + intros Hnil. rewrite Hnil in Ec. done.
Qed.

End StrategyFacts.

Section StrategyValidity.

Implicit Types (b : Board) (p who : player) (m : Z) (k : nat).

Lemma get_aggressive_move_valid k p b :
  get_available_moves b ≠ [] →
  ∃ m, get_aggressive_move k p b = (Ok m, b) ∧ m ∈ get_available_moves b.
Proof.
  intros Hne. unfold get_aggressive_move.
  rewrite (first_winning_move_spec p _ b) by apply available_blank.
  destruct (head (filter _ (get_available_moves b))) as [m1|] eqn:Eown.
  { exists m1. split; [done|]. apply head_Some_elem_of in Eown.
    by apply list_elem_of_filter in Eown as [_ ?]. }
  case_bool_decide as H4; [by exists 4|].
  destruct (filter (fun m => m ∈ corners) (get_available_moves b))
    as [|c cs] eqn:Ec.
  - destruct (random_choice_elem k _ Hne) as (x & Hx & Hin).
    exists x. by rewrite Hx.
  - destruct (random_choice_elem k (c :: cs)) as (x & Hx & Hin); [done|].
    exists x. rewrite Hx. split; [done|]. rewrite <- Ec in Hin.
    by apply list_elem_of_filter in Hin as [_ ?].
Qed.

Lemma get_defensive_move_valid k p b :
  get_available_moves b ≠ [] →
  ∃ m, get_defensive_move k p b = (Ok m, b) ∧ m ∈ get_available_moves b.
Proof.
  intros Hne. unfold get_defensive_move.
  rewrite (first_winning_move_spec (opponent_of p) _ b) by apply available_blank.
  destruct (head (filter (fun m => wins_at (opponent_of p) b m = true)
                    (get_available_moves b))) as [m0|] eqn:Eopp.
  { exists m0. split; [done|]. apply head_Some_elem_of in Eopp.
    by apply list_elem_of_filter in Eopp as [_ ?]. }
  rewrite (first_winning_move_spec p _ b) by apply available_blank.
  destruct (head (filter (fun m => wins_at p b m = true)
                    (get_available_moves b))) as [m1|] eqn:Eown.
  { exists m1. split; [done|]. apply head_Some_elem_of in Eown.
    by apply list_elem_of_filter in Eown as [_ ?]. }
  case_bool_decide as H4; [by exists 4|].
  destruct (filter (fun m => m ∈ edges) (get_available_moves b))
    as [|c cs] eqn:Ec.
  - destruct (random_choice_elem k _ Hne) as (x & Hx & Hin).
    exists x. by rewrite Hx.
  - destruct (random_choice_elem k (c :: cs)) as (x & Hx & Hin); [done|].
    exists x. rewrite Hx. split; [done|]. rewrite <- Ec in Hin.
    by apply list_elem_of_filter in Hin as [_ ?].
Qed.

Lemma best_move_call_valid p b :
  length b = 9%nat → Blank ∈ b →
  ∃ m, best_move_call p b = Ok (m, b) ∧ m ∈ get_available_moves b.
Proof.
  intros Hlen Hblank.
  destruct (get_best_move_spec p b Hlen Hblank)
    as (m & z & l1 & l2 & Hrun & Hsplit & _).
  exists m. unfold best_move_call. rewrite Hrun. split; [done|].
  rewrite Hsplit. apply elem_of_app. right. left.
Qed.

Lemma get_hybrid_move_valid k p b :
  length b = 9%nat → Blank ∈ b →
  ∃ m, get_hybrid_move k p b = Ok (m, b) ∧ m ∈ get_available_moves b.
Proof.
  intros Hlen Hblank. unfold get_hybrid_move.
  destruct (6 <? length (get_available_moves b))%nat.
  - destruct (get_aggressive_move_valid k p b) as (m & Hm & Hin);
      [by apply available_nonempty|].
    exists m. by rewrite Hm.
  - by apply best_move_call_valid.
Qed.

End StrategyValidity.

(** X1. The aggressive strategy on a nine-cell board: if the acting player has
    an immediate winning move, the answer is the one with the lowest cell
    index, whatever the random draw; otherwise the centre if it is free;
    otherwise a free corner; otherwise a free cell. The board is left as it
    was, and on a board without a free cell the call raises [IndexError]. *)
Theorem get_aggressive_move_first_win (k : nat) (p : player) (b : Board) :
  length b = 9%nat →
  let available := get_available_moves b in
  let winning m := m ∈ available ∧ wins_at p b m = true in
  (get_aggressive_move k p b).2 = b
  ∧ (∀ m, winning m →
       ∃ m', (get_aggressive_move k p b).1 = Ok m' ∧ winning m' ∧ m' ≤ m)
  ∧ ((¬ ∃ m, winning m) →
     (4 ∈ available → (get_aggressive_move k p b).1 = Ok 4)
     ∧ (4 ∉ available →
        ((∃ m, m ∈ available ∧ m ∈ corners) →
         ∃ m, (get_aggressive_move k p b).1 = Ok m
              ∧ m ∈ available ∧ m ∈ corners)
        ∧ ((¬ ∃ m, m ∈ available ∧ m ∈ corners) → available ≠ [] →
           ∃ m, (get_aggressive_move k p b).1 = Ok m ∧ m ∈ available)
        ∧ (available = [] →
           (get_aggressive_move k p b).1 = Raise IndexError))).
Proof. intros _. apply get_aggressive_move_cases. Qed.

(** X to move on [top_row_open] completes the top row at cell 2. *)
Lemma get_aggressive_move_first_win_witness :
  ∃ m', (get_aggressive_move 0 X top_row_open).1 = Ok m'
        ∧ (m' ∈ get_available_moves top_row_open
           ∧ wins_at X top_row_open m' = true) ∧ m' ≤ 2.
Proof.
  refine (proj1 (proj2
    (get_aggressive_move_first_win 0 X top_row_open eq_refl)) 2 _).
  split; [|reflexivity]. apply available_spec. split; [lia|reflexivity].
Defined.

(** X2. On a nine-cell board without a free cell the random, aggressive and
    defensive strategies raise [IndexError] (from [random.choice] on an empty
    list), while the hybrid strategy, which falls through to the search,
    returns [-1]. *)
Theorem strategies_on_full_board (k : nat) (p : player) (b : Board) :
  length b = 9%nat → Blank ∉ b →
  get_random_move k b = Raise IndexError
  ∧ get_aggressive_move k p b = (Raise IndexError, b)
  ∧ get_defensive_move k p b = (Raise IndexError, b)
  ∧ get_hybrid_move k p b = Ok (-1, b).
Proof.
  intros Hlen Hno. pose proof (available_empty b Hlen Hno) as Hnil.
  unfold get_random_move, get_aggressive_move, get_defensive_move,
    get_hybrid_move, best_move_call, get_best_move.
  rewrite Hnil. done.
Qed.

Lemma strategies_on_full_board_witness :
  get_random_move 0 drawn_board = Raise IndexError
  ∧ get_aggressive_move 0 X drawn_board = (Raise IndexError, drawn_board)
  ∧ get_defensive_move 0 X drawn_board = (Raise IndexError, drawn_board)
  ∧ get_hybrid_move 0 X drawn_board = Ok (-1, drawn_board).
Proof.
  apply (strategies_on_full_board 0 X drawn_board eq_refl).
  intros Hin. unfold drawn_board in Hin.
  repeat (apply elem_of_cons in Hin as [Hin|Hin]; [discriminate Hin|]).
  by apply elem_of_nil in Hin.
Defined.

(** ** Epsilon-greedy choice *)

Section ChooseFacts.

Implicit Types (t : qtable) (state : string) (action : Z)
  (a : QLearningAgent) (d : list (Z * float)).

Lemma dict_set_elem k v d item :
  item ∈ dict_set k v d → item = (k, v) ∨ item ∈ d.
Proof.
  induction d as [|[k' v'] rest IH]; simpl.
  - intros ->%list_elem_of_singleton. by left.
  - case_bool_decide as Hk.
    + subst k'. intros [->|Hin]%elem_of_cons; [by left|right; by right].
    + intros [->|Hin]%elem_of_cons; [right; left|].
      destruct (IH Hin) as [->|?]; [by left|right; by right].
Qed.

Lemma dict_set_key k v d : k ∈ (dict_set k v d).*1.
Proof.
  induction d as [|[k' v'] rest IH]; simpl; [left|].
  case_bool_decide as Hk; simpl; [subst; left|by right].
Qed.

Lemma dict_set_keeps k v d k' : k' ∈ d.*1 → k' ∈ (dict_set k v d).*1.
Proof.
  induction d as [|[k1 v1] rest IH]; simpl; [by intros ?%elem_of_nil|].
  case_bool_decide as Hk; simpl; [done|].
  intros [->|Hin]%elem_of_cons; [left|right; by apply IH].
Qed.

(** The dict built by the comprehension of [choose_action]: its keys are the
    actions listed, each with the value the table gave before the reads;
    the reads change no value, remove no entry and leave an entry for each
    action. *)
Lemma q_dict_spec state actions t d :
  (∀ state' action', q_lookup (q_dict state actions t d).2 state' action'
                     = q_lookup t state' action')
  ∧ (∀ state' action', has_entry t state' action' →
       has_entry (q_dict state actions t d).2 state' action')
  ∧ (∀ action, action ∈ actions →
       has_entry (q_dict state actions t d).2 state action)
  ∧ (∀ item, item ∈ (q_dict state actions t d).1 →
       item ∈ d ∨ (item.1 ∈ actions ∧ item.2 = q_lookup t state item.1))
  ∧ (∀ action, action ∈ actions → action ∈ (q_dict state actions t d).1.*1)
  ∧ (∀ k, k ∈ d.*1 → k ∈ (q_dict state actions t d).1.*1).
Proof.
  revert t d. induction actions as [|x rest IH]; intros t d.
  - simpl. repeat split; try done.
    + intros action Hin. by apply elem_of_nil in Hin.
    + intros item Hin. by left.
    + intros action Hin. by apply elem_of_nil in Hin.
  - cbn [q_dict].
    destruct (get_q_value state x t) as [v t1] eqn:E1.
    assert (v = q_lookup t state x) as ->
      by (by rewrite <- get_q_value_value, E1).
    assert (∀ s' x', q_lookup t1 s' x' = q_lookup t s' x') as Hread.
    { intros s' x'. rewrite <- (get_q_value_lookup state x t). by rewrite E1. }
    assert (∀ s' x', has_entry t s' x' → has_entry t1 s' x') as Hkeep.
    { intros s' x' H. apply (get_q_value_keeps state x t) in H.
      by rewrite E1 in H. }
    assert (has_entry t1 state x) as Hnew.
    { pose proof (get_q_value_entry state x t) as H. by rewrite E1 in H. }
    destruct (IH t1 (dict_set x (q_lookup t state x) d))
      as (IHl & IHk & IHe & IHi & IHa & IHd).
    split; [intros s' x'; by rewrite IHl|].
    split; [intros s' x' H; by apply IHk, Hkeep|].
    split.
    { intros action [->|Hin]%elem_of_cons; [by apply IHk|by apply IHe]. }
    split.
    { intros item Hin. destruct (IHi item Hin) as [Hd|[Hr Hv]].
      - apply dict_set_elem in Hd as [->|Hd]; [|by left].
        right. split; [left|done].
      - right. split; [by right|by rewrite Hv, Hread]. }
    split.
    { intros action [->|Hin]%elem_of_cons; [|by apply IHa].
      apply IHd, dict_set_key. }
    intros k Hk. by apply IHd, dict_set_keeps.
Qed.

(** The value of the key [max] returns is the running maximum of the values. *)
Lemma max_item_cons (best item : Z * float) (rest : list (Z * float)) :
  max_item best (item :: rest)
  = max_item (if (best.2 <? item.2)%float then item else best) rest.
Proof. reflexivity. Qed.

Lemma max_item_value (best : Z * float) (rest : list (Z * float)) :
  max_item best rest ∈ best :: rest
  ∧ (max_item best rest).2 = float_max best.2 rest.*2.
Proof.
  revert best. induction rest as [|[k v] rest IH]; intros [bk bv].
  - split; [left|done].
  - rewrite max_item_cons. unfold float_max. cbn [fmap list_fmap snd foldl].
    fold (float_max (if (bv <? v)%float then v else bv) rest.*2).
    destruct (bv <? v)%float eqn:E.
    + destruct (IH (k, v)) as [Hin Hv]. split; [by right|done].
    + destruct (IH (bk, bv)) as [Hin Hv]. split; [|done].
      apply elem_of_cons in Hin as [->|Hin]; [left|right; by right].
Qed.

End ChooseFacts.

Section ChooseOrder.

Implicit Types (t : qtable) (state : string) (d : list (Z * float))
  (acc l : list Z).

Lemma dict_set_keys k v d :
  (dict_set k v d).*1 = if bool_decide (k ∈ d.*1) then d.*1 else d.*1 ++ [k].
Proof.
  induction d as [|[k' v'] rest IH]; cbn [dict_set fmap list_fmap fst].
  - rewrite bool_decide_false; [done|]. by intros ?%elem_of_nil.
  - destruct (decide (k' = k)) as [->|Hne].
    + rewrite !bool_decide_true; [done| |done]. left.
    + rewrite (bool_decide_false (k' = k)) by done.
      cbn [fmap list_fmap fst]. rewrite IH.
      destruct (decide (k ∈ rest.*1)) as [Hin|Hin].
      * rewrite !bool_decide_true; [done| |done]. by right.
      * rewrite !bool_decide_false; [done| |done].
        intros [->|?]%elem_of_cons; done.
Qed.

Lemma q_dict_keys state actions t d :
  (q_dict state actions t d).1.*1 = first_seen d.*1 actions.
Proof.
  revert t d. induction actions as [|x rest IH]; intros t d; [done|].
  cbn [q_dict]. destruct (get_q_value state x t) as [v t1].
  rewrite IH, dict_set_keys. done.
Qed.

Lemma first_seen_prefix acc l : ∃ more, first_seen acc l = acc ++ more.
Proof.
  revert acc. induction l as [|x l IH]; intros acc.
  - exists []. by rewrite app_nil_r.
  - unfold first_seen. cbn [foldl]. fold (first_seen
      (if bool_decide (x ∈ acc) then acc else acc ++ [x]) l).
    case_bool_decide; [apply IH|].
    destruct (IH (acc ++ [x])) as [more ->]. exists (x :: more).
    by rewrite <- app_assoc.
Qed.

Lemma first_seen_elem acc l y : y ∈ first_seen acc l ↔ y ∈ acc ∨ y ∈ l.
Proof.
  revert acc. induction l as [|x l IH]; intros acc.
  - split; [by left|]. intros [?|?%elem_of_nil]; done.
  - unfold first_seen. cbn [foldl]. fold (first_seen
      (if bool_decide (x ∈ acc) then acc else acc ++ [x]) l).
    rewrite IH. case_bool_decide as Hx.
    + rewrite elem_of_cons. split; [tauto|]. intros [?|[->|?]]; tauto.
    + rewrite elem_of_app, list_elem_of_singleton, elem_of_cons. tauto.
Qed.

Lemma first_seen_NoDup acc l : NoDup acc → NoDup (first_seen acc l).
Proof.
  revert acc. induction l as [|x l IH]; intros acc Hnd; [done|].
  unfold first_seen. cbn [foldl]. fold (first_seen
    (if bool_decide (x ∈ acc) then acc else acc ++ [x]) l).
  apply IH. case_bool_decide as Hx; [done|].
  apply NoDup_app. split; [done|]. split; [|apply NoDup_singleton].
  intros y Hy ->%list_elem_of_singleton. done.
Qed.

Lemma first_seen_app acc l1 l2 :
  first_seen acc (l1 ++ l2) = first_seen (first_seen acc l1) l2.
Proof. unfold first_seen. apply foldl_app. Qed.

(** A key listed for the first time after [l1] stands in the dict right
    after the keys of [l1]. *)
Lemma first_seen_split l1 x l2 :
  x ∉ l1 →
  ∃ more, first_seen [] (l1 ++ x :: l2) = first_seen [] l1 ++ x :: more.
Proof.
  intros Hx. rewrite first_seen_app.
  unfold first_seen at 1. cbn [foldl].
  rewrite bool_decide_false.
  - fold (first_seen (first_seen [] l1 ++ [x]) l2).
    destruct (first_seen_prefix (first_seen [] l1 ++ [x]) l2) as [more ->].
    exists more. by rewrite <- app_assoc.
  - rewrite first_seen_elem. intros [?%elem_of_nil|?]; done.
Qed.

Lemma NoDup_split_unique (l1 l1' l2 l2' : list Z) (x : Z) :
  NoDup (l1 ++ x :: l2) → l1 ++ x :: l2 = l1' ++ x :: l2' → l1 = l1'.
Proof.
  revert l1'. induction l1 as [|y l1 IH]; intros l1' Hnd Heq.
  - destruct l1' as [|y' l1']; [done|]. simpl in *.
    injection Heq as <- Heq. apply NoDup_cons in Hnd as [Hnot _].
    destruct Hnot. rewrite Heq. apply elem_of_app. right. left.
  - destruct l1' as [|y' l1']; simpl in *.
    + injection Heq as -> Heq. apply NoDup_cons in Hnd as [Hnot _].
      destruct Hnot. apply elem_of_app. right. left.
    + injection Heq as <- Heq. f_equal. apply NoDup_cons in Hnd as [_ Hnd].
      by apply IH.
Qed.

(** The order of binary64 numbers again: below means not above or equal, and
    what is not above a number below [h] is not above or equal [h]. *)
Lemma SFleb_after (f g h : spec_float) :
  SFltb f g = false → SFltb f h = true → SFleb h g = false.
Proof.
  unfold SFltb, SFleb, SFcompare.
  destruct f as [[]|[]| |[] m1 e1], g as [[]|[]| |[] m2 e2],
    h as [[]|[]| |[] m3 e3]; simpl; try done; sf_cases.
Qed.

(** Where the fold of [max] ends: at its start, or at an item that exceeds
    the start and is neither below nor equal to any item passed before. *)
Lemma max_item_first (best : Z * float) (rest : list (Z * float)) :
  max_item best rest = best
  ∨ ∃ r1 r2, rest = r1 ++ max_item best rest :: r2
      ∧ (best.2 <? (max_item best rest).2)%float = true
      ∧ ∀ item, item ∈ r1 → ((max_item best rest).2 <=? item.2)%float = false.
Proof.
  revert best. induction rest as [|item rest IH]; intros best; [by left|].
  rewrite max_item_cons. destruct (best.2 <? item.2)%float eqn:E.
  - right. destruct (IH item) as [Heq|(r1 & r2 & Hsplit & Hlt & Hr1)].
    + rewrite Heq. exists [], rest. split; [done|]. split; [done|].
      intros it Hin. by apply elem_of_nil in Hin.
    + exists (item :: r1), r2. split; [by rewrite Hsplit at 1|]. split.
      * rewrite ltb_spec in *. by eapply SFltb_trans.
      * intros it [->|Hin]%elem_of_cons; [|by apply Hr1].
        rewrite leb_spec. rewrite ltb_spec in Hlt.
        eapply SFleb_after; [apply SFltb_irrefl|done].
  - destruct (IH best) as [Heq|(r1 & r2 & Hsplit & Hlt & Hr1)]; [by left|].
    right. exists (item :: r1), r2. split; [by rewrite Hsplit at 1|].
    split; [done|].
    intros it [->|Hin]%elem_of_cons; [|by apply Hr1].
    rewrite leb_spec. rewrite ltb_spec in E, Hlt. by eapply SFleb_after.
Qed.

End ChooseOrder.

(** What [choose_action] returns and does to the table, in both modes. *)
Lemma choose_action_cases (d : draw) (state : string)
    (actions : list Z) (training : bool) (a : QLearningAgent) :
  let Q := q_lookup (q_table a) state in
  let r := choose_action d state actions training a in
  (training && (uniform d <? epsilon a)%float = false →
   (actions = [] → r.1 = Raise ValueError)
   ∧ (actions ≠ [] →
      ∃ act, r.1 = Ok act ∧ act ∈ actions
        ∧ (∀ x, x ∈ actions → (Q act <? Q x)%float = false)
        ∧ (∀ l1 l2, actions = l1 ++ act :: l2 → act ∉ l1 →
             ∀ x, x ∈ l1 → (Q act <=? Q x)%float = false))
   ∧ (∀ state' x, q_lookup (q_table r.2) state' x
                  = q_lookup (q_table a) state' x)
   ∧ (∀ x, x ∈ actions → has_entry (q_table r.2) state x))
  ∧ (training && (uniform d <? epsilon a)%float = true →
     r = (random_choice (index d) actions, a)
     ∧ (actions = [] → r.1 = Raise IndexError)
     ∧ (actions ≠ [] → ∃ act, r.1 = Ok act ∧ act ∈ actions)).
Proof.
  intros Q r. subst r. unfold choose_action. split; intros Hmode; rewrite Hmode.
  2:{ split; [done|]. split; [by intros ->|].
      intros Hne. by apply random_choice_elem. }
  pose proof (q_dict_spec state actions (q_table a) [])
    as (Hl & _ & He & Hi & Ha & _).
  pose proof (q_dict_keys state actions (q_table a) []) as Hkeys.
  change (first_seen _ actions) with (first_seen [] actions) in Hkeys.
  destruct (q_dict state actions (q_table a) []) as [D t'] eqn:ER.
  cbn [fst snd] in Hl, He, Hi, Ha, Hkeys.
  assert (∀ item, item ∈ D → item.1 ∈ actions ∧ item.2 = Q item.1) as Hitem.
  { intros item Hin. by destruct (Hi item Hin) as [?%elem_of_nil|?]. }
  assert (∀ x, x ∈ actions → (x, Q x) ∈ D) as Hpair.
  { intros x Hx. apply Ha, list_elem_of_fmap in Hx as ([k v] & -> & Hin).
    destruct (Hitem _ Hin) as [_ Hv]. simpl in Hv. by subst v. }
  assert ((∀ state' x, q_lookup (q_table (match D with
            | [] => (Raise ValueError, with_table a t')
            | (k0, v0) :: rest =>
                (Ok (max_by_value k0 v0 rest), with_table a t')
            end).2) state' x = q_lookup (q_table a) state' x)
          ∧ (∀ x, x ∈ actions → has_entry (q_table (match D with
            | [] => (Raise ValueError, with_table a t')
            | (k0, v0) :: rest =>
                (Ok (max_by_value k0 v0 rest), with_table a t')
            end).2) state x)) as [Hvals Hents].
  { destruct D as [|[k0 v0] rest]; by split. }
  split; [|split; [|by split]].
  { intros ->. simpl in ER. by injection ER as <- <-. }
  intros Hne. destruct D as [|[k0 v0] rest].
  { destruct actions as [|x l]; [done|].
    specialize (Hpair x ltac:(left)). by apply elem_of_nil in Hpair. }
  cbn [fst]. unfold max_by_value.
  pose proof (max_item_value (k0, v0) rest) as [Hin Hval].
  destruct (Hitem _ Hin) as [Hact HQ].
  exists (max_item (k0, v0) rest).1. split; [done|]. split; [done|]. split.
  - intros x Hx. rewrite <- HQ, Hval. apply float_max_upper.
    apply Hpair in Hx.
    change (v0 :: rest.*2) with (((k0, v0) :: rest).*2).
    by apply (list_elem_of_fmap_2 snd) in Hx.
  - intros l1 l2 Hsplit Hfresh x Hx.
    assert (NoDup ((k0, v0) :: rest).*1) as Hnd.
    { rewrite Hkeys. apply first_seen_NoDup. constructor. }
    destruct (first_seen_split l1 _ l2 Hfresh) as [more Hfs].
    rewrite <- Hsplit, <- Hkeys in Hfs.
    assert (x ∈ first_seen [] l1) as Hxin
      by (apply first_seen_elem; by right).
    rewrite <- HQ.
    destruct (max_item_first (k0, v0) rest)
      as [Heq|(r1 & r2 & Hrest & Hlt & Hr1)].
    + rewrite Heq in Hfs. cbn [fmap list_fmap fst] in Hfs, Hnd.
      apply (NoDup_split_unique [] _ rest.*1 more k0 Hnd) in Hfs.
      rewrite <- Hfs in Hxin. by apply elem_of_nil in Hxin.
    + assert (((k0, v0) :: rest).*1
              = (k0 :: r1.*1) ++ (max_item (k0, v0) rest).1 :: r2.*1) as Hd.
      { rewrite Hrest at 1. cbn [fmap list_fmap fst].
        by rewrite fmap_app, fmap_cons. }
      rewrite Hd in Hfs, Hnd.
      apply (NoDup_split_unique _ _ _ _ _ Hnd) in Hfs.
      rewrite <- Hfs in Hxin.
      apply elem_of_cons in Hxin as [->|Hxin].
      * destruct (Hitem (k0, v0) ltac:(left)) as [_ Hv0]. simpl in Hv0.
        rewrite <- Hv0. rewrite leb_spec. rewrite ltb_spec in Hlt.
        eapply SFleb_after; [apply SFltb_irrefl|done].
      * apply list_elem_of_fmap in Hxin as (item & -> & Hitin).
        assert (item ∈ (k0, v0) :: rest) as Hin'.
        { right. rewrite Hrest. apply elem_of_app. by left. }
        destruct (Hitem _ Hin') as [_ <-]. by apply Hr1.
Qed.


(** On a non-empty list [choose_action] returns a listed action and changes
    no value of the table, whatever the mode and the draw. *)
Lemma choose_action_valid (d : draw) (state : string) (actions : list Z)
    (training : bool) (a : QLearningAgent) :
  actions ≠ [] →
  ∃ act, (choose_action d state actions training a).1 = Ok act
    ∧ act ∈ actions
    ∧ (∀ state' x,
         q_lookup (q_table (choose_action d state actions training a).2)
           state' x = q_lookup (q_table a) state' x).
Proof.
  intros Hne.
  destruct (choose_action_cases d state actions training a) as [Hg He].
  destruct (training && (uniform d <? epsilon a)%float) eqn:Emode.
  - destruct (He eq_refl) as (Hr & _ & Hin). destruct (Hin Hne) as (act & ? & ?).
    exists act. split; [done|]. split; [done|]. by rewrite Hr.
  - destruct (Hg eq_refl) as (_ & Hin & Hv & _).
    destruct (Hin Hne) as (act & ? & ? & _). by exists act.
Qed.

(** X3. [choose_action] when it does not explore (not training, or the draw
    of [random.random()] is not below epsilon): on a non-empty list it
    returns a listed action whose table value no listed action exceeds,
    and the first such one: every action listed before it has a value that
    is neither above nor equal. The reads change no value of the table but
    leave an explicit entry for every listed action. On an empty list it
    raises [ValueError]. When it explores it returns
    [random.choice(available_actions)], a listed action, without touching the
    table, or raises [IndexError] on an empty list. *)
Theorem choose_action_greedy_first (d : draw) (state : string)
    (actions : list Z) (training : bool) (a : QLearningAgent) :
  let Q := q_lookup (q_table a) state in
  let r := choose_action d state actions training a in
  (training && (uniform d <? epsilon a)%float = false →
   (actions = [] → r.1 = Raise ValueError)
   ∧ (actions ≠ [] →
      ∃ act, r.1 = Ok act ∧ act ∈ actions
        ∧ (∀ x, x ∈ actions → (Q act <? Q x)%float = false)
        ∧ (∀ l1 l2, actions = l1 ++ act :: l2 → act ∉ l1 →
             ∀ x, x ∈ l1 → (Q act <=? Q x)%float = false))
   ∧ (∀ state' x, q_lookup (q_table r.2) state' x
                  = q_lookup (q_table a) state' x)
   ∧ (∀ x, x ∈ actions → has_entry (q_table r.2) state x))
  ∧ (training && (uniform d <? epsilon a)%float = true →
     r = (random_choice (index d) actions, a)
     ∧ (actions = [] → r.1 = Raise IndexError)
     ∧ (actions ≠ [] → ∃ act, r.1 = Ok act ∧ act ∈ actions)).
Proof. apply choose_action_cases. Qed.

(** A fresh agent asked without exploration takes the first listed action:
    all values are [0.0]. *)
Lemma choose_action_greedy_first_witness :
  ∃ act, (choose_action {| uniform := 0.5; index := 0 |} "         "
            [4; 0; 8] false default_agent).1 = Ok act
         ∧ act ∈ [4; 0; 8].
Proof.
  destruct (proj1 (proj2 (proj1 (choose_action_greedy_first
              {| uniform := 0.5; index := 0 |} "         " [4; 0; 8] false
              default_agent) eq_refl)) ltac:(done))
    as (act & Hact & Hin & _).
  by exists act.
Defined.

(** ** The dispatcher and the self-play loop with the real strategies *)

Section DispatchFacts.

Implicit Types (g : TicTacToeAI) (p : player) (s : Strategy).

Lemma same_but_reads_refl g : same_but_reads g g.
Proof. by repeat split. Qed.

Lemma same_but_reads_set_board g : same_but_reads g (set_board g (board g)).
Proof. by repeat split. Qed.

(** Whatever the strategy, the side, the mode and the random draws, the
    dispatcher answers an available cell on a nine-cell board with a free
    cell, and changes nothing in the game but table entries added by reads. *)
Lemma get_move_by_strategy_valid (rnd : TicTacToeAI → draw) p s
    (training : bool) g :
  length (board g) = 9%nat → Blank ∈ board g →
  ∃ move g',
    get_move_by_strategy rnd p s training g = Ok (move, g')
    ∧ move ∈ get_available_moves (board g)
    ∧ same_but_reads g g'.
Proof.
  intros Hlen Hblank.
  pose proof (available_nonempty _ Hlen Hblank) as Hne.
  destruct s; cbn [get_move_by_strategy].
  - destruct (best_move_call_valid p _ Hlen Hblank) as (m & -> & Hin).
    exists m, (set_board g (board g)). split; [done|]. split; [done|].
    apply same_but_reads_set_board.
  - destruct p; cbn [player_eqb].
    + destruct (choose_action_valid (rnd g) (get_state_key (board g))
                  (get_available_moves (board g)) training (q_agent_x g) Hne)
        as (act & Hact & Hin & Hv).
      rewrite Hact. eexists act, _. split; [reflexivity|]. split; [done|].
      by repeat split.
    + destruct (choose_action_valid (rnd g) (get_state_key (board g))
                  (get_available_moves (board g)) training (q_agent_o g) Hne)
        as (act & Hact & Hin & Hv).
      rewrite Hact. eexists act, _. split; [reflexivity|]. split; [done|].
      by repeat split.
  - unfold get_random_move.
    destruct (random_choice_elem (index (rnd g)) _ Hne) as (m & -> & Hin).
    exists m, g. split; [done|]. split; [done|]. apply same_but_reads_refl.
  - destruct (get_aggressive_move_valid (index (rnd g)) p _ Hne)
      as (m & -> & Hin).
    exists m, (set_board g (board g)). split; [done|]. split; [done|].
    apply same_but_reads_set_board.
  - destruct (get_defensive_move_valid (index (rnd g)) p _ Hne)
      as (m & -> & Hin).
    exists m, (set_board g (board g)). split; [done|]. split; [done|].
    apply same_but_reads_set_board.
  - destruct (get_hybrid_move_valid (index (rnd g)) p _ Hlen Hblank)
      as (m & -> & Hin).
    exists m, (set_board g (board g)). split; [done|]. split; [done|].
    apply same_but_reads_set_board.
Qed.

End DispatchFacts.



Section HistoryFacts.

Implicit Types (b : Board) (p : player) (l : list (string * Z * player)).

Lemma opponent_of_involutive p : opponent_of (opponent_of p) = p.
Proof. by destruct p. Qed.

Lemma count_mark_set b m p q :
  (Z.to_nat m < length b)%nat → cell_at b m = Blank →
  count_mark q (set_cell b m (Mark p))
  = (count_mark q b + if bool_decide (q = p) then 1 else 0)%nat.
Proof.
  unfold count_mark, set_cell, cell_at. generalize (Z.to_nat m) as i.
  induction b as [|c b IH]; intros i Hlt Hblank; simpl in Hlt; [lia|].
  destruct i as [|i]; simpl in *.
  - subst c. rewrite !filter_cons.
    rewrite (decide_False (P := Blank = Mark q)) by done.
    case_bool_decide as Hq.
    + subst q. rewrite decide_True by done. simpl. lia.
    + rewrite decide_False by congruence. lia.
  - rewrite !filter_cons. specialize (IH i ltac:(lia) Hblank).
    destruct (decide (c = Mark q)); simpl; lia.
Qed.

Lemma string_of_list_length (cs : list ascii) :
  String.length (string_of_list_ascii cs) = length cs.
Proof. induction cs as [|c cs IH]; simpl; congruence. Qed.

Lemma get_state_key_length b : String.length (get_state_key b) = length b.
Proof. unfold get_state_key. by rewrite string_of_list_length, length_fmap. Qed.

(** What a history of legal play says about its board: nine cells, as many
    marks as entries, X one ahead exactly when O is to move, and every
    recorded key nine characters long. *)
Lemma recorded_facts l b p :
  recorded l b p →
  length b = 9%nat
  ∧ count_mark X b = (count_mark O b + if bool_decide (p = O) then 1 else 0)%nat
  ∧ length l = (count_mark X b + count_mark O b)%nat
  ∧ Forall (fun e => String.length e.1.1 = 9%nat) l.
Proof.
  induction 1 as [|l b p move Hrec (Hlen & Hcount & Hl & Hkeys) Hopen Hvalid].
  - by repeat split.
  - apply is_valid_move_available, available_spec in Hvalid as [Hr Hb].
    assert (Z.to_nat move < length b)%nat as Hlt by lia.
    split; [by rewrite set_cell_length|].
    rewrite !count_mark_set by done. split; [|split].
    + destruct p; simpl in *; lia.
    + rewrite length_app. simpl. destruct p; simpl; lia.
    + apply Forall_app. split; [done|]. constructor; [|done].
      simpl. by rewrite get_state_key_length.
Qed.

(** A move that ends the game with a line ends it for the mover. *)
Lemma winner_is_mover b p move c :
  length b = 9%nat → check_winner b = None → is_valid_move b move = true →
  check_winner (set_cell b move (Mark p)) = Some (Won c) → c = Mark p.
Proof.
  intros Hlen [Hno _]%check_winner_none Hvalid Hwon.
  apply is_valid_move_available, available_spec in Hvalid as [Hr Hb].
  apply check_winner_won in Hwon as (q & combo & -> & Hin & H0 & H1 & H2).
  destruct (decide (q = p)) as [->|Hne]; [done|]. exfalso.
  apply (Hno q combo Hin).
  assert (∀ i, cell_at (set_cell b move (Mark p)) i = Mark q →
               cell_at b i = Mark q) as Hsame.
  { intros i Hi. destruct (decide (Z.to_nat move = Z.to_nat i)) as [He|He].
    - unfold cell_at in Hi. rewrite <- He in Hi.
      fold (cell_at (set_cell b move (Mark p)) move) in Hi.
      rewrite cell_at_set_same in Hi by lia. congruence.
    - by rewrite cell_at_set_other in Hi. }
  repeat split; by apply Hsame.
Qed.

Lemma get_lt (n : nat) (s : string) :
  (n < String.length s)%nat → ∃ c, String.get n s = Some c.
Proof.
  revert n. induction s as [|c s IH]; intros n Hlt; simpl in Hlt; [lia|].
  destruct n as [|n]; simpl; [by eexists|]. apply IH. lia.
Qed.

Lemma blank_indices_ok (js : list Z) (s : string) :
  (∀ j, j ∈ js → (Z.to_nat j < String.length s)%nat) →
  ∃ found, blank_indices js s = Ok found.
Proof.
  induction js as [|j rest IH]; intros Hin; [by eexists|].
  cbn [blank_indices].
  destruct (get_lt (Z.to_nat j) s) as [c ->]; [apply Hin; left|].
  destruct IH as [found ->]; [intros ? ?; apply Hin; by right|].
  by eexists.
Qed.

(** On a trajectory whose keys have nine characters the update of the episode
    raises nothing. *)
Lemma update_from_ok (w : verdict) (gs entries : list (string * Z * player))
    (i : nat) (agents : QLearningAgent * QLearningAgent) :
  Forall (fun e => String.length e.1.1 = 9%nat) gs →
  ∃ agents', update_from w gs i entries agents = Ok agents'.
Proof.
  intros Hkeys. revert i agents.
  induction entries as [|[[state action] p] rest IH]; intros i agents;
    [by eexists|].
  cbn [update_from]. unfold update_args.
  destruct (gs !! (i + 1)%nat) as [[[next_state ?] ?]|] eqn:Enext.
  - eapply Forall_lookup_1 in Hkeys; [|done]. simpl in Hkeys.
    destruct (blank_indices_ok range9 next_state) as [found ->].
    { intros j [? ?]%elem_of_seqZ. lia. }
    simpl. apply IH.
  - simpl. apply IH.
Qed.

End HistoryFacts.

Section SelfPlayRun.

Implicit Types (g : TicTacToeAI) (l : list (string * Z * player))
  (w : verdict).

Lemma make_move_valid (b : Board) (move : Z) (p : player) :
  is_valid_move b move = true →
  make_move b move p = (true, set_cell b move (Mark p)).
Proof. intros H. unfold make_move. by rewrite H. Qed.

#[local] Opaque make_move check_winner update_from get_state_key set_cell
  is_valid_move strategy_value.

(** One pass of the loop on a valid move, in a game whose history so far is
    [l]: the mark is written and the history grows by the entry of the
    move in every trajectory that is being kept. If the game is not over
    the turn passes; if it is over the pass returns the verdict, after the
    update of the episode, which raises nothing, and with one more record
    in the collector when data is collected. *)
Lemma play_turn_legal (training collect_data : bool) (start : string) l
    (move : Z) g :
  recorded l (board g) (current_player g) →
  check_winner (board g) = None →
  is_valid_move (board g) move = true →
  (learning training g = true → game_states g = l) →
  (collect_data = true → current_game_moves g = l) →
  ∃ g',
    board g' = set_cell (board g) move (Mark (current_player g))
    ∧ strategy_x g' = strategy_x g ∧ strategy_o g' = strategy_o g
    ∧ (learning training g = true →
       game_states g'
       = l ++ [(get_state_key (board g), move, current_player g)])
    ∧ (collect_data = true →
       current_game_moves g'
       = l ++ [(get_state_key (board g), move, current_player g)])
    ∧ match check_winner (set_cell (board g) move (Mark (current_player g))) with
      | None =>
          play_turn training collect_data start (get_state_key (board g))
            move g = Ok (None, g')
          ∧ current_player g' = opponent_of (current_player g)
          ∧ data_collector g' = data_collector g
      | Some w =>
          play_turn training collect_data start (get_state_key (board g))
            move g = Ok (Some w, g')
          ∧ current_player g' = current_player g
          ∧ data_collector g'
            = if collect_data
              then {| games_data :=
                        games_data (data_collector g)
                        ++ [ {| game_id := current_game_id (data_collector g);
                                player_x_strategy := strategy_value (strategy_x g);
                                player_o_strategy := strategy_value (strategy_o g);
                                moves := l ++ [(get_state_key (board g), move,
                                                current_player g)];
                                winner := w;
                                game_length := Z.of_nat (S (length l));
                                timestamp := start |} ];
                      current_game_id :=
                        current_game_id (data_collector g) + 1 |}
              else data_collector g
      end.
Proof.
  intros Hrec Hopen Hvalid Hgs Hcgm.
  pose proof (recorded_move _ _ _ _ Hrec Hopen Hvalid) as Hrec'.
  apply recorded_facts in Hrec' as (_ & _ & _ & Hkeys).
  destruct g as [b cp sx so ax ao gs dc cgm].
  unfold play_turn, learning in *. cbn in Hrec, Hopen, Hvalid, Hgs, Hcgm, Hkeys.
  destruct (training && (strategy_eqb sx Q_LEARNING || strategy_eqb so Q_LEARNING))
    eqn:El; destruct collect_data; cbn; rewrite ?El; cbn;
    rewrite (make_move_valid _ _ _ Hvalid); cbn;
    destruct (check_winner (set_cell b move (Mark cp))) as [w|]; cbn;
    rewrite ?El; cbn;
    try (rewrite Hgs by done); try (rewrite Hcgm by done);
    try (destruct (update_from_ok w (l ++ [(get_state_key b, move, cp)])
                     (l ++ [(get_state_key b, move, cp)]) 0 (ax, ao) Hkeys)
           as [agents Hupd];
         unfold update_q_learning; rewrite Hupd; cbn);
    (eexists;
     split; [|split; [|split; [|split; [|split; [|split; [reflexivity|split]]]]]]);
    cbn; rewrite ?length_app; cbn; rewrite ?Nat.add_1_r; done.
Qed.

End SelfPlayRun.

Section SelfPlayTermination.

Implicit Types (g : TicTacToeAI) (l : list (string * Z * player))
  (w : verdict).

Lemma learning_same training g g' :
  strategy_x g' = strategy_x g → strategy_o g' = strategy_o g →
  learning training g' = learning training g.
Proof. unfold learning. by intros -> ->. Qed.

(** The loop of [play_self_game] with the strategies of the program, started
    in a position of legal play with history [l]: within as many passes as
    there are free cells it returns a verdict, raising nothing. The game it
    returns is a legal history [l'] followed by a last valid move on a board
    that was not yet decided; its board has the verdict returned. *)
Lemma self_play_loop_run (rnd : TicTacToeAI → draw)
    (training collect_data : bool) (start : string) (fuel : nat) l g :
  recorded l (board g) (current_player g) →
  check_winner (board g) = None →
  (length (get_available_moves (board g)) ≤ fuel)%nat →
  (learning training g = true → game_states g = l) →
  (collect_data = true → current_game_moves g = l) →
  ∃ w g' l' b p move,
    self_play_loop (get_move_by_strategy rnd) fuel training collect_data
      start g = Some (Ok (w, g'))
    ∧ recorded l' b p ∧ check_winner b = None
    ∧ is_valid_move b move = true
    ∧ (∃ more, l' ++ [(get_state_key b, move, p)] = l ++ more)
    ∧ board g' = set_cell b move (Mark p) ∧ current_player g' = p
    ∧ check_winner (board g') = Some w
    ∧ strategy_x g' = strategy_x g ∧ strategy_o g' = strategy_o g
    ∧ (learning training g = true →
       game_states g' = l' ++ [(get_state_key b, move, p)])
    ∧ (collect_data = true →
       current_game_moves g' = l' ++ [(get_state_key b, move, p)])
    ∧ data_collector g'
      = if collect_data
        then {| games_data :=
                  games_data (data_collector g)
                  ++ [ {| game_id := current_game_id (data_collector g);
                          player_x_strategy := strategy_value (strategy_x g);
                          player_o_strategy := strategy_value (strategy_o g);
                          moves := l' ++ [(get_state_key b, move, p)];
                          winner := w;
                          game_length := Z.of_nat (S (length l'));
                          timestamp := start |} ];
                current_game_id := current_game_id (data_collector g) + 1 |}
        else data_collector g.
Proof.
  revert l g. induction fuel as [|fuel IH]; intros l g Hrec Hopen Hfuel Hgs Hcgm.
  { exfalso. pose proof (recorded_facts _ _ _ Hrec) as (Hlen & _).
    apply check_winner_none in Hopen as [_ Hblank].
    pose proof (available_nonempty _ Hlen Hblank).
    destruct (get_available_moves (board g)); simpl in *; [done|lia]. }
  pose proof (recorded_facts _ _ _ Hrec) as (Hlen & _).
  pose proof Hopen as [_ Hblank]%check_winner_none.
  cbn [self_play_loop].
  destruct (get_move_by_strategy_valid rnd (current_player g)
              (if player_eqb (current_player g) X then strategy_x g
               else strategy_o g) training g Hlen Hblank)
    as (move & g1 & -> & Hin & Hb1 & Hp1 & Hsx1 & Hso1 & Hgs1 & Hdc1 & Hcgm1 & _).
  apply is_valid_move_available in Hin as Hvalid.
  rewrite <- Hb1 in Hrec, Hopen, Hvalid. rewrite <- Hp1 in Hrec.
  rewrite <- (learning_same training g g1 Hsx1 Hso1), <- Hgs1 in Hgs.
  rewrite <- Hcgm1 in Hcgm.
  destruct (play_turn_legal training collect_data start l move g1
              Hrec Hopen Hvalid Hgs Hcgm)
    as (g2 & Hb2 & Hsx2 & Hso2 & Hgs2 & Hcgm2 & Hcase).
  rewrite <- Hb1.
  destruct (check_winner (set_cell (board g1) move (Mark (current_player g1))))
    as [w|] eqn:Ew.
  - destruct Hcase as (-> & Hp2 & Hdc2).
    exists w, g2, l, (board g1), (current_player g1), move.
    split; [done|]. split; [done|]. split; [done|]. split; [done|].
    split; [by eexists|]. split; [done|]. split; [done|].
    split; [by rewrite Hb2|]. split; [congruence|]. split; [congruence|].
    split.
    { intros Hl. apply Hgs2.
      by rewrite (learning_same training g g1 Hsx1 Hso1). }
    split; [done|].
    rewrite Hdc2, Hdc1, Hsx1, Hso1. done.
  - destruct Hcase as (-> & Hp2 & Hdc2).
    pose proof (recorded_move _ _ _ _ Hrec Hopen Hvalid) as Hrec2.
    rewrite <- Hb2, <- Hp2 in Hrec2. rewrite <- Hb2 in Ew.
    assert (length (get_available_moves (board g2)) ≤ fuel)%nat as Hfuel2.
    { rewrite Hb2.
      pose proof (available_after_move (board g1) move (current_player g1)) as Hlt.
      rewrite Hb1 in Hlt |- *. specialize (Hlt Hlen Hin). lia. }
    rewrite <- (learning_same training g1 g2 Hsx2 Hso2) in Hgs2.
    destruct (IH _ g2 Hrec2 Ew Hfuel2 Hgs2 Hcgm2)
      as (w & g' & l' & b & p & m & Hrun & Hr & Ho & Hv & [more Hmore] & Hb
          & Hp & Hw & Hsx & Hso & Hg & Hc & Hd).
    exists w, g', l', b, p, m.
    split; [done|]. split; [done|]. split; [done|]. split; [done|].
    split; [eexists; by rewrite Hmore, <- app_assoc|].
    split; [done|]. split; [done|]. split; [done|].
    split; [congruence|]. split; [congruence|].
    split.
    { intros Hl. apply Hg.
      rewrite (learning_same training g1 g2 Hsx2 Hso2).
      by rewrite (learning_same training g g1 Hsx1 Hso1). }
    split; [done|].
    rewrite Hd, Hdc2, Hdc1, Hsx2, Hso2, Hsx1, Hso1. done.
Qed.

End SelfPlayTermination.

Section GameFacts.

Implicit Types (b : Board) (p : player).

Lemma count_cells b :
  length b
  = (count_mark X b + count_mark O b + length (filter (fun c => c = Blank) b))%nat.
Proof.
  unfold count_mark. induction b as [|c b IH]; [done|].
  rewrite !filter_cons. destruct c as [|[|]]; simpl; lia.
Qed.

Lemma count_full b :
  Blank ∉ b → length b = (count_mark X b + count_mark O b)%nat.
Proof.
  intros Hno. rewrite (count_cells b).
  destruct (filter (fun c => c = Blank) b) as [|c l] eqn:E; [simpl; lia|].
  assert (c ∈ filter (fun c => c = Blank) b) as [-> ?]%list_elem_of_filter
    by (rewrite E; left).
  done.
Qed.

(** A player who holds a line has at least three marks on the board. *)
Lemma line_owned_count b p combo :
  length b = 9%nat → combo ∈ wins → line_owned b p combo →
  (3 ≤ count_mark p b)%nat.
Proof.
  intros Hlen Hin (H0 & H1 & H2).
  do 10 (destruct b as [|? b]; try discriminate Hlen). clear Hlen.
  unfold wins in Hin.
  repeat (apply elem_of_cons in Hin as [->|Hin];
    [cbv [cell_at] in H0, H1, H2; simpl in H0, H1, H2; subst;
     unfold count_mark; rewrite !filter_cons;
     repeat case_decide; simpl; try lia; done|]).
  by apply elem_of_nil in Hin.
Qed.

End GameFacts.

Section SelfPlayEnd.

Implicit Types (g : TicTacToeAI) (l : list (string * Z * player))
  (w : verdict).

(** [play_self_game] with the strategies of the program, in full: what it
    returns and the state it leaves, for any random source, any pair of
    strategies, any flags and any state it is called in. *)
Lemma play_self_game_run (rnd : TicTacToeAI → draw)
    (training collect_data : bool) (start : string) (fuel : nat) g :
  (9 ≤ fuel)%nat →
  ∃ w g' l' b p move,
    play_self_game (get_move_by_strategy rnd) fuel training collect_data
      start g = Some (Ok (w, g'))
    ∧ recorded l' b p ∧ check_winner b = None
    ∧ is_valid_move b move = true
    ∧ board g' = set_cell b move (Mark p) ∧ current_player g' = p
    ∧ check_winner (board g') = Some w
    ∧ strategy_x g' = strategy_x g ∧ strategy_o g' = strategy_o g
    ∧ (learning training g = true →
       game_states g' = l' ++ [(get_state_key b, move, p)])
    ∧ (collect_data = true →
       current_game_moves g' = l' ++ [(get_state_key b, move, p)])
    ∧ data_collector g'
      = if collect_data
        then {| games_data :=
                  games_data (data_collector g)
                  ++ [ {| game_id := current_game_id (data_collector g);
                          player_x_strategy := strategy_value (strategy_x g);
                          player_o_strategy := strategy_value (strategy_o g);
                          moves := l' ++ [(get_state_key b, move, p)];
                          winner := w;
                          game_length := Z.of_nat (S (length l'));
                          timestamp := start |} ];
                current_game_id := current_game_id (data_collector g) + 1 |}
        else data_collector g.
Proof.
  intros Hfuel. unfold play_self_game.
  destruct (self_play_loop_run rnd training collect_data start fuel []
              (set_current_game_moves (set_game_states (reset_board g) []) []))
    as (w & g' & l' & b & p & m & Hrun & Hr & Ho & Hv & _ & Hrest).
  - apply recorded_start.
  - reflexivity.
  - simpl. lia.
  - done.
  - done.
  - exists w, g', l', b, p, m. split; [done|]. split; [done|].
    split; [done|]. split; [done|]. apply Hrest.
Qed.

(** The facts of a finished game that follow from its history. *)
Lemma finished_game_facts l b p move w :
  recorded l b p → check_winner b = None → is_valid_move b move = true →
  check_winner (set_cell b move (Mark p)) = Some w →
  length (set_cell b move (Mark p)) = 9%nat
  ∧ (w = Tie ∨ w = Win p)
  ∧ count_mark X (set_cell b move (Mark p))
    = (count_mark O (set_cell b move (Mark p))
       + if bool_decide (p = X) then 1 else 0)%nat
  ∧ S (length l)
    = (count_mark X (set_cell b move (Mark p))
       + count_mark O (set_cell b move (Mark p)))%nat
  ∧ (w = Tie → S (length l) = 9%nat ∧ p = X)
  ∧ (5 ≤ S (length l) ≤ 9)%nat.
Proof.
  intros Hrec Hopen Hvalid Hw.
  pose proof (recorded_facts _ _ _ Hrec) as (Hlen & _).
  pose proof (recorded_move _ _ _ _ Hrec Hopen Hvalid) as Hrec'.
  apply recorded_facts in Hrec' as (Hlen' & Hcount & Hl & _).
  rewrite length_app in Hl. simpl in Hl. rewrite Nat.add_1_r in Hl.
  set (b' := set_cell b move (Mark p)) in *.
  assert (w = Tie ∨ w = Win p) as Hwho.
  { destruct w as [c|]; [right|by left].
    by rewrite (winner_is_mover b p move c Hlen Hopen Hvalid Hw). }
  assert (count_mark X b' = (count_mark O b'
            + if bool_decide (p = X) then 1 else 0)%nat) as Hcount'.
  { rewrite Hcount. by destruct p. }
  assert (count_mark X b' + count_mark O b' ≤ 9)%nat as Hle.
  { rewrite <- Hlen', (count_cells b'). lia. }
  split; [done|]. split; [done|]. split; [done|]. split; [done|]. split.
  - intros ->. apply check_winner_tie in Hw as [_ Hfull].
    apply count_full in Hfull. rewrite Hlen' in Hfull.
    split; [lia|]. destruct p; [done|]. simpl in Hcount'. lia.
  - split; [|lia]. destruct Hwho as [->| ->].
    + apply check_winner_tie in Hw as [_ Hfull].
      apply count_full in Hfull. lia.
    + apply check_winner_won in Hw as (q & combo & [= <-] & Hin & Hown).
      pose proof (line_owned_count b' p combo Hlen' Hin Hown).
      destruct p; simpl in Hcount'; lia.
Qed.

End SelfPlayEnd.

(** ** Legal play in a self-play game *)

Section LegalPasses.

Implicit Types (g : TicTacToeAI) (l : list (string * Z * player))
  (w : verdict).



End LegalPasses.



(** X5. A self-play game with the strategies of the program always ends: for
    every pair of strategies, every random source, with or without training
    and data collection and from whatever state it is called in,
    [play_self_game] returns within nine passes of its loop, raises
    nothing, and returns the verdict [check_winner] gives for the final
    board. The verdict is a tie or a win of the player who moved last, and
    the strategies are not changed. *)
Theorem play_self_game_terminates (rnd : TicTacToeAI → draw)
    (training collect_data : bool) (start : string) (fuel : nat)
    (g : TicTacToeAI) :
  (9 ≤ fuel)%nat →
  ∃ w g',
    play_self_game (get_move_by_strategy rnd) fuel training collect_data
      start g = Some (Ok (w, g'))
    ∧ check_winner (board g') = Some w
    ∧ (w = Tie ∨ w = Win (current_player g'))
    ∧ length (board g') = 9%nat
    ∧ strategy_x g' = strategy_x g ∧ strategy_o g' = strategy_o g.
Proof.
  intros Hfuel.
  destruct (play_self_game_run rnd training collect_data start fuel g Hfuel)
    as (w & g' & l' & b & p & m & Hrun & Hr & Ho & Hv & Hb & Hp & Hw & Hsx
        & Hso & _).
  rewrite Hb in Hw.
  destruct (finished_game_facts l' b p m w Hr Ho Hv Hw) as (Hlen & Hwho & _).
  exists w, g'. rewrite Hb, Hp. by repeat split.
Qed.

Lemma play_self_game_terminates_witness :
  ∃ w g',
    play_self_game
      (get_move_by_strategy (fun _ => {| uniform := 0.5; index := 0 |})) 9
      false false "" (init_game RANDOM DEFENSIVE) = Some (Ok (w, g'))
    ∧ check_winner (board g') = Some w
    ∧ (w = Tie ∨ w = Win (current_player g'))
    ∧ length (board g') = 9%nat
    ∧ strategy_x g' = RANDOM ∧ strategy_o g' = DEFENSIVE.
Proof.
  apply (play_self_game_terminates _ false false "" 9
           (init_game RANDOM DEFENSIVE)).
  lia.
Defined.

(** X6. The final board of a self-play game respects the alternation of legal
    play: X has as many marks as O when O moved last and one more when X
    moved last. So a win of X leaves X one mark ahead, a win of O leaves the
    marks equal, and a tie leaves five marks of X and four of O. *)
Theorem play_self_game_alternation (rnd : TicTacToeAI → draw)
    (training collect_data : bool) (start : string) (fuel : nat)
    (g : TicTacToeAI) :
  (9 ≤ fuel)%nat →
  ∃ w g',
    play_self_game (get_move_by_strategy rnd) fuel training collect_data
      start g = Some (Ok (w, g'))
    ∧ count_mark X (board g')
      = (count_mark O (board g')
         + if bool_decide (current_player g' = X) then 1 else 0)%nat
    ∧ (w = Win X → count_mark X (board g') = S (count_mark O (board g')))
    ∧ (w = Win O → count_mark X (board g') = count_mark O (board g'))
    ∧ (w = Tie → count_mark X (board g') = 5%nat
                 ∧ count_mark O (board g') = 4%nat).
Proof.
  intros Hfuel.
  destruct (play_self_game_run rnd training collect_data start fuel g Hfuel)
    as (w & g' & l' & b & p & m & Hrun & Hr & Ho & Hv & Hb & Hp & Hw & _).
  rewrite Hb in Hw.
  destruct (finished_game_facts l' b p m w Hr Ho Hv Hw)
    as (Hlen & Hwho & Hcount & Hl & Htie & _).
  exists w, g'. rewrite Hb, Hp. split; [done|]. split; [done|].
  split; [|split].
  - intros ->. destruct Hwho as [?|[= <-]]; [done|]. rewrite Hcount. simpl. lia.
  - intros ->. destruct Hwho as [?|[= <-]]; [done|]. rewrite Hcount. simpl. lia.
  - intros Ht. destruct (Htie Ht) as [H9 ->]. simpl in Hcount. lia.
Qed.

Lemma play_self_game_alternation_witness :
  ∃ w g',
    play_self_game
      (get_move_by_strategy (fun _ => {| uniform := 0.5; index := 0 |})) 9
      false false "" (init_game MINIMAX AGGRESSIVE) = Some (Ok (w, g'))
    ∧ count_mark X (board g')
      = (count_mark O (board g')
         + if bool_decide (current_player g' = X) then 1 else 0)%nat
    ∧ (w = Win X → count_mark X (board g') = S (count_mark O (board g')))
    ∧ (w = Win O → count_mark X (board g') = count_mark O (board g'))
    ∧ (w = Tie → count_mark X (board g') = 5%nat
                 ∧ count_mark O (board g') = 4%nat).
Proof.
  apply (play_self_game_alternation _ false false "" 9
           (init_game MINIMAX AGGRESSIVE)).
  lia.
Defined.

(** X7. With data collection on, a self-play game adds exactly one record to
    the collector and raises the game id by one. The record carries the
    old game id, the names of the two strategies, the verdict returned and
    the full list of moves, which is a history of legal play from the
    empty board (each entry the key of the board before the move, a valid
    move and the mover, X first); its [game_length] is the length of that
    list, between 5 and 9, and 9 on a tie. With data collection off the
    collector is not touched. *)
Theorem play_self_game_record (rnd : TicTacToeAI → draw) (training : bool)
    (collect_data : bool) (start : string) (fuel : nat) (g : TicTacToeAI) :
  (9 ≤ fuel)%nat →
  ∃ w g',
    play_self_game (get_move_by_strategy rnd) fuel training collect_data
      start g = Some (Ok (w, g'))
    ∧ (collect_data = false → data_collector g' = data_collector g)
    ∧ (collect_data = true →
       ∃ r, data_collector g'
            = {| games_data := games_data (data_collector g) ++ [r];
                 current_game_id := current_game_id (data_collector g) + 1 |}
         ∧ game_id r = current_game_id (data_collector g)
         ∧ player_x_strategy r = strategy_value (strategy_x g)
         ∧ player_o_strategy r = strategy_value (strategy_o g)
         ∧ winner r = w ∧ timestamp r = start
         ∧ moves r = current_game_moves g'
         ∧ game_length r = Z.of_nat (length (moves r))
         ∧ 5 ≤ game_length r ≤ 9
         ∧ (w = Tie → game_length r = 9)
         ∧ recorded (moves r) (board g') (opponent_of (current_player g'))).
Proof.
  intros Hfuel.
  destruct (play_self_game_run rnd training collect_data start fuel g Hfuel)
    as (w & g' & l' & b & p & m & Hrun & Hr & Ho & Hv & Hb & Hp & Hw & _ & _
        & _ & Hcgm & Hdc).
  rewrite Hb in Hw.
  destruct (finished_game_facts l' b p m w Hr Ho Hv Hw)
    as (_ & _ & _ & _ & Htie & Hbounds).
  exists w, g'. split; [done|]. split.
  - intros ->. done.
  - intros ->. specialize (Hcgm eq_refl). eexists. split; [exact Hdc|].
    cbn [game_id player_x_strategy player_o_strategy winner timestamp moves
         game_length].
    rewrite Hcgm, Hb, Hp, length_app. cbn [length]. rewrite Nat.add_1_r.
    repeat split; try done; try lia.
    + intros Ht. destruct (Htie Ht). lia.
    + by apply recorded_move.
Qed.

Lemma play_self_game_record_witness :
  ∃ w g',
    play_self_game
      (get_move_by_strategy (fun _ => {| uniform := 0.5; index := 0 |})) 9
      false true "t0" (init_game DEFENSIVE RANDOM) = Some (Ok (w, g'))
    ∧ (true = false →
       data_collector g' = data_collector (init_game DEFENSIVE RANDOM))
    ∧ (true = true →
       ∃ r, data_collector g'
            = {| games_data := [] ++ [r]; current_game_id := 0 + 1 |}
         ∧ game_id r = 0
         ∧ player_x_strategy r = "defensive"
         ∧ player_o_strategy r = "random"
         ∧ winner r = w ∧ timestamp r = "t0"
         ∧ moves r = current_game_moves g'
         ∧ game_length r = Z.of_nat (length (moves r))
         ∧ 5 ≤ game_length r ≤ 9
         ∧ (w = Tie → game_length r = 9)
         ∧ recorded (moves r) (board g') (opponent_of (current_player g'))).
Proof.
  apply (play_self_game_record _ false true "t0" 9
           (init_game DEFENSIVE RANDOM)).
  lia.
Defined.

(** ** The search against plain minimax *)

Section ExtOrder.

Lemma Fin_eq x y : Fin x = Fin y ↔ x = y.
Proof. split; congruence. Qed.

Lemma Fin_NegInf x : Fin x = NegInf ↔ False.
Proof. done. Qed.

Lemma Fin_PosInf x : Fin x = PosInf ↔ False.
Proof. done. Qed.

Lemma NegInf_Fin x : NegInf = Fin x ↔ False.
Proof. done. Qed.

Lemma PosInf_Fin x : PosInf = Fin x ↔ False.
Proof. done. Qed.

Lemma NegInf_PosInf : NegInf = PosInf ↔ False.
Proof. done. Qed.

Lemma PosInf_NegInf : PosInf = NegInf ↔ False.
Proof. done. Qed.

Lemma true_false : true = false ↔ False.
Proof. done. Qed.

Lemma false_true : false = true ↔ False.
Proof. done. Qed.

Lemma refl_true {A} (x : A) : x = x ↔ True.
Proof. done. Qed.

End ExtOrder.

(** Facts about the order of scores, by cases on what is infinite. *)
Ltac ext_arith :=
  unfold within, ext_leb, ext_max, ext_min in *;
  repeat match goal with x : ext |- _ => destruct x end;
  cbn [ext_ltb negb] in *;
  repeat match goal with
  | H : context [if (?a <? ?b) then _ else _] |- _ =>
      destruct (Z.ltb_spec a b); cbn [ext_ltb negb] in *
  | |- context [if (?a <? ?b) then _ else _] =>
      destruct (Z.ltb_spec a b); cbn [ext_ltb negb] in *
  end;
  rewrite ?negb_true_iff, ?negb_false_iff, ?Z.ltb_lt, ?Z.ltb_ge,
    ?Fin_eq, ?Fin_NegInf, ?Fin_PosInf, ?NegInf_Fin, ?PosInf_Fin,
    ?NegInf_PosInf, ?PosInf_NegInf, ?true_false, ?false_true, ?refl_true in *;
  try tauto; try lia.

Section WindowFacts.

Implicit Types (lo hi alpha beta V M W : ext) (v e : Z).

Lemma within_refl alpha beta V : within alpha beta V V.
Proof. ext_arith. Qed.

Lemma ext_max_assoc lo M W : ext_max (ext_max lo M) W = ext_max lo (ext_max M W).
Proof. ext_arith. Qed.

Lemma ext_min_assoc hi M W : ext_min (ext_min hi M) W = ext_min hi (ext_min M W).
Proof. ext_arith. Qed.

Lemma ext_leb_trans V M W :
  ext_leb V M = true → ext_leb M W = true → ext_leb V W = true.
Proof. intros ? ?. ext_arith. Qed.

Lemma ext_leb_max_l V W : ext_leb V (ext_max V W) = true.
Proof. ext_arith. Qed.

Lemma ext_leb_min_l V W : ext_leb (ext_min V W) V = true.
Proof. ext_arith. Qed.

Lemma ext_ltb_of_leb alpha beta :
  ext_leb beta alpha = false → ext_ltb alpha beta = true.
Proof. intros ?. ext_arith. Qed.

(** One child of a maximizing node. *)
Lemma within_step_max lo beta V M v e :
  within lo beta V M → ext_ltb (ext_max lo M) beta = true →
  within (ext_max lo M) beta (Fin v) (Fin e) →
  within lo beta (ext_max V (Fin v)) (ext_max M (Fin e)).
Proof. intros ? ? ?. ext_arith. Qed.

(** One child of a minimizing node. *)
Lemma within_step_min alpha hi V M v e :
  within alpha hi V M → ext_ltb alpha (ext_min hi M) = true →
  within alpha (ext_min hi M) (Fin v) (Fin e) →
  within alpha hi (ext_min V (Fin v)) (ext_min M (Fin e)).
Proof. intros ? ? ?. ext_arith. Qed.

(** Leaving the loop of a maximizing node early. *)
Lemma within_cut_max lo beta V M W :
  within lo beta V M → ext_ltb lo beta = true →
  ext_leb beta (ext_max lo M) = true → ext_leb V W = true →
  within lo beta W M.
Proof. intros ? ? ? ?. ext_arith. Qed.

(** Leaving the loop of a minimizing node early. *)
Lemma within_cut_min alpha hi V M W :
  within alpha hi V M → ext_ltb alpha hi = true →
  ext_leb (ext_min hi M) alpha = true → ext_leb W V = true →
  within alpha hi W M.
Proof. intros ? ? ? ?. ext_arith. Qed.

(** With the bounds wide open a finite result is the value. *)
Lemma within_open V e : within NegInf PosInf V (Fin e) → V = Fin e.
Proof. intros ?. ext_arith. Qed.

End WindowFacts.

Section AlphaBeta.

Implicit Types (b : Board) (m d : Z) (lo hi alpha beta V M : ext).

Lemma ext_leb_refl V : ext_leb V V = true.
Proof. ext_arith. Qed.

Lemma fold_max_above (f : Z → ext) (moves : list Z) V :
  ext_leb V (foldl (fun best move => ext_max best (f move)) V moves) = true.
Proof.
  revert V. induction moves as [|m rest IH]; intros V; simpl.
  - apply ext_leb_refl.
  - eapply ext_leb_trans; [apply (ext_leb_max_l V (f m))|apply IH].
Qed.

Lemma fold_min_below (f : Z → ext) (moves : list Z) V :
  ext_leb (foldl (fun best move => ext_min best (f move)) V moves) V = true.
Proof.
  revert V. induction moves as [|m rest IH]; intros V; simpl.
  - apply ext_leb_refl.
  - eapply ext_leb_trans; [apply IH|apply (ext_leb_min_l V (f m))].
Qed.

(** The loop of a maximizing node against the fold of plain minimax. *)
Lemma max_loop_within search (value : Z → ext) moves M lo beta b V :
  (∀ m alpha, m ∈ moves → ext_ltb alpha beta = true →
     ∃ e v, search alpha beta (set_cell b m (Mark X))
            = Some (Fin e, set_cell b m (Mark X))
       ∧ value m = Fin v ∧ within alpha beta (Fin v) (Fin e)) →
  Forall (fun m => cell_at b m = Blank) moves →
  ext_ltb lo beta = true → ext_ltb (ext_max lo M) beta = true →
  within lo beta V M →
  ∃ r, max_loop search moves M (ext_max lo M) beta b = Some (r, b)
    ∧ within lo beta
        (foldl (fun best move => ext_max best (value move)) V moves) r.
Proof.
  intros Hsearch Hblank Hlo. revert M V Hsearch.
  induction Hblank as [|m rest Hm _ IH]; intros M V Hsearch Hcur Hin.
  - by exists M.
  - cbn [max_loop foldl].
    destruct (Hsearch m (ext_max lo M)) as (e & v & -> & Hv & Hchild);
      [left|done|].
    cbn [mbind option_bind]. rewrite set_cell_restore by done. rewrite Hv.
    pose proof (within_step_max lo beta V M v e Hin Hcur Hchild) as Hstep.
    rewrite ext_max_assoc.
    destruct (ext_leb beta (ext_max lo (ext_max M (Fin e)))) eqn:Ecut.
    + eexists. split; [done|].
      eapply within_cut_max; [done..|]. apply fold_max_above.
    + apply IH; [|by apply ext_ltb_of_leb|done].
      intros m' alpha Hm'. apply Hsearch. by right.
Qed.

(** The loop of a minimizing node against the fold of plain minimax. *)
Lemma min_loop_within search (value : Z → ext) moves M alpha hi b V :
  (∀ m beta, m ∈ moves → ext_ltb alpha beta = true →
     ∃ e v, search alpha beta (set_cell b m (Mark O))
            = Some (Fin e, set_cell b m (Mark O))
       ∧ value m = Fin v ∧ within alpha beta (Fin v) (Fin e)) →
  Forall (fun m => cell_at b m = Blank) moves →
  ext_ltb alpha hi = true → ext_ltb alpha (ext_min hi M) = true →
  within alpha hi V M →
  ∃ r, min_loop search moves M alpha (ext_min hi M) b = Some (r, b)
    ∧ within alpha hi
        (foldl (fun best move => ext_min best (value move)) V moves) r.
Proof.
  intros Hsearch Hblank Hhi. revert M V Hsearch.
  induction Hblank as [|m rest Hm _ IH]; intros M V Hsearch Hcur Hin.
  - by exists M.
  - cbn [min_loop foldl].
    destruct (Hsearch m (ext_min hi M)) as (e & v & -> & Hv & Hchild);
      [left|done|].
    cbn [mbind option_bind]. rewrite set_cell_restore by done. rewrite Hv.
    pose proof (within_step_min alpha hi V M v e Hin Hcur Hchild) as Hstep.
    rewrite ext_min_assoc.
    destruct (ext_leb (ext_min hi (ext_min M (Fin e))) alpha) eqn:Ecut.
    + eexists. split; [done|].
      eapply within_cut_min; [done..|]. apply fold_min_below.
    + apply IH; [|by apply ext_ltb_of_leb|done].
      intros m' beta Hm'. apply Hsearch. by right.
Qed.

Lemma fold_max_fin (f : Z → ext) (moves : list Z) V :
  (∀ m, m ∈ moves → ∃ z, f m = Fin z) → V ≠ PosInf →
  moves ≠ [] ∨ V ≠ NegInf →
  ∃ z, foldl (fun best move => ext_max best (f move)) V moves = Fin z.
Proof.
  revert V. induction moves as [|m rest IH]; intros V Hf Hp Hn; simpl.
  - destruct V as [|z|]; [by destruct Hn|by exists z|done].
  - destruct (Hf m) as [z ->]; [left|].
    apply IH; [intros ? ?; apply Hf; by right| |right].
    + destruct V as [|y|]; unfold ext_max; simpl; [done| |done].
      by destruct (y <? z).
    + destruct V as [|y|]; unfold ext_max; simpl; [done| |done].
      by destruct (y <? z).
Qed.

Lemma fold_min_fin (f : Z → ext) (moves : list Z) V :
  (∀ m, m ∈ moves → ∃ z, f m = Fin z) → V ≠ NegInf →
  moves ≠ [] ∨ V ≠ PosInf →
  ∃ z, foldl (fun best move => ext_min best (f move)) V moves = Fin z.
Proof.
  revert V. induction moves as [|m rest IH]; intros V Hf Hp Hn; simpl.
  - destruct V as [|z|]; [done|by exists z|by destruct Hn].
  - destruct (Hf m) as [z ->]; [left|].
    apply IH; [intros ? ?; apply Hf; by right| |right].
    + destruct V as [|y|]; unfold ext_min; simpl; [done| |done].
      by destruct (z <? y).
    + destruct V as [|y|]; unfold ext_min; simpl; [done| |done].
      by destruct (z <? y).
Qed.

Lemma in_progress_moves b :
  length b = 9%nat →
  winner_is (check_winner b) (Win X) = false →
  winner_is (check_winner b) (Win O) = false →
  winner_is (check_winner b) Tie = false →
  get_available_moves b ≠ [].
Proof.
  intros Hlen EX EO ET. apply available_nonempty; [done|].
  destruct (check_winner b) as [[c|]|] eqn:E.
  - apply check_winner_won in E as (q & combo & -> & _).
    destruct q; simpl in *; congruence.
  - simpl in ET. congruence.
  - by apply check_winner_none in E as [_ ?].
Qed.

(** The value of a nine-cell board is an integer. *)
Lemma game_value_fin fuel d is_maximizing b :
  length b = 9%nat → (length (get_available_moves b) < fuel)%nat →
  ∃ z, game_value fuel d is_maximizing b = Fin z.
Proof.
  revert d is_maximizing b.
  induction fuel as [|fuel IH]; intros d im b Hlen Hfuel; [lia|].
  cbn [game_value]. cbv zeta.
  destruct (winner_is (check_winner b) (Win X)) eqn:EX; [by eexists|].
  destruct (winner_is (check_winner b) (Win O)) eqn:EO; [by eexists|].
  destruct (winner_is (check_winner b) Tie) eqn:ET; [by eexists|].
  pose proof (in_progress_moves b Hlen EX EO ET) as Hne.
  destruct im.
  - apply fold_max_fin; [|done|by left].
    intros m Hin. apply IH; [by rewrite set_cell_length|].
    pose proof (available_after_move b m X Hlen Hin). lia.
  - apply fold_min_fin; [|done|by left].
    intros m Hin. apply IH; [by rewrite set_cell_length|].
    pose proof (available_after_move b m O Hlen Hin). lia.
Qed.

(** The search with bounds against plain minimax, for any bounds
    [alpha < beta]. *)
Lemma minimax_within fuel d is_maximizing alpha beta b :
  length b = 9%nat → (length (get_available_moves b) < fuel)%nat →
  ext_ltb alpha beta = true →
  ∃ e v, minimax fuel d is_maximizing alpha beta b = Some (Fin e, b)
    ∧ game_value fuel d is_maximizing b = Fin v
    ∧ within alpha beta (Fin v) (Fin e).
Proof.
  revert d is_maximizing alpha beta b.
  induction fuel as [|fuel IH]; intros d im alpha beta b Hlen Hfuel Hab; [lia|].
  destruct (minimax_total (S fuel) d im alpha beta b Hlen Hfuel) as [e He].
  destruct (game_value_fin (S fuel) d im b Hlen Hfuel) as [v Hv].
  exists e, v. split; [done|]. split; [done|].
  rewrite <- Hv. clear Hv. revert He. cbn [minimax game_value]. cbv zeta.
  destruct (winner_is (check_winner b) (Win X)) eqn:EX;
    [intros [= <-]; apply within_refl|].
  destruct (winner_is (check_winner b) (Win O)) eqn:EO;
    [intros [= <-]; apply within_refl|].
  destruct (winner_is (check_winner b) Tie) eqn:ET;
    [intros [= <-]; apply within_refl|].
  destruct im.
  - destruct (max_loop_within (minimax fuel (d + 1) false)
                (fun m => game_value fuel (d + 1) false (set_cell b m (Mark X)))
                (get_available_moves b) NegInf alpha beta b NegInf)
      as (r & Hr & Hwin).
    + intros m a Hin Ha. apply IH; [by rewrite set_cell_length| |done].
      pose proof (available_after_move b m X Hlen Hin). lia.
    + apply available_blank.
    + done.
    + by destruct alpha.
    + apply within_refl.
    + replace (ext_max alpha NegInf) with alpha in Hr by (by destruct alpha).
      rewrite Hr. by intros [= <-].
  - destruct (min_loop_within (minimax fuel (d + 1) true)
                (fun m => game_value fuel (d + 1) true (set_cell b m (Mark O)))
                (get_available_moves b) PosInf alpha beta b PosInf)
      as (r & Hr & Hwin).
    + intros m a Hin Ha. apply IH; [by rewrite set_cell_length| |done].
      pose proof (available_after_move b m O Hlen Hin). lia.
    + apply available_blank.
    + done.
    + by destruct beta.
    + apply within_refl.
    + replace (ext_min beta PosInf) with beta in Hr by (by destruct beta).
      rewrite Hr. by intros [= <-].
Qed.

End AlphaBeta.

Section PlainMinimax.

Implicit Types (b : Board) (p : player) (m d : Z).

(** With the bounds wide open the search returns the value of plain
    minimax. *)
Lemma minimax_plain fuel d is_maximizing b :
  length b = 9%nat → (length (get_available_moves b) < fuel)%nat →
  minimax fuel d is_maximizing NegInf PosInf b
  = Some (game_value fuel d is_maximizing b, b).
Proof.
  intros Hlen Hfuel.
  destruct (minimax_within fuel d is_maximizing NegInf PosInf b Hlen Hfuel)
    as (e & v & -> & Hv & Hwin); [done|].
  apply within_open in Hwin. by rewrite Hv, Hwin.
Qed.

(** The value does not depend on the fuel, once there is enough of it. *)
Lemma game_value_fuel fuel fuel' d is_maximizing b :
  length b = 9%nat → (length (get_available_moves b) < fuel)%nat →
  (fuel ≤ fuel')%nat →
  game_value fuel' d is_maximizing b = game_value fuel d is_maximizing b.
Proof.
  intros Hlen Hfuel Hle.
  pose proof (minimax_plain fuel d is_maximizing b Hlen Hfuel) as H1.
  pose proof (minimax_plain fuel' d is_maximizing b Hlen ltac:(lia)) as H2.
  apply (minimax_more_fuel fuel fuel') in H1; [|done]. congruence.
Qed.

Lemma candidate_score_plain p b m :
  length b = 9%nat →
  candidate_score p b m
  = Some (game_value (search_fuel (set_cell b m (Mark p))) 0 (player_eqb p O)
            (set_cell b m (Mark p))).
Proof.
  intros Hlen. unfold candidate_score. cbv zeta.
  rewrite minimax_plain; [done|by rewrite set_cell_length|].
  unfold search_fuel. lia.
Qed.

End PlainMinimax.

(** X8. Pruning does not change the result of the search. On a nine-cell
    board, with enough fuel for its free cells, [minimax] called with the
    default bounds returns exactly the value of plain minimax (no bounds,
    no early exit from the loops) and the board unchanged, at every depth
    and for either side. Called with any bounds [alpha < beta] it returns a
    score that is the value when it lies strictly between the bounds, an
    upper bound of the value when it is at most [alpha], and a lower bound
    when it is at least [beta]. *)
Theorem minimax_pruning_sound (fuel : nat) (d : Z) (is_maximizing : bool)
    (b : Board) :
  length b = 9%nat → (length (get_available_moves b) < fuel)%nat →
  minimax fuel d is_maximizing NegInf PosInf b
  = Some (game_value fuel d is_maximizing b, b)
  ∧ (∀ alpha beta, ext_ltb alpha beta = true →
       ∃ r, minimax fuel d is_maximizing alpha beta b = Some (r, b)
         ∧ within alpha beta (game_value fuel d is_maximizing b) r).
Proof.
  intros Hlen Hfuel. split; [by apply minimax_plain|].
  intros alpha beta Hab.
  destruct (minimax_within fuel d is_maximizing alpha beta b Hlen Hfuel Hab)
    as (e & v & He & Hv & Hwin).
  exists (Fin e). by rewrite Hv.
Qed.

(** After X took the centre and O a corner the value for X to move is 0,
    with and without pruning. *)
Lemma minimax_pruning_sound_witness :
  minimax 8 0 true NegInf PosInf
    [Mark O; Blank; Blank; Blank; Mark X; Blank; Blank; Blank; Blank]
  = Some (game_value 8 0 true
            [Mark O; Blank; Blank; Blank; Mark X; Blank; Blank; Blank; Blank],
          [Mark O; Blank; Blank; Blank; Mark X; Blank; Blank; Blank; Blank]).
Proof.
  refine (proj1 (minimax_pruning_sound 8 0 true
    [Mark O; Blank; Blank; Blank; Mark X; Blank; Blank; Blank; Blank]
    eq_refl _)).
  vm_compute. lia.
Defined.

(** The move of [get_best_move] against the values of plain minimax. *)
Lemma best_move_value (p : player) (b : Board) :
  length b = 9%nat → Blank ∈ b →
  let value m :=
    game_value (search_fuel (set_cell b m (Mark p))) 0 (player_eqb p O)
      (set_cell b m (Mark p)) in
  ∃ m z,
    get_best_move p b = Some (m, b)
    ∧ m ∈ get_available_moves b
    ∧ value m = Fin z
    ∧ ∀ m', m' ∈ get_available_moves b →
        ∃ z', value m' = Fin z'
          ∧ match p with X => z' ≤ z | O => z ≤ z' end.
Proof.
  intros Hlen Hblank value.
  destruct (get_best_move_spec p b Hlen Hblank)
    as (m & z & l1 & l2 & Hrun & Hsplit & Hz & H1 & H2).
  assert (∀ x, candidate_score p b x = Some (value x)) as Hscore
    by (intros x; by apply candidate_score_plain).
  exists m, z. split; [done|].
  split; [rewrite Hsplit; apply elem_of_app; right; left|].
  split; [rewrite Hscore in Hz; congruence|].
  intros m' Hin.
  destruct (candidate_score_total p b m' Hlen Hin) as [z' Hz'].
  exists z'. split; [rewrite Hscore in Hz'; congruence|].
  rewrite Hsplit in Hin.
  apply elem_of_app in Hin as [Hin|[->|Hin]%elem_of_cons].
  - specialize (H1 m' (Fin z') Hin Hz').
    destruct p; simpl in H1; apply Z.ltb_lt in H1; lia.
  - rewrite Hz in Hz'. injection Hz' as <-. destruct p; lia.
  - specialize (H2 m' (Fin z') Hin Hz').
    destruct p; simpl in H2; apply Z.ltb_ge in H2; lia.
Qed.

(** X9. The cell [get_best_move] returns is optimal for plain minimax: on a
    nine-cell board with a free cell, the position after the returned move
    has a value, searched from depth 0 with the other side to move, that
    is the greatest over all available moves when X asks and the least
    when O asks. *)
Theorem get_best_move_optimal (p : player) (b : Board) :
  length b = 9%nat → Blank ∈ b →
  let value m :=
    game_value (search_fuel (set_cell b m (Mark p))) 0 (player_eqb p O)
      (set_cell b m (Mark p)) in
  ∃ m z,
    get_best_move p b = Some (m, b)
    ∧ m ∈ get_available_moves b
    ∧ value m = Fin z
    ∧ ∀ m', m' ∈ get_available_moves b →
        ∃ z', value m' = Fin z'
          ∧ match p with X => z' ≤ z | O => z ≤ z' end.
Proof. apply best_move_value. Qed.

Lemma get_best_move_optimal_witness :
  ∃ m z,
    get_best_move X top_row_open = Some (m, top_row_open)
    ∧ m ∈ get_available_moves top_row_open
    ∧ game_value (search_fuel (set_cell top_row_open m (Mark X))) 0 false
        (set_cell top_row_open m (Mark X)) = Fin z
    ∧ ∀ m', m' ∈ get_available_moves top_row_open →
        ∃ z', game_value (search_fuel (set_cell top_row_open m' (Mark X))) 0
                false (set_cell top_row_open m' (Mark X)) = Fin z'
          ∧ z' ≤ z.
Proof.
  apply (get_best_move_optimal X top_row_open eq_refl).
  unfold top_row_open. do 2 right. left.
Defined.

Section OutcomeFacts.

Implicit Types (b : Board) (p q : player) (m d : Z) (V : ext).

Lemma outcome_max V1 V2 :
  outcome (ext_max V1 V2) = Z.max (outcome V1) (outcome V2).
Proof.
  destruct V1 as [|y|], V2 as [|z|]; unfold ext_max, ext_ltb, outcome;
    try (pose proof (Z.sgn_spec y)); try (pose proof (Z.sgn_spec z));
    try destruct (Z.ltb_spec y z); lia.
Qed.

Lemma outcome_min V1 V2 :
  outcome (ext_min V1 V2) = Z.min (outcome V1) (outcome V2).
Proof.
  destruct V1 as [|y|], V2 as [|z|]; unfold ext_min, ext_ltb, outcome;
    try (pose proof (Z.sgn_spec y)); try (pose proof (Z.sgn_spec z));
    try destruct (Z.ltb_spec z y); lia.
Qed.

Lemma fold_max_outcome (f : Z → ext) (moves : list Z) V :
  outcome (foldl (fun best move => ext_max best (f move)) V moves)
  = foldl (fun best move => Z.max best (outcome (f move))) (outcome V) moves.
Proof.
  revert V. induction moves as [|m rest IH]; intros V; simpl; [done|].
  by rewrite IH, outcome_max.
Qed.

Lemma fold_min_outcome (f : Z → ext) (moves : list Z) V :
  outcome (foldl (fun best move => ext_min best (f move)) V moves)
  = foldl (fun best move => Z.min best (outcome (f move))) (outcome V) moves.
Proof.
  revert V. induction moves as [|m rest IH]; intros V; simpl; [done|].
  by rewrite IH, outcome_min.
Qed.

Lemma foldl_agree {A} (f g : A → Z → A) (moves : list Z) (a : A) :
  (∀ x m, m ∈ moves → f x m = g x m) → foldl f a moves = foldl g a moves.
Proof.
  revert a. induction moves as [|m rest IH]; intros a H; simpl; [done|].
  rewrite H by left. apply IH. intros x m' Hin. apply H. by right.
Qed.

Lemma foldl_Zmax_ge (f : Z → Z) (moves : list Z) (v : Z) :
  v ≤ foldl (fun best move => Z.max best (f move)) v moves
  ∧ ∀ m, m ∈ moves → f m ≤ foldl (fun best move => Z.max best (f move)) v moves.
Proof.
  revert v. induction moves as [|m rest IH]; intros v; simpl.
  - split; [lia|]. intros m []%elem_of_nil.
  - destruct (IH (Z.max v (f m))) as [H1 H2]. split; [lia|].
    intros m' [->|Hin]%elem_of_cons; [lia|by apply H2].
Qed.

Lemma foldl_Zmin_le (f : Z → Z) (moves : list Z) (v : Z) :
  foldl (fun best move => Z.min best (f move)) v moves ≤ v
  ∧ ∀ m, m ∈ moves → foldl (fun best move => Z.min best (f move)) v moves ≤ f m.
Proof.
  revert v. induction moves as [|m rest IH]; intros v; simpl.
  - split; [lia|]. intros m []%elem_of_nil.
  - destruct (IH (Z.min v (f m))) as [H1 H2]. split; [lia|].
    intros m' [->|Hin]%elem_of_cons; [lia|by apply H2].
Qed.

Lemma foldl_Zmax_elem (f : Z → Z) (moves : list Z) (v : Z) :
  foldl (fun best move => Z.max best (f move)) v moves = v
  ∨ ∃ m, m ∈ moves ∧ foldl (fun best move => Z.max best (f move)) v moves = f m.
Proof.
  revert v. induction moves as [|m rest IH]; intros v; simpl; [by left|].
  destruct (IH (Z.max v (f m))) as [->|(m' & Hin & ->)].
  - destruct (Z.max_spec v (f m)) as [[_ ->]|[_ ->]]; [right|by left].
    exists m. split; [left|done].
  - right. exists m'. split; [by right|done].
Qed.

Lemma foldl_Zmin_elem (f : Z → Z) (moves : list Z) (v : Z) :
  foldl (fun best move => Z.min best (f move)) v moves = v
  ∨ ∃ m, m ∈ moves ∧ foldl (fun best move => Z.min best (f move)) v moves = f m.
Proof.
  revert v. induction moves as [|m rest IH]; intros v; simpl; [by left|].
  destruct (IH (Z.min v (f m))) as [->|(m' & Hin & ->)].
  - destruct (Z.min_spec v (f m)) as [[_ ->]|[_ ->]]; [by left|right].
    exists m. split; [left|done].
  - right. exists m'. split; [by right|done].
Qed.

Lemma available_at_most b : (length (get_available_moves b) ≤ 9)%nat.
Proof.
  unfold get_available_moves.
  etransitivity; [apply length_filter|]. done.
Qed.

(** The class of a value does not depend on the depth the search started
    from, as long as no leaf lies deeper than nine plies. *)
Lemma game_value_outcome_shift fuel d d' is_maximizing b :
  length b = 9%nat → (length (get_available_moves b) < fuel)%nat →
  0 ≤ d → 0 ≤ d' →
  d + Z.of_nat (length (get_available_moves b)) ≤ 9 →
  d' + Z.of_nat (length (get_available_moves b)) ≤ 9 →
  outcome (game_value fuel d is_maximizing b)
  = outcome (game_value fuel d' is_maximizing b).
Proof.
  revert d d' is_maximizing b.
  induction fuel as [|fuel IH]; intros d d' im b Hlen Hfuel Hd Hd' Hn Hn'; [lia|].
  cbn [game_value]. cbv zeta.
  destruct (winner_is (check_winner b) (Win X)) eqn:EX.
  { cbn [outcome]. rewrite !Z.sgn_pos by lia. done. }
  destruct (winner_is (check_winner b) (Win O)) eqn:EO.
  { cbn [outcome]. rewrite !Z.sgn_neg by lia. done. }
  destruct (winner_is (check_winner b) Tie) eqn:ET; [done|].
  destruct im.
  - rewrite !fold_max_outcome. apply foldl_agree. intros x m Hin. f_equal.
    pose proof (available_after_move b m X Hlen Hin).
    apply IH; [by rewrite set_cell_length|lia..].
  - rewrite !fold_min_outcome. apply foldl_agree. intros x m Hin. f_equal.
    pose proof (available_after_move b m O Hlen Hin).
    apply IH; [by rewrite set_cell_length|lia..].
Qed.

Lemma position_value_open b p :
  check_winner b = None →
  position_value b p
  = if player_eqb p X
    then foldl (fun best move =>
                  ext_max best
                    (game_value (length (get_available_moves b)) 1 false
                       (set_cell b move (Mark X))))
           NegInf (get_available_moves b)
    else foldl (fun best move =>
                  ext_min best
                    (game_value (length (get_available_moves b)) 1 true
                       (set_cell b move (Mark O))))
           PosInf (get_available_moves b).
Proof.
  intros Hopen. unfold position_value, search_fuel. cbn [game_value].
  rewrite Hopen. cbn [winner_is]. by destruct p.
Qed.

(** The class of a move searched by the position it is made in is the class
    of the position it leads to. *)
Lemma child_outcome b m p :
  length b = 9%nat → m ∈ get_available_moves b →
  outcome (game_value (length (get_available_moves b)) 1 (player_eqb p O)
             (set_cell b m (Mark p)))
  = outcome (position_value (set_cell b m (Mark p)) (opponent_of p)).
Proof.
  intros Hlen Hin. unfold position_value.
  pose proof (available_after_move b m p Hlen Hin) as Hlt.
  pose proof (available_at_most b) as Hle.
  assert (length (set_cell b m (Mark p)) = 9%nat) as Hlen'
    by (by rewrite set_cell_length).
  replace (player_eqb (opponent_of p) X) with (player_eqb p O) by (by destruct p).
  rewrite (game_value_fuel (search_fuel (set_cell b m (Mark p)))
             (length (get_available_moves b)));
    [|done|unfold search_fuel; lia..].
  apply game_value_outcome_shift; [done|unfold search_fuel; lia|lia..].
Qed.

End OutcomeFacts.

Section NeverLose.

Implicit Types (b : Board) (p q : player) (m d : Z) (g : TicTacToeAI)
  (l : list (string * Z * player)) (w : verdict).

(** The best move keeps the mover safe. *)
Lemma holds_for_best q b m :
  length b = 9%nat → check_winner b = None →
  get_best_move q b = Some (m, b) →
  holds_for q b q →
  holds_for q (set_cell b m (Mark q)) (opponent_of q).
Proof.
  intros Hlen Hopen Hrun Hsafe.
  pose proof Hopen as [_ Hblank]%check_winner_none.
  destruct (best_move_value q b Hlen Hblank)
    as (m0 & z & Hrun0 & Hin & Hz & Hbest).
  rewrite Hrun in Hrun0. injection Hrun0 as <-.
  unfold holds_for in *. rewrite (position_value_open b q Hopen) in Hsafe.
  rewrite <- (child_outcome b m q Hlen Hin).
  assert (∀ m', m' ∈ get_available_moves b →
            outcome (game_value (length (get_available_moves b)) 1
                       (player_eqb q O) (set_cell b m' (Mark q)))
            = outcome (game_value (search_fuel (set_cell b m' (Mark q))) 0
                         (player_eqb q O) (set_cell b m' (Mark q)))) as Hsame.
  { intros m' Hin'. rewrite (child_outcome b m' q Hlen Hin').
    unfold position_value. by destruct q. }
  rewrite (Hsame m Hin), Hz. cbn [outcome].
  destruct q; cbn [player_eqb] in *.
  - rewrite fold_max_outcome in Hsafe.
    destruct (foldl_Zmax_elem
                (fun move => outcome (game_value (length (get_available_moves b))
                                        1 false (set_cell b move (Mark X))))
                (get_available_moves b) (outcome NegInf))
      as [E|(m' & Hin' & E)]; rewrite E in Hsafe; [simpl in Hsafe; lia|].
    rewrite (Hsame m' Hin') in Hsafe.
    destruct (Hbest m' Hin') as (z' & Hz' & Hle). rewrite Hz' in Hsafe.
    cbn [outcome] in Hsafe. apply Z.sgn_nonneg in Hsafe.
    apply Z.sgn_nonneg. lia.
  - rewrite fold_min_outcome in Hsafe.
    destruct (foldl_Zmin_elem
                (fun move => outcome (game_value (length (get_available_moves b))
                                        1 true (set_cell b move (Mark O))))
                (get_available_moves b) (outcome PosInf))
      as [E|(m' & Hin' & E)]; rewrite E in Hsafe; [simpl in Hsafe; lia|].
    rewrite (Hsame m' Hin') in Hsafe.
    destruct (Hbest m' Hin') as (z' & Hz' & Hle). rewrite Hz' in Hsafe.
    cbn [outcome] in Hsafe. apply Z.sgn_nonpos in Hsafe.
    apply Z.sgn_nonpos. lia.
Qed.

(** No move of the other side takes the safety away. *)
Lemma holds_for_any q b m :
  length b = 9%nat → check_winner b = None →
  m ∈ get_available_moves b →
  holds_for q b (opponent_of q) →
  holds_for q (set_cell b m (Mark (opponent_of q))) q.
Proof.
  intros Hlen Hopen Hin Hsafe.
  unfold holds_for in *.
  rewrite (position_value_open b (opponent_of q) Hopen) in Hsafe.
  pose proof (child_outcome b m (opponent_of q) Hlen Hin) as Hchild.
  rewrite opponent_of_involutive in Hchild. rewrite <- Hchild.
  destruct q; cbn [opponent_of player_eqb] in *.
  - rewrite fold_min_outcome in Hsafe.
    pose proof (proj2 (foldl_Zmin_le
                  (fun move => outcome (game_value (length (get_available_moves b))
                                          1 true (set_cell b move (Mark O))))
                  (get_available_moves b) (outcome PosInf)) m Hin) as Hle.
    cbv beta in Hle. lia.
  - rewrite fold_max_outcome in Hsafe.
    pose proof (proj2 (foldl_Zmax_ge
                  (fun move => outcome (game_value (length (get_available_moves b))
                                          1 false (set_cell b move (Mark X))))
                  (get_available_moves b) (outcome NegInf)) m Hin) as Hle.
    cbv beta in Hle. lia.
Qed.

(** A finished game in a safe position is not lost. *)
Lemma holds_for_final q b p w :
  check_winner b = Some w → holds_for q b p → w ≠ Win (opponent_of q).
Proof.
  intros Hw Hsafe ->. unfold holds_for, position_value, search_fuel in Hsafe.
  cbn [game_value] in Hsafe. rewrite Hw in Hsafe.
  destruct q; simpl in Hsafe; lia.
Qed.

(** The game is a tie under best play. *)
Lemma empty_board_value : position_value empty_board X = Fin 0.
Proof.
  assert (minimax 10 0 true NegInf PosInf empty_board
          = Some (Fin 0, empty_board)) as Hrun by (vm_compute; reflexivity).
  destruct (minimax_within 10 0 true NegInf PosInf empty_board)
    as (e & v & He & Hv & Hwin); [reflexivity|vm_compute; lia|reflexivity|].
  rewrite He in Hrun. injection Hrun as ->.
  apply within_open in Hwin. rewrite Hwin in Hv. exact Hv.
Qed.

End NeverLose.

Section SafePlay.

Implicit Types (b : Board) (p q : player) (m d : Z) (g : TicTacToeAI)
  (l : list (string * Z * player)) (w : verdict).

(** The loop of [play_self_game] keeps every property of the position that
    each move of the two strategies keeps. *)
Lemma self_play_loop_keeps (Inv : Board → player → Prop)
    (rnd : TicTacToeAI → draw) (training collect_data : bool)
    (start : string) (sx so : Strategy) (fuel : nat) l g :
  (∀ g0 move g1,
     length (board g0) = 9%nat → check_winner (board g0) = None →
     Inv (board g0) (current_player g0) →
     get_move_by_strategy rnd (current_player g0)
       (if player_eqb (current_player g0) X then sx else so) training g0
     = Ok (move, g1) →
     move ∈ get_available_moves (board g0) →
     Inv (set_cell (board g0) move (Mark (current_player g0)))
       (opponent_of (current_player g0))) →
  strategy_x g = sx → strategy_o g = so →
  recorded l (board g) (current_player g) →
  check_winner (board g) = None →
  (length (get_available_moves (board g)) ≤ fuel)%nat →
  (learning training g = true → game_states g = l) →
  (collect_data = true → current_game_moves g = l) →
  Inv (board g) (current_player g) →
  ∃ w g',
    self_play_loop (get_move_by_strategy rnd) fuel training collect_data
      start g = Some (Ok (w, g'))
    ∧ check_winner (board g') = Some w
    ∧ Inv (board g') (opponent_of (current_player g')).
Proof.
  intros Hstep. revert l g.
  induction fuel as [|fuel IH];
    intros l g Hsx Hso Hrec Hopen Hfuel Hgs Hcgm Hinv.
  { exfalso. pose proof (recorded_facts _ _ _ Hrec) as (Hlen & _).
    apply check_winner_none in Hopen as [_ Hblank].
    pose proof (available_nonempty _ Hlen Hblank).
    destruct (get_available_moves (board g)); simpl in *; [done|lia]. }
  pose proof (recorded_facts _ _ _ Hrec) as (Hlen & _).
  pose proof Hopen as [_ Hblank]%check_winner_none.
  cbn [self_play_loop].
  destruct (get_move_by_strategy_valid rnd (current_player g)
              (if player_eqb (current_player g) X then strategy_x g
               else strategy_o g) training g Hlen Hblank)
    as (move & g1 & Hrun & Hin & Hb1 & Hp1 & Hsx1 & Hso1 & Hgs1 & Hdc1 & Hcgm1 & _).
  rewrite Hrun. rewrite Hsx, Hso in Hrun.
  pose proof (Hstep g move g1 Hlen Hopen Hinv Hrun Hin) as Hinv'.
  apply is_valid_move_available in Hin as Hvalid.
  rewrite <- Hb1 in Hrec, Hopen, Hvalid, Hinv'. rewrite <- Hp1 in Hrec, Hinv'.
  rewrite <- (learning_same training g g1 Hsx1 Hso1), <- Hgs1 in Hgs.
  rewrite <- Hcgm1 in Hcgm.
  destruct (play_turn_legal training collect_data start l move g1
              Hrec Hopen Hvalid Hgs Hcgm)
    as (g2 & Hb2 & Hsx2 & Hso2 & Hgs2 & Hcgm2 & Hcase).
  rewrite <- Hb1.
  destruct (check_winner (set_cell (board g1) move (Mark (current_player g1))))
    as [w|] eqn:Ew.
  - destruct Hcase as (-> & Hp2 & Hdc2).
    exists w, g2. split; [done|]. rewrite Hb2, Hp2. done.
  - destruct Hcase as (-> & Hp2 & Hdc2).
    pose proof (recorded_move _ _ _ _ Hrec Hopen Hvalid) as Hrec2.
    rewrite <- Hb2, <- Hp2 in Hrec2, Hinv'. rewrite <- Hb2 in Ew.
    assert (length (get_available_moves (board g2)) ≤ fuel)%nat as Hfuel2.
    { rewrite Hb2.
      pose proof (available_after_move (board g1) move (current_player g1)) as Hlt.
      rewrite Hb1 in Hlt |- *. specialize (Hlt Hlen Hin). lia. }
    rewrite <- (learning_same training g1 g2 Hsx2 Hso2) in Hgs2.
    eapply (IH _ g2); [congruence|congruence|exact Hrec2|done..].
Qed.

(** A move of the dispatcher keeps the side that plays [MINIMAX] safe. *)
Lemma holds_for_move (rnd : TicTacToeAI → draw) (training : bool) q
    (sx so : Strategy) g move g1 :
  (if player_eqb q X then sx else so) = MINIMAX →
  length (board g) = 9%nat → check_winner (board g) = None →
  holds_for q (board g) (current_player g) →
  get_move_by_strategy rnd (current_player g)
    (if player_eqb (current_player g) X then sx else so) training g
  = Ok (move, g1) →
  move ∈ get_available_moves (board g) →
  holds_for q (set_cell (board g) move (Mark (current_player g)))
    (opponent_of (current_player g)).
Proof.
  intros Hq Hlen Hopen Hsafe Hrun Hin.
  destruct (decide (current_player g = q)) as [Hp|Hp].
  - rewrite Hp in *. rewrite Hq in Hrun. cbn [get_move_by_strategy] in Hrun.
    unfold best_move_call in Hrun.
    pose proof Hopen as [_ Hblank]%check_winner_none.
    destruct (best_move_value q (board g) Hlen Hblank)
      as (m0 & z & Hrun0 & _).
    rewrite Hrun0 in Hrun. cbn in Hrun. injection Hrun as <- _.
    by apply holds_for_best.
  - assert (current_player g = opponent_of q) as Hp'
      by (destruct (current_player g), q; done).
    rewrite Hp' in *. rewrite opponent_of_involutive.
    by apply holds_for_any.
Qed.

(** A game of [play_self_game] is not lost by a side that plays
    [MINIMAX]. *)
Lemma play_self_game_safe (rnd : TicTacToeAI → draw)
    (training collect_data : bool) (start : string) (fuel : nat) q g :
  (9 ≤ fuel)%nat →
  (if player_eqb q X then strategy_x g else strategy_o g) = MINIMAX →
  ∃ w g',
    play_self_game (get_move_by_strategy rnd) fuel training collect_data
      start g = Some (Ok (w, g'))
    ∧ w ≠ Win (opponent_of q).
Proof.
  intros Hfuel Hq. unfold play_self_game.
  destruct (self_play_loop_keeps (holds_for q) rnd training collect_data start
              (strategy_x g) (strategy_o g) fuel []
              (set_current_game_moves (set_game_states (reset_board g) []) []))
    as (w & g' & Hrun & Hw & Hsafe).
  - intros g0 move g1. by apply holds_for_move.
  - done.
  - done.
  - apply recorded_start.
  - reflexivity.
  - simpl. lia.
  - done.
  - done.
  - unfold holds_for. cbn [board current_player reset_board set_game_states
      set_current_game_moves set_board set_current_player].
    rewrite empty_board_value. by destruct q.
  - exists w, g'. split; [done|]. by eapply holds_for_final.
Qed.

End SafePlay.

(** X10. A side that plays [MINIMAX] does not lose a self-play game, whatever
    the strategy of the other side and whatever the random source gives:
    [play_self_game] returns a verdict that is not a win of O when X plays
    [MINIMAX], not a win of X when O plays [MINIMAX], and a tie when both
    do. *)
Theorem minimax_never_loses (rnd : TicTacToeAI → draw)
    (training collect_data : bool) (start : string) (fuel : nat)
    (g : TicTacToeAI) :
  (9 ≤ fuel)%nat →
  ∃ w g',
    play_self_game (get_move_by_strategy rnd) fuel training collect_data
      start g = Some (Ok (w, g'))
    ∧ (strategy_x g = MINIMAX → w ≠ Win O)
    ∧ (strategy_o g = MINIMAX → w ≠ Win X)
    ∧ (strategy_x g = MINIMAX → strategy_o g = MINIMAX → w = Tie).
Proof.
  intros Hfuel.
  destruct (play_self_game_run rnd training collect_data start fuel g Hfuel)
    as (w & g' & l' & b & p & move & Hrun & Hrec & Hopen & Hvalid & Hb & _
        & Hw & _).
  assert (strategy_x g = MINIMAX → w ≠ Win O) as HX.
  { intros Hsx.
    destruct (play_self_game_safe rnd training collect_data start fuel X g
                Hfuel Hsx) as (w' & g'' & Hrun' & Hsafe).
    rewrite Hrun in Hrun'. by injection Hrun' as <- _. }
  assert (strategy_o g = MINIMAX → w ≠ Win X) as HO.
  { intros Hso.
    destruct (play_self_game_safe rnd training collect_data start fuel O g
                Hfuel Hso) as (w' & g'' & Hrun' & Hsafe).
    rewrite Hrun in Hrun'. by injection Hrun' as <- _. }
  exists w, g'. split; [done|]. split; [done|]. split; [done|].
  intros Hsx Hso. rewrite Hb in Hw.
  destruct (finished_game_facts l' b p move w Hrec Hopen Hvalid Hw)
    as (_ & [->| ->] & _); [done|].
  destruct p; [by destruct (HO Hso)|by destruct (HX Hsx)].
Qed.

Lemma minimax_never_loses_witness :
  ∃ w g',
    play_self_game (get_move_by_strategy (fun _ => {| uniform := 0.5; index := 0 |}))
      9 false false "" (init_game MINIMAX RANDOM)
    = Some (Ok (w, g'))
    ∧ (strategy_x (init_game MINIMAX RANDOM) = MINIMAX → w ≠ Win O)
    ∧ (strategy_o (init_game MINIMAX RANDOM) = MINIMAX → w ≠ Win X)
    ∧ (strategy_x (init_game MINIMAX RANDOM) = MINIMAX →
       strategy_o (init_game MINIMAX RANDOM) = MINIMAX → w = Tie).
Proof.
  apply (minimax_never_loses (fun _ => {| uniform := 0.5; index := 0 |})
           false false "" 9 (init_game MINIMAX RANDOM)).
  lia.
Defined.

Section RoundTrip.

Implicit Types (t : qtable) (state : string) (action k : Z) (v : float)
  (row : gmap Z float) (actions : list (Z * float))
  (items : list (string * list (Z * float))).

Lemma decimal_key_json_key k : decimal_key (json_key k) = Some k.
Proof.
  unfold decimal_key, json_key. rewrite NilZero.isi.
  - simpl. by rewrite DecimalZ.of_to.
  - destruct k; simpl; intros [= H]; by apply Unsigned.to_uint_nonnil in H.
  - destruct k; simpl; intros [= H]; by apply Unsigned.to_uint_nonnil in H.
Qed.

Lemma load_row_cons state k v rest t :
  load_row state t ((k, v) :: rest)
  = load_row state (set_q_value state k v t) rest.
Proof. reflexivity. Qed.

Lemma load_rows_cons state actions rest t :
  load_rows t ((state, actions) :: rest)
  = load_rows (load_row state t actions) rest.
Proof. reflexivity. Qed.

Lemma load_actions_dump state actions t :
  load_actions decimal_key state
    ((fun kv : Z * float => (json_key kv.1, kv.2)) <$> actions) t
  = (Ok (), load_row state t actions).
Proof.
  revert t. induction actions as [|[k v] rest IH]; intros t; [done|].
  cbn [fmap list_fmap load_actions]. rewrite decimal_key_json_key.
  by rewrite IH.
Qed.

Lemma load_states_dump items t :
  load_states decimal_key
    ((fun item : string * list (Z * float) =>
        (item.1, (fun kv : Z * float => (json_key kv.1, kv.2)) <$> item.2))
       <$> items) t
  = (Ok (), load_rows t items).
Proof.
  revert t. induction items as [|[state actions] rest IH]; intros t; [done|].
  cbn [fmap list_fmap load_states]. rewrite load_actions_dump. by rewrite IH.
Qed.

Lemma set_q_value_entry_eq state action v t state' action' :
  set_q_value state action v t !! state' ≫= (fun row => row !! action')
  = if bool_decide (state' = state ∧ action' = action) then Some v
    else t !! state' ≫= (fun row => row !! action').
Proof.
  unfold set_q_value. case_bool_decide as H.
  - destruct H as [-> ->]. rewrite lookup_insert_eq. simpl.
    by rewrite lookup_insert_eq.
  - destruct (decide (state' = state)) as [->|Hs].
    + rewrite lookup_insert_eq. simpl.
      rewrite lookup_insert_ne by (intros ->; by apply H).
      by destruct (t !! state).
    + by rewrite lookup_insert_ne.
Qed.

Lemma load_row_other state actions t state' action' :
  state' ≠ state ∨ action' ∉ actions.*1 →
  load_row state t actions !! state' ≫= (fun row => row !! action')
  = t !! state' ≫= (fun row => row !! action').
Proof.
  revert t. induction actions as [|[k v] rest IH]; intros t H; [done|].
  rewrite load_row_cons.
  rewrite IH.
  - rewrite set_q_value_entry_eq. rewrite bool_decide_eq_false_2; [done|].
    intros [-> ->]. destruct H as [H|H]; [done|]. apply H. simpl. left.
  - destruct H as [H|H]; [by left|right]. intros Hin. apply H. simpl. by right.
Qed.

Lemma load_row_in state actions t action v :
  NoDup actions.*1 → (action, v) ∈ actions →
  load_row state t actions !! state ≫= (fun row => row !! action) = Some v.
Proof.
  revert t. induction actions as [|[k v'] rest IH]; intros t Hnd Hin.
  { by apply elem_of_nil in Hin. }
  rewrite load_row_cons.
  apply NoDup_cons in Hnd as [Hk Hnd]. simpl in Hk.
  apply elem_of_cons in Hin as [[= -> ->]|Hin].
  - rewrite load_row_other by (by right).
    rewrite set_q_value_entry_eq. by rewrite bool_decide_eq_true_2.
  - by apply IH.
Qed.

Lemma load_rows_other items t state action :
  state ∉ items.*1 →
  load_rows t items !! state ≫= (fun row => row !! action)
  = t !! state ≫= (fun row => row !! action).
Proof.
  revert t. induction items as [|[s l] rest IH]; intros t H; [done|].
  rewrite load_rows_cons.
  rewrite IH by (intros Hin; apply H; simpl; by right).
  apply load_row_other. left. intros ->. apply H. simpl. left.
Qed.

Lemma load_rows_in items t state actions action :
  NoDup items.*1 → (state, actions) ∈ items → NoDup actions.*1 →
  load_rows t items !! state ≫= (fun row => row !! action)
  = match list_find (fun kv => kv.1 = action) actions with
    | Some (_, kv) => Some kv.2
    | None => t !! state ≫= (fun row => row !! action)
    end.
Proof.
  revert t. induction items as [|[s l] rest IH]; intros t Hnd Hin Hnda.
  { by apply elem_of_nil in Hin. }
  rewrite load_rows_cons.
  apply NoDup_cons in Hnd as [Hs Hnd]. simpl in Hs.
  apply elem_of_cons in Hin as [[= <- <-]|Hin].
  - rewrite load_rows_other by done.
    destruct (list_find (fun kv => kv.1 = action) actions) as [[i [k v]]|] eqn:E.
    + apply list_find_Some in E as (Hi & Hk & _). simpl in Hk. subst k.
      apply load_row_in; [done|]. by eapply list_elem_of_lookup_2.
    + apply load_row_other. right. intros Hin.
      apply list_elem_of_fmap in Hin as ([k v] & -> & Hin).
      eapply list_find_None in E. rewrite Forall_forall in E.
      by apply (E _ Hin).
  - assert (state ≠ s) as Hne.
    { intros ->. apply Hs. apply list_elem_of_fmap. by exists (s, actions). }
    rewrite (IH _ Hnd Hin Hnda).
    destruct (list_find _ actions); [done|].
    apply load_row_other. by left.
Qed.

Lemma load_row_dom state actions t :
  dom (load_row state t actions)
  = if bool_decide (actions = []) then dom t else {[state]} ∪ dom t.
Proof.
  revert t. induction actions as [|[k v] rest IH]; intros t; [done|].
  rewrite load_row_cons.
  rewrite IH. rewrite (bool_decide_eq_false_2 (_ :: _ = [])) by done.
  unfold set_q_value. rewrite dom_insert_L.
  case_bool_decide; [done|]. by rewrite (assoc_L (∪)), union_idemp_L.
Qed.

Lemma load_rows_dom items t state :
  state ∈ dom (load_rows t items)
  ↔ state ∈ dom t ∨ ∃ actions, (state, actions) ∈ items ∧ actions ≠ [].
Proof.
  revert t. induction items as [|[s l] rest IH]; intros t.
  { simpl. split; [by left|]. intros [H|(? & []%elem_of_nil & _)]; done. }
  rewrite load_rows_cons.
  rewrite IH, load_row_dom. split.
  - intros [H|(actions & Hin & Hne)].
    + case_bool_decide as E; [by left|].
      apply elem_of_union in H as [->%elem_of_singleton|H]; [|by left].
      right. exists l. split; [left|done].
    + right. exists actions. split; [by right|done].
  - intros [H|(actions & Hin & Hne)].
    + left. case_bool_decide; [done|]. apply elem_of_union. by right.
    + apply elem_of_cons in Hin as [[= -> ->]|Hin].
      * left. rewrite bool_decide_eq_false_2 by done.
        apply elem_of_union. left. by apply elem_of_singleton.
      * right. by exists actions.
Qed.

(** What [load_q_table] makes of the file [save_q_table] wrote for the
    table [T]. *)
Lemma load_saved (a : QLearningAgent) :
  let t := load_rows ∅ (save_q_table a) in
  (∀ state action,
     t !! state ≫= (fun row => row !! action)
     = q_table a !! state ≫= (fun row => row !! action))
  ∧ (∀ state, is_Some (t !! state)
       ↔ ∃ row, q_table a !! state = Some row ∧ row ≠ ∅).
Proof.
  intros t. set (T := q_table a) in *.
  set (items := save_q_table a) in *.
  assert (items.*1 = (map_to_list T).*1) as Hfst.
  { unfold items, save_q_table. rewrite <- list_fmap_compose.
    apply list_fmap_ext. by intros _ [s row] _. }
  assert (∀ s l, (s, l) ∈ items ↔ ∃ row, T !! s = Some row ∧ l = map_to_list row)
    as Hitems.
  { intros s l. unfold items, save_q_table. rewrite list_elem_of_fmap. split.
    - intros ([s' row] & [= -> ->] & Hin%elem_of_map_to_list). by exists row.
    - intros (row & Hrow & ->). exists (s, row). split; [done|].
      by apply elem_of_map_to_list. }
  assert (NoDup items.*1) as Hnd by (rewrite Hfst; apply NoDup_fst_map_to_list).
  split.
  - intros state action. unfold t.
    destruct (T !! state) as [row|] eqn:Hrow; simpl.
    + rewrite (load_rows_in items ∅ state (map_to_list row) action Hnd);
        [|apply Hitems; by exists row|apply NoDup_fst_map_to_list].
      destruct (list_find _ (map_to_list row)) as [[i [k v]]|] eqn:E.
      * apply list_find_Some in E as (Hi & Hk & _). simpl in Hk. subst k.
        apply list_elem_of_lookup_2, elem_of_map_to_list in Hi. by rewrite Hi.
      * rewrite lookup_empty. simpl.
        destruct (row !! action) as [v|] eqn:Hv; [|done].
        apply elem_of_map_to_list in Hv.
        eapply list_find_None in E. rewrite Forall_forall in E.
        by destruct (E _ Hv).
    + rewrite load_rows_other; [by rewrite lookup_empty|].
      rewrite Hfst. intros Hin.
      apply list_elem_of_fmap in Hin as ([s row] & -> & Hin).
      apply elem_of_map_to_list in Hin. simpl in Hrow. congruence.
  - intros state. rewrite <- elem_of_dom. unfold t. rewrite load_rows_dom.
    rewrite dom_empty. split.
    + intros [[]%elem_of_empty|(l & Hin & Hne)].
      apply Hitems in Hin as (row & Hrow & ->). exists row. split; [done|].
      intros ->. by rewrite map_to_list_empty in Hne.
    + intros (row & Hrow & Hne). right. exists (map_to_list row). split.
      * apply Hitems. by exists row.
      * intros E. by apply map_to_list_empty_iff in E.
Qed.

Lemma q_lookup_entry t state action :
  q_lookup t state action
  = default 0%float (t !! state ≫= (fun row => row !! action)).
Proof. unfold q_lookup. by destruct (t !! state). Qed.

End RoundTrip.

(** X11. Saving and loading is a round trip on the entries of the table. When
    the file holds what [save_q_table] wrote for an agent, [load_q_table]
    returns normally, prints nothing and replaces the table of the loading
    agent, whatever it held, by a table with exactly the entries of the
    saved one: every pair has the same entry and so the same Q-value. Rows
    that hold no entry are not restored. The parameters of the loading
    agent stay. *)
Theorem save_load_round_trip (fs : string → source) (filename : string)
    (a a0 : QLearningAgent) :
  fs filename = json_dump (save_q_table a) →
  ∃ t,
    load_q_table decimal_key fs filename a0 = (Ok (), with_table a0 t, [])
    ∧ (∀ state action,
         t !! state ≫= (fun row => row !! action)
         = q_table a !! state ≫= (fun row => row !! action))
    ∧ (∀ state action,
         q_lookup t state action = q_lookup (q_table a) state action)
    ∧ (∀ state, is_Some (t !! state)
         ↔ ∃ row, q_table a !! state = Some row ∧ row ≠ ∅).
Proof.
  intros Hfile. exists (load_rows ∅ (save_q_table a)).
  destruct (load_saved a) as [Hentry Hdom].
  split.
  - unfold load_q_table. rewrite Hfile. unfold json_dump.
    by rewrite load_states_dump.
  - split; [done|]. split; [|done].
    intros state action. by rewrite !q_lookup_entry, Hentry.
Qed.


Lemma save_load_round_trip_witness :
  ∃ t,
    load_q_table decimal_key (fun _ => json_dump (save_q_table one_entry_agent))
      "q_table_x.json" default_agent
    = (Ok (), with_table default_agent t, [])
    ∧ (∀ state action,
         t !! state ≫= (fun row => row !! action)
         = q_table one_entry_agent !! state ≫= (fun row => row !! action))
    ∧ (∀ state action,
         q_lookup t state action
         = q_lookup (q_table one_entry_agent) state action)
    ∧ (∀ state, is_Some (t !! state)
         ↔ ∃ row, q_table one_entry_agent !! state = Some row ∧ row ≠ ∅).
Proof.
  apply (save_load_round_trip
           (fun _ => json_dump (save_q_table one_entry_agent))
           "q_table_x.json" one_entry_agent default_agent).
  reflexivity.
Defined.

Section TournamentFacts.

Implicit Types (g : TicTacToeAI) (w : verdict) (r : results).

(** One game of a tournament. *)
Lemma play_self_game_summary (rnd : TicTacToeAI → draw) (training : bool)
    (start : string) (fuel : nat) g :
  (9 ≤ fuel)%nat →
  ∃ w g',
    play_self_game (get_move_by_strategy rnd) fuel training false start g
    = Some (Ok (w, g'))
    ∧ (w = Tie ∨ w = Win X ∨ w = Win O)
    ∧ strategy_x g' = strategy_x g ∧ strategy_o g' = strategy_o g
    ∧ data_collector g' = data_collector g
    ∧ (strategy_x g = MINIMAX → w ≠ Win O)
    ∧ (strategy_o g = MINIMAX → w ≠ Win X).
Proof.
  intros Hfuel.
  destruct (play_self_game_run rnd training false start fuel g Hfuel)
    as (w & g' & l' & b & p & move & Hrun & Hrec & Hopen & Hvalid & Hb & _
        & Hw & Hsx & Hso & _ & _ & Hdc).
  exists w, g'. split; [done|]. rewrite Hb in Hw.
  destruct (finished_game_facts l' b p move w Hrec Hopen Hvalid Hw)
    as (_ & Hwho & _).
  split; [destruct Hwho as [->| ->]; [by left|right; destruct p; tauto]|].
  split; [done|]. split; [done|]. split; [done|]. split.
  - intros H.
    destruct (play_self_game_safe rnd training false start fuel X g Hfuel H)
      as (w' & g'' & Hrun' & Hsafe).
    rewrite Hrun in Hrun'. by injection Hrun' as <- _.
  - intros H.
    destruct (play_self_game_safe rnd training false start fuel O g Hfuel H)
      as (w' & g'' & Hrun' & Hsafe).
    rewrite Hrun in Hrun'. by injection Hrun' as <- _.
Qed.

(** The games of a tournament: every game ends and is counted once. *)
Lemma play_games_run (rnds : nat → TicTacToeAI → draw) (clock : nat → string)
    (fuel : nat) (training : bool) (i n : nat) r g :
  (9 ≤ fuel)%nat →
  ∃ r' g',
    play_games rnds clock fuel training i n r g = Some (inr (r', g'))
    ∧ X_count r' + O_count r' + Tie_count r'
      = X_count r + O_count r + Tie_count r + Z.of_nat n
    ∧ X_count r ≤ X_count r' ∧ O_count r ≤ O_count r'
    ∧ Tie_count r ≤ Tie_count r'
    ∧ strategy_x g' = strategy_x g ∧ strategy_o g' = strategy_o g
    ∧ data_collector g' = data_collector g
    ∧ (strategy_x g = MINIMAX → O_count r' = O_count r)
    ∧ (strategy_o g = MINIMAX → X_count r' = X_count r).
Proof.
  intros Hfuel. revert i r g. induction n as [|n IH]; intros i r g.
  { exists r, g. split; [done|]. repeat split; lia. }
  cbn [play_games].
  destruct (play_self_game_summary (rnds i) training (clock i) fuel g Hfuel)
    as (w & g1 & -> & Hw & Hsx & Hso & Hdc & HX & HO).
  assert (∃ r1, results_add w r = Some r1
            ∧ X_count r1 + O_count r1 + Tie_count r1
              = X_count r + O_count r + Tie_count r + 1
            ∧ X_count r ≤ X_count r1 ∧ O_count r ≤ O_count r1
            ∧ Tie_count r ≤ Tie_count r1
            ∧ (w ≠ Win O → O_count r1 = O_count r)
            ∧ (w ≠ Win X → X_count r1 = X_count r)) as (r1 & -> & Hr1).
  { destruct Hw as [->|[->| ->]]; eexists; (split; [reflexivity|]); simpl;
      repeat split; try lia; done. }
  destruct Hr1 as (Hsum & H1 & H2 & H3 & H4 & H5).
  destruct (IH (S i) r1 g1)
    as (r' & g' & -> & Hsum' & H1' & H2' & H3' & Hsx' & Hso' & Hdc' & HX' & HO').
  exists r', g'. split; [done|].
  split; [lia|]. split; [lia|]. split; [lia|]. split; [lia|].
  split; [congruence|]. split; [congruence|]. split; [congruence|].
  split.
  - intros H. rewrite HX' by congruence. apply H4. by apply HX.
  - intros H. rewrite HO' by congruence. apply H5. by apply HO.
Qed.

End TournamentFacts.

Section TournamentRuns.

Implicit Types (g : TicTacToeAI) (w : verdict) (r : results)
  (strategies : list Strategy).

Lemma tournament_run (rnds : nat → TicTacToeAI → draw) (clock : nat → string)
    (fuel : nat) (num_games : Z) (training : bool) g :
  (9 ≤ fuel)%nat →
  (num_games = 0 →
   run_self_play_tournament rnds clock fuel num_games training g
   = Some (inl ZeroDivisionError))
  ∧ (num_games ≠ 0 →
     ∃ r g',
       run_self_play_tournament rnds clock fuel num_games training g
       = Some (inr (r, g'))
       ∧ tally_of num_games r
       ∧ strategy_x g' = strategy_x g ∧ strategy_o g' = strategy_o g
       ∧ data_collector g' = data_collector g
       ∧ (strategy_x g = MINIMAX → O_count r = 0)
       ∧ (strategy_o g = MINIMAX → X_count r = 0)).
Proof.
  intros Hfuel. unfold run_self_play_tournament.
  destruct (play_games_run rnds clock fuel training 0 (Z.to_nat num_games)
              no_results g Hfuel)
    as (r & g' & -> & Hsum & H1 & H2 & H3 & Hsx & Hso & Hdc & HX & HO).
  simpl in Hsum, H1, H2, H3, HX, HO. split.
  - by intros ->.
  - intros Hne. apply Z.eqb_neq in Hne as ->.
    exists r, g'. split; [done|]. split; [unfold tally_of; lia|]. done.
Qed.

Lemma inner_pairs (strat_x : Strategy) (m k : nat) strategies :
  mjoin (imap (fun j strat_o =>
                 if (m <=? k + j)%nat then [(strat_x, strat_o)] else [])
           strategies)
  = (fun strat_o => (strat_x, strat_o)) <$> drop (m - k) strategies.
Proof.
  revert k. induction strategies as [|s rest IH]; intros k.
  { by rewrite drop_nil. }
  rewrite imap_cons. cbn [mjoin list_join].
  rewrite (imap_ext _ (fun j strat_o =>
             if (m <=? S k + j)%nat then [(strat_x, strat_o)] else []));
    [|intros j so _; simpl; by replace (k + S j)%nat with (S (k + j)) by lia].
  rewrite IH. rewrite Nat.add_0_r.
  destruct (Nat.leb_spec m k) as [Hle|Hlt].
  - replace (m - k)%nat with 0%nat by lia.
    replace (m - S k)%nat with 0%nat by lia. done.
  - replace (m - k)%nat with (S (m - S k)) by lia. done.
Qed.

Lemma matchups_tails strategies :
  matchups strategies
  = mjoin (imap (fun i strat_x =>
                   (fun strat_o => (strat_x, strat_o)) <$> drop i strategies)
             strategies).
Proof.
  unfold matchups. f_equal. apply imap_ext. intros i sx _.
  pose proof (inner_pairs sx i 0 strategies) as H.
  rewrite Nat.sub_0_r in H. by rewrite <- H.
Qed.

Lemma matchups_spec strategies strat_x strat_o :
  (strat_x, strat_o) ∈ matchups strategies
  ↔ ∃ i j, strategies !! i = Some strat_x ∧ strategies !! j = Some strat_o
           ∧ (i ≤ j)%nat.
Proof.
  rewrite matchups_tails, list_elem_of_join. split.
  - intros (l & Hin & Hl).
    apply elem_of_lookup_imap in Hl as (i & sx & -> & Hi).
    apply list_elem_of_fmap in Hin as (so & [= -> ->] & Hso).
    apply list_elem_of_lookup in Hso as (j & Hj). rewrite lookup_drop in Hj.
    exists i, (i + j)%nat. split; [done|]. split; [done|]. lia.
  - intros (i & j & Hi & Hj & Hle).
    exists ((fun so => (strat_x, so)) <$> drop i strategies). split.
    + apply list_elem_of_fmap. exists strat_o. split; [done|].
      apply list_elem_of_lookup. exists (j - i)%nat. rewrite lookup_drop.
      by replace (i + (j - i))%nat with j by lia.
    + apply elem_of_lookup_imap. by exists i, strat_x.
Qed.

Lemma matchups_last strategies s :
  last strategies = Some s →
  ∃ pairs, matchups strategies = pairs ++ [(s, s)].
Proof.
  intros Hlast. apply last_Some in Hlast as [l' ->].
  rewrite matchups_tails, imap_app. cbn [imap].
  rewrite join_app. cbn [mjoin list_join]. rewrite app_nil_r.
  rewrite Nat.add_0_r, drop_app_length. by eexists.
Qed.

(** The tournaments of [evaluate_strategies] over the pairs [pairs]. *)
Lemma evaluate_pairs_run (rnds : nat → nat → TicTacToeAI → draw)
    (clock : nat → nat → string) (fuel : nat) (num_games : Z) (k : nat)
    (pairs : list (Strategy * Strategy)) (res : gmap string results) g :
  (9 ≤ fuel)%nat → num_games ≠ 0 →
  ∃ res' g',
    evaluate_pairs rnds clock fuel num_games k pairs res g
    = Some (inr (res', g'))
    ∧ (∀ key r, res' !! key = Some r →
         res !! key = Some r ∨ tally_of num_games r)
    ∧ (∀ key, is_Some (res !! key) → is_Some (res' !! key))
    ∧ (∀ sx so, (sx, so) ∈ pairs → is_Some (res' !! matchup_key sx so))
    ∧ (strategy_x g', strategy_o g')
      = default (strategy_x g, strategy_o g) (last pairs)
    ∧ data_collector g' = data_collector g.
Proof.
  intros Hfuel Hne. revert k res g.
  induction pairs as [|[sx so] rest IH]; intros k res g.
  { exists res, g. split; [done|]. split; [by left|]. split; [done|].
    split; [intros sx so H; by apply elem_of_nil in H|]. done. }
  cbn [evaluate_pairs].
  destruct (tournament_run (rnds k) (clock k) fuel num_games false
              (set_strategies g sx so) Hfuel) as [_ Hrun].
  destruct (Hrun Hne) as (r & g1 & -> & Hr & Hsx & Hso & Hdc & _).
  destruct (IH (S k) (<[matchup_key sx so := r]> res) g1)
    as (res' & g' & -> & Hold & Hkeep & Hin & Hlast & Hdc').
  exists res', g'. split; [done|]. split; [|split; [|split; [|split]]].
  - intros key r' Hkey. destruct (Hold key r' Hkey) as [H|H]; [|by right].
    destruct (decide (key = matchup_key sx so)) as [->|Hk].
    + rewrite lookup_insert_eq in H. injection H as <-. by right.
    + rewrite lookup_insert_ne in H by done. by left.
  - intros key Hkey. apply Hkeep.
    destruct (decide (key = matchup_key sx so)) as [->|Hk].
    + rewrite lookup_insert_eq. by eexists.
    + by rewrite lookup_insert_ne.
  - intros sx' so' [[= -> ->]|H]%elem_of_cons; [|by apply Hin].
    apply Hkeep. rewrite lookup_insert_eq. by eexists.
  - rewrite Hlast, Hsx, Hso. cbn [set_strategies strategy_x strategy_o].
    destruct rest as [|p rest]; [done|]. rewrite last_cons_cons.
    destruct (last (p :: rest)) eqn:E; [done|]. by apply last_None in E.
  - by rewrite Hdc', Hdc.
Qed.

(** The keys of the result are keys of the pairs. *)
Lemma evaluate_pairs_keys (rnds : nat → nat → TicTacToeAI → draw)
    (clock : nat → nat → string) (fuel : nat) (num_games : Z) (k : nat)
    (pairs : list (Strategy * Strategy)) (res res' : gmap string results)
    (g g' : TicTacToeAI) :
  evaluate_pairs rnds clock fuel num_games k pairs res g
  = Some (inr (res', g')) →
  ∀ key, is_Some (res' !! key) →
    is_Some (res !! key)
    ∨ ∃ sx so, (sx, so) ∈ pairs ∧ key = matchup_key sx so.
Proof.
  revert k res g. induction pairs as [|[sx so] rest IH]; intros k res g.
  { intros [= <- _] key Hkey. by left. }
  cbn [evaluate_pairs]. cbv zeta.
  destruct (run_self_play_tournament (rnds k) (clock k) fuel num_games false
              (set_strategies g sx so)) as [[e|[r g1]]|]; [done| |done].
  intros Hrun key Hkey.
  destruct (IH _ _ _ Hrun key Hkey) as [H|(sx' & so' & Hin & ->)].
  - destruct (decide (key = matchup_key sx so)) as [->|Hne].
    + right. exists sx, so. split; [left|done].
    + left. by rewrite lookup_insert_ne in H.
  - right. exists sx', so'. split; [by right|done].
Qed.

End TournamentRuns.

(** X12. A tournament counts every game once. [run_self_play_tournament]
    with a number of games other than 0 returns a tally whose three counts
    are not negative and add up to the number of games (to 0 for a negative
    number), and leaves the strategies and the collected data as they
    were; a side that plays [MINIMAX] has no loss in the tally. With 0
    games it raises [ZeroDivisionError] when it prints the percentages. *)
Theorem run_self_play_tournament_counts (rnds : nat → TicTacToeAI → draw)
    (clock : nat → string) (fuel : nat) (num_games : Z) (training : bool)
    (g : TicTacToeAI) :
  (9 ≤ fuel)%nat →
  (num_games = 0 →
   run_self_play_tournament rnds clock fuel num_games training g
   = Some (inl ZeroDivisionError))
  ∧ (num_games ≠ 0 →
     ∃ r g',
       run_self_play_tournament rnds clock fuel num_games training g
       = Some (inr (r, g'))
       ∧ X_count r + O_count r + Tie_count r = Z.max 0 num_games
       ∧ 0 ≤ X_count r ∧ 0 ≤ O_count r ∧ 0 ≤ Tie_count r
       ∧ strategy_x g' = strategy_x g ∧ strategy_o g' = strategy_o g
       ∧ data_collector g' = data_collector g
       ∧ (strategy_x g = MINIMAX → O_count r = 0)
       ∧ (strategy_o g = MINIMAX → X_count r = 0)).
Proof.
  intros Hfuel.
  destruct (tournament_run rnds clock fuel num_games training g Hfuel)
    as [Hzero Hrun].
  split; [done|]. intros Hne.
  destruct (Hrun Hne) as (r & g' & Heq & (Hsum & H1 & H2 & H3) & Hrest).
  exists r, g'. by repeat (split; [done|]).
Qed.

Lemma run_self_play_tournament_counts_witness :
  (3 = 0 →
   run_self_play_tournament (fun _ _ => {| uniform := 0.5; index := 0 |})
     (fun _ => "") 9 3 false (init_game MINIMAX RANDOM)
   = Some (inl ZeroDivisionError))
  ∧ (3 ≠ 0 →
     ∃ r g',
       run_self_play_tournament (fun _ _ => {| uniform := 0.5; index := 0 |})
         (fun _ => "") 9 3 false (init_game MINIMAX RANDOM)
       = Some (inr (r, g'))
       ∧ X_count r + O_count r + Tie_count r = Z.max 0 3
       ∧ 0 ≤ X_count r ∧ 0 ≤ O_count r ∧ 0 ≤ Tie_count r
       ∧ strategy_x g' = strategy_x (init_game MINIMAX RANDOM)
       ∧ strategy_o g' = strategy_o (init_game MINIMAX RANDOM)
       ∧ data_collector g' = data_collector (init_game MINIMAX RANDOM)
       ∧ (strategy_x (init_game MINIMAX RANDOM) = MINIMAX → O_count r = 0)
       ∧ (strategy_o (init_game MINIMAX RANDOM) = MINIMAX → X_count r = 0)).
Proof.
  apply (run_self_play_tournament_counts
           (fun _ _ => {| uniform := 0.5; index := 0 |}) (fun _ => "") 9 3
           false (init_game MINIMAX RANDOM)).
  lia.
Defined.

(** X13. Training returns and restores. [train_q_learning_agent] plays its
    episodes without raising, for any number of episodes, any opponent and
    any random source, and afterwards the two strategies of the game object
    are the ones it had before the call; no game is added to the collected
    data. *)
Theorem train_q_learning_agent_restores (rnds : nat → TicTacToeAI → draw)
    (clock : nat → string) (fuel : nat) (episodes : Z)
    (opponent_strategy : Strategy) (g : TicTacToeAI) :
  (9 ≤ fuel)%nat →
  ∃ g',
    train_q_learning_agent rnds clock fuel episodes opponent_strategy g
    = Some (inr g')
    ∧ strategy_x g' = strategy_x g ∧ strategy_o g' = strategy_o g
    ∧ data_collector g' = data_collector g.
Proof.
  intros Hfuel. unfold train_q_learning_agent. cbv zeta.
  destruct (play_games_run rnds clock fuel true 0 (Z.to_nat episodes)
              no_results (set_strategies g Q_LEARNING opponent_strategy) Hfuel)
    as (r & g' & -> & _ & _ & _ & _ & _ & _ & Hdc & _).
  eexists. split; [reflexivity|]. split; [done|]. split; [done|]. exact Hdc.
Qed.

Lemma train_q_learning_agent_restores_witness :
  ∃ g',
    train_q_learning_agent (fun _ _ => {| uniform := 0.5; index := 0 |})
      (fun _ => "") 9 2 RANDOM (init_game MINIMAX MINIMAX)
    = Some (inr g')
    ∧ strategy_x g' = strategy_x (init_game MINIMAX MINIMAX)
    ∧ strategy_o g' = strategy_o (init_game MINIMAX MINIMAX)
    ∧ data_collector g' = data_collector (init_game MINIMAX MINIMAX).
Proof.
  apply (train_q_learning_agent_restores
           (fun _ _ => {| uniform := 0.5; index := 0 |}) (fun _ => "") 9 2
           RANDOM (init_game MINIMAX MINIMAX)).
  lia.
Defined.

(** X14. [evaluate_strategies] does not put the strategies back. Called with
    a list of strategies that is not empty and a number of games other than
    0, it returns a tally of that many games under the key of every pair
    [(strategies[i], strategies[j])] with [i <= j]; every key it holds is
    the key of such a pair and every entry such a tally. Both strategies
    of the game object are left set to the last strategy of the list. With
    0 games the first tournament raises [ZeroDivisionError]. *)
Theorem evaluate_strategies_outcome (rnds : nat → nat → TicTacToeAI → draw)
    (clock : nat → nat → string) (fuel : nat) (strategies : list Strategy)
    (num_games : Z) (g : TicTacToeAI) (s : Strategy) :
  (9 ≤ fuel)%nat → last strategies = Some s →
  (num_games = 0 →
   evaluate_strategies rnds clock fuel strategies num_games g
   = Some (inl ZeroDivisionError))
  ∧ (num_games ≠ 0 →
     ∃ res g',
       evaluate_strategies rnds clock fuel strategies num_games g
       = Some (inr (res, g'))
       ∧ strategy_x g' = s ∧ strategy_o g' = s
       ∧ data_collector g' = data_collector g
       ∧ (∀ (i j : nat) sx so,
            strategies !! i = Some sx → strategies !! j = Some so →
            (i ≤ j)%nat →
            ∃ r, res !! matchup_key sx so = Some r ∧ tally_of num_games r)
       ∧ (∀ key r, res !! key = Some r →
            tally_of num_games r
            ∧ ∃ (i j : nat) sx so,
                strategies !! i = Some sx ∧ strategies !! j = Some so
                ∧ (i ≤ j)%nat ∧ key = matchup_key sx so)).
Proof.
  intros Hfuel Hlast. unfold evaluate_strategies.
  destruct (matchups_last strategies s Hlast) as [pairs Hpairs].
  split.
  - intros ->. destruct (matchups strategies) as [|[sx so] rest] eqn:E.
    { by destruct pairs. }
    cbn [evaluate_pairs].
    destruct (tournament_run (rnds 0%nat) (clock 0%nat) fuel 0 false
                (set_strategies g sx so) Hfuel) as [-> _]; done.
  - intros Hne.
    destruct (evaluate_pairs_run rnds clock fuel num_games 0
                (matchups strategies) ∅ g Hfuel Hne)
      as (res & g' & Hrun & Hold & _ & Hin & Hend & Hdc).
    exists res, g'. split; [done|].
    rewrite Hpairs, last_snoc in Hend. injection Hend as Hsx Hso.
    split; [done|]. split; [done|]. split; [done|].
    assert (∀ key r, res !! key = Some r → tally_of num_games r) as Hall.
    { intros key r Hkey. destruct (Hold key r Hkey) as [H|H]; [|done].
      by rewrite lookup_empty in H. }
    split.
    + intros i j sx so Hi Hj Hle.
      destruct (Hin sx so) as [r Hr].
      { apply matchups_spec. by exists i, j. }
      exists r. split; [done|]. by eapply Hall.
    + intros key r Hkey. split; [by eapply Hall|].
      destruct (evaluate_pairs_keys _ _ _ _ _ _ _ _ _ _ Hrun key)
        as [H|(sx & so & Hp & ->)]; [by eexists| |].
      { rewrite lookup_empty in H. by destruct H. }
      apply matchups_spec in Hp as (i & j & Hi & Hj & Hle).
      by exists i, j, sx, so.
Qed.

Lemma evaluate_strategies_outcome_witness :
  (2 = 0 →
   evaluate_strategies (fun _ _ _ => {| uniform := 0.5; index := 0 |})
     (fun _ _ => "") 9 [MINIMAX; RANDOM] 2 (init_game MINIMAX MINIMAX)
   = Some (inl ZeroDivisionError))
  ∧ (2 ≠ 0 →
     ∃ res g',
       evaluate_strategies (fun _ _ _ => {| uniform := 0.5; index := 0 |})
         (fun _ _ => "") 9 [MINIMAX; RANDOM] 2 (init_game MINIMAX MINIMAX)
       = Some (inr (res, g'))
       ∧ strategy_x g' = RANDOM ∧ strategy_o g' = RANDOM
       ∧ data_collector g' = data_collector (init_game MINIMAX MINIMAX)
       ∧ (∀ (i j : nat) sx so,
            [MINIMAX; RANDOM] !! i = Some sx → [MINIMAX; RANDOM] !! j = Some so →
            (i ≤ j)%nat →
            ∃ r, res !! matchup_key sx so = Some r ∧ tally_of 2 r)
       ∧ (∀ key r, res !! key = Some r →
            tally_of 2 r
            ∧ ∃ (i j : nat) sx so,
                [MINIMAX; RANDOM] !! i = Some sx
                ∧ [MINIMAX; RANDOM] !! j = Some so
                ∧ (i ≤ j)%nat ∧ key = matchup_key sx so)).
Proof.
  apply (evaluate_strategies_outcome
           (fun _ _ _ => {| uniform := 0.5; index := 0 |}) (fun _ _ => "") 9
           [MINIMAX; RANDOM] 2 (init_game MINIMAX MINIMAX) RANDOM).
  - lia.
  - reflexivity.
Defined.

Section EpisodeUpdate.

Implicit Types (a : QLearningAgent) (w : verdict) (p : player)
  (gs entries : list (string * Z * player))
  (agents : QLearningAgent * QLearningAgent).

Lemma get_ge (n : nat) (s : string) :
  (String.length s ≤ n)%nat → String.get n s = None.
Proof.
  revert n. induction s as [|c s IH]; intros n Hle; [done|].
  simpl in Hle. destruct n as [|n]; [lia|]. simpl. apply IH. lia.
Qed.

Lemma blank_indices_short (js : list Z) (s : string) (j : Z) :
  j ∈ js → (String.length s ≤ Z.to_nat j)%nat →
  blank_indices js s = Raise IndexError.
Proof.
  induction js as [|j' rest IH]; intros Hin Hle.
  { by apply elem_of_nil in Hin. }
  cbn [blank_indices].
  destruct (String.get (Z.to_nat j') s) as [c|] eqn:E; [|done].
  apply elem_of_cons in Hin as [->|Hin].
  - by rewrite get_ge in E.
  - by rewrite IH.
Qed.

(** The list comprehension over [range(9)] raises exactly on a string of
    fewer than nine characters. *)
Lemma blank_indices_range9 (s : string) :
  if decide (9 ≤ String.length s)%nat
  then ∃ found, blank_indices range9 s = Ok found
  else blank_indices range9 s = Raise IndexError.
Proof.
  case_decide as H.
  - apply blank_indices_ok. intros j [? ?]%elem_of_seqZ. lia.
  - apply (blank_indices_short range9 s 8); [|lia].
    apply elem_of_seqZ. lia.
Qed.

(** One update keeps the parameters of the agent and every entry, and
    changes the value of no pair but the one it is called for. *)
Lemma update_q_value_frame state action reward next_state actions a :
  learning_rate (update_q_value state action reward next_state actions a)
  = learning_rate a
  ∧ discount_factor (update_q_value state action reward next_state actions a)
    = discount_factor a
  ∧ epsilon (update_q_value state action reward next_state actions a)
    = epsilon a
  ∧ has_entry (q_table (update_q_value state action reward next_state actions a))
      state action
  ∧ (∀ state' action', has_entry (q_table a) state' action' →
       has_entry
         (q_table (update_q_value state action reward next_state actions a))
         state' action')
  ∧ (∀ state' action', (state', action') ≠ (state, action) →
       q_lookup
         (q_table (update_q_value state action reward next_state actions a))
         state' action'
       = q_lookup (q_table a) state' action').
Proof.
  destruct (update_q_value_unfold state action reward next_state actions a)
    as (t & Ht & Hl & Hk & _).
  split; [|split; [|split]].
  1-3: unfold update_q_value;
    destruct (get_q_value state action (q_table a)) as [? ?];
    destruct (q_values next_state actions _) as [[|? ?] ?]; done.
  rewrite Ht. split; [apply set_q_value_entry|]. split.
  - intros s' x' H. by apply set_q_value_keeps, Hk.
  - intros s' x' Hne. by rewrite set_q_value_lookup_other, Hl.
Qed.

Lemma update_from_frame w gs (i : nat) entries agents agents' :
  update_from w gs i entries agents = Ok agents' →
  same_but entries agents agents'.
Proof.
  revert i agents. induction entries as [|[[state action] q] rest IH];
    intros i agents Hrun.
  { injection Hrun as <-. intros p. repeat split; try done.
    intros s x H. by apply elem_of_nil in H. }
  cbn [update_from] in Hrun.
  destruct (update_args w gs i (state, action, q)) as [c|e] eqn:Ec;
    [|discriminate].
  cbn in Hrun. apply IH in Hrun.
  assert (∃ reward next_state next_available,
            c = (q, state, action, reward, next_state, next_available))
    as (reward & next_state & next_available & ->).
  { unfold update_args in Ec.
    destruct (gs !! (i + 1)%nat) as [[[ns ?] ?]|].
    - destruct (blank_indices range9 ns); [|discriminate].
      injection Ec as <-. by eexists _, _, _.
    - injection Ec as <-. by eexists _, _, _. }
  destruct agents as [ax ao].
  pose proof (update_q_value_frame state action (float_of_int reward)
                next_state next_available) as Hframe.
  intros p. specialize (Hrun p).
  destruct Hrun as (H1 & H2 & H3 & Hk & He & Hl).
  destruct q, p; cbn [apply_update agent_of player_eqb fst snd] in *.
  - destruct (Hframe ax) as (F1 & F2 & F3 & Fe & Fk & Fl).
    split; [congruence|]. split; [congruence|]. split; [congruence|].
    split; [intros s x H; by apply Hk, Fk|]. split.
    + intros s x [[= -> ->]|H]%elem_of_cons; [by apply Hk|by apply He].
    + intros s x Hnot. rewrite Hl, Fl; [done| |].
      * intros [= -> ->]. apply Hnot. left.
      * intros H. apply Hnot. by right.
  - split; [done|]. split; [done|]. split; [done|]. split; [done|]. split.
    + intros s x [[=]|H]%elem_of_cons. by apply He.
    + intros s x Hnot. apply Hl. intros H. apply Hnot. by right.
  - split; [done|]. split; [done|]. split; [done|]. split; [done|]. split.
    + intros s x [[=]|H]%elem_of_cons. by apply He.
    + intros s x Hnot. apply Hl. intros H. apply Hnot. by right.
  - destruct (Hframe ao) as (F1 & F2 & F3 & Fe & Fk & Fl).
    split; [congruence|]. split; [congruence|]. split; [congruence|].
    split; [intros s x H; by apply Hk, Fk|]. split.
    + intros s x [[= -> ->]|H]%elem_of_cons; [by apply Hk|by apply He].
    + intros s x Hnot. rewrite Hl, Fl; [done| |].
      * intros [= -> ->]. apply Hnot. left.
      * intros H. apply Hnot. by right.
Qed.

Lemma update_from_cons w gs (i : nat) entry rest agents :
  update_from w gs i (entry :: rest) agents
  = match update_args w gs i entry with
    | Ok c => update_from w gs (S i) rest (apply_update c agents)
    | Raise e => Raise e
    end.
Proof. cbn [update_from]. by destruct (update_args w gs i entry). Qed.

Lemma update_args_cases w gs (i : nat) state action p :
  update_args w gs i (state, action, p)
  = match gs !! S i with
    | Some (next_state, _, _) =>
        match blank_indices range9 next_state with
        | Ok next_available =>
            Ok (p, state, action, reward_of w p, next_state, next_available)
        | Raise e => Raise e
        end
    | None => Ok (p, state, action, reward_of w p, state, [])
    end.
Proof.
  unfold update_args. replace (i + 1)%nat with (S i) by lia.
  destruct (gs !! S i) as [[[next_state x] q]|]; [|done].
  by destruct (blank_indices range9 next_state).
Qed.

(** The loop from entry [i] on raises exactly when one of the states it reads
    as a next state is short. *)
Lemma update_from_raises w gs (i : nat) entries agents :
  if decide (Forall (fun e => 9 ≤ String.length e.1.1)%nat
               (take (length entries) (drop (S i) gs)))
  then ∃ agents', update_from w gs i entries agents = Ok agents'
  else update_from w gs i entries agents = Raise IndexError.
Proof.
  revert i agents. induction entries as [|[[state action] p] rest IH];
    intros i agents.
  { rewrite decide_True by (by rewrite take_0). by eexists. }
  rewrite update_from_cons, update_args_cases. cbn [length].
  destruct (gs !! S i) as [[[next_state x] q]|] eqn:Enext.
  - rewrite (drop_S gs _ (S i) Enext). cbn [take].
    pose proof (blank_indices_range9 next_state) as Hb.
    destruct (decide (9 ≤ String.length next_state)%nat) as [Hlen|Hlen].
    + destruct Hb as [found ->].
      specialize (IH (S i) (apply_update (p, state, action, reward_of w p,
                                          next_state, found) agents)).
      case_decide as H1; case_decide as H2; try done.
      * exfalso. apply H2. by constructor.
      * exfalso. apply H1. by inversion H2.
    + rewrite Hb. rewrite decide_False; [done|].
      intros H. inversion H. simpl in *. lia.
  - specialize (IH (S i) (apply_update (p, state, action, reward_of w p,
                                        state, []) agents)).
    rewrite drop_ge in IH by (apply lookup_ge_None in Enext; lia).
    rewrite drop_ge by (by apply lookup_ge_None).
    rewrite take_nil in IH. rewrite take_nil.
    rewrite decide_True in IH by done. by rewrite decide_True by done.
Qed.

End EpisodeUpdate.

(** X15. [update_q_learning] raises only on a short state, and then
    [IndexError]: the call returns when every recorded state but the first
    has at least nine characters, and raises [IndexError] otherwise. The
    state of the first entry is never indexed. *)
Theorem update_q_learning_index_error (w : verdict)
    (gs : list (string * Z * player))
    (agents : QLearningAgent * QLearningAgent) :
  (Forall (fun e => 9 ≤ String.length e.1.1)%nat (tail gs) →
   ∃ agents', update_q_learning w gs agents = Ok agents')
  ∧ (¬ Forall (fun e => 9 ≤ String.length e.1.1)%nat (tail gs) →
     update_q_learning w gs agents = Raise IndexError).
Proof.
  pose proof (update_from_raises w gs 0 gs agents) as H.
  assert (take (length gs) (drop 1 gs) = tail gs) as Htail.
  { destruct gs as [|e rest]; [done|]. simpl. rewrite drop_0.
    apply take_ge. lia. }
  rewrite Htail in H. unfold update_q_learning.
  case_decide; split; done.
Qed.

Lemma update_q_learning_index_error_witness :
  update_q_learning Tie [("", 4, X); ("    X   ", 0, O)]
    (default_agent, default_agent)
  = Raise IndexError.
Proof.
  apply (update_q_learning_index_error Tie [("", 4, X); ("    X   ", 0, O)]
           (default_agent, default_agent)).
  intros H. apply Forall_cons_1 in H as [H _]. simpl in H. lia.
Defined.

(** X16. The update of an episode touches only what was played. When
    [update_q_learning] returns, each agent has its parameters, every entry
    it had and an entry for every pair of state and move that its side
    played in the episode; the value of every other pair is the one it had,
    so the moves of X change nothing in the table of O and the moves of O
    nothing in the table of X. *)
Theorem update_q_learning_frame (w : verdict)
    (gs : list (string * Z * player))
    (agents agents' : QLearningAgent * QLearningAgent) :
  update_q_learning w gs agents = Ok agents' →
  ∀ p,
    learning_rate (agent_of p agents') = learning_rate (agent_of p agents)
    ∧ discount_factor (agent_of p agents') = discount_factor (agent_of p agents)
    ∧ epsilon (agent_of p agents') = epsilon (agent_of p agents)
    ∧ (∀ state action, has_entry (q_table (agent_of p agents)) state action →
         has_entry (q_table (agent_of p agents')) state action)
    ∧ (∀ state action, (state, action, p) ∈ gs →
         has_entry (q_table (agent_of p agents')) state action)
    ∧ (∀ state action, (state, action, p) ∉ gs →
         q_lookup (q_table (agent_of p agents')) state action
         = q_lookup (q_table (agent_of p agents)) state action).
Proof. intros Hrun. by apply (update_from_frame w gs 0 gs). Qed.

Lemma update_q_learning_frame_witness :
  ∃ agents',
    update_q_learning (Win O) o_wins_game (default_agent, default_agent)
    = Ok agents'
    ∧ ∀ p,
        learning_rate (agent_of p agents')
        = learning_rate (agent_of p (default_agent, default_agent))
        ∧ discount_factor (agent_of p agents')
          = discount_factor (agent_of p (default_agent, default_agent))
        ∧ epsilon (agent_of p agents')
          = epsilon (agent_of p (default_agent, default_agent))
        ∧ (∀ state action,
             has_entry (q_table (agent_of p (default_agent, default_agent)))
               state action →
             has_entry (q_table (agent_of p agents')) state action)
        ∧ (∀ state action, (state, action, p) ∈ o_wins_game →
             has_entry (q_table (agent_of p agents')) state action)
        ∧ (∀ state action, (state, action, p) ∉ o_wins_game →
             q_lookup (q_table (agent_of p agents')) state action
             = q_lookup (q_table (agent_of p (default_agent, default_agent)))
                 state action).
Proof.
  eexists. split; [vm_compute; reflexivity|].
  apply (update_q_learning_frame (Win O) o_wins_game
           (default_agent, default_agent)).
  vm_compute. reflexivity.
Defined.


Section CustomPairs.

Implicit Types (focus : list Strategy) (s a b : Strategy)
  (pair : Strategy * Strategy) (acc l : list (Strategy * Strategy)).

Lemma keep_pair_cases acc pair :
  (keep_pair acc pair = acc ∧ ((pair ∈ acc) ∨ ((pair.2, pair.1) ∈ acc)))
  ∨ (keep_pair acc pair = acc ++ [pair]
     ∧ (pair ∉ acc) ∧ ((pair.2, pair.1) ∉ acc)).
Proof.
  unfold keep_pair.
  destruct (decide (pair ∈ acc)) as [H1|H1].
  { rewrite (bool_decide_eq_false_2 (pair ∉ acc)) by tauto. left. tauto. }
  destruct (decide ((pair.2, pair.1) ∈ acc)) as [H2|H2].
  { rewrite (bool_decide_eq_false_2 ((pair.2, pair.1) ∉ acc)) by tauto.
    rewrite andb_false_r. left. tauto. }
  rewrite !bool_decide_eq_true_2 by done. right. done.
Qed.

Lemma keep_pairs_mono l acc pair :
  pair ∈ acc → pair ∈ foldl keep_pair acc l.
Proof.
  revert acc. induction l as [|q l IH]; intros acc H; [done|].
  cbn [foldl]. apply IH.
  destruct (keep_pair_cases acc q) as [[-> _]|(-> & _)]; [done|].
  apply elem_of_app. by left.
Qed.

Lemma keep_pairs_subset l acc pair :
  pair ∈ foldl keep_pair acc l → pair ∈ acc ∨ pair ∈ l.
Proof.
  revert acc. induction l as [|q l IH]; intros acc H; [by left|].
  cbn [foldl] in H. apply IH in H as [H|H]; [|right; by right].
  destruct (keep_pair_cases acc q) as [[E _]|(E & _)]; rewrite E in H.
  - by left.
  - apply elem_of_app in H as [H|H]; [by left|].
    apply list_elem_of_singleton in H as ->. right. left.
Qed.

Lemma keep_pairs_cover l acc a b :
  (a, b) ∈ l →
  (a, b) ∈ foldl keep_pair acc l ∨ (b, a) ∈ foldl keep_pair acc l.
Proof.
  revert acc. induction l as [|q l IH]; intros acc H.
  { by apply elem_of_nil in H. }
  cbn [foldl]. apply elem_of_cons in H as [<-|H]; [|by apply IH].
  destruct (keep_pair_cases acc (a, b)) as [[-> [Hin|Hin]]|(-> & _)].
  - left. by apply keep_pairs_mono.
  - right. by apply keep_pairs_mono.
  - left. apply keep_pairs_mono, elem_of_app. right.
    by apply list_elem_of_singleton.
Qed.

(** The second loop keeps no pair twice and no pair beside its mirror. *)
Lemma keep_pairs_unique l acc :
  NoDup acc →
  (∀ a b, (a, b) ∈ acc → (b, a) ∈ acc → a = b) →
  NoDup (foldl keep_pair acc l)
  ∧ (∀ a b, (a, b) ∈ foldl keep_pair acc l →
            (b, a) ∈ foldl keep_pair acc l → a = b).
Proof.
  revert acc. induction l as [|[x y] l IH]; intros acc Hnd Hanti; [done|].
  cbn [foldl].
  destruct (keep_pair_cases acc (x, y)) as [[-> Hin]|(-> & H1 & H2)];
    cbn [fst snd] in *; [by apply IH|].
  apply IH.
  - apply NoDup_app. split; [done|]. split; [|apply NoDup_singleton].
    intros pair Hp Hq. apply list_elem_of_singleton in Hq as ->. done.
  - intros a b [Ha|[= -> ->]%list_elem_of_singleton]%elem_of_app
      [Hb|[= Hb1 Hb2]%list_elem_of_singleton]%elem_of_app.
    + by apply Hanti.
    + subst. done.
    + done.
    + done.
Qed.

Lemma strategy_pairs_spec focus a b :
  (a, b) ∈ strategy_pairs focus
  ↔ (a ∈ focus ∧ (b ∈ focus ∨ (b = RANDOM ∧ (RANDOM ∉ focus))))
    ∨ (a = RANDOM ∧ (RANDOM ∉ focus) ∧ b ∈ focus).
Proof.
  unfold strategy_pairs. rewrite list_elem_of_bind. unfold pairs_of. split.
  - intros (s & Hin & Hs).
    apply elem_of_cons in Hin as [[= -> ->]|Hin]; [left; tauto|].
    apply elem_of_app in Hin as [Hin|Hin].
    + apply list_elem_of_bind in Hin as (o & Hin & Ho).
      case_bool_decide; [|by apply elem_of_nil in Hin].
      apply list_elem_of_singleton in Hin as [= -> ->]. left. tauto.
    + case_bool_decide; [|by apply elem_of_nil in Hin].
      apply elem_of_cons in Hin as [[= -> ->]|Hin]; [left; tauto|].
      apply list_elem_of_singleton in Hin as [= -> ->]. right. tauto.
  - intros [[Ha [Hb|[-> Hr]]]|(-> & Hr & Hb)].
    + exists a. split; [|done].
      destruct (decide (a = b)) as [->|Hne]; [left|]. right.
      apply elem_of_app. left. apply list_elem_of_bind. exists b.
      split; [|done]. rewrite bool_decide_eq_true_2 by done. left.
    + exists a. split; [|done]. right. apply elem_of_app. right.
      rewrite bool_decide_eq_true_2 by done. left.
    + exists b. split; [|done]. right. apply elem_of_app. right.
      rewrite bool_decide_eq_true_2 by done. right. left.
Qed.

(** Pairs that [RANDOM] does not lead leave it out of the lead of what is
    kept. *)
Lemma keep_pairs_no_lead l acc :
  (∀ s, (RANDOM, s) ∉ acc) → (∀ a b, (a, b) ∈ l → a ≠ RANDOM) →
  ∀ s, (RANDOM, s) ∉ foldl keep_pair acc l.
Proof.
  intros Hacc Hl s [Hin|Hin]%keep_pairs_subset; [by apply (Hacc s)|].
  by apply (Hl _ _ Hin).
Qed.

(** The pairs of one focus strategy: [RANDOM] does not come to lead. *)
Lemma pairs_of_no_lead focus x acc :
  RANDOM ∉ focus → x ∈ focus →
  (∀ s, (RANDOM, s) ∉ acc) →
  ∀ s, (RANDOM, s) ∉ foldl keep_pair acc (pairs_of focus x).
Proof.
  intros Hr Hx Hacc. unfold pairs_of.
  rewrite bool_decide_eq_true_2 by done.
  assert (x ≠ RANDOM) as Hne by (intros ->; done).
  rewrite (app_assoc [(x, x)]), foldl_app.
  set (acc1 := foldl keep_pair acc _).
  assert (∀ s, (RANDOM, s) ∉ acc1) as H1.
  { apply keep_pairs_no_lead; [done|].
    intros a b [[= -> ->]%list_elem_of_singleton|Hin]%elem_of_app; [done|].
    apply list_elem_of_bind in Hin as (o & Hin & Ho).
    case_bool_decide; [|by apply elem_of_nil in Hin].
    by apply list_elem_of_singleton in Hin as [= -> ->]. }
  cbn [foldl].
  destruct (keep_pair_cases acc1 (x, RANDOM)) as [[-> Hin]|(-> & _)];
    cbn [fst snd] in *.
  - destruct Hin as [Hin|Hin]; [|by destruct (H1 x)].
    destruct (keep_pair_cases acc1 (RANDOM, x)) as [[-> _]|(_ & _ & H)];
      [done|by destruct H].
  - destruct (keep_pair_cases (acc1 ++ [(x, RANDOM)]) (RANDOM, x))
      as [[-> _]|(_ & _ & H)].
    + intros s [Hin|[= ?]%list_elem_of_singleton]%elem_of_app; [|done].
      by apply (H1 s).
    + destruct H. apply elem_of_app. right. by apply list_elem_of_singleton.
Qed.

Lemma strategy_pairs_no_lead focus (strategies : list Strategy) acc :
  RANDOM ∉ focus → strategies ⊆ focus →
  (∀ s, (RANDOM, s) ∉ acc) →
  ∀ s, (RANDOM, s) ∉ foldl keep_pair acc (strategies ≫= pairs_of focus).
Proof.
  intros Hr. revert acc.
  induction strategies as [|x strategies IH]; intros acc Hsub Hacc; [done|].
  rewrite bind_cons, foldl_app. apply IH.
  - intros y Hy. apply Hsub. by right.
  - apply pairs_of_no_lead; [done| |done]. apply Hsub. left.
Qed.

End CustomPairs.

(** X17. The matchups of a custom dataset. [create_custom_training_dataset]
    hands to [generate_training_data] a list that holds no pair twice and
    no pair together with its mirror, only pairs that its first loop
    built, and for each of those the pair or its mirror; every focus
    strategy plays itself. When [RANDOM] is not a focus strategy each
    focus strategy meets it as X and no game has [RANDOM] as X: the
    mirrored baseline games that the first loop appends are all
    dropped. *)
Theorem unique_pairs_spec (focus_strategies : list Strategy) :
  NoDup (unique_pairs focus_strategies)
  ∧ (∀ a b, (a, b) ∈ unique_pairs focus_strategies →
            (b, a) ∈ unique_pairs focus_strategies → a = b)
  ∧ (∀ a b, (a, b) ∈ unique_pairs focus_strategies →
            (a, b) ∈ strategy_pairs focus_strategies)
  ∧ (∀ a b, (a, b) ∈ strategy_pairs focus_strategies →
            (a, b) ∈ unique_pairs focus_strategies
            ∨ (b, a) ∈ unique_pairs focus_strategies)
  ∧ (∀ s, s ∈ focus_strategies → (s, s) ∈ unique_pairs focus_strategies)
  ∧ (RANDOM ∉ focus_strategies →
     ∀ s, ((s, RANDOM) ∈ unique_pairs focus_strategies ↔ s ∈ focus_strategies)
          ∧ (RANDOM, s) ∉ unique_pairs focus_strategies).
Proof.
  unfold unique_pairs.
  destruct (keep_pairs_unique (strategy_pairs focus_strategies) [])
    as [Hnd Hanti]; [apply NoDup_nil_2|by intros a b H%elem_of_nil|].
  assert (∀ a b, (a, b) ∈ foldl keep_pair [] (strategy_pairs focus_strategies) →
                 (a, b) ∈ strategy_pairs focus_strategies) as Hsub.
  { intros a b [H|H]%keep_pairs_subset; [by apply elem_of_nil in H|done]. }
  split; [done|]. split; [done|]. split; [done|].
  split; [intros a b; apply keep_pairs_cover|]. split.
  - intros s Hs.
    destruct (keep_pairs_cover (strategy_pairs focus_strategies) [] s s);
      [|done..].
    apply strategy_pairs_spec. left. tauto.
  - intros Hr s.
    pose proof (strategy_pairs_no_lead focus_strategies focus_strategies []
                  Hr ltac:(done) ltac:(by intros ? ?%elem_of_nil)) as Hlead.
    split; [|apply Hlead]. split.
    + intros H%Hsub%strategy_pairs_spec.
      destruct H as [[H _]|(-> & _ & H)]; [done|]. done.
    + intros Hs.
      destruct (keep_pairs_cover (strategy_pairs focus_strategies) [] s RANDOM)
        as [H|H]; [|done|by destruct (Hlead s)].
      apply strategy_pairs_spec. left. tauto.
Qed.

Section GenerateFacts.

Implicit Types (g : TicTacToeAI) (w : verdict) (r : GameRecord)
  (d : GameplayDataCollector).

(** One collected game. *)
Lemma play_self_game_collect (rnd : TicTacToeAI → draw) (start : string)
    (fuel : nat) g :
  (9 ≤ fuel)%nat →
  ∃ w g' r,
    play_self_game (get_move_by_strategy rnd) fuel false true start g
    = Some (Ok (w, g'))
    ∧ strategy_x g' = strategy_x g ∧ strategy_o g' = strategy_o g
    ∧ data_collector g'
      = {| games_data := games_data (data_collector g) ++ [r];
           current_game_id := current_game_id (data_collector g) + 1 |}
    ∧ game_id r = current_game_id (data_collector g)
    ∧ record_of (strategy_x g) (strategy_o g) r.
Proof.
  intros Hfuel.
  destruct (play_self_game_run rnd false true start fuel g Hfuel)
    as (w & g' & l' & b & p & move & Hrun & Hrec & Hopen & Hvalid & Hb & _
        & Hw & Hsx & Hso & _ & _ & Hdc).
  rewrite Hb in Hw.
  destruct (finished_game_facts l' b p move w Hrec Hopen Hvalid Hw)
    as (_ & Hwho & _ & _ & Htie & Hlen).
  eexists w, g', _. split; [done|]. split; [done|]. split; [done|].
  split; [exact Hdc|]. split; [done|].
  unfold record_of. cbn [player_x_strategy player_o_strategy game_length moves
    winner].
  split; [done|]. split; [done|].
  split; [rewrite length_app; simpl; f_equal; lia|]. split; [lia|].
  split; [destruct Hwho as [->| ->]; [by left|right; destruct p; tauto]|].
  split; [intros ->; destruct (Htie eq_refl); lia|]. split.
  - intros H.
    destruct (play_self_game_safe rnd false true start fuel X g Hfuel H)
      as (w' & g'' & Hrun' & Hsafe).
    rewrite Hrun in Hrun'. by injection Hrun' as <- _.
  - intros H.
    destruct (play_self_game_safe rnd false true start fuel O g Hfuel H)
      as (w' & g'' & Hrun' & Hsafe).
    rewrite Hrun in Hrun'. by injection Hrun' as <- _.
Qed.

Lemma collect_games_run (rnds : nat → TicTacToeAI → draw)
    (clock : nat → string) (fuel : nat) (j n : nat) g :
  (9 ≤ fuel)%nat →
  ∃ g' new,
    collect_games rnds clock fuel j n g = Some (inr g')
    ∧ strategy_x g' = strategy_x g ∧ strategy_o g' = strategy_o g
    ∧ length new = n
    ∧ grown (data_collector g) (data_collector g') new
    ∧ Forall (record_of (strategy_x g) (strategy_o g)) new.
Proof.
  intros Hfuel. revert j g. induction n as [|n IH]; intros j g.
  { exists g, []. split; [done|]. split; [done|]. split; [done|].
    split; [done|]. split; [|done]. unfold grown. rewrite app_nil_r.
    split; [done|]. split; [simpl; lia|]. by intros k r H. }
  cbn [collect_games].
  destruct (play_self_game_collect (rnds j) (clock j) fuel g Hfuel)
    as (w & g1 & r & -> & Hsx & Hso & Hdc & Hid & Hr).
  destruct (IH (S j) g1) as (g' & new & -> & Hsx' & Hso' & Hlen & Hg & Hall).
  exists g', (r :: new). split; [done|]. split; [congruence|].
  split; [congruence|]. split; [simpl; lia|]. split.
  - destruct Hg as (G1 & G2 & G3). rewrite Hdc in G1, G2, G3.
    cbn [games_data current_game_id] in G1, G2, G3.
    split; [by rewrite G1, <- app_assoc|].
    split; [rewrite G2; cbn [length]; lia|].
    intros [|k] r' Hk; cbn [lookup list_lookup] in Hk.
    + injection Hk as <-. lia.
    + rewrite (G3 k r' Hk). lia.
  - constructor; [done|]. by rewrite <- Hsx, <- Hso.
Qed.

Lemma collect_pairs_run (rnds : nat → nat → TicTacToeAI → draw)
    (clock : nat → nat → string) (fuel : nat) (games_per_pair : Z) (i : nat)
    (strategy_pairs : list (Strategy * Strategy)) g :
  (9 ≤ fuel)%nat →
  ∃ g' new,
    collect_pairs rnds clock fuel games_per_pair i strategy_pairs g
    = Some (inr g')
    ∧ length new = (length strategy_pairs * Z.to_nat games_per_pair)%nat
    ∧ grown (data_collector g) (data_collector g') new
    ∧ ∀ (k : nat) r, new !! k = Some r →
        ∃ pair, strategy_pairs !! (k / Z.to_nat games_per_pair)%nat = Some pair
                ∧ record_of pair.1 pair.2 r.
Proof.
  intros Hfuel. revert i g.
  induction strategy_pairs as [|[sx so] rest IH]; intros i g.
  { exists g, []. split; [done|]. split; [done|]. split.
    - unfold grown. rewrite app_nil_r. split; [done|]. split; [simpl; lia|].
      by intros k r H.
    - by intros k r H. }
  cbn [collect_pairs].
  destruct (collect_games_run (rnds i) (clock i) fuel 0
              (Z.to_nat games_per_pair) (set_strategies g sx so) Hfuel)
    as (g1 & new1 & -> & Hsx & Hso & Hlen1 & Hg1 & Hall1).
  destruct (IH (S i) g1) as (g' & new2 & -> & Hlen2 & Hg2 & Hall2).
  exists g', (new1 ++ new2). split; [done|].
  split; [rewrite length_app; simpl; lia|]. split.
  - destruct Hg1 as (A1 & A2 & A3), Hg2 as (B1 & B2 & B3).
    cbn [set_strategies data_collector] in A1, A2, A3.
    split; [by rewrite B1, A1, <- app_assoc|].
    split; [rewrite B2, A2, length_app; lia|].
    intros k r Hk. apply lookup_app_Some in Hk as [Hk|[Hge Hk]].
    + by apply A3.
    + rewrite (B3 _ r Hk), A2. lia.
  - intros k r Hk. apply lookup_app_Some in Hk as [Hk|[Hge Hk]].
    + apply lookup_lt_Some in Hk as Hlt.
      rewrite Nat.div_small by lia. exists (sx, so). split; [done|].
      eapply Forall_lookup_1 in Hall1; [|done]. done.
    + destruct (Hall2 _ r Hk) as (pair & Hpair & Hr).
      exists pair. split; [|done].
      assert (Z.to_nat games_per_pair ≠ 0)%nat as Hne.
      { intros E. rewrite E in Hlen2. rewrite Nat.mul_0_r in Hlen2.
        apply lookup_lt_Some in Hk. lia. }
      remember (k - length new1)%nat as q eqn:Eq.
      assert (k = 1 * Z.to_nat games_per_pair + q)%nat as -> by lia.
      rewrite Nat.div_add_l by done. exact Hpair.
Qed.

End GenerateFacts.

(** X18. The games of [generate_training_data] are numbered by their place.
    After its loops the collector, emptied at the start, holds one record
    for each of the [games_per_pair] games of each pair, in the order
    played; the record at index [k] has game id [k] and the strategies of
    pair [k // games_per_pair], a length between 5 and 9 that is the number
    of its moves, and no loss for a side that played [MINIMAX]; the
    counter of the collector is the number of records. No game raises. *)
Theorem generate_games_records (rnds : nat → nat → TicTacToeAI → draw)
    (clock : nat → nat → string) (fuel : nat)
    (strategy_pairs : list (Strategy * Strategy)) (games_per_pair : Z)
    (g : TicTacToeAI) :
  (9 ≤ fuel)%nat →
  ∃ g',
    generate_games rnds clock fuel strategy_pairs games_per_pair g
    = Some (inr g')
    ∧ length (games_data (data_collector g'))
      = (length strategy_pairs * Z.to_nat games_per_pair)%nat
    ∧ current_game_id (data_collector g')
      = Z.of_nat (length (games_data (data_collector g')))
    ∧ ∀ (k : nat) r, games_data (data_collector g') !! k = Some r →
        game_id r = Z.of_nat k
        ∧ ∃ pair,
            strategy_pairs !! (k / Z.to_nat games_per_pair)%nat = Some pair
            ∧ record_of pair.1 pair.2 r.
Proof.
  intros Hfuel. unfold generate_games. cbv zeta.
  destruct (collect_pairs_run rnds clock fuel games_per_pair 0 strategy_pairs
              (set_data_collector g {| games_data := []; current_game_id := 0 |})
              Hfuel)
    as (g' & new & -> & Hlen & (G1 & G2 & G3) & Hall).
  cbn [set_data_collector data_collector games_data current_game_id] in G1, G2, G3.
  exists g'. split; [done|]. rewrite G1. cbn [app].
  split; [done|]. split; [lia|].
  intros k r Hk. split; [rewrite (G3 k r Hk); lia|]. by apply Hall.
Qed.

Lemma generate_games_records_witness :
  ∃ g',
    generate_games (fun _ _ _ => {| uniform := 0.5; index := 0 |})
      (fun _ _ => "") 9 [(MINIMAX, RANDOM); (RANDOM, DEFENSIVE)] 2
      (init_game MINIMAX MINIMAX)
    = Some (inr g')
    ∧ length (games_data (data_collector g'))
      = (length [(MINIMAX, RANDOM); (RANDOM, DEFENSIVE)] * Z.to_nat 2)%nat
    ∧ current_game_id (data_collector g')
      = Z.of_nat (length (games_data (data_collector g')))
    ∧ ∀ (k : nat) r, games_data (data_collector g') !! k = Some r →
        game_id r = Z.of_nat k
        ∧ ∃ pair,
            [(MINIMAX, RANDOM); (RANDOM, DEFENSIVE)] !! (k / Z.to_nat 2)%nat
            = Some pair
            ∧ record_of pair.1 pair.2 r.
Proof.
  apply (generate_games_records
           (fun _ _ _ => {| uniform := 0.5; index := 0 |}) (fun _ _ => "") 9
           [(MINIMAX, RANDOM); (RANDOM, DEFENSIVE)] 2
           (init_game MINIMAX MINIMAX)).
  lia.
Defined.

Section InteractiveFacts.

Implicit Types (g : TicTacToeAI) (w : verdict) (b : Board).

Lemma interactive_turn_valid move g :
  is_valid_move (board g) move = true →
  interactive_turn move g
  = match check_winner (set_cell (board g) move (Mark (current_player g))) with
    | Some w =>
        (Some w, set_board g (set_cell (board g) move (Mark (current_player g))))
    | None =>
        (None,
         set_current_player
           (set_board g (set_cell (board g) move (Mark (current_player g))))
           (opponent_of (current_player g)))
    end.
Proof.
  intros Hvalid. unfold interactive_turn.
  rewrite (make_move_valid _ _ _ Hvalid). reflexivity.
Qed.

Lemma interactive_loop_safe (int : string → option Z)
    (rnd : TicTacToeAI → draw) (fuel : nat) (inputs : list string) g :
  strategy_o g = MINIMAX →
  length (board g) = 9%nat → check_winner (board g) = None →
  holds_for O (board g) (current_player g) →
  (length inputs + length (get_available_moves (board g)) < fuel)%nat →
  interactive_loop int rnd fuel inputs g = Some (inl EOFError)
  ∨ ∃ w g',
      interactive_loop int rnd fuel inputs g = Some (inr (w, g'))
      ∧ check_winner (board g') = Some w ∧ w ≠ Win X
      ∧ strategy_o g' = MINIMAX.
Proof.
  revert inputs g. induction fuel as [|fuel IH];
    intros inputs g Hso Hlen Hopen Hsafe Hfuel; [lia|].
  cbn [interactive_loop].
  assert (∀ move g1,
            board g1 = board g → current_player g1 = current_player g →
            strategy_o g1 = MINIMAX →
            move ∈ get_available_moves (board g) →
            holds_for O (set_cell (board g) move (Mark (current_player g)))
              (opponent_of (current_player g)) →
            ∀ inputs',
              (length inputs' ≤ length inputs)%nat →
              match interactive_turn move g1 with
              | (Some w, g') =>
                  check_winner (board g') = Some w ∧ w ≠ Win X
                  ∧ strategy_o g' = MINIMAX
              | (None, g') =>
                  interactive_loop int rnd fuel inputs' g'
                  = Some (inl EOFError)
                  ∨ ∃ w g'',
                      interactive_loop int rnd fuel inputs' g'
                      = Some (inr (w, g''))
                      ∧ check_winner (board g'') = Some w ∧ w ≠ Win X
                      ∧ strategy_o g'' = MINIMAX
              end) as Hturn.
  { intros move g1 Hb1 Hp1 Hso1 Hin Hsafe' inputs' Hle.
    rewrite interactive_turn_valid
      by (rewrite Hb1; by apply is_valid_move_available).
    rewrite Hb1, Hp1.
    destruct (check_winner (set_cell (board g) move (Mark (current_player g))))
      as [w|] eqn:Ew.
    - split; [done|]. split; [|done].
      by apply (holds_for_final O _ _ w Ew Hsafe').
    - apply IH; cbn [set_current_player set_board board current_player
                     strategy_o]; [done|by rewrite set_cell_length|done..|].
      pose proof (available_after_move (board g) move (current_player g)
                    Hlen Hin). lia. }
  destruct (current_player g) eqn:Ep; cbn [player_eqb].
  - destruct inputs as [|line inputs]; [by left|].
    cbn [length] in Hfuel.
    assert (interactive_loop int rnd fuel inputs g = Some (inl EOFError)
            ∨ ∃ w g',
                interactive_loop int rnd fuel inputs g = Some (inr (w, g'))
                ∧ check_winner (board g') = Some w ∧ w ≠ Win X
                ∧ strategy_o g' = MINIMAX) as Hskip.
    { apply IH; [done..|by rewrite Ep|lia]. }
    destruct (int line) as [move|]; [|done].
    destruct (is_valid_move (board g) move) eqn:Hvalid; [|done].
    apply is_valid_move_available in Hvalid as Hin.
    specialize (Hturn move g eq_refl Ep Hso Hin).
    assert (holds_for O (set_cell (board g) move (Mark X)) (opponent_of X))
      as Hsafe'.
    { by apply (holds_for_any O). }
    specialize (Hturn Hsafe' inputs ltac:(simpl; lia)).
    destruct (interactive_turn move g) as [[w|] g']; [|done].
    right. by exists w, g'.
  - rewrite Hso. cbn [get_move_by_strategy]. unfold best_move_call.
    pose proof Hopen as [_ Hblank]%check_winner_none.
    destruct (best_move_value O (board g) Hlen Hblank)
      as (move & z & Hrun & Hin & _).
    rewrite Hrun. cbn [mbind result_bind fst snd].
    assert (holds_for O (set_cell (board g) move (Mark O)) (opponent_of O))
      as Hsafe'.
    { by apply holds_for_best. }
    specialize (Hturn move (set_board g (board g)) eq_refl Ep Hso Hin Hsafe'
                  inputs ltac:(lia)).
    destruct (interactive_turn move (set_board g (board g))) as [[w|] g'];
      [|done].
    right. by exists w, g'.
Qed.

End InteractiveFacts.

(** X19. The human never wins the interactive game. Whatever is typed,
    [play_interactive_game] either runs out of input, where [input()]
    raises [EOFError], or ends with a win of the AI or a tie, with the AI
    set to [MINIMAX]; the last line printed is never the congratulation.
    A line that is no number or no free cell costs a pass of the loop and
    nothing else: the game goes on from the same state with the next
    line, at the start of the game and at every later turn of the human. *)
Theorem play_interactive_game_never_won (int : string → option Z)
    (rnd : TicTacToeAI → draw) (fuel : nat) (inputs : list string)
    (g : TicTacToeAI) :
  (length inputs + 9 < fuel)%nat →
  (play_interactive_game int rnd fuel inputs g = Some (inl EOFError)
   ∨ ∃ w g',
       play_interactive_game int rnd fuel inputs g = Some (inr (w, g'))
       ∧ check_winner (board g') = Some w
       ∧ (w = Win O ∨ w = Tie)
       ∧ farewell w ≠ "Congratulations! You won!"
       ∧ strategy_o g' = MINIMAX)
  ∧ (∀ line rest,
       int line = None
       ∨ (∃ move, int line = Some move
                  ∧ is_valid_move empty_board move = false) →
       play_interactive_game int rnd (S fuel) (line :: rest) g
       = play_interactive_game int rnd fuel rest g)
  ∧ (∀ line rest (n : nat) g0,
       current_player g0 = X →
       int line = None
       ∨ (∃ move, int line = Some move
                  ∧ is_valid_move (board g0) move = false) →
       interactive_loop int rnd (S n) (line :: rest) g0
       = interactive_loop int rnd n rest g0).
Proof.
  intros Hfuel.
  assert (∀ line rest (n : nat) g0,
            current_player g0 = X →
            int line = None
            ∨ (∃ move, int line = Some move
                       ∧ is_valid_move (board g0) move = false) →
            interactive_loop int rnd (S n) (line :: rest) g0
            = interactive_loop int rnd n rest g0) as Hagain.
  { intros line rest n g0 Hp Hbad. cbn [interactive_loop]. rewrite Hp.
    cbn [player_eqb]. destruct Hbad as [->|(move & -> & ->)]; done. }
  split; [|split; [|exact Hagain]].
  2: { intros line rest Hbad. unfold play_interactive_game. cbv zeta.
       by apply Hagain. }
  unfold play_interactive_game. cbv zeta.
  destruct (interactive_loop_safe int rnd fuel inputs
              (set_strategies (reset_board g) (strategy_x (reset_board g))
                 MINIMAX))
    as [H|(w & g' & Hrun & Hw & Hne & Hso)]; [done|done|done| | |by left|].
  - unfold holds_for.
    cbn [board current_player set_strategies reset_board set_board
         set_current_player].
    by rewrite empty_board_value.
  - cbn [board current_player set_strategies reset_board set_board
         set_current_player].
    replace (length (get_available_moves empty_board)) with 9%nat
      by reflexivity.
    lia.
  - right. exists w, g'. split; [done|]. split; [done|].
    assert (w = Win O ∨ w = Tie) as Hwho.
    { destruct w as [c|]; [|by right].
      apply check_winner_won in Hw as (q & combo & -> & _).
      destruct q; [done|by left]. }
    split; [done|]. split; [|done].
    by destruct Hwho as [->| ->].
Qed.

Lemma play_interactive_game_never_won_witness :
  play_interactive_game decimal_key (fun _ => {| uniform := 0.5; index := 0 |})
    14 ["x"; "4"; "4"; "0"] (init_game RANDOM RANDOM)
  = play_interactive_game decimal_key
      (fun _ => {| uniform := 0.5; index := 0 |}) 13 ["4"; "4"; "0"]
      (init_game RANDOM RANDOM).
Proof.
  refine (proj1 (proj2 (play_interactive_game_never_won decimal_key
            (fun _ => {| uniform := 0.5; index := 0 |}) 13 ["4"; "4"; "0"]
            (init_game RANDOM RANDOM) _)) "x" ["4"; "4"; "0"] _).
  - simpl. lia.
  - left. reflexivity.
Defined.

Section StatisticsFacts.

Implicit Types (stats : Statistics) (game : GameRecord)
  (games : list GameRecord) (s key : string) (r : WinRate).

Lemma lookup_count_up (k k' : string) (d : gmap string Z) :
  count_up k d !! k'
  = if decide (k' = k) then Some (default 0 (d !! k) + 1) else d !! k'.
Proof.
  unfold count_up. case_decide as E; [subst; by rewrite lookup_insert_eq|].
  by rewrite lookup_insert_ne.
Qed.

Lemma lookup_add_win s (d : gmap string WinRate) s' :
  add_win s d !! s'
  = if decide (s' = s)
    then Some {| rate_wins := rate_wins (default new_rate (d !! s)) + 1;
                 rate_total := rate_total (default new_rate (d !! s));
                 rate_percentage := rate_percentage (default new_rate (d !! s)) |}
    else d !! s'.
Proof.
  unfold add_win. cbv zeta.
  case_decide as E; [subst; by rewrite lookup_insert_eq|].
  by rewrite lookup_insert_ne.
Qed.

Lemma lookup_add_total s (d : gmap string WinRate) s' :
  add_total s d !! s'
  = if decide (s' = s)
    then Some {| rate_wins := rate_wins (default new_rate (d !! s));
                 rate_total := rate_total (default new_rate (d !! s)) + 1;
                 rate_percentage := rate_percentage (default new_rate (d !! s)) |}
    else d !! s'.
Proof.
  unfold add_total. cbv zeta.
  case_decide as E; [subst; by rewrite lookup_insert_eq|].
  by rewrite lookup_insert_ne.
Qed.

Lemma rates_after_ok (win : option string) (x o : string)
    (usage : gmap string Z) (d : gmap string WinRate) :
  (win = None ∨ win = Some x ∨ win = Some o) →
  (∀ s, usage !! s = rate_total <$> d !! s) →
  (∀ s r, d !! s = Some r →
     0 ≤ rate_wins r ≤ rate_total r ∧ 0 < rate_total r
     ∧ rate_percentage r = None) →
  (∀ s, count_up o (count_up x usage) !! s
        = rate_total <$> rates_after win x o d !! s)
  ∧ (∀ s r, rates_after win x o d !! s = Some r →
       0 ≤ rate_wins r ≤ rate_total r ∧ 0 < rate_total r
       ∧ rate_percentage r = None).
Proof.
  intros Hwin Husage Hrates.
  assert (∀ s, 0 ≤ rate_wins (default new_rate (d !! s))
               ≤ rate_total (default new_rate (d !! s))
               ∧ rate_percentage (default new_rate (d !! s)) = None) as Hdef.
  { intros s. destruct (d !! s) as [r|] eqn:E; [|simpl; split; [lia|done]].
    destruct (Hrates s r E) as (? & ? & ?). simpl. split; [lia|done]. }
  assert (∀ s, default 0 (usage !! s)
               = rate_total (default new_rate (d !! s))) as Hu.
  { intros s. rewrite Husage. by destruct (d !! s). }
  unfold rates_after. split.
  - intros s. rewrite !lookup_count_up, !lookup_add_total.
    destruct Hwin as [->|[->| ->]]; rewrite ?lookup_add_win;
      repeat (case_decide; subst; simpl; try done);
      rewrite ?Hu, ?Husage; simpl; try done; try (f_equal; lia).
  - intros s r. rewrite !lookup_add_total.
    destruct Hwin as [->|[->| ->]]; rewrite ?lookup_add_win;
      repeat (case_decide; subst; simpl; try done);
      try (intros [= <-]; simpl;
           repeat match goal with
                  | |- context [rate_wins (default new_rate (d !! ?k))] =>
                      lazymatch goal with
                      | _ : rate_percentage (default new_rate (d !! k)) = None
                        |- _ => fail
                      | _ => pose proof (Hdef k) as (? & ?)
                      end
                  end;
           split; [lia|]; split; [lia|done]);
      try (intros E; by apply (Hrates s r)).
Qed.

Lemma add_result_insert (w : verdict) key (d : gmap string MatchupResult) :
  ∃ m,
    add_result w key d = <[key := m]> d
    ∧ X_wins m + O_wins m + ties m
      = X_wins (default new_matchup (d !! key))
        + O_wins (default new_matchup (d !! key))
        + ties (default new_matchup (d !! key)) + 1
    ∧ X_wins (default new_matchup (d !! key)) ≤ X_wins m
    ∧ O_wins (default new_matchup (d !! key)) ≤ O_wins m
    ∧ ties (default new_matchup (d !! key)) ≤ ties m.
Proof.
  unfold add_result. cbv zeta.
  destruct (verdict_eqb w (Win X)); [|destruct (verdict_eqb w (Win O))];
    eexists; (split; [reflexivity|]); simpl; lia.
Qed.

Lemma count_game_counted (acc : Statistics * Z) game :
  counted acc.1 → counted (count_game acc game).1.
Proof.
  destruct acc as [stats total_length]. intros (Husage & Hrates & Hmatch).
  unfold count_game. cbn [fst snd]. unfold counted.
  cbn [strategy_usage win_rates matchup_results].
  destruct (rates_after_ok
              (if negb (verdict_eqb (winner game) Tie)
               then Some (if verdict_eqb (winner game) (Win X)
                          then player_x_strategy game
                          else player_o_strategy game)
               else None)
              (player_x_strategy game) (player_o_strategy game)
              (strategy_usage stats) (win_rates stats)) as [H1 H2];
    [|done|done|].
  { destruct (verdict_eqb (winner game) Tie); [by left|]. simpl.
    destruct (verdict_eqb (winner game) (Win X)); tauto. }
  unfold rates_after in H1, H2.
  split; [|split].
  - intros s. rewrite H1.
    destruct (verdict_eqb (winner game) Tie); [done|]. simpl.
    by destruct (verdict_eqb (winner game) (Win X)).
  - intros s r Hr. apply (H2 s r). revert Hr.
    destruct (verdict_eqb (winner game) Tie); [done|]. simpl.
    by destruct (verdict_eqb (winner game) (Win X)).
  - intros key m.
    destruct (add_result_insert (winner game) (matchup_of game)
                (matchup_results stats)) as (m' & -> & Hsum & Hx & Ho & Ht).
    destruct (decide (key = matchup_of game)) as [->|Hne].
    + rewrite lookup_insert_eq. intros [= <-].
      destruct (matchup_results stats !! matchup_of game) as [m0|] eqn:E;
        simpl in *.
      * destruct (Hmatch _ _ E) as (? & ? & ? & ?). lia.
      * lia.
    + rewrite lookup_insert_ne by done. apply Hmatch.
Qed.

Lemma count_game_games (acc : Statistics * Z) game key :
  counted_games (count_game acc game).1 key
  = counted_games acc.1 key + games_of key [game].
Proof.
  destruct acc as [stats total_length].
  unfold count_game, counted_games, games_of. cbn [fst snd matchup_results].
  destruct (add_result_insert (winner game) (matchup_of game)
              (matchup_results stats)) as (m' & -> & Hsum & _).
  rewrite filter_cons, filter_nil.
  destruct (decide (matchup_of game = key)) as [<-|Hne].
  - rewrite lookup_insert_eq, Hsum.
    by destruct (matchup_results stats !! matchup_of game).
  - rewrite lookup_insert_ne by done. simpl. lia.
Qed.

Lemma games_of_cons key game games :
  games_of key (game :: games) = games_of key [game] + games_of key games.
Proof.
  unfold games_of. rewrite !filter_cons, filter_nil.
  destruct (decide (matchup_of game = key)); simpl; lia.
Qed.

(** The loop of [get_statistics]. *)
Lemma count_games_spec games (acc : Statistics * Z) :
  counted acc.1 →
  counted (foldl count_game acc games).1
  ∧ total_games (foldl count_game acc games).1 = total_games acc.1
  ∧ (∀ key, counted_games (foldl count_game acc games).1 key
            = counted_games acc.1 key + games_of key games)
  ∧ (foldl count_game acc games).2 = acc.2 + total_length_of games.
Proof.
  revert acc. induction games as [|game games IH]; intros acc Hacc.
  { simpl. split; [done|]. split; [done|].
    split; [intros key; unfold games_of; simpl; lia|lia]. }
  cbn [foldl].
  destruct (IH (count_game acc game) (count_game_counted acc game Hacc))
    as (I1 & I2 & I3 & I4).
  split; [done|]. split; [|split].
  - rewrite I2. by destruct acc.
  - intros key. rewrite I3, count_game_games, (games_of_cons key game games).
    lia.
  - rewrite I4. destruct acc. simpl. lia.
Qed.

End StatisticsFacts.

(** X20. The statistics are consistent with the games. [get_statistics]
    returns the error dictionary exactly when no game is recorded.
    Otherwise [total_games] is the number of records; the usage count of
    every strategy is the total of its win rate; every win rate has a
    positive total, wins between 0 and the total, and its percentage set
    to [wins / total * 100]; the three counts of every matchup are not
    negative and add up to the number of recorded games of that matchup, a
    matchup without an entry having none; and the average length is the
    sum of the lengths divided by the number of records. *)
Theorem get_statistics_spec (truediv : Z → Z → float)
    (d : GameplayDataCollector) :
  (games_data d = [] → get_statistics truediv d = inl "No games recorded")
  ∧ (games_data d ≠ [] →
     ∃ stats,
       get_statistics truediv d = inr stats
       ∧ total_games stats = Z.of_nat (length (games_data d))
       ∧ (∀ s, strategy_usage stats !! s = rate_total <$> win_rates stats !! s)
       ∧ (∀ s r, win_rates stats !! s = Some r →
            0 ≤ rate_wins r ≤ rate_total r ∧ 0 < rate_total r
            ∧ rate_percentage r
              = Some (truediv (rate_wins r) (rate_total r) * 100)%float)
       ∧ (∀ key m, matchup_results stats !! key = Some m →
            0 ≤ X_wins m ∧ 0 ≤ O_wins m ∧ 0 ≤ ties m)
       ∧ (∀ key, counted_games stats key = games_of key (games_data d))
       ∧ average_game_length stats
         = truediv (total_length_of (games_data d))
             (Z.of_nat (length (games_data d)))).
Proof.
  unfold get_statistics. split; [by intros ->|]. intros Hne.
  destruct (games_data d) as [|game games] eqn:E; [done|].
  set (start := {| total_games := Z.of_nat (length (game :: games));
                   strategy_usage := ∅; win_rates := ∅; matchup_results := ∅;
                   average_game_length := 0; game_length_distribution := ∅ |}).
  destruct (count_games_spec (game :: games) (start, 0))
    as ((Husage & Hrates & Hmatch) & Htotal & Hgames & Hlen).
  { split; [|split]; intros *; by rewrite ?lookup_empty. }
  cbv zeta.
  destruct (foldl count_game (start, 0) (game :: games))
    as [stats total_length].
  cbn [fst snd] in *.
  eexists. split; [reflexivity|].
  cbn [total_games strategy_usage win_rates matchup_results
       average_game_length].
  split; [done|]. split; [|split; [|split; [|split]]].
  - intros s. rewrite lookup_fmap, Husage.
    destruct (win_rates stats !! s) as [r|] eqn:Er; [|done].
    simpl. unfold set_percentage. by destruct (0 <? rate_total r).
  - intros s r. rewrite lookup_fmap.
    destruct (win_rates stats !! s) as [r0|] eqn:Er; [|done].
    intros [= <-]. destruct (Hrates s r0 Er) as (Hw & Ht & Hp).
    unfold set_percentage.
    destruct (Z.ltb_spec 0 (rate_total r0)); [|lia]. done.
  - intros key m Hm. destruct (Hmatch key m Hm) as (? & ? & ? & _). done.
  - intros key. rewrite <- (Z.add_0_l (games_of _ _)).
    etransitivity; [|apply (Hgames key)]. done.
  - by rewrite Hlen.
Qed.


Section BoardMoves.

Implicit Types (b : Board) (p : player) (m i position : Z).

Lemma cell_char_inj : Inj (=) (=) cell_char.
Proof. intros [|[|]] [|[|]]; simpl; intros H; try done. Qed.

Lemma string_of_list_ascii_inj (l l' : list ascii) :
  string_of_list_ascii l = string_of_list_ascii l' → l = l'.
Proof.
  intros H. apply (f_equal list_ascii_of_string) in H.
  by rewrite !list_ascii_of_string_of_list_ascii in H.
Qed.

Lemma get_state_key_inj b b' : get_state_key b = get_state_key b' → b = b'.
Proof.
  unfold get_state_key. intros H%string_of_list_ascii_inj.
  revert H. apply list_fmap_eq_inj, cell_char_inj.
Qed.

Lemma filter_agree {A} (P1 P2 : A → Prop)
    `{!∀ x, Decision (P1 x), !∀ x, Decision (P2 x)} (l : list A) :
  (∀ x, x ∈ l → P1 x ↔ P2 x) → filter P1 l = filter P2 l.
Proof.
  induction l as [|x l IH]; intros Hall; [done|].
  rewrite !filter_cons.
  rewrite IH by (intros y Hy; apply Hall; by right).
  pose proof (Hall x ltac:(left)).
  destruct (decide (P1 x)), (decide (P2 x)); tauto || done.
Qed.

Lemma available_after_set b position p :
  length b = 9%nat → position ∈ get_available_moves b →
  get_available_moves (set_cell b position (Mark p))
  = filter (fun i => i ≠ position) (get_available_moves b).
Proof.
  intros Hlen [Hr Hb]%available_spec. unfold get_available_moves.
  rewrite list_filter_filter. apply filter_agree.
  unfold range9. intros i [? ?]%elem_of_seqZ.
  rewrite !cell_eqb_eq.
  destruct (decide (i = position)) as [->|Hne].
  - rewrite cell_at_set_same by lia. split; [done|tauto].
  - rewrite cell_at_set_other by lia. tauto.
Qed.

End BoardMoves.

(** X21. The key of a board tells the board. Two boards with the same key
    are the same board, the key has one character for each cell, and the
    free cells that [update_q_learning] reads off the key of a nine-cell
    board are the available moves of that board. *)
Theorem get_state_key_faithful (b b' : Board) :
  (get_state_key b = get_state_key b' ↔ b = b')
  ∧ String.length (get_state_key b) = length b
  ∧ (length b = 9%nat →
     blank_indices range9 (get_state_key b) = Ok (get_available_moves b)).
Proof.
  split; [split; [apply get_state_key_inj|by intros ->]|].
  split; [apply get_state_key_length|apply blank_indices_available].
Qed.

(** X22. A move takes one free cell and nothing else. On a nine-cell board
    [make_move] at a position that [is_valid_move] accepts returns [True],
    writes the mark there and leaves every other cell as it was; the
    available moves afterwards are the ones before without the position,
    which is not valid any more. At any other position it returns [False]
    and leaves the board as it was. *)
Theorem make_move_spec (b : Board) (position : Z) (p : player) :
  length b = 9%nat →
  if is_valid_move b position
  then ∃ b',
         make_move b position p = (true, b')
         ∧ length b' = 9%nat
         ∧ cell_at b' position = Mark p
         ∧ (∀ i, 0 ≤ i → i ≠ position → cell_at b' i = cell_at b i)
         ∧ get_available_moves b'
           = filter (fun i => i ≠ position) (get_available_moves b)
         ∧ is_valid_move b' position = false
  else make_move b position p = (false, b).
Proof.
  intros Hlen. unfold make_move.
  destruct (is_valid_move b position) eqn:Hvalid; [|done].
  apply is_valid_move_available in Hvalid as Hin.
  pose proof Hin as [Hr _]%available_spec.
  exists (set_cell b position (Mark p)). split; [done|].
  split; [by rewrite set_cell_length|].
  split; [apply cell_at_set_same; lia|].
  split; [intros i Hi Hne; apply cell_at_set_other; lia|].
  split; [by apply available_after_set|].
  unfold is_valid_move. rewrite cell_at_set_same by lia.
  by rewrite !andb_false_r.
Qed.

Lemma make_move_spec_witness :
  if is_valid_move empty_board 4
  then ∃ b',
         make_move empty_board 4 X = (true, b')
         ∧ length b' = 9%nat
         ∧ cell_at b' 4 = Mark X
         ∧ (∀ i, 0 ≤ i → i ≠ 4 → cell_at b' i = cell_at empty_board i)
         ∧ get_available_moves b'
           = filter (fun i => i ≠ 4) (get_available_moves empty_board)
         ∧ is_valid_move b' 4 = false
  else make_move empty_board 4 X = (false, empty_board).
Proof. apply (make_move_spec empty_board 4 X). reflexivity. Defined.


Section ScoreRange.

Implicit Types (b : Board) (m d : Z) (V : ext).

Lemma fold_max_elem (f : Z → ext) (moves : list Z) V :
  foldl (fun best move => ext_max best (f move)) V moves = V
  ∨ ∃ m, m ∈ moves
         ∧ foldl (fun best move => ext_max best (f move)) V moves = f m.
Proof.
  revert V. induction moves as [|m rest IH]; intros V; simpl; [by left|].
  destruct (IH (ext_max V (f m))) as [->|(m' & Hin & ->)].
  - unfold ext_max. destruct (ext_ltb V (f m)); [right|by left].
    exists m. split; [left|done].
  - right. exists m'. split; [by right|done].
Qed.

Lemma fold_min_elem (f : Z → ext) (moves : list Z) V :
  foldl (fun best move => ext_min best (f move)) V moves = V
  ∨ ∃ m, m ∈ moves
         ∧ foldl (fun best move => ext_min best (f move)) V moves = f m.
Proof.
  revert V. induction moves as [|m rest IH]; intros V; simpl; [by left|].
  destruct (IH (ext_min V (f m))) as [->|(m' & Hin & ->)].
  - unfold ext_min. destruct (ext_ltb (f m) V); [right|by left].
    exists m. split; [left|done].
  - right. exists m'. split; [by right|done].
Qed.

Lemma score_at_deeper d (n n' : nat) z :
  (n' < n)%nat → score_at (d + 1) n' z → score_at d n z.
Proof. unfold score_at. lia. Qed.

(** The value of a position is the score of one of the ends of the game that
    can be reached from it. *)
Lemma game_value_score fuel d is_maximizing b :
  length b = 9%nat → (length (get_available_moves b) < fuel)%nat →
  ∃ z, game_value fuel d is_maximizing b = Fin z
       ∧ score_at d (length (get_available_moves b)) z.
Proof.
  revert d is_maximizing b.
  induction fuel as [|fuel IH]; intros d im b Hlen Hfuel; [lia|].
  destruct (game_value_fin (S fuel) d im b Hlen Hfuel) as [z Hz].
  exists z. split; [done|]. revert Hz. cbn [game_value]. cbv zeta.
  destruct (winner_is (check_winner b) (Win X)) eqn:EX;
    [intros [= <-]; unfold score_at; lia|].
  destruct (winner_is (check_winner b) (Win O)) eqn:EO;
    [intros [= <-]; unfold score_at; lia|].
  destruct (winner_is (check_winner b) Tie) eqn:ET;
    [intros [= <-]; by left|].
  destruct im.
  - destruct (fold_max_elem
                (fun m => game_value fuel (d + 1) false (set_cell b m (Mark X)))
                (get_available_moves b) NegInf) as [->|(m & Hin & ->)]; [done|].
    pose proof (available_after_move b m X Hlen Hin) as Hlt.
    destruct (IH (d + 1) false (set_cell b m (Mark X)))
      as (z' & -> & Hscore); [by rewrite set_cell_length|lia|].
    intros [= <-]. by eapply score_at_deeper.
  - destruct (fold_min_elem
                (fun m => game_value fuel (d + 1) true (set_cell b m (Mark O)))
                (get_available_moves b) PosInf) as [->|(m & Hin & ->)]; [done|].
    pose proof (available_after_move b m O Hlen Hin) as Hlt.
    destruct (IH (d + 1) true (set_cell b m (Mark O)))
      as (z' & -> & Hscore); [by rewrite set_cell_length|lia|].
    intros [= <-]. by eapply score_at_deeper.
Qed.

End ScoreRange.

Lemma get_state_key_faithful_witness :
  blank_indices range9 (get_state_key empty_board)
  = Ok (get_available_moves empty_board).
Proof.
  apply (get_state_key_faithful empty_board empty_board). reflexivity.
Defined.

Lemma unique_pairs_spec_witness :
  (MINIMAX, RANDOM) ∈ unique_pairs [MINIMAX; HYBRID]
  ∧ (RANDOM, MINIMAX) ∉ unique_pairs [MINIMAX; HYBRID].
Proof.
  destruct (unique_pairs_spec [MINIMAX; HYBRID]) as (_ & _ & _ & _ & _ & H).
  assert (RANDOM ∉ [MINIMAX; HYBRID]) as Hr
    by (apply (bool_decide_unpack _); reflexivity).
  destruct (H Hr MINIMAX) as [[_ H1] H2].
  split; [|done]. apply H1. left.
Defined.

Lemma get_statistics_spec_witness :
  ∃ stats,
    get_statistics (fun x y => (float_of_int x / float_of_int y)%float)
      one_game_collector = inr stats
    ∧ total_games stats = Z.of_nat (length (games_data one_game_collector))
    ∧ (∀ s, strategy_usage stats !! s = rate_total <$> win_rates stats !! s)
    ∧ (∀ s r, win_rates stats !! s = Some r →
         0 ≤ rate_wins r ≤ rate_total r ∧ 0 < rate_total r
         ∧ rate_percentage r
           = Some (float_of_int (rate_wins r) / float_of_int (rate_total r)
                   * 100)%float)
    ∧ (∀ key m, matchup_results stats !! key = Some m →
         0 ≤ X_wins m ∧ 0 ≤ O_wins m ∧ 0 ≤ ties m)
    ∧ (∀ key, counted_games stats key
              = games_of key (games_data one_game_collector))
    ∧ average_game_length stats
      = (float_of_int (total_length_of (games_data one_game_collector))
         / float_of_int (Z.of_nat (length (games_data one_game_collector))))%float.
Proof.
  apply (get_statistics_spec
           (fun x y => (float_of_int x / float_of_int y)%float)
           one_game_collector).
  discriminate.
Defined.

Section AgentsKept.

Implicit Types (g : TicTacToeAI) (a : QLearningAgent) (p : player)
  (s : Strategy) (w : verdict).

Lemma choose_action_keeps (d : draw) (state : string) (actions : list Z)
    (training : bool) a :
  same_parameters a (choose_action d state actions training a).2
  ∧ same_values a (choose_action d state actions training a).2.
Proof.
  unfold choose_action.
  destruct (training && (uniform d <? epsilon a)%float); [done|].
  pose proof (q_dict_spec state actions (q_table a) []) as (Hl & _).
  destruct (q_dict state actions (q_table a) []) as [[|[k0 v0] rest] t];
    cbn [fst snd] in *; done.
Qed.

(** A strategy changes an agent only when it is [Q_LEARNING], only the
    agent of the side that moves, and no parameter or value of it. *)
Lemma get_move_by_strategy_keeps (rnd : TicTacToeAI → draw) p s
    (training : bool) g move g1 :
  get_move_by_strategy rnd p s training g = Ok (move, g1) →
  strategy_x g1 = strategy_x g ∧ strategy_o g1 = strategy_o g
  ∧ same_parameters (q_agent_x g) (q_agent_x g1)
  ∧ same_parameters (q_agent_o g) (q_agent_o g1)
  ∧ same_values (q_agent_x g) (q_agent_x g1)
  ∧ same_values (q_agent_o g) (q_agent_o g1)
  ∧ (s ≠ Q_LEARNING ∨ p = O → q_agent_x g1 = q_agent_x g)
  ∧ (s ≠ Q_LEARNING ∨ p = X → q_agent_o g1 = q_agent_o g).
Proof.
  assert (∀ (r : result (Z * Board)),
            (r' ← r; Ok (r'.1, set_board g r'.2)) = Ok (move, g1) →
            ∃ b, g1 = set_board g b) as Hboard.
  { intros [[m b]|e]; [|done]. intros [= <- <-]. by eexists. }
  destruct s; cbn [get_move_by_strategy].
  1,4,5,6: intros [b ->]%Hboard;
    repeat match goal with |- _ ∧ _ => split end; done.
  - destruct p; cbn [player_eqb]; cbv zeta.
    + pose proof (choose_action_keeps (rnd g) (get_state_key (board g))
                    (get_available_moves (board g)) training (q_agent_x g))
        as [Hp Hv].
      destruct (choose_action _ _ _ _ (q_agent_x g)) as [[act|e] a'];
        [|done].
      cbn [fst snd] in *. intros H. cbn in H. injection H as <- <-.
      cbn [set_agents strategy_x strategy_o q_agent_x q_agent_o fst snd].
      repeat match goal with |- _ ∧ _ => split end; try done;
        by intros [?|?].
    + pose proof (choose_action_keeps (rnd g) (get_state_key (board g))
                    (get_available_moves (board g)) training (q_agent_o g))
        as [Hp Hv].
      destruct (choose_action _ _ _ _ (q_agent_o g)) as [[act|e] a'];
        [|done].
      cbn [fst snd] in *. intros H. cbn in H. injection H as <- <-.
      cbn [set_agents strategy_x strategy_o q_agent_x q_agent_o fst snd].
      repeat match goal with |- _ ∧ _ => split end; try done;
        by intros [?|?].
  - destruct (get_random_move _ _) as [m|e]; [|done].
    intros H. cbn in H. injection H as <- <-.
    repeat match goal with |- _ ∧ _ => split end; done.
Qed.

(** A pass of the loop keeps the strategies and the parameters of the
    agents, and outside learning the agents themselves. *)
Lemma play_turn_keeps (training collect_data : bool) (start : string)
    (current_state : string) (move : Z) g (r : option verdict) g' :
  play_turn training collect_data start current_state move g = Ok (r, g') →
  strategy_x g' = strategy_x g ∧ strategy_o g' = strategy_o g
  ∧ same_parameters (q_agent_x g) (q_agent_x g')
  ∧ same_parameters (q_agent_o g) (q_agent_o g')
  ∧ (learning training g = false →
     q_agent_x g' = q_agent_x g ∧ q_agent_o g' = q_agent_o g).
Proof.
  destruct g as [b cp sx so ax ao gs dc cgm].
  unfold play_turn, learning.
  cbn -[update_q_learning make_move check_winner record_game].
  destruct (training && (strategy_eqb sx Q_LEARNING || strategy_eqb so Q_LEARNING))
    eqn:El; destruct collect_data;
    cbn -[update_q_learning make_move check_winner record_game];
    rewrite ?El;
    cbn -[update_q_learning make_move check_winner record_game];
    destruct (make_move b move cp) as [ok b0];
    cbn -[update_q_learning make_move check_winner record_game];
    destruct (check_winner b0) as [w|];
    cbn -[update_q_learning make_move check_winner record_game];
    rewrite ?El;
    cbn -[update_q_learning make_move check_winner record_game];
    try (intros [= <- <-]; cbn;
         repeat match goal with |- _ ∧ _ => split end; done);
    match goal with
    | |- context [update_q_learning w ?l (ax, ao)] =>
        destruct (update_q_learning w l (ax, ao)) as [[ax' ao']|e] eqn:E;
          [|done];
        pose proof (update_from_frame w l 0 l (ax, ao) (ax', ao') E) as Hf;
        destruct (Hf X) as (X1 & X2 & X3 & _), (Hf O) as (O1 & O2 & O3 & _);
        cbn [agent_of player_eqb fst snd] in *;
        cbn -[record_game]; intros [= <- <-]; cbn;
        repeat match goal with |- _ ∧ _ => split end; done
    end.
Qed.

(** The loop of [play_self_game] keeps what each strategy and each pass
    keep. *)
Lemma self_play_loop_agents (rnd : TicTacToeAI → draw)
    (training collect_data : bool) (start : string) (g0 : TicTacToeAI)
    (fuel : nat) g w g' :
  self_play_loop (get_move_by_strategy rnd) fuel training collect_data start g
  = Some (Ok (w, g')) →
  agents_kept training g0 g → agents_kept training g0 g'.
Proof.
  revert g. induction fuel as [|fuel IH]; intros g; [done|].
  cbn [self_play_loop]. intros Hrun (Hsx & Hso & Hpx & Hpo & Hquiet).
  destruct (get_move_by_strategy rnd (current_player g) _ training g)
    as [[move g1]|e] eqn:Emove; [|done].
  apply get_move_by_strategy_keeps in Emove
    as (Sx1 & So1 & Px1 & Po1 & Vx1 & Vo1 & Ax1 & Ao1).
  destruct (play_turn training collect_data start (get_state_key (board g))
              move g1) as [[r g2]|e] eqn:Eturn; [|done].
  apply play_turn_keeps in Eturn as (Sx2 & So2 & Px2 & Po2 & A2).
  assert (learning training g1 = learning training g0) as Hl.
  { unfold learning. by rewrite Sx1, So1, Hsx, Hso. }
  assert (agents_kept training g0 g2) as Hkept.
  { unfold agents_kept, same_parameters in *.
    split; [congruence|]. split; [congruence|].
    split; [intuition congruence|]. split; [intuition congruence|].
    intros Hq. rewrite Hl in A2. destruct (A2 Hq) as [-> ->].
    destruct (Hquiet Hq) as (Vx & Vo & Ax & Ao).
    split; [intros st x; by rewrite Vx1, Vx|].
    split; [intros st x; by rewrite Vo1, Vo|].
    split.
    - intros Hne. rewrite <- (Ax Hne). apply Ax1.
      destruct (current_player g); cbn [player_eqb]; [|by right].
      left. by rewrite Hsx.
    - intros Hne. rewrite <- (Ao Hne). apply Ao1.
      destruct (current_player g); cbn [player_eqb]; [by right|].
      left. by rewrite Hso. }
  destruct r as [w'|].
  - by injection Hrun as <- <-.
  - by apply (IH g2).
Qed.

End AgentsKept.

(** X24. A game leaves the agents what they have learnt. [play_self_game]
    never changes the learning rate, the discount factor or the epsilon of
    either agent. When it is not learning (it is not called for training,
    or no side plays [Q_LEARNING]) every Q-value of both agents is the one
    it was, and the agent of a side that does not play [Q_LEARNING] is
    not changed at all. *)
Theorem play_self_game_agents (rnd : TicTacToeAI → draw)
    (training collect_data : bool) (start : string) (fuel : nat)
    (g : TicTacToeAI) :
  (9 ≤ fuel)%nat →
  ∃ w g',
    play_self_game (get_move_by_strategy rnd) fuel training collect_data
      start g = Some (Ok (w, g'))
    ∧ same_parameters (q_agent_x g) (q_agent_x g')
    ∧ same_parameters (q_agent_o g) (q_agent_o g')
    ∧ (learning training g = false →
       same_values (q_agent_x g) (q_agent_x g')
       ∧ same_values (q_agent_o g) (q_agent_o g')
       ∧ (strategy_x g ≠ Q_LEARNING → q_agent_x g' = q_agent_x g)
       ∧ (strategy_o g ≠ Q_LEARNING → q_agent_o g' = q_agent_o g)).
Proof.
  intros Hfuel.
  destruct (play_self_game_run rnd training collect_data start fuel g Hfuel)
    as (w & g' & _ & _ & _ & _ & Hrun & _).
  exists w, g'. split; [done|].
  unfold play_self_game in Hrun. cbv zeta in Hrun.
  apply (self_play_loop_agents rnd training collect_data start g) in Hrun
    as (_ & _ & Hpx & Hpo & Hquiet); [done|].
  by repeat match goal with |- _ ∧ _ => split end.
Qed.

Lemma play_self_game_agents_witness :
  ∃ w g',
    play_self_game
      (get_move_by_strategy (fun _ => {| uniform := 0.5; index := 0 |})) 9
      false false "" (init_game Q_LEARNING RANDOM) = Some (Ok (w, g'))
    ∧ same_parameters (q_agent_x (init_game Q_LEARNING RANDOM)) (q_agent_x g')
    ∧ same_parameters (q_agent_o (init_game Q_LEARNING RANDOM)) (q_agent_o g')
    ∧ (learning false (init_game Q_LEARNING RANDOM) = false →
       same_values (q_agent_x (init_game Q_LEARNING RANDOM)) (q_agent_x g')
       ∧ same_values (q_agent_o (init_game Q_LEARNING RANDOM)) (q_agent_o g')
       ∧ (strategy_x (init_game Q_LEARNING RANDOM) ≠ Q_LEARNING →
          q_agent_x g' = q_agent_x (init_game Q_LEARNING RANDOM))
       ∧ (strategy_o (init_game Q_LEARNING RANDOM) ≠ Q_LEARNING →
          q_agent_o g' = q_agent_o (init_game Q_LEARNING RANDOM))).
Proof.
  apply (play_self_game_agents (fun _ => {| uniform := 0.5; index := 0 |})
           false false "" 9 (init_game Q_LEARNING RANDOM)).
  lia.
Defined.


Section BatchFacts.

Implicit Types (g ai : TicTacToeAI) (r : GameRecord).

Lemma game_batch_loop_run (rnds : nat → TicTacToeAI → draw)
    (clock : nat → string) (fuel : nat) (batch_size batch_id : Z) (i n : nat)
    ai (batch_games : list GameRecord) :
  (9 ≤ fuel)%nat →
  ∃ new,
    game_batch_loop rnds clock fuel batch_size batch_id i n ai batch_games
    = Some (inr (batch_games ++ new))
    ∧ length new = n
    ∧ ∀ (k : nat) r, new !! k = Some r →
        game_id r = batch_id * batch_size + Z.of_nat (i + k)
        ∧ record_of (strategy_x ai) (strategy_o ai) r.
Proof.
  intros Hfuel. revert i ai batch_games.
  induction n as [|n IH]; intros i ai batch_games.
  { exists []. rewrite app_nil_r. split; [done|]. split; [done|].
    by intros k r H. }
  cbn [game_batch_loop]. cbv zeta.
  destruct (play_self_game_collect (rnds i) (clock i) fuel
              (set_current_game_id ai (batch_id * batch_size + Z.of_nat i))
              Hfuel)
    as (w & g1 & r & -> & Hsx & Hso & Hdc & Hid & Hr).
  rewrite Hdc. cbn [games_data]. rewrite last_snoc.
  destruct (IH (S i) g1 (batch_games ++ [r]))
    as (new & -> & Hlen & Hall).
  exists (r :: new). rewrite <- app_assoc. split; [done|].
  split; [simpl; lia|].
  intros [|k] r' Hk; cbn [lookup list_lookup] in Hk.
  - injection Hk as <-. rewrite Nat.add_0_r. done.
  - destruct (Hall k r' Hk) as [Hid' Hr']. rewrite Hsx, Hso in Hr'.
    split; [rewrite Hid'; f_equal; lia|done].
Qed.

End BatchFacts.

(** X25. The games of a batch are numbered from the batch.
    [generate_game_batch] plays its games without raising and returns one
    record for each, in the order played; the record at index [k] has game
    id [batch_id * batch_size + k] and the two strategies of the pair, so
    the ids of two batches overlap only if a batch holds more games than
    [batch_size]. *)
Theorem generate_game_batch_ids (rnds : nat → TicTacToeAI → draw)
    (clock : nat → string) (fuel : nat) (batch_size : Z)
    (strategy_pair : Strategy * Strategy) (num_games batch_id : Z) :
  (9 ≤ fuel)%nat →
  ∃ batch_games,
    generate_game_batch rnds clock fuel batch_size strategy_pair num_games
      batch_id = Some (inr batch_games)
    ∧ length batch_games = Z.to_nat num_games
    ∧ ∀ (k : nat) r, batch_games !! k = Some r →
        game_id r = batch_id * batch_size + Z.of_nat k
        ∧ record_of strategy_pair.1 strategy_pair.2 r.
Proof.
  intros Hfuel. unfold generate_game_batch. cbv zeta.
  destruct (game_batch_loop_run rnds clock fuel batch_size batch_id 0
              (Z.to_nat num_games)
              (init_game strategy_pair.1 strategy_pair.2) [] Hfuel)
    as (new & -> & Hlen & Hall).
  exists new. split; [done|]. split; [done|]. apply Hall.
Qed.

Lemma generate_game_batch_ids_witness :
  ∃ batch_games,
    generate_game_batch (fun _ _ => {| uniform := 0.5; index := 0 |})
      (fun _ => "") 9 1000 (MINIMAX, RANDOM) 3 2 = Some (inr batch_games)
    ∧ length batch_games = Z.to_nat 3
    ∧ ∀ (k : nat) r, batch_games !! k = Some r →
        game_id r = 2 * 1000 + Z.of_nat k
        ∧ record_of (MINIMAX, RANDOM).1 (MINIMAX, RANDOM).2 r.
Proof.
  apply (generate_game_batch_ids
           (fun _ _ => {| uniform := 0.5; index := 0 |}) (fun _ => "") 9 1000
           (MINIMAX, RANDOM) 3 2).
  lia.
Defined.

Section TakesWin.

Implicit Types (b : Board) (p : player) (m z : Z).

(** A game that goes on for a move or more scores at most 9 for either
    side. *)
Lemma later_value (fuel : nat) (is_maximizing : bool) b z :
  length b = 9%nat → (length (get_available_moves b) ≤ fuel)%nat →
  (if is_maximizing
   then foldl (fun best move =>
                 ext_max best
                   (game_value fuel (0 + 1) false (set_cell b move (Mark X))))
          NegInf (get_available_moves b)
   else foldl (fun best move =>
                 ext_min best
                   (game_value fuel (0 + 1) true (set_cell b move (Mark O))))
          PosInf (get_available_moves b)) = Fin z →
  -9 ≤ z ≤ 9.
Proof.
  intros Hlen Hfuel. pose proof (available_at_most b) as Hle.
  destruct is_maximizing.
  - destruct (fold_max_elem
                (fun move => game_value fuel (0 + 1) false
                               (set_cell b move (Mark X)))
                (get_available_moves b) NegInf) as [->|(m' & Hin' & ->)];
      [done|].
    pose proof (available_after_move b m' X Hlen Hin') as Hlt.
    destruct (game_value_score fuel (0 + 1) false (set_cell b m' (Mark X)))
      as (z' & -> & Hscore); [by rewrite set_cell_length|lia|].
    unfold score_at in Hscore. intros [= <-]. lia.
  - destruct (fold_min_elem
                (fun move => game_value fuel (0 + 1) true
                               (set_cell b move (Mark O)))
                (get_available_moves b) PosInf) as [->|(m' & Hin' & ->)];
      [done|].
    pose proof (available_after_move b m' O Hlen Hin') as Hlt.
    destruct (game_value_score fuel (0 + 1) true (set_cell b m' (Mark O)))
      as (z' & -> & Hscore); [by rewrite set_cell_length|lia|].
    unfold score_at in Hscore. intros [= <-]. lia.
Qed.

(** The value of a move that wins at once is the best there is, and no other
    move has it. *)
Lemma candidate_value_win p b m :
  length b = 9%nat →
  ∃ z,
    game_value (search_fuel (set_cell b m (Mark p))) 0 (player_eqb p O)
      (set_cell b m (Mark p)) = Fin z
    ∧ match p with X => z ≤ 10 | O => -10 ≤ z end
    ∧ (wins_at p b m = true → z = match p with X => 10 | O => -10 end)
    ∧ (wins_at p b m = false → match p with X => z ≤ 9 | O => -9 ≤ z end).
Proof.
  intros Hlen.
  assert (length (set_cell b m (Mark p)) = 9%nat) as Hlen'
    by (by rewrite set_cell_length).
  destruct (game_value_fin (search_fuel (set_cell b m (Mark p))) 0
              (player_eqb p O) (set_cell b m (Mark p)) Hlen')
    as [z Hz]; [unfold search_fuel; lia|].
  exists z. split; [done|]. revert Hz.
  unfold wins_at, search_fuel. cbn [game_value]. cbv zeta.
  set (b' := set_cell b m (Mark p)) in *.
  pose proof (later_value (length (get_available_moves b')) (player_eqb p O)
                b') as Hlater.
  destruct (check_winner b') as [[[|[|]]|]|]; destruct p;
    cbn [winner_is verdict_eqb cell_eqb player_eqb andb] in *;
    try (intros [= <-]; repeat split; intros; (lia || done));
    intros Hz; specialize (Hlater z Hlen' ltac:(lia) Hz);
    repeat split; intros; (lia || done).
Qed.

End TakesWin.

(** X26. The search never misses a win in one move. On a nine-cell board,
    when some free cell completes a line for the player who asks,
    [get_best_move] returns a cell that does. *)
Theorem get_best_move_takes_win (p : player) (b : Board) (m0 : Z) :
  length b = 9%nat → m0 ∈ get_available_moves b → wins_at p b m0 = true →
  ∃ m,
    get_best_move p b = Some (m, b)
    ∧ m ∈ get_available_moves b
    ∧ wins_at p b m = true.
Proof.
  intros Hlen Hin0 Hwin0.
  assert (Blank ∈ b) as Hblank.
  { apply available_spec in Hin0 as [Hr Hc]. unfold cell_at in Hc.
    destruct (b !! Z.to_nat m0) as [c|] eqn:E.
    - simpl in Hc. subst c. by eapply list_elem_of_lookup_2.
    - apply lookup_ge_None in E. lia. }
  destruct (best_move_value p b Hlen Hblank) as (m & z & Hrun & Hin & Hz & Hbest).
  exists m. split; [done|]. split; [done|].
  destruct (Hbest m0 Hin0) as (z0 & Hz0 & Hle).
  destruct (candidate_value_win p b m0 Hlen) as (y0 & Hy0 & _ & Hy0win & _).
  destruct (candidate_value_win p b m Hlen) as (y & Hy & _ & _ & Hylose).
  cbv zeta in Hz, Hz0. rewrite Hz0 in Hy0. rewrite Hz in Hy.
  injection Hy0 as <-. injection Hy as <-.
  specialize (Hy0win Hwin0).
  destruct (wins_at p b m); [done|].
  specialize (Hylose eq_refl). destruct p; lia.
Qed.

Lemma get_best_move_takes_win_witness :
  ∃ m,
    get_best_move O top_row_open = Some (m, top_row_open)
    ∧ m ∈ get_available_moves top_row_open
    ∧ wins_at O top_row_open m = true.
Proof.
  apply (get_best_move_takes_win O top_row_open 5); [reflexivity| |reflexivity].
  apply (bool_decide_unpack _). reflexivity.
Defined.

Section Blocks.

Implicit Types (b : Board) (p q : player) (m z : Z) (V : ext).

Lemma ext_leb_min_r V W : ext_leb (ext_min V W) W = true.
Proof. ext_arith. Qed.

Lemma ext_leb_max_r V W : ext_leb W (ext_max V W) = true.
Proof. ext_arith. Qed.

Lemma fold_min_le_elem (f : Z → ext) (moves : list Z) V m :
  m ∈ moves →
  ext_leb (foldl (fun best move => ext_min best (f move)) V moves) (f m) = true.
Proof.
  revert V. induction moves as [|m' rest IH]; intros V Hin.
  { by apply elem_of_nil in Hin. }
  cbn [foldl]. apply elem_of_cons in Hin as [->|Hin]; [|by apply IH].
  eapply ext_leb_trans; [apply fold_min_below|apply ext_leb_min_r].
Qed.

Lemma fold_max_ge_elem (f : Z → ext) (moves : list Z) V m :
  m ∈ moves →
  ext_leb (f m) (foldl (fun best move => ext_max best (f move)) V moves) = true.
Proof.
  revert V. induction moves as [|m' rest IH]; intros V Hin.
  { by apply elem_of_nil in Hin. }
  cbn [foldl]. apply elem_of_cons in Hin as [->|Hin]; [|by apply IH].
  eapply ext_leb_trans; [apply ext_leb_max_r|apply fold_max_above].
Qed.

(** The value of a position in which the side to move can win at once. *)
Lemma threat_value q b m2 :
  length b = 9%nat → check_winner b = None →
  m2 ∈ get_available_moves b → wins_at q b m2 = true →
  ∃ z, game_value (search_fuel b) 0 (player_eqb q X) b = Fin z
       ∧ match q with X => 9 ≤ z | O => z ≤ -9 end.
Proof.
  intros Hlen Hopen Hin Hwin.
  destruct (game_value_fin (search_fuel b) 0 (player_eqb q X) b Hlen)
    as [z Hz]; [unfold search_fuel; lia|].
  exists z. split; [done|]. revert Hz.
  unfold search_fuel. cbn [game_value]. rewrite Hopen. cbn [winner_is].
  pose proof (available_after_move b m2 q Hlen Hin) as Hlt.
  unfold wins_at in Hwin.
  destruct q; cbn [player_eqb]; intros Hz.
  - pose proof (fold_max_ge_elem
                  (fun move => game_value (length (get_available_moves b))
                                 (0 + 1) false (set_cell b move (Mark X)))
                  (get_available_moves b) NegInf m2 Hin) as Hle.
    cbv beta in Hle. rewrite Hz in Hle.
    destruct (length (get_available_moves b)) as [|n]; [lia|].
    cbn [game_value] in Hle. rewrite Hwin in Hle.
    unfold ext_leb, ext_ltb in Hle. apply negb_true_iff, Z.ltb_ge in Hle. lia.
  - pose proof (fold_min_le_elem
                  (fun move => game_value (length (get_available_moves b))
                                 (0 + 1) true (set_cell b move (Mark O)))
                  (get_available_moves b) PosInf m2 Hin) as Hle.
    cbv beta in Hle. rewrite Hz in Hle.
    destruct (length (get_available_moves b)) as [|n]; [lia|].
    cbn [game_value] in Hle.
    assert (winner_is (check_winner (set_cell b m2 (Mark O))) (Win X) = false)
      as HX.
    { destruct (check_winner (set_cell b m2 (Mark O))) as [[[|[|]]|]|];
        simpl in *; done. }
    rewrite HX, Hwin in Hle.
    unfold ext_leb, ext_ltb in Hle. apply negb_true_iff, Z.ltb_ge in Hle. lia.
Qed.

(** A game that goes on for a move or more after depth [d] scores between
    [d - 9] and [9 - d]. *)
Lemma later_value_at (fuel : nat) (is_maximizing : bool) (d : Z) b z :
  length b = 9%nat → (length (get_available_moves b) ≤ fuel)%nat →
  0 ≤ d ≤ 1 →
  (if is_maximizing
   then foldl (fun best move =>
                 ext_max best
                   (game_value fuel (d + 1) false (set_cell b move (Mark X))))
          NegInf (get_available_moves b)
   else foldl (fun best move =>
                 ext_min best
                   (game_value fuel (d + 1) true (set_cell b move (Mark O))))
          PosInf (get_available_moves b)) = Fin z →
  d - 9 ≤ z ≤ 9 - d.
Proof.
  intros Hlen Hfuel Hd. pose proof (available_at_most b) as Hle.
  destruct is_maximizing.
  - destruct (fold_max_elem
                (fun move => game_value fuel (d + 1) false
                               (set_cell b move (Mark X)))
                (get_available_moves b) NegInf) as [->|(m' & Hin' & ->)];
      [done|].
    pose proof (available_after_move b m' X Hlen Hin') as Hlt.
    destruct (game_value_score fuel (d + 1) false (set_cell b m' (Mark X)))
      as (z' & -> & Hscore); [by rewrite set_cell_length|lia|].
    unfold score_at in Hscore. intros [= <-]. lia.
  - destruct (fold_min_elem
                (fun move => game_value fuel (d + 1) true
                               (set_cell b move (Mark O)))
                (get_available_moves b) PosInf) as [->|(m' & Hin' & ->)];
      [done|].
    pose proof (available_after_move b m' O Hlen Hin') as Hlt.
    destruct (game_value_score fuel (d + 1) true (set_cell b m' (Mark O)))
      as (z' & -> & Hscore); [by rewrite set_cell_length|lia|].
    unfold score_at in Hscore. intros [= <-]. lia.
Qed.

(** The value of a position in which the side to move has not won and
    cannot win at once. *)
Lemma quiet_value q b :
  length b = 9%nat →
  winner_is (check_winner b) (Win q) = false →
  (∀ m2, m2 ∈ get_available_moves b → wins_at q b m2 = false) →
  ∃ z, game_value (search_fuel b) 0 (player_eqb q X) b = Fin z
       ∧ match q with X => z ≤ 8 | O => -8 ≤ z end.
Proof.
  intros Hlen Hnot Hquiet.
  destruct (game_value_fin (search_fuel b) 0 (player_eqb q X) b Hlen)
    as [z Hz]; [unfold search_fuel; lia|].
  exists z. split; [done|]. revert Hz.
  unfold search_fuel. cbn [game_value]. cbv zeta.
  destruct (winner_is (check_winner b) (Win X)) eqn:EX.
  { destruct q; [congruence|]. intros [= <-]. lia. }
  destruct (winner_is (check_winner b) (Win O)) eqn:EO.
  { destruct q; [|congruence]. intros [= <-]. lia. }
  destruct (winner_is (check_winner b) Tie) eqn:ET.
  { intros [= <-]. destruct q; lia. }
  destruct q; cbn [player_eqb].
  - destruct (fold_max_elem
                (fun move => game_value (length (get_available_moves b))
                               (0 + 1) false (set_cell b move (Mark X)))
                (get_available_moves b) NegInf) as [->|(m2 & Hin & ->)];
      [done|].
    pose proof (available_after_move b m2 X Hlen Hin) as Hlt.
    pose proof (Hquiet m2 Hin) as Hq. unfold wins_at in Hq.
    destruct (length (get_available_moves b)) as [|n]; [lia|].
    cbn [game_value]. cbv zeta. rewrite Hq.
    destruct (winner_is (check_winner (set_cell b m2 (Mark X))) (Win O));
      [intros [= <-]; lia|].
    destruct (winner_is (check_winner (set_cell b m2 (Mark X))) Tie);
      [intros [= <-]; lia|].
    intros Hz.
    apply (later_value_at n false (0 + 1) (set_cell b m2 (Mark X))) in Hz;
      [lia|by rewrite set_cell_length|lia|lia].
  - destruct (fold_min_elem
                (fun move => game_value (length (get_available_moves b))
                               (0 + 1) true (set_cell b move (Mark O)))
                (get_available_moves b) PosInf) as [->|(m2 & Hin & ->)];
      [done|].
    pose proof (available_after_move b m2 O Hlen Hin) as Hlt.
    pose proof (Hquiet m2 Hin) as Hq. unfold wins_at in Hq.
    destruct (length (get_available_moves b)) as [|n]; [lia|].
    cbn [game_value]. cbv zeta. rewrite Hq.
    destruct (winner_is (check_winner (set_cell b m2 (Mark O))) (Win X));
      [intros [= <-]; lia|].
    destruct (winner_is (check_winner (set_cell b m2 (Mark O))) Tie);
      [intros [= <-]; lia|].
    intros Hz.
    apply (later_value_at n true (0 + 1) (set_cell b m2 (Mark O))) in Hz;
      [lia|by rewrite set_cell_length|lia|lia].
Qed.

(** After a move that does not win, the game is over only by a tie. *)
Lemma not_won_after b p m :
  length b = 9%nat → check_winner b = None → m ∈ get_available_moves b →
  wins_at p b m = false →
  winner_is (check_winner (set_cell b m (Mark p))) (Win (opponent_of p)) = false
  ∧ (Blank ∈ set_cell b m (Mark p) →
     check_winner (set_cell b m (Mark p)) = None).
Proof.
  intros Hlen Hopen Hin Hwin. unfold wins_at in Hwin.
  apply is_valid_move_available in Hin as Hvalid.
  destruct (check_winner (set_cell b m (Mark p))) as [[c|]|] eqn:E.
  - rewrite (winner_is_mover b p m c Hlen Hopen Hvalid E) in Hwin.
    destruct p; simpl in Hwin; done.
  - split; [done|]. intros Hblank. by apply check_winner_tie in E as [_ ?].
  - done.
Qed.

End Blocks.

(** X27. The search does not hand over a win in one move. On a nine-cell
    board on which the game is not over, when some free cell leaves the
    opponent without a cell that completes a line at once, the cell
    [get_best_move] returns either completes a line for the player who asks
    or also leaves the opponent without one; so a single threat is
    blocked unless the player can win first. *)
Theorem get_best_move_blocks (p : player) (b : Board) (m0 : Z) :
  length b = 9%nat → check_winner b = None →
  m0 ∈ get_available_moves b →
  (∀ m2, m2 ∈ get_available_moves (set_cell b m0 (Mark p)) →
         wins_at (opponent_of p) (set_cell b m0 (Mark p)) m2 = false) →
  ∃ m,
    get_best_move p b = Some (m, b)
    ∧ m ∈ get_available_moves b
    ∧ (wins_at p b m = true
       ∨ ∀ m2, m2 ∈ get_available_moves (set_cell b m (Mark p)) →
               wins_at (opponent_of p) (set_cell b m (Mark p)) m2 = false).
Proof.
  intros Hlen Hopen Hin0 Hsafe0.
  pose proof Hopen as [_ Hblank]%check_winner_none.
  destruct (best_move_value p b Hlen Hblank) as (m & z & Hrun & Hin & Hz & Hbest).
  exists m. split; [done|]. split; [done|].
  destruct (Hbest m0 Hin0) as (z0 & Hz0 & Hle). cbv zeta in Hz, Hz0.
  assert (player_eqb (opponent_of p) X = player_eqb p O) as Hside
    by (by destruct p).
  assert (match p with X => -8 ≤ z0 | O => z0 ≤ 8 end) as Hz0bound.
  { destruct (wins_at p b m0) eqn:Ew0.
    - destruct (candidate_value_win p b m0 Hlen) as (y & Hy & _ & Hwin & _).
      rewrite Hz0 in Hy. injection Hy as <-. specialize (Hwin Ew0).
      destruct p; lia.
    - destruct (not_won_after b p m0 Hlen Hopen Hin0 Ew0) as [Hnot _].
      destruct (quiet_value (opponent_of p) (set_cell b m0 (Mark p)))
        as (y & Hy & Hbound); [by rewrite set_cell_length|done|done|].
      rewrite Hside, Hz0 in Hy. injection Hy as <-. by destruct p. }
  destruct (wins_at p b m) eqn:Ew; [by left|right].
  intros m2 Hin2.
  destruct (wins_at (opponent_of p) (set_cell b m (Mark p)) m2) eqn:Ethreat;
    [exfalso|done].
  destruct (not_won_after b p m Hlen Hopen Hin Ew) as [_ Hgoes].
  assert (Blank ∈ set_cell b m (Mark p)) as Hblank'.
  { apply available_spec in Hin2 as [Hr Hc]. unfold cell_at in Hc.
    destruct (set_cell b m (Mark p) !! Z.to_nat m2) as [c|] eqn:E.
    - simpl in Hc. subst c. by eapply list_elem_of_lookup_2.
    - apply lookup_ge_None in E. rewrite set_cell_length in E. lia. }
  destruct (threat_value (opponent_of p) (set_cell b m (Mark p)) m2)
    as (y & Hy & Hbound); [by rewrite set_cell_length|by apply Hgoes|done..|].
  rewrite Hside, Hz in Hy. injection Hy as <-.
  destruct p; cbn [opponent_of player_eqb] in Hbound; lia.
Qed.

Lemma get_best_move_blocks_witness :
  ∃ m,
    get_best_move O one_threat_board = Some (m, one_threat_board)
    ∧ m ∈ get_available_moves one_threat_board
    ∧ (wins_at O one_threat_board m = true
       ∨ ∀ m2, m2 ∈ get_available_moves (set_cell one_threat_board m (Mark O)) →
               wins_at (opponent_of O) (set_cell one_threat_board m (Mark O)) m2
               = false).
Proof.
  apply (get_best_move_blocks O one_threat_board 2).
  - reflexivity.
  - reflexivity.
  - apply (bool_decide_unpack _). reflexivity.
  - apply Forall_forall. apply (bool_decide_unpack _). vm_compute.
    reflexivity.
Defined.

(** ** The depth of the search and the plies of a game *)

Section LineFacts.

Implicit Types (b t : Board) (m d z : Z) (s : ext) (line : list Z).

Lemma not_finished b :
  winner_is (check_winner b) (Win X) = false →
  winner_is (check_winner b) (Win O) = false →
  winner_is (check_winner b) Tie = false →
  check_winner b = None.
Proof.
  intros EX EO ET. destruct (check_winner b) as [[c|]|] eqn:E; [|done|done].
  apply check_winner_won in E as (q & combo & -> & _).
  destruct q; simpl in *; congruence.
Qed.

Lemma max_loop_elem search moves s0 alpha beta b s b' :
  restores search →
  Forall (fun m => cell_at b m = Blank) moves →
  max_loop search moves s0 alpha beta b = Some (s, b') →
  s = s0
  ∨ ∃ m a, m ∈ moves
      ∧ search a beta (set_cell b m (Mark X)) = Some (s, set_cell b m (Mark X)).
Proof.
  intros Hsearch Hblank.
  revert s0 alpha. induction Hblank as [|m rest Hm _ IH]; intros s0 alpha; simpl.
  - intros [= <- _]. by left.
  - destruct (search alpha beta (set_cell b m (Mark X))) as [[e b1]|] eqn:E;
      simpl; [|done].
    pose proof (Hsearch _ _ _ _ _ E) as ->.
    rewrite set_cell_restore by done.
    assert (ext_max s0 e = s0 ∨ ext_max s0 e = e) as Hmax
      by (unfold ext_max; destruct (ext_ltb s0 e); auto).
    assert (∀ r, r = ext_max s0 e →
              r = s0 ∨ ∃ m' a, m' ∈ m :: rest
                ∧ search a beta (set_cell b m' (Mark X))
                  = Some (r, set_cell b m' (Mark X))) as Hhere.
    { intros r ->. destruct Hmax as [->| ->]; [by left|right].
      exists m, alpha. split; [left|done]. }
    destruct (ext_leb beta (ext_max alpha e)).
    + intros [= <- _]. by apply Hhere.
    + intros H. apply IH in H as [->|(m' & a & Hin & H)]; [by apply Hhere|].
      right. exists m', a. split; [by right|done].
Qed.

Lemma min_loop_elem search moves s0 alpha beta b s b' :
  restores search →
  Forall (fun m => cell_at b m = Blank) moves →
  min_loop search moves s0 alpha beta b = Some (s, b') →
  s = s0
  ∨ ∃ m c, m ∈ moves
      ∧ search alpha c (set_cell b m (Mark O)) = Some (s, set_cell b m (Mark O)).
Proof.
  intros Hsearch Hblank.
  revert s0 beta. induction Hblank as [|m rest Hm _ IH]; intros s0 beta; simpl.
  - intros [= <- _]. by left.
  - destruct (search alpha beta (set_cell b m (Mark O))) as [[e b1]|] eqn:E;
      simpl; [|done].
    pose proof (Hsearch _ _ _ _ _ E) as ->.
    rewrite set_cell_restore by done.
    assert (ext_min s0 e = s0 ∨ ext_min s0 e = e) as Hmin
      by (unfold ext_min; destruct (ext_ltb e s0); auto).
    assert (∀ r, r = ext_min s0 e →
              r = s0 ∨ ∃ m' c, m' ∈ m :: rest
                ∧ search alpha c (set_cell b m' (Mark O))
                  = Some (r, set_cell b m' (Mark O))) as Hhere.
    { intros r ->. destruct Hmin as [->| ->]; [by left|right].
      exists m, beta. split; [left|done]. }
    destruct (ext_leb (ext_min beta e) alpha).
    + intros [= <- _]. by apply Hhere.
    + intros H. apply IH in H as [->|(m' & c & Hin & H)]; [by apply Hhere|].
      right. exists m', c. split; [by right|done].
Qed.

(** Whatever the bounds, the score the search returns is the score of the
    end of a line of play. *)
Lemma minimax_line fuel d is_maximizing alpha beta b :
  length b = 9%nat → (length (get_available_moves b) < fuel)%nat →
  ∃ z line t w,
    minimax fuel d is_maximizing alpha beta b = Some (Fin z, b)
    ∧ play_line is_maximizing line b = Some t
    ∧ check_winner t = Some w
    ∧ scored w (d + Z.of_nat (length line)) z
    ∧ (length line ≤ length (get_available_moves b))%nat.
Proof.
  revert d is_maximizing alpha beta b.
  induction fuel as [|fuel IH]; intros d im alpha beta b Hlen Hfuel; [lia|].
  destruct (minimax_total (S fuel) d im alpha beta b Hlen Hfuel) as [z Hz].
  exists z. revert Hz. cbn [minimax]. cbv zeta.
  destruct (winner_is (check_winner b) (Win X)) eqn:EX.
  { intros [= <-]. exists [], b, (Win X). split; [done|]. split; [done|].
    split; [|split; [simpl; lia|simpl; lia]].
    destruct (check_winner b) as [[[|[|]]|]|]; done. }
  destruct (winner_is (check_winner b) (Win O)) eqn:EO.
  { intros [= <-]. exists [], b, (Win O). split; [done|]. split; [done|].
    split; [|split; [simpl; lia|simpl; lia]].
    destruct (check_winner b) as [[[|[|]]|]|]; done. }
  destruct (winner_is (check_winner b) Tie) eqn:ET.
  { intros [= <-]. exists [], b, Tie. split; [done|]. split; [done|].
    split; [|split; [simpl; lia|simpl; lia]].
    destruct (check_winner b) as [[[|[|]]|]|]; done. }
  pose proof (not_finished b EX EO ET) as Hopen.
  assert (∀ p m, m ∈ get_available_moves b →
            ∀ a c, ∃ z' line t w,
              minimax fuel (d + 1) (negb im) a c (set_cell b m (Mark p))
              = Some (Fin z', set_cell b m (Mark p))
              ∧ play_line (negb im) line (set_cell b m (Mark p)) = Some t
              ∧ check_winner t = Some w
              ∧ scored w (d + 1 + Z.of_nat (length line)) z'
              ∧ (length line
                 ≤ length (get_available_moves (set_cell b m (Mark p))))%nat)
    as Hchild.
  { intros p m Hin a c. apply IH; [by rewrite set_cell_length|].
    pose proof (available_after_move b m p Hlen Hin). lia. }
  assert (∀ p m line t w z',
            p = (if im then X else O) → m ∈ get_available_moves b →
            play_line (negb im) line (set_cell b m (Mark p)) = Some t →
            check_winner t = Some w →
            scored w (d + 1 + Z.of_nat (length line)) z' →
            (length line
             ≤ length (get_available_moves (set_cell b m (Mark p))))%nat →
            ∃ line' t' w',
              play_line im line' b = Some t'
              ∧ check_winner t' = Some w'
              ∧ scored w' (d + Z.of_nat (length line')) z'
              ∧ (length line' ≤ length (get_available_moves b))%nat) as Hup.
  { intros p m line t w z' -> Hin Hline Hw Hs Hle.
    exists (m :: line), t, w. cbn [play_line length]. rewrite Hopen.
    rewrite bool_decide_eq_true_2 by done. split; [done|]. split; [done|].
    split; [by replace (d + Z.of_nat (S (length line)))
                 with (d + 1 + Z.of_nat (length line)) by lia|].
    pose proof (available_after_move b m (if im then X else O) Hlen Hin). lia. }
  destruct im; cbn [negb] in Hchild, Hup; intros Hrun; pose proof Hrun as Hrun0.
  - apply max_loop_elem in Hrun as [?|(m & a & Hin & Hrun)];
      [done| |intros ? ? ? ? ?; apply minimax_board|apply available_blank].
    destruct (Hchild X m Hin a beta) as (z' & line & t & w & Hz' & Hrest).
    rewrite Hz' in Hrun. injection Hrun as <-.
    destruct Hrest as (Hl & Hw & Hs & Hle).
    destruct (Hup X m line t w z' eq_refl Hin Hl Hw Hs Hle)
      as (line' & t' & w' & H). exists line', t', w'. split; [exact Hrun0|exact H].
  - apply min_loop_elem in Hrun as [?|(m & c & Hin & Hrun)];
      [done| |intros ? ? ? ? ?; apply minimax_board|apply available_blank].
    destruct (Hchild O m Hin alpha c) as (z' & line & t & w & Hz' & Hrest).
    rewrite Hz' in Hrun. injection Hrun as <-.
    destruct Hrest as (Hl & Hw & Hs & Hle).
    destruct (Hup O m line t w z' eq_refl Hin Hl Hw Hs Hle)
      as (line' & t' & w' & H). exists line', t', w'. split; [exact Hrun0|exact H].
Qed.


Lemma play_line_nil im line b t :
  play_line im line b = Some t → check_winner b ≠ None → line = [] ∧ t = b.
Proof.
  destruct line as [|m rest]; simpl; [by intros [= ->]|].
  destruct (check_winner b); [done|]. by intros _ [].
Qed.

(** The score of a board on which the game goes on is the best of the scores
    of the boards one move away, searched one deeper. *)
Lemma minimax_step fuel d (is_maximizing : bool) b :
  length b = 9%nat → (length (get_available_moves b) < fuel)%nat →
  check_winner b = None →
  let child m := set_cell b m (Mark (if is_maximizing then X else O)) in
  ∃ z,
    minimax fuel d is_maximizing NegInf PosInf b = Some (Fin z, b)
    ∧ (∀ m, m ∈ get_available_moves b →
         ∃ z', minimax fuel (d + 1) (negb is_maximizing) NegInf PosInf (child m)
               = Some (Fin z', child m)
           ∧ if is_maximizing then z' ≤ z else z ≤ z')
    ∧ (∃ m, m ∈ get_available_moves b
         ∧ minimax fuel (d + 1) (negb is_maximizing) NegInf PosInf (child m)
           = Some (Fin z, child m)).
Proof.
  intros Hlen Hfuel Hopen child.
  destruct fuel as [|fuel]; [lia|].
  destruct (game_value_fin (S fuel) d is_maximizing b Hlen Hfuel) as [z Hz].
  exists z. split; [by rewrite minimax_plain, Hz|].
  assert (∀ m, m ∈ get_available_moves b →
            length (child m) = 9%nat
            ∧ (length (get_available_moves (child m)) < fuel)%nat) as Hc.
  { intros m Hin. unfold child. split; [by rewrite set_cell_length|].
    pose proof (available_after_move b m (if is_maximizing then X else O)
                  Hlen Hin). lia. }
  assert (∀ m, m ∈ get_available_moves b →
            minimax (S fuel) (d + 1) (negb is_maximizing) NegInf PosInf (child m)
            = Some (game_value fuel (d + 1) (negb is_maximizing) (child m),
                    child m)) as Hm.
  { intros m Hin. destruct (Hc m Hin) as [H1 H2].
    rewrite minimax_plain by (done || lia).
    by rewrite (game_value_fuel fuel (S fuel)) by (done || lia). }
  assert (∀ m, m ∈ get_available_moves b →
            ∃ z', game_value fuel (d + 1) (negb is_maximizing) (child m)
                  = Fin z') as Hfin.
  { intros m Hin. destruct (Hc m Hin) as [H1 H2]. by apply game_value_fin. }
  revert Hz. cbn [game_value]. rewrite Hopen. cbn [winner_is].
  subst child. destruct is_maximizing; cbn [negb] in *; intros Hz.
  - split.
    + intros m Hin. destruct (Hfin m Hin) as [z' Hz'].
      exists z'. split; [by rewrite Hm, Hz'|].
      pose proof (fold_max_ge_elem
                    (fun move => game_value fuel (d + 1) false
                                   (set_cell b move (Mark X)))
                    (get_available_moves b) NegInf m Hin) as Hle.
      cbv beta in Hle. rewrite Hz, Hz' in Hle.
      unfold ext_leb, ext_ltb in Hle. apply negb_true_iff, Z.ltb_ge in Hle. lia.
    + destruct (fold_max_elem
                  (fun move => game_value fuel (d + 1) false
                                 (set_cell b move (Mark X)))
                  (get_available_moves b) NegInf) as [H|(m & Hin & H)];
        [congruence|].
      exists m. split; [done|]. rewrite Hm by done. by rewrite <- H, Hz.
  - split.
    + intros m Hin. destruct (Hfin m Hin) as [z' Hz'].
      exists z'. split; [by rewrite Hm, Hz'|].
      pose proof (fold_min_le_elem
                    (fun move => game_value fuel (d + 1) true
                                   (set_cell b move (Mark O)))
                    (get_available_moves b) PosInf m Hin) as Hle.
      cbv beta in Hle. rewrite Hz, Hz' in Hle.
      unfold ext_leb, ext_ltb in Hle. apply negb_true_iff, Z.ltb_ge in Hle. lia.
    + destruct (fold_min_elem
                  (fun move => game_value fuel (d + 1) true
                                 (set_cell b move (Mark O)))
                  (get_available_moves b) PosInf) as [H|(m & Hin & H)];
        [congruence|].
      exists m. split; [done|]. rewrite Hm by done. by rewrite <- H, Hz.
Qed.

(** A win in one move has the best score there is at its depth, and nothing
    else has it. *)
Lemma minimax_fastest fuel d (is_maximizing : bool) b :
  length b = 9%nat → (length (get_available_moves b) < fuel)%nat →
  check_winner b = None →
  d + Z.of_nat (length (get_available_moves b)) ≤ 9 →
  ∃ z,
    minimax fuel d is_maximizing NegInf PosInf b = Some (Fin z, b)
    ∧ if is_maximizing
      then z ≤ 9 - d
           ∧ (z = 9 - d ↔ ∃ m, m ∈ get_available_moves b ∧ wins_at X b m = true)
      else d - 9 ≤ z
           ∧ (z = d - 9 ↔ ∃ m, m ∈ get_available_moves b ∧ wins_at O b m = true).
Proof.
  intros Hlen Hfuel Hopen Hfree.
  destruct (minimax_step fuel d is_maximizing b Hlen Hfuel Hopen)
    as (z & Hz & Hall & (m & Hin & Hm)).
  exists z. split; [done|].
  pose proof (available_after_move b m (if is_maximizing then X else O) Hlen Hin)
    as Hlt.
  destruct (minimax_line fuel (d + 1) (negb is_maximizing) NegInf PosInf
              (set_cell b m (Mark (if is_maximizing then X else O))))
    as (z' & line & t & w & Hz' & Hline & Hw & Hs & Hle);
    [by rewrite set_cell_length|lia|].
  rewrite Hm in Hz'. injection Hz' as <-.
  assert (∀ p m0, p = (if is_maximizing then X else O) →
            m0 ∈ get_available_moves b → wins_at p b m0 = true →
            ∃ z0, minimax fuel (d + 1) (negb is_maximizing) NegInf PosInf
                    (set_cell b m0 (Mark p))
                  = Some (Fin z0, set_cell b m0 (Mark p))
              ∧ z0 = match p with X => 10 - (d + 1) | O => d + 1 - 10 end)
    as Hwin.
  { intros p m0 -> Hin0 Hw0. unfold wins_at in Hw0.
    destruct fuel as [|fuel]; [lia|]. cbn [minimax]. cbv zeta.
    destruct is_maximizing.
    - rewrite Hw0. by eexists.
    - assert (winner_is (check_winner (set_cell b m0 (Mark O))) (Win X) = false)
        as ->.
      { destruct (check_winner (set_cell b m0 (Mark O))) as [[[|[|]]|]|];
          simpl in *; done. }
      rewrite Hw0. by eexists. }
  assert (line = [] → wins_at (if is_maximizing then X else O) b m
                      = winner_is (Some w) (Win (if is_maximizing then X else O)))
    as Hnil.
  { intros ->. simpl in Hline. injection Hline as <-. unfold wins_at.
    by rewrite Hw. }
  destruct is_maximizing; cbn [negb] in *.
  - assert (z ≤ 9 - d) as Hle9.
    { destruct w as [[|[|]]|]; simpl in Hs; [done|lia..]. }
    split; [done|]. split.
    + intros ->. exists m. split; [done|].
      destruct w as [[|[|]]|]; simpl in Hs; [done| |lia|lia].
      destruct line; [by rewrite Hnil|simpl in Hs; lia].
    + intros (m0 & Hin0 & Hw0).
      destruct (Hwin X m0 eq_refl Hin0 Hw0) as (z0 & Hz0 & ->).
      destruct (Hall m0 Hin0) as (z1 & Hz1 & Hle1).
      rewrite Hz0 in Hz1. injection Hz1 as <-. lia.
  - assert (d - 9 ≤ z) as Hge9.
    { destruct w as [[|[|]]|]; simpl in Hs; [done|lia..]. }
    split; [done|]. split.
    + intros ->. exists m. split; [done|].
      destruct w as [[|[|]]|]; simpl in Hs; [done|lia| |lia].
      destruct line; [by rewrite Hnil|simpl in Hs; lia].
    + intros (m0 & Hin0 & Hw0).
      destruct (Hwin O m0 eq_refl Hin0 Hw0) as (z0 & Hz0 & ->).
      destruct (Hall m0 Hin0) as (z1 & Hz1 & Hle1).
      rewrite Hz0 in Hz1. injection Hz1 as <-. lia.
Qed.

End LineFacts.

(** C3. The search scores a finished game by the plies played since its
    root. On a nine-cell board [b] searched at depth [depth] (0 in the call
    of [get_best_move]): when the game is over on [b] the score is
    [10 - depth] for a win of X, [depth - 10] for a win of O and [0] for a
    tie, whatever the bounds; when the game goes on, the score with the
    default bounds is the greatest (X to move) or least (O to move) of the
    scores of the boards one move away, each searched at [depth + 1] with
    the other side to move. So whatever the bounds, the score returned is
    that of the finished game at the end of a line of legal play from
    [b], counted with [depth] plus the number of plies of the line. A
    faster win scores higher: as long as [depth] plus the free cells is at
    most 9, the score with the default bounds is [9 - depth] for X to move
    and [depth - 9] for O to move exactly when the side to move can win
    in one move, and strictly worse for that side otherwise. The score
    [get_best_move] obtains for a candidate counts the plies from 0 on the
    board with the candidate written. *)
Theorem minimax_terminal_scoring (fuel : nat) (depth : Z)
    (is_maximizing : bool) (b : Board) :
  length b = 9%nat → (length (get_available_moves b) < fuel)%nat →
  (∀ alpha beta,
     (check_winner b = Some (Win X) →
      minimax fuel depth is_maximizing alpha beta b
      = Some (Fin (10 - depth), b))
     ∧ (check_winner b = Some (Win O) →
        minimax fuel depth is_maximizing alpha beta b
        = Some (Fin (depth - 10), b))
     ∧ (check_winner b = Some Tie →
        minimax fuel depth is_maximizing alpha beta b = Some (Fin 0, b)))
  ∧ (check_winner b = None →
     let child m := set_cell b m (Mark (if is_maximizing then X else O)) in
     ∃ z,
       minimax fuel depth is_maximizing NegInf PosInf b = Some (Fin z, b)
       ∧ (∀ m, m ∈ get_available_moves b →
            ∃ z', minimax fuel (depth + 1) (negb is_maximizing) NegInf PosInf
                    (child m) = Some (Fin z', child m)
              ∧ if is_maximizing then z' ≤ z else z ≤ z')
       ∧ (∃ m, m ∈ get_available_moves b
            ∧ minimax fuel (depth + 1) (negb is_maximizing) NegInf PosInf
                (child m) = Some (Fin z, child m)))
  ∧ (∀ alpha beta, ∃ z line t w,
       minimax fuel depth is_maximizing alpha beta b = Some (Fin z, b)
       ∧ play_line is_maximizing line b = Some t
       ∧ check_winner t = Some w
       ∧ scored w (depth + Z.of_nat (length line)) z)
  ∧ (check_winner b = None →
     depth + Z.of_nat (length (get_available_moves b)) ≤ 9 →
     ∃ z,
       minimax fuel depth is_maximizing NegInf PosInf b = Some (Fin z, b)
       ∧ if is_maximizing
         then z ≤ 9 - depth
              ∧ (z = 9 - depth
                 ↔ ∃ m, m ∈ get_available_moves b ∧ wins_at X b m = true)
         else depth - 9 ≤ z
              ∧ (z = depth - 9
                 ↔ ∃ m, m ∈ get_available_moves b ∧ wins_at O b m = true))
  ∧ (∀ p m, m ∈ get_available_moves b →
       ∃ z line t w,
         candidate_score p b m = Some (Fin z)
         ∧ play_line (player_eqb p O) line (set_cell b m (Mark p)) = Some t
         ∧ check_winner t = Some w
         ∧ scored w (Z.of_nat (length line)) z).
Proof.
  intros Hlen Hfuel. split; [|split; [|split; [|split]]].
  - intros alpha beta. destruct fuel as [|fuel]; [lia|]. apply minimax_terminal.
  - intros Hopen. by apply minimax_step.
  - intros alpha beta.
    destruct (minimax_line fuel depth is_maximizing alpha beta b Hlen Hfuel)
      as (z & line & t & w & H1 & H2 & H3 & H4 & _).
    by exists z, line, t, w.
  - intros Hopen Hfree. by apply minimax_fastest.
  - intros p m Hin. unfold candidate_score. cbv zeta.
    destruct (minimax_line (search_fuel (set_cell b m (Mark p))) 0
                (player_eqb p O) NegInf PosInf (set_cell b m (Mark p)))
      as (z & line & t & w & H1 & H2 & H3 & H4 & _);
      [by rewrite set_cell_length|unfold search_fuel; lia|].
    exists z, line, t, w. rewrite H1. by rewrite Z.add_0_l in H4.
Qed.

Lemma minimax_terminal_scoring_witness :
  minimax 6 0 true NegInf PosInf top_row_open = Some (Fin 9, top_row_open).
Proof.
  destruct (minimax_terminal_scoring 6 0 true top_row_open eq_refl)
    as (_ & _ & _ & H & _).
  { vm_compute. lia. }
  destruct H as (z & Hz & _ & Hiff); [reflexivity|by vm_compute|].
  rewrite Hz. f_equal. f_equal. f_equal. apply Hiff.
  exists 2. split; [|reflexivity].
  apply (bool_decide_unpack _). reflexivity.
Defined.

(** X23. What a score of the search means. On a nine-cell board [minimax]
    with its default bounds returns the value of plain minimax, and that
    integer is the score of a finished game reached from the board by a
    line of legal play: [10] minus the depth at which X has won there, that
    depth minus [10] when O has won there, [0] for a tie, the depth being
    the depth of the call plus the plies of the line, which are at most
    the free cells. As long as the depth of the call plus the free cells
    is at most 9, as in every call [get_best_move] makes, the score is
    positive exactly for a win of X, negative exactly for a win of O and
    0 exactly for a tie. *)
Theorem minimax_score_meaning (fuel : nat) (depth : Z) (is_maximizing : bool)
    (b : Board) :
  length b = 9%nat → (length (get_available_moves b) < fuel)%nat →
  ∃ z line t w,
    minimax fuel depth is_maximizing NegInf PosInf b = Some (Fin z, b)
    ∧ game_value fuel depth is_maximizing b = Fin z
    ∧ play_line is_maximizing line b = Some t
    ∧ (length line ≤ length (get_available_moves b))%nat
    ∧ check_winner t = Some w
    ∧ scored w (depth + Z.of_nat (length line)) z
    ∧ (depth + Z.of_nat (length (get_available_moves b)) ≤ 9 →
       (0 < z ↔ w = Win X) ∧ (z < 0 ↔ w = Win O) ∧ (z = 0 ↔ w = Tie)).
Proof.
  intros Hlen Hfuel.
  destruct (minimax_line fuel depth is_maximizing NegInf PosInf b Hlen Hfuel)
    as (z & line & t & w & Hz & Hline & Hw & Hs & Hle).
  exists z, line, t, w. split; [done|]. split.
  { rewrite minimax_plain in Hz by done. congruence. }
  split; [done|]. split; [done|]. split; [done|]. split; [done|].
  intros Hfree.
  destruct w as [[|[|]]|]; simpl in Hs; [done|..];
    (split; [|split]); split; intros ?; try done; try lia; exfalso; lia.
Qed.

Lemma minimax_score_meaning_witness :
  ∃ z line t w,
    minimax 6 0 false NegInf PosInf top_row_open = Some (Fin z, top_row_open)
    ∧ play_line false line top_row_open = Some t
    ∧ check_winner t = Some w
    ∧ scored w (0 + Z.of_nat (length line)) z.
Proof.
  destruct (minimax_score_meaning 6 0 false top_row_open)
    as (z & line & t & w & H1 & _ & H2 & _ & H3 & H4 & _).
  - reflexivity.
  - vm_compute. lia.
  - exists z, line, t, w. split; [exact H1|]. split; [exact H2|].
    split; [exact H3|exact H4].
Defined.
